(** * Compis front-end: scope stack, scanner, type ids and Pratt parser

    A shallow embedding of [src/scope.c], [src/scanner.c], [src/typeid.c],
    [src/universe.c] and [src/parser.c], followed by the properties of the
    specification that were checked against it.

    Conventions.
    - C integers are [Z] with the wrap-around written out ([u32], [u64]).
    - Pointers to AST nodes are [Z] addresses into an arena; [0] is [NULL].
    - Symbols are interned strings: pointer equality of symbols is equality
      of their bytes, so a symbol is its [string].
    - Arrays written through an index are lists; an access outside the array
      is undefined behaviour in C and is a distinguished failure here. *)

From Stdlib Require Import ZArith List String Ascii Bool Lia.
From stdpp Require Import base tactics option list gmap strings.

Local Open Scope Z_scope.

(** ** Machine integers *)

Definition u32 (z : Z) : Z := z mod 2^32.
Definition u64 (z : Z) : Z := z mod 2^64.
Definition u8 (z : Z) : Z := z mod 2^8.

Definition is_u32 (z : Z) : Prop := 0 <= z < 2^32.

(** ** [src/scope.c] *)

Module Scope.

(** [scope_t]: [ptr] is the slot array ([void*] words), [cap] its capacity,
    [len] the number of used slots and [base] the index of the slot that
    saves the enclosing scope's base. *)
Record scope_t := mk_scope {
  ptr : list Z;
  cap : Z;
  len : Z;
  base : Z
}.

(** Reading and writing [s->ptr[i]]; [None] is an access outside the array. *)
Definition slot_get (p : list Z) (i : Z) : option Z :=
  if (0 <=? i) && (i <? Z.of_nat (length p)) then p !! Z.to_nat i else None.

Definition slot_set (p : list Z) (i v : Z) : option (list Z) :=
  if (0 <=? i) && (i <? Z.of_nat (length p)) then Some (<[Z.to_nat i := v]> p) else None.

Definition scope_clear (s : scope_t) : scope_t :=
  mk_scope (ptr s) (cap s) 0 0.

(** [scope_istoplevel] is declared in a header that is not part of the
    sources at hand; the specification (4.3) gives it as [base == 0]. *)
Definition scope_istoplevel (s : scope_t) : bool := base s =? 0.

Section WithAllocator.

(** [mem_resizev ma ptr oldcount newcount sizeof(void* )] of the allocator:
    [None] is the [NULL] it returns when it fails. *)
Variable mem_resizev : list Z -> Z -> Z -> option (list Z).

Definition scope_grow (s : scope_t) : bool * scope_t :=
  let initcap := 4 in
  let newcap := u32 ((cap s + (initcap / 2) * (if cap s =? 0 then 1 else 0)) * 2) in
  match mem_resizev (ptr s) (cap s) newcap with
  | None => (false, s)
  | Some newptr => (true, mk_scope newptr newcap (len s) (base s))
  end.

(** The operations return [None] when the C code would write or read outside
    [ptr]; otherwise the C result together with the updated scope. *)
Definition scope_push (s : scope_t) : option (bool * scope_t) :=
  let '(ok, s1) :=
    if len s >=? cap s then scope_grow s else (true, s) in
  if negb ok then Some (false, s1)
  else
    match slot_set (ptr s1) (len s1) (base s1) with
    | None => None
    | Some p' => Some (true, mk_scope p' (cap s1) (u32 (len s1 + 1)) (len s1))
    end.

Definition scope_pop (s : scope_t) : option scope_t :=
  let len' := base s in
  match slot_get (ptr s) len' with
  | None => None
  | Some b => Some (mk_scope (ptr s) (cap s) len' (u32 b))
  end.

Definition scope_def (s : scope_t) (key value : Z) : option (bool * scope_t) :=
  let '(ok, s1) :=
    if u32 (cap s - len s) <? 2 then scope_grow s else (true, s) in
  if negb ok then Some (false, s1)
  else
    match slot_set (ptr s1) (len s1) value with
    | None => None
    | Some p1 =>
      match slot_set p1 (u32 (len s1 + 1)) key with
      | None => None
      | Some p2 => Some (true, mk_scope p2 (cap s1) (u32 (len s1 + 2)) (base s1))
      end
    end.

End WithAllocator.

(** The loop of [scope_lookup]; [i] is the value of the loop variable before
    the test [i-- > 1].  Every turn lowers [i], so [fuel] = [i] is enough. *)
Fixpoint lookup_loop (fuel : nat) (p : list Z) (key : Z) (i base maxdepth : Z)
  : option Z :=
  match fuel with
  | O => Some 0
  | S fuel' =>
    if i >? 1 then
      let i := i - 1 in
      if i =? base then
        if maxdepth =? 0 then Some 0
        else
          match slot_get p i with
          | None => None
          | Some b => lookup_loop fuel' p key i (u32 b) (maxdepth - 1)
          end
      else
        match slot_get p i with
        | None => None
        | Some k =>
          let i := i - 1 in
          if k =? key then slot_get p i
          else lookup_loop fuel' p key i base maxdepth
        end
    else Some 0
  end.

(** [scope_lookup]: [Some 0] is [NULL] (not found), [None] an access outside
    the array. *)
Definition scope_lookup (s : scope_t) (key maxdepth : Z) : option Z :=
  lookup_loop (Z.to_nat (len s)) (ptr s) key (len s) (base s) maxdepth.

(** A sequence of [scope_def] calls, each of which succeeds. *)
Fixpoint scope_defs (mem_resizev : list Z -> Z -> Z -> option (list Z))
    (s : scope_t) (kvs : list (Z * Z)) : option scope_t :=
  match kvs with
  | [] => Some s
  | (k, v) :: kvs' =>
    match scope_def mem_resizev s k v with
    | Some (true, s') => scope_defs mem_resizev s' kvs'
    | _ => None
    end
  end.

(** The representation invariant of [scope_t]. *)
Definition wf (s : scope_t) : Prop :=
  is_u32 (cap s) /\ is_u32 (base s) /\ 0 <= len s <= cap s /\
  Z.of_nat (length (ptr s)) = cap s.

(** What a successful [mem_resizev] guarantees: an array of the requested
    size that keeps the old contents. *)
Definition resize_ok (mem_resizev : list Z -> Z -> Z -> option (list Z)) : Prop :=
  forall p old new p', mem_resizev p old new = Some p' ->
    Z.of_nat (length p') = new /\
    forall (i : nat) (v : Z), Z.of_nat i < old -> Z.of_nat i < new ->
      p !! i = Some v -> p' !! i = Some v.

(** An allocator that zero-fills and fails only for an empty request. *)
Definition resize_zero (p : list Z) (old new : Z) : option (list Z) :=
  if 0 <? new then Some (take (Z.to_nat new) (p ++ replicate (Z.to_nat new) 0))
  else None.

End Scope.

(** ** Tokens, source locations and diagnostics *)

(** [tok_t].  The header that lists the tokens ([tokens.h]) is not part of
    the sources at hand; the constructors are the token names that
    [scanner.c] and [parser.c] use. *)
Inductive tok_t :=
  | TEOF | TSEMI
  | TLPAREN | TRPAREN | TLBRACE | TRBRACE | TLBRACK | TRBRACK
  | TCOMMA | TDOT | TDOTDOT | TDOTDOTDOT | TCOLON | THASH | TQUESTION
  | TPLUS | TMINUS | TSTAR | TSLASH | TPERCENT
  | TAND | TOR | TXOR | TTILDE | TNOT
  | TLT | TGT | TLTEQ | TGTEQ | TEQ | TNEQ
  | TSHL | TSHR | TANDAND | TOROR | TPLUSPLUS | TMINUSMINUS
  | TASSIGN | TMULASSIGN | TDIVASSIGN | TMODASSIGN | TADDASSIGN | TSUBASSIGN
  | TSHLASSIGN | TSHRASSIGN | TANDASSIGN | TXORASSIGN | TORASSIGN
  | TID | TINTLIT | TFLOATLIT
  | TFUN | TTYPE | TLET | TVAR | TIF | TELSE | TFOR | TRETURN | TMUT.

(** The position of a token in the table; used to compare tokens. *)
Definition tok_code (t : tok_t) : Z :=
  match t with
  | TEOF => 0 | TSEMI => 1
  | TLPAREN => 2 | TRPAREN => 3 | TLBRACE => 4 | TRBRACE => 5
  | TLBRACK => 6 | TRBRACK => 7
  | TCOMMA => 8 | TDOT => 9 | TDOTDOT => 10 | TDOTDOTDOT => 11
  | TCOLON => 12 | THASH => 13 | TQUESTION => 14
  | TPLUS => 15 | TMINUS => 16 | TSTAR => 17 | TSLASH => 18 | TPERCENT => 19
  | TAND => 20 | TOR => 21 | TXOR => 22 | TTILDE => 23 | TNOT => 24
  | TLT => 25 | TGT => 26 | TLTEQ => 27 | TGTEQ => 28 | TEQ => 29 | TNEQ => 30
  | TSHL => 31 | TSHR => 32 | TANDAND => 33 | TOROR => 34
  | TPLUSPLUS => 35 | TMINUSMINUS => 36
  | TASSIGN => 37 | TMULASSIGN => 38 | TDIVASSIGN => 39 | TMODASSIGN => 40
  | TADDASSIGN => 41 | TSUBASSIGN => 42 | TSHLASSIGN => 43 | TSHRASSIGN => 44
  | TANDASSIGN => 45 | TXORASSIGN => 46 | TORASSIGN => 47
  | TID => 48 | TINTLIT => 49 | TFLOATLIT => 50
  | TFUN => 51 | TTYPE => 52 | TLET => 53 | TVAR => 54 | TIF => 55
  | TELSE => 56 | TFOR => 57 | TRETURN => 58 | TMUT => 59
  end.

Definition tok_eqb (a b : tok_t) : bool := tok_code a =? tok_code b.

(** A symbol ([sym_t]): an interned byte string. *)
Definition sym_t := string.

Definition byte_of_ascii (a : ascii) : Z := Z.of_N (N_of_ascii a).
Definition ascii_of_byte (b : Z) : ascii := ascii_of_N (Z.to_N b).
Definition bytes_of_string (s : string) : list Z :=
  List.map byte_of_ascii (list_ascii_of_string s).
Definition string_of_bytes (l : list Z) : string :=
  string_of_list_ascii (List.map ascii_of_byte l).

(** [sym_intern(p, len)]: the symbol of a byte slice. *)
Definition sym_intern (bytes : list Z) : sym_t := string_of_bytes bytes.

Record srcloc_t := mk_srcloc { line : Z; col : Z }.

Inductive diagkind_t := DIAG_ERR | DIAG_WARN.

(** The message of a diagnostic.  [report_diagv] formats a C format string;
    a message is kept here as the format it comes from together with the
    arguments that were passed (tokens, symbols, node addresses). *)
Inductive diagmsg :=
  (* scanner.c *)
  | MsgOutOfMemory
  | MsgInvalidIntLit (base : Z)            (* invalid base-%d integer literal *)
  | MsgIntLitTooLarge                      (* integer literal too large *)
  | MsgTrailingUnderscore                  (* trailing _ after integer literal *)
  | MsgInvalidUTF8                         (* invalid UTF8 sequence *)
  | MsgUnexpectedByte (c : Z)              (* unexpected input byte 0x%02X *)
  (* parser.c *)
  | MsgUnexpected (t : tok_t) (lit : string) (errmsg : string)
  | MsgExpected (want : tok_t) (errmsg : string) (got : tok_t) (lit : string)
  | MsgRedefinition (name : sym_t)         (* redefinition of %s *)
  | MsgIncompatibleTypes (x y : Z)
  | MsgUnknownType (name : sym_t)
  | MsgNotAType (name : sym_t)
  | MsgNotATypeNode (n : Z)
  | MsgDuplicateField (name : sym_t)
  | MsgFieldConflictsMethod (name : sym_t)
  | MsgExcessFieldInit
  | MsgFieldInitType (got want : Z)
  | MsgMissingFieldInit
  | MsgUndeclared (name : sym_t)           (* undeclared identifier %s *)
  | MsgCannotUseAsExpr (n : Z) (name : sym_t)
  | MsgMissingLetValue
  | MsgMissingRefInit
  | MsgUnreachable                         (* unreachable code *)
  | MsgCondNotBool
  | MsgCondNotExpr
  | MsgIntOverflow (isneg : bool) (lit : string) (ty : Z)
  | MsgInvalidFloat
  | MsgFloat32TooLarge
  | MsgFloat64TooLarge
  | MsgDerefNonRef (ty : Z)
  | MsgRefOfRef (ty : Z)
  | MsgRefEphemeral (ty : Z)
  | MsgMutRefImmutable (n : Z)
  | MsgCallingNonFun (n : Z)
  | MsgDotOutsideContext
  | MsgThisNonMethod
  | MsgExpectingType
  | MsgDuplicateMethod (name : sym_t) (recv : Z)
  | MsgDuplicateMember (name : sym_t) (recv : Z) (existing : Z)
  | MsgPreviouslyDefined
  | MsgMissingFunName
  | MsgFunNoNamedArgsBody.

Record srcrange_t := mk_srcrange {
  r_start : srcloc_t;
  r_focus : srcloc_t;
  r_end : srcloc_t
}.

(** [(srcrange_t){ .focus = loc }] *)
Definition focus_range (l : srcloc_t) : srcrange_t :=
  mk_srcrange (mk_srcloc 0 0) l (mk_srcloc 0 0).

(** One call of [report_diagv]: source range, severity and message. *)
Record diag_t := mk_diag {
  d_range : srcrange_t;
  d_kind : diagkind_t;
  d_msg : diagmsg
}.

(** The part of [compiler_t] that the front-end reads and writes: the
    pointer size of the target, the diagnostics reported so far (the sink of
    [report_diagv], oldest first) and the process-wide map from type id to
    type node. *)
Record compiler_t := mk_compiler {
  ptrsize : Z;
  diags : list diag_t;
  typeidmap : gmap string Z
}.

Definition report_diagv (c : compiler_t) (r : srcrange_t) (k : diagkind_t)
    (m : diagmsg) : compiler_t :=
  mk_compiler (ptrsize c) (diags c ++ [mk_diag r k m]) (typeidmap c).

(** The address of a symbol.  The interner gives every byte string one
    address; the numbering of strings below stands for it. *)
Definition sym_addr (s : sym_t) : Z :=
  fold_left (fun acc b => acc * 256 + b) (bytes_of_string s) 1.

(** ** [src/scanner.c] *)

Module Scanner.

Record scanner_t := mk_scanner {
  compiler : compiler_t;
  input : list Z;
  inp : Z;
  tokstart : Z;
  tokend : Z;
  linestart : Z;
  lineno : Z;
  tok : tok_t;
  loc : srcloc_t;
  insertsemi : bool;
  litint : Z;
  litbuf : list Z;
  litlenoffs : Z;
  sym : sym_t
}.

Definition set_compiler (v : compiler_t) (x : scanner_t) : scanner_t :=
  mk_scanner v (input x) (inp x) (tokstart x) (tokend x) (linestart x)
    (lineno x) (tok x) (loc x) (insertsemi x) (litint x) (litbuf x)
    (litlenoffs x) (sym x).
Definition set_input (v : list Z) (x : scanner_t) : scanner_t :=
  mk_scanner (compiler x) v (inp x) (tokstart x) (tokend x) (linestart x)
    (lineno x) (tok x) (loc x) (insertsemi x) (litint x) (litbuf x)
    (litlenoffs x) (sym x).
Definition set_inp (v : Z) (x : scanner_t) : scanner_t :=
  mk_scanner (compiler x) (input x) v (tokstart x) (tokend x) (linestart x)
    (lineno x) (tok x) (loc x) (insertsemi x) (litint x) (litbuf x)
    (litlenoffs x) (sym x).
Definition set_tokstart (v : Z) (x : scanner_t) : scanner_t :=
  mk_scanner (compiler x) (input x) (inp x) v (tokend x) (linestart x)
    (lineno x) (tok x) (loc x) (insertsemi x) (litint x) (litbuf x)
    (litlenoffs x) (sym x).
Definition set_tokend (v : Z) (x : scanner_t) : scanner_t :=
  mk_scanner (compiler x) (input x) (inp x) (tokstart x) v (linestart x)
    (lineno x) (tok x) (loc x) (insertsemi x) (litint x) (litbuf x)
    (litlenoffs x) (sym x).
Definition set_linestart (v : Z) (x : scanner_t) : scanner_t :=
  mk_scanner (compiler x) (input x) (inp x) (tokstart x) (tokend x) v
    (lineno x) (tok x) (loc x) (insertsemi x) (litint x) (litbuf x)
    (litlenoffs x) (sym x).
Definition set_lineno (v : Z) (x : scanner_t) : scanner_t :=
  mk_scanner (compiler x) (input x) (inp x) (tokstart x) (tokend x)
    (linestart x) v (tok x) (loc x) (insertsemi x) (litint x) (litbuf x)
    (litlenoffs x) (sym x).
Definition set_tok (v : tok_t) (x : scanner_t) : scanner_t :=
  mk_scanner (compiler x) (input x) (inp x) (tokstart x) (tokend x)
    (linestart x) (lineno x) v (loc x) (insertsemi x) (litint x) (litbuf x)
    (litlenoffs x) (sym x).
Definition set_loc (v : srcloc_t) (x : scanner_t) : scanner_t :=
  mk_scanner (compiler x) (input x) (inp x) (tokstart x) (tokend x)
    (linestart x) (lineno x) (tok x) v (insertsemi x) (litint x) (litbuf x)
    (litlenoffs x) (sym x).
Definition set_insertsemi (v : bool) (x : scanner_t) : scanner_t :=
  mk_scanner (compiler x) (input x) (inp x) (tokstart x) (tokend x)
    (linestart x) (lineno x) (tok x) (loc x) v (litint x) (litbuf x)
    (litlenoffs x) (sym x).
Definition set_litint (v : Z) (x : scanner_t) : scanner_t :=
  mk_scanner (compiler x) (input x) (inp x) (tokstart x) (tokend x)
    (linestart x) (lineno x) (tok x) (loc x) (insertsemi x) v (litbuf x)
    (litlenoffs x) (sym x).
Definition set_litbuf (v : list Z) (x : scanner_t) : scanner_t :=
  mk_scanner (compiler x) (input x) (inp x) (tokstart x) (tokend x)
    (linestart x) (lineno x) (tok x) (loc x) (insertsemi x) (litint x) v
    (litlenoffs x) (sym x).
Definition set_litlenoffs (v : Z) (x : scanner_t) : scanner_t :=
  mk_scanner (compiler x) (input x) (inp x) (tokstart x) (tokend x)
    (linestart x) (lineno x) (tok x) (loc x) (insertsemi x) (litint x)
    (litbuf x) v (sym x).
Definition set_sym (v : sym_t) (x : scanner_t) : scanner_t :=
  mk_scanner (compiler x) (input x) (inp x) (tokstart x) (tokend x)
    (linestart x) (lineno x) (tok x) (loc x) (insertsemi x) (litint x)
    (litbuf x) (litlenoffs x) v.


(** The value of a character constant. *)
Definition ch (a : ascii) : Z := byte_of_ascii a.

Definition inend (s : scanner_t) : Z := Z.of_nat (length (input s)).

(** [p[i]] for the input buffer.  [number] and [utf8seq] read the byte just
    after the last one; the buffer is taken to be followed by NUL bytes. *)
Definition byte_at (s : scanner_t) (i : Z) : Z :=
  if 0 <=? i then nth (Z.to_nat i) (input s) 0 else 0.

Definition cur (s : scanner_t) : Z := byte_at s (inp s).

(** [<ctype.h>] in the C locale. *)
Definition isdigit (c : Z) : bool := (48 <=? c) && (c <=? 57).
Definition isupper (c : Z) : bool := (65 <=? c) && (c <=? 90).
Definition islower (c : Z) : bool := (97 <=? c) && (c <=? 122).
Definition isalpha (c : Z) : bool := isupper c || islower c.
Definition isalnum (c : Z) : bool := isalpha c || isdigit c.
Definition isspace (c : Z) : bool := (c =? 32) || ((9 <=? c) && (c <=? 13)).

(** [UTF8_SELF]: the first byte value that is not a one-byte character. *)
Definition UTF8_SELF : Z := 128.

(** [scanner_init]: [memset(s, 0, sizeof( *s))], then the compiler. *)
Definition scanner_init (c : compiler_t) : scanner_t :=
  mk_scanner c [] 0 0 0 0 0 TEOF (mk_srcloc 0 0) false 0 [] 0 EmptyString.

Definition scanner_set_input (s : scanner_t) (data : list Z) : scanner_t :=
  let s := set_input data s in
  let s := set_inp 0 s in
  let s := set_linestart 0 s in
  let s := set_loc (mk_srcloc 1 1) s in
  set_lineno 1 s.

Definition stop_scanning (s : scanner_t) : scanner_t :=
  set_tok TEOF (set_inp (inend s) s).

(** [scanner_lit]: the bytes of the current token. *)
Definition scanner_lit (s : scanner_t) : list Z :=
  let len := inp s - tokstart s - litlenoffs s in
  take (Z.to_nat len) (drop (Z.to_nat (tokstart s)) (input s)).

Definition error (s : scanner_t) (m : diagmsg) : scanner_t :=
  let srcrange := focus_range (loc s) in
  let s := set_compiler (report_diagv (compiler s) srcrange DIAG_ERR m) s in
  stop_scanning s.

Definition newline (s : scanner_t) : scanner_t :=
  let s := set_lineno (u32 (lineno s + 1)) s in
  set_linestart (inp s + 1) s.

(** The [for] loop of [floatnumber]; the buffer operations on [litbuf] are
    taken to succeed. *)
Fixpoint floatnumber_loop (fuel : nat) (s : scanner_t) (base : Z)
    (allowsign : bool) : scanner_t :=
  match fuel with
  | O => s
  | S fuel' =>
    if inp s =? inend s then s
    else
      let c := cur s in
      let push (allowsign' : bool) :=
        let s := set_litbuf (litbuf s ++ [c]) s in
        floatnumber_loop fuel' (set_inp (inp s + 1) s) base allowsign' in
      if (c =? ch "E") || (c =? ch "e") then push true
      else if (c =? ch "P") || (c =? ch "p") then
        if base <? 16 then s else push true
      else if (c =? ch "+") || (c =? ch "-") then
        if negb allowsign then s else push allowsign
      else if c =? ch "_" then
        floatnumber_loop fuel' (set_inp (inp s + 1) s) base allowsign
      else if c =? ch "." then push false
      else if negb (isalnum c) then s
      else push false
  end.

Definition floatnumber (s : scanner_t) (base : Z) : scanner_t :=
  let s := set_tok TFLOATLIT s in
  let s := set_litbuf [] s in
  let s := if base =? 16 then set_litbuf (litbuf s ++ [ch "0"; ch "x"]) s else s in
  floatnumber_loop (S (length (input s))) s base false.

(** The tail of [number] after the label [end]. *)
Definition number_end (s : scanner_t) (acc any c : Z) : scanner_t :=
  let s := set_litint acc s in
  let s := if any <? 0 then error s MsgIntLitTooLarge else s in
  if c =? ch "_" then error s MsgTrailingUnderscore else s.

(** The [for] loop of [number]; [c] is the byte loaded by the last
    [c = *++s->inp] (or by the initialisation). *)
Fixpoint number_loop (fuel : nat) (s : scanner_t)
    (base start_inp cutoff cutlim acc any c : Z) : scanner_t :=
  match fuel with
  | O => s
  | S fuel' =>
    if inp s =? inend s then number_end s acc any c
    else
      let continue_ (acc any : Z) :=
        let s := set_inp (inp s + 1) s in
        number_loop fuel' s base start_inp cutoff cutlim acc any (cur s) in
      let digit (c : Z) :=
        if c >=? base then error s (MsgInvalidIntLit base)
        else if (any <? 0) || (acc >? cutoff) || ((acc =? cutoff) && (c >? cutlim))
        then continue_ acc (-1)
        else continue_ (u64 (u64 (acc * base) + c)) 1 in
      if isdigit c then digit (u8 (c - ch "0"))
      else if isupper c then digit (u8 (c - (ch "A" - 10)))
      else if islower c then digit (u8 (c - (ch "a" - 10)))
      else if c =? ch "_" then continue_ acc any
      else if c =? ch "." then
        if (base =? 10) || (base =? 16) then floatnumber (set_inp start_inp s) base
        else digit (u8 base)
      else number_end s acc any c
  end.

Definition number (s : scanner_t) (base : Z) : scanner_t :=
  let s := set_tok TINTLIT s in
  let s := set_insertsemi true s in
  let s := set_litint 0 s in
  let start_inp := inp s in
  let cutoff := 18446744073709551615 in
  let cutlim := cutoff mod base in
  let cutoff := cutoff / base in
  number_loop (S (length (input s))) s base start_inp cutoff cutlim 0 0 (cur s).

Definition zeronumber (s : scanner_t) : scanner_t :=
  if inp s <? inend s then
    let c := cur s in
    if (c =? ch "X") || (c =? ch "x") then number (set_inp (inp s + 1) s) 16
    else if (c =? ch "B") || (c =? ch "b") then number (set_inp (inp s + 1) s) 2
    else if (c =? ch "O") || (c =? ch "o") then number (set_inp (inp s + 1) s) 8
    else number s 10
  else number s 10.

Definition utf8seq (s : scanner_t) : bool * scanner_t :=
  let a := cur s in
  let s := set_inp (inp s + 1) s in
  if negb (Z.land a 192 =? 192) || negb (Z.land (cur s) 192 =? 128) then (false, s)
  else
    let b := cur s in
    let s := set_inp (inp s + 1) s in
    if b =? 0 then (false, s)
    else if Z.shiftr a 5 =? 6 then (true, s)
    else
      let b := cur s in
      let s := set_inp (inp s + 1) s in
      if b =? 0 then (false, s)
      else if Z.shiftr a 4 =? 14 then (true, s)
      else
        let b := cur s in
        let s := set_inp (inp s + 1) s in
        if b =? 0 then (false, s)
        else if Z.shiftr a 3 =? 30 then (true, s)
        else (false, s).

Definition intern_identifier (s : scanner_t) : scanner_t :=
  set_sym (sym_intern (scanner_lit s)) s.

Fixpoint identifier_utf8_loop (fuel : nat) (s : scanner_t) : bool * scanner_t :=
  match fuel with
  | O => (true, s)
  | S fuel' =>
    if inp s <? inend s then
      if cur s >=? UTF8_SELF then
        let '(ok, s) := utf8seq s in
        if negb ok then (false, error s MsgInvalidUTF8)
        else identifier_utf8_loop fuel' s
      else if isalnum (cur s) || (cur s =? ch "_") then
        identifier_utf8_loop fuel' (set_inp (inp s + 1) s)
      else (true, s)
    else (true, s)
  end.

Definition identifier_utf8 (s : scanner_t) : scanner_t :=
  let '(ok, s) := identifier_utf8_loop (S (length (input s))) s in
  if negb ok then s
  else intern_identifier (set_tok TID s).

(** [strncmp(a, b, n)] on byte strings that continue with NUL. *)
Fixpoint strncmp (a b : list Z) (n : nat) : Z :=
  match n with
  | O => 0
  | S n' =>
    let c1 := hd 0 a in
    let c2 := hd 0 b in
    if c1 =? c2 then
      if c1 =? 0 then 0 else strncmp (tl a) (tl b) n'
    else c1 - c2
  end.

Section WithKeywords.

(** [keywordtab]: the keyword strings of [tokens.h] with their tokens, in
    the sorted order that [scanner_init] asserts. *)
Variable keywordtab : list (string * tok_t).

Fixpoint maybe_keyword_loop (fuel : nat) (s : scanner_t) (lit : list Z)
    (low high : Z) : scanner_t :=
  match fuel with
  | O => s
  | S fuel' =>
    if low <? high then
      let mid := (low + high) / 2 in
      match keywordtab !! Z.to_nat mid with
      | None => s
      | Some (kw, t) =>
        let cmp := strncmp lit (bytes_of_string kw) (length lit) in
        if cmp =? 0 then set_tok t s
        else if cmp <? 0 then maybe_keyword_loop fuel' s lit low mid
        else maybe_keyword_loop fuel' s lit (mid + 1) high
      end
    else s
  end.

Definition maybe_keyword (s : scanner_t) : scanner_t :=
  maybe_keyword_loop (S (length keywordtab)) s (scanner_lit s)
    0 (Z.of_nat (length keywordtab)).

Fixpoint identifier_loop (fuel : nat) (s : scanner_t) : scanner_t :=
  match fuel with
  | O => s
  | S fuel' =>
    if (inp s <? inend s) && (isalnum (cur s) || (cur s =? ch "_")) then
      identifier_loop fuel' (set_inp (inp s + 1) s)
    else s
  end.

Definition identifier (s : scanner_t) : scanner_t :=
  let s := identifier_loop (S (length (input s))) s in
  if (inp s <? inend s) && (cur s >=? UTF8_SELF) then identifier_utf8 s
  else
    let s := set_tok TID s in
    let s := set_insertsemi true s in
    let s := intern_identifier s in
    maybe_keyword s.

Fixpoint line_comment_loop (fuel : nat) (s : scanner_t) : scanner_t :=
  match fuel with
  | O => s
  | S fuel' =>
    if (inp s <? inend s) && negb (cur s =? 10) then
      line_comment_loop fuel' (set_inp (inp s + 1) s)
    else s
  end.

Fixpoint block_comment_loop (fuel : nat) (s : scanner_t) (startstar : Z)
  : scanner_t :=
  match fuel with
  | O => s
  | S fuel' =>
    if inp s <? inend s then
      if cur s =? 10 then
        block_comment_loop fuel' (set_inp (inp s + 1) (newline s)) startstar
      else if (cur s =? ch "/") && (byte_at s (inp s - 1) =? ch "*")
              && negb (inp s - 1 =? startstar) then
        set_inp (inp s + 1) s
      else block_comment_loop fuel' (set_inp (inp s + 1) s) startstar
    else s
  end.

Definition skip_comment (s : scanner_t) : scanner_t :=
  let c := byte_at s (inp s + 1) in
  if c =? ch "/" then
    line_comment_loop (S (length (input s))) (set_inp (inp s + 2) s)
  else
    let s := set_inp (inp s + 2) s in
    block_comment_loop (S (length (input s))) s (inp s - 1).

(** [scan1]; its tail call of [scan0] after a comment is the argument
    [scan0]. *)
Definition scan1 (scan0 : scanner_t -> scanner_t) (s : scanner_t) : scanner_t :=
  let s := set_tokstart (inp s) s in
  let s := set_loc (mk_srcloc (lineno s)
                      (u32 (u32 (tokstart s - linestart s) + 1))) s in
  let insertsemi0 := insertsemi s in
  let s := set_insertsemi false s in
  let c := cur s in
  let s := set_inp (inp s + 1) s in
  if c =? ch "(" then set_tok TLPAREN s
  else if c =? ch ")" then set_tok TRPAREN (set_insertsemi true s)
  else if c =? ch "{" then set_tok TLBRACE s
  else if c =? ch "}" then set_tok TRBRACE (set_insertsemi true s)
  else if c =? ch "[" then set_tok TLBRACK s
  else if c =? ch "]" then set_tok TRBRACK (set_insertsemi true s)
  else if c =? ch ";" then set_tok TSEMI s
  else if c =? ch "," then set_tok TCOMMA s
  else if c =? ch "+" then set_tok TPLUS s
  else if c =? ch "*" then set_tok TSTAR s
  else if c =? ch "%" then set_tok TPERCENT s
  else if c =? ch "&" then set_tok TAND s
  else if c =? ch "|" then set_tok TOR s
  else if c =? ch "^" then set_tok TXOR s
  else if c =? ch "~" then set_tok TTILDE s
  else if c =? ch "#" then set_tok THASH s
  else if c =? ch "<" then set_tok TLT s
  else if c =? ch ">" then set_tok TGT s
  else if c =? ch "=" then
    let s := set_tok TASSIGN s in
    if (inp s <? inend s) && (cur s =? ch "=") then
      set_tok TEQ (set_inp (inp s + 1) s)
    else s
  else if c =? ch "0" then zeronumber s
  else if c =? ch "." then
    if (inp s <? inend s) && isdigit (cur s) then
      floatnumber (set_inp (inp s - 1) s) 10
    else if (inp s <? inend s) && (cur s =? ch ".") then
      let s := set_tok TDOTDOT s in
      let s := set_inp (inp s + 1) s in
      if (inp s <? inend s) && (cur s =? ch ".") then
        set_tok TDOTDOTDOT (set_inp (inp s + 1) s)
      else s
    else set_tok TDOT s
  else if c =? ch "/" then
    if (inp s <? inend s) && ((cur s =? ch "/") || (cur s =? ch "*")) then
      let s := set_inp (inp s - 1) s in
      let s := set_insertsemi insertsemi0 s in
      scan0 (skip_comment s)
    else set_tok TSLASH s
  else if isdigit c then number (set_inp (inp s - 1) s) 10
  else if c >=? UTF8_SELF then identifier_utf8 (set_inp (inp s - 1) s)
  else if isalpha c || (c =? ch "_") then identifier s
  else stop_scanning (error s (MsgUnexpectedByte c)).

Fixpoint skip_whitespace (fuel : nat) (s : scanner_t) : scanner_t :=
  match fuel with
  | O => s
  | S fuel' =>
    if (inp s <? inend s) && isspace (cur s) then
      let s := if cur s =? 10 then newline s else s in
      skip_whitespace fuel' (set_inp (inp s + 1) s)
    else s
  end.

(** [scan0]; every turn through a comment consumes input, so the length of
    the input bounds the number of turns. *)
Fixpoint scan0 (fuel : nat) (s : scanner_t) : scanner_t :=
  match fuel with
  | O => s
  | S fuel' =>
    let s := set_litlenoffs 0 s in
    let prev_lineno := lineno s in
    let prev_linestart := linestart s in
    let s := skip_whitespace (S (length (input s))) s in
    if negb (prev_linestart =? linestart s) && insertsemi s then
      let s := set_insertsemi false s in
      let s := set_tokstart prev_linestart s in
      let s := set_tok TSEMI s in
      set_loc (mk_srcloc prev_lineno (u32 (tokend s - prev_linestart + 1))) s
    else if inp s >=? inend s then
      let s := set_tokstart (inend s) s in
      let s := set_tok TEOF s in
      let s := set_loc (mk_srcloc (lineno s)
                          (u32 (u32 (tokstart s - linestart s) + 1))) s in
      if insertsemi s then set_insertsemi false (set_tok TSEMI s) else s
    else scan1 (scan0 fuel') s
  end.

Definition scanner_next (s : scanner_t) : scanner_t :=
  let s := set_tokend (inp s) s in
  scan0 (S (length (input s))) s.

End WithKeywords.

(** Modelled from the spec: [tokens.h] is not part of the sources.  The
    keywords are those of section 4.1 whose tokens [parser.c] uses, sorted;
    [this] is left out because [fun_params] recognises it as the identifier
    [sym_this]. *)
Definition keywordtab : list (string * tok_t) :=
  [ ("else"%string, TELSE); ("for"%string, TFOR); ("fun"%string, TFUN);
    ("if"%string, TIF); ("let"%string, TLET); ("mut"%string, TMUT);
    ("return"%string, TRETURN); ("type"%string, TTYPE); ("var"%string, TVAR) ].

(** All tokens of an input, scanned with a fresh scanner: a test driver. *)
Fixpoint tokens_from (kw : list (string * tok_t)) (fuel : nat) (s : scanner_t)
  : list tok_t :=
  match fuel with
  | O => []
  | S fuel' =>
    let s := scanner_next kw s in
    tok s :: (if tok_eqb (tok s) TEOF then [] else tokens_from kw fuel' s)
  end.

Definition tokens_of (kw : list (string * tok_t)) (src : string) : list tok_t :=
  let s := scanner_set_input (scanner_init (mk_compiler 8 [] ∅))
             (bytes_of_string src) in
  tokens_from kw (2 * (String.length src) + 2) s.

End Scanner.

(** ** AST nodes

    [compiler.h], which declares the node structures, is not part of the
    sources at hand.  The kinds and fields below are the ones that
    [parser.c], [typeid.c] and [universe.c] name. *)

Module Ast.

Inductive nodekind_t :=
  | NODE_BAD | NODE_UNIT | STMT_TYPEDEF
  | EXPR_FUN | EXPR_BLOCK | EXPR_CALL | EXPR_ID | EXPR_FIELD | EXPR_PARAM
  | EXPR_VAR | EXPR_LET | EXPR_MEMBER | EXPR_PREFIXOP | EXPR_POSTFIXOP
  | EXPR_BINOP | EXPR_DEREF | EXPR_IF | EXPR_FOR | EXPR_RETURN
  | EXPR_BOOLLIT | EXPR_INTLIT | EXPR_FLOATLIT
  | TYPE_VOID | TYPE_BOOL | TYPE_INT | TYPE_I8 | TYPE_I16 | TYPE_I32 | TYPE_I64
  | TYPE_F32 | TYPE_F64
  | TYPE_ARRAY | TYPE_FUN | TYPE_PTR | TYPE_REF | TYPE_MUTREF | TYPE_SLICE
  | TYPE_MUTSLICE | TYPE_OPTIONAL | TYPE_STRUCT | TYPE_ALIAS | TYPE_UNKNOWN.

Definition nodekind_code (k : nodekind_t) : Z :=
  match k with
  | NODE_BAD => 0 | NODE_UNIT => 1 | STMT_TYPEDEF => 2
  | EXPR_FUN => 3 | EXPR_BLOCK => 4 | EXPR_CALL => 5 | EXPR_ID => 6
  | EXPR_FIELD => 7 | EXPR_PARAM => 8 | EXPR_VAR => 9 | EXPR_LET => 10
  | EXPR_MEMBER => 11 | EXPR_PREFIXOP => 12 | EXPR_POSTFIXOP => 13
  | EXPR_BINOP => 14 | EXPR_DEREF => 15 | EXPR_IF => 16 | EXPR_FOR => 17
  | EXPR_RETURN => 18 | EXPR_BOOLLIT => 19 | EXPR_INTLIT => 20
  | EXPR_FLOATLIT => 21
  | TYPE_VOID => 22 | TYPE_BOOL => 23 | TYPE_INT => 24 | TYPE_I8 => 25
  | TYPE_I16 => 26 | TYPE_I32 => 27 | TYPE_I64 => 28 | TYPE_F32 => 29
  | TYPE_F64 => 30
  | TYPE_ARRAY => 31 | TYPE_FUN => 32 | TYPE_PTR => 33 | TYPE_REF => 34
  | TYPE_MUTREF => 35 | TYPE_SLICE => 36 | TYPE_MUTSLICE => 37
  | TYPE_OPTIONAL => 38 | TYPE_STRUCT => 39 | TYPE_ALIAS => 40
  | TYPE_UNKNOWN => 41
  end.

Definition kind_eqb (a b : nodekind_t) : bool :=
  nodekind_code a =? nodekind_code b.

(** The kind predicates of [compiler.h], after the partition of kinds in
    section 3 of the specification. *)
Definition nodekind_isexpr (k : nodekind_t) : bool :=
  (nodekind_code EXPR_FUN <=? nodekind_code k) &&
  (nodekind_code k <=? nodekind_code EXPR_FLOATLIT).
Definition nodekind_istype (k : nodekind_t) : bool :=
  (nodekind_code TYPE_VOID <=? nodekind_code k) &&
  (nodekind_code k <=? nodekind_code TYPE_UNKNOWN).
Definition nodekind_isprimtype (k : nodekind_t) : bool :=
  (nodekind_code TYPE_VOID <=? nodekind_code k) &&
  (nodekind_code k <=? nodekind_code TYPE_F64).
Definition nodekind_isusertype (k : nodekind_t) : bool :=
  (nodekind_code TYPE_ARRAY <=? nodekind_code k) &&
  (nodekind_code k <=? nodekind_code TYPE_ALIAS).

(** Flag bits ([exprflag_t], [nodeflag_t]).  Their values are in
    [compiler.h]; what the code relies on is that they are distinct bits. *)
Definition EX_RVALUE : Z := 1.
Definition EX_OPTIONAL : Z := 2.
Definition EX_RVALUE_CHECKED : Z := 4.
Definition EX_EXITS : Z := 8.
Definition EX_SHADOWS_OPTIONAL : Z := 16.
Definition EX_ANALYZED : Z := 32.
Definition NF_CHECKED : Z := 64.
Definition NF_UNKNOWN : Z := 128.

Definition has_flag (fl bit : Z) : bool := negb (Z.land fl bit =? 0).
Definition clear_flag (fl bit : Z) : Z := Z.land fl (Z.lnot bit).

Record node_t := mk_node {
  n_kind : nodekind_t;
  n_flags : Z;
  n_loc : srcloc_t;
  n_type : Z;
  n_nrefs : Z;
  n_name : option sym_t;
  n_ref : Z;
  n_init : Z;
  n_isthis : bool;
  n_op : tok_t;
  n_expr : Z;
  n_left : Z;
  n_right : Z;
  n_children : list Z;
  n_cond : Z;
  n_thenb : Z;
  n_elseb : Z;
  n_start : Z;
  n_end : Z;
  n_body : Z;
  n_value : Z;
  n_intval : Z;
  n_recv : Z;
  n_args : list Z;
  n_target : Z;
  n_params : list Z;
  n_methodof : Z;
  n_result : Z;
  n_size : Z;
  n_align : Z;
  n_isunsigned : bool;
  n_tid : option sym_t;
  n_elem : Z;
  n_ismut : bool;
  n_fields : list Z;
  n_methods : list Z;
  n_hasinit : bool;
  n_len : Z
}.

Definition set_n_kind (v : nodekind_t) (x : node_t) : node_t :=
  mk_node v (n_flags x) (n_loc x) (n_type x) (n_nrefs x) (n_name x) (n_ref
    x) (n_init x) (n_isthis x) (n_op x) (n_expr x) (n_left x) (n_right x)
    (n_children x) (n_cond x) (n_thenb x) (n_elseb x) (n_start x) (n_end x)
    (n_body x) (n_value x) (n_intval x) (n_recv x) (n_args x) (n_target x)
    (n_params x) (n_methodof x) (n_result x) (n_size x) (n_align x)
    (n_isunsigned x) (n_tid x) (n_elem x) (n_ismut x) (n_fields x)
    (n_methods x) (n_hasinit x) (n_len x).
Definition set_n_flags (v : Z) (x : node_t) : node_t :=
  mk_node (n_kind x) v (n_loc x) (n_type x) (n_nrefs x) (n_name x) (n_ref x)
    (n_init x) (n_isthis x) (n_op x) (n_expr x) (n_left x) (n_right x)
    (n_children x) (n_cond x) (n_thenb x) (n_elseb x) (n_start x) (n_end x)
    (n_body x) (n_value x) (n_intval x) (n_recv x) (n_args x) (n_target x)
    (n_params x) (n_methodof x) (n_result x) (n_size x) (n_align x)
    (n_isunsigned x) (n_tid x) (n_elem x) (n_ismut x) (n_fields x)
    (n_methods x) (n_hasinit x) (n_len x).
Definition set_n_loc (v : srcloc_t) (x : node_t) : node_t :=
  mk_node (n_kind x) (n_flags x) v (n_type x) (n_nrefs x) (n_name x) (n_ref
    x) (n_init x) (n_isthis x) (n_op x) (n_expr x) (n_left x) (n_right x)
    (n_children x) (n_cond x) (n_thenb x) (n_elseb x) (n_start x) (n_end x)
    (n_body x) (n_value x) (n_intval x) (n_recv x) (n_args x) (n_target x)
    (n_params x) (n_methodof x) (n_result x) (n_size x) (n_align x)
    (n_isunsigned x) (n_tid x) (n_elem x) (n_ismut x) (n_fields x)
    (n_methods x) (n_hasinit x) (n_len x).
Definition set_n_type (v : Z) (x : node_t) : node_t :=
  mk_node (n_kind x) (n_flags x) (n_loc x) v (n_nrefs x) (n_name x) (n_ref
    x) (n_init x) (n_isthis x) (n_op x) (n_expr x) (n_left x) (n_right x)
    (n_children x) (n_cond x) (n_thenb x) (n_elseb x) (n_start x) (n_end x)
    (n_body x) (n_value x) (n_intval x) (n_recv x) (n_args x) (n_target x)
    (n_params x) (n_methodof x) (n_result x) (n_size x) (n_align x)
    (n_isunsigned x) (n_tid x) (n_elem x) (n_ismut x) (n_fields x)
    (n_methods x) (n_hasinit x) (n_len x).
Definition set_n_nrefs (v : Z) (x : node_t) : node_t :=
  mk_node (n_kind x) (n_flags x) (n_loc x) (n_type x) v (n_name x) (n_ref x)
    (n_init x) (n_isthis x) (n_op x) (n_expr x) (n_left x) (n_right x)
    (n_children x) (n_cond x) (n_thenb x) (n_elseb x) (n_start x) (n_end x)
    (n_body x) (n_value x) (n_intval x) (n_recv x) (n_args x) (n_target x)
    (n_params x) (n_methodof x) (n_result x) (n_size x) (n_align x)
    (n_isunsigned x) (n_tid x) (n_elem x) (n_ismut x) (n_fields x)
    (n_methods x) (n_hasinit x) (n_len x).
Definition set_n_name (v : option sym_t) (x : node_t) : node_t :=
  mk_node (n_kind x) (n_flags x) (n_loc x) (n_type x) (n_nrefs x) v (n_ref
    x) (n_init x) (n_isthis x) (n_op x) (n_expr x) (n_left x) (n_right x)
    (n_children x) (n_cond x) (n_thenb x) (n_elseb x) (n_start x) (n_end x)
    (n_body x) (n_value x) (n_intval x) (n_recv x) (n_args x) (n_target x)
    (n_params x) (n_methodof x) (n_result x) (n_size x) (n_align x)
    (n_isunsigned x) (n_tid x) (n_elem x) (n_ismut x) (n_fields x)
    (n_methods x) (n_hasinit x) (n_len x).
Definition set_n_ref (v : Z) (x : node_t) : node_t :=
  mk_node (n_kind x) (n_flags x) (n_loc x) (n_type x) (n_nrefs x) (n_name x)
    v (n_init x) (n_isthis x) (n_op x) (n_expr x) (n_left x) (n_right x)
    (n_children x) (n_cond x) (n_thenb x) (n_elseb x) (n_start x) (n_end x)
    (n_body x) (n_value x) (n_intval x) (n_recv x) (n_args x) (n_target x)
    (n_params x) (n_methodof x) (n_result x) (n_size x) (n_align x)
    (n_isunsigned x) (n_tid x) (n_elem x) (n_ismut x) (n_fields x)
    (n_methods x) (n_hasinit x) (n_len x).
Definition set_n_init (v : Z) (x : node_t) : node_t :=
  mk_node (n_kind x) (n_flags x) (n_loc x) (n_type x) (n_nrefs x) (n_name x)
    (n_ref x) v (n_isthis x) (n_op x) (n_expr x) (n_left x) (n_right x)
    (n_children x) (n_cond x) (n_thenb x) (n_elseb x) (n_start x) (n_end x)
    (n_body x) (n_value x) (n_intval x) (n_recv x) (n_args x) (n_target x)
    (n_params x) (n_methodof x) (n_result x) (n_size x) (n_align x)
    (n_isunsigned x) (n_tid x) (n_elem x) (n_ismut x) (n_fields x)
    (n_methods x) (n_hasinit x) (n_len x).
Definition set_n_isthis (v : bool) (x : node_t) : node_t :=
  mk_node (n_kind x) (n_flags x) (n_loc x) (n_type x) (n_nrefs x) (n_name x)
    (n_ref x) (n_init x) v (n_op x) (n_expr x) (n_left x) (n_right x)
    (n_children x) (n_cond x) (n_thenb x) (n_elseb x) (n_start x) (n_end x)
    (n_body x) (n_value x) (n_intval x) (n_recv x) (n_args x) (n_target x)
    (n_params x) (n_methodof x) (n_result x) (n_size x) (n_align x)
    (n_isunsigned x) (n_tid x) (n_elem x) (n_ismut x) (n_fields x)
    (n_methods x) (n_hasinit x) (n_len x).
Definition set_n_op (v : tok_t) (x : node_t) : node_t :=
  mk_node (n_kind x) (n_flags x) (n_loc x) (n_type x) (n_nrefs x) (n_name x)
    (n_ref x) (n_init x) (n_isthis x) v (n_expr x) (n_left x) (n_right x)
    (n_children x) (n_cond x) (n_thenb x) (n_elseb x) (n_start x) (n_end x)
    (n_body x) (n_value x) (n_intval x) (n_recv x) (n_args x) (n_target x)
    (n_params x) (n_methodof x) (n_result x) (n_size x) (n_align x)
    (n_isunsigned x) (n_tid x) (n_elem x) (n_ismut x) (n_fields x)
    (n_methods x) (n_hasinit x) (n_len x).
Definition set_n_expr (v : Z) (x : node_t) : node_t :=
  mk_node (n_kind x) (n_flags x) (n_loc x) (n_type x) (n_nrefs x) (n_name x)
    (n_ref x) (n_init x) (n_isthis x) (n_op x) v (n_left x) (n_right x)
    (n_children x) (n_cond x) (n_thenb x) (n_elseb x) (n_start x) (n_end x)
    (n_body x) (n_value x) (n_intval x) (n_recv x) (n_args x) (n_target x)
    (n_params x) (n_methodof x) (n_result x) (n_size x) (n_align x)
    (n_isunsigned x) (n_tid x) (n_elem x) (n_ismut x) (n_fields x)
    (n_methods x) (n_hasinit x) (n_len x).
Definition set_n_left (v : Z) (x : node_t) : node_t :=
  mk_node (n_kind x) (n_flags x) (n_loc x) (n_type x) (n_nrefs x) (n_name x)
    (n_ref x) (n_init x) (n_isthis x) (n_op x) (n_expr x) v (n_right x)
    (n_children x) (n_cond x) (n_thenb x) (n_elseb x) (n_start x) (n_end x)
    (n_body x) (n_value x) (n_intval x) (n_recv x) (n_args x) (n_target x)
    (n_params x) (n_methodof x) (n_result x) (n_size x) (n_align x)
    (n_isunsigned x) (n_tid x) (n_elem x) (n_ismut x) (n_fields x)
    (n_methods x) (n_hasinit x) (n_len x).
Definition set_n_right (v : Z) (x : node_t) : node_t :=
  mk_node (n_kind x) (n_flags x) (n_loc x) (n_type x) (n_nrefs x) (n_name x)
    (n_ref x) (n_init x) (n_isthis x) (n_op x) (n_expr x) (n_left x) v
    (n_children x) (n_cond x) (n_thenb x) (n_elseb x) (n_start x) (n_end x)
    (n_body x) (n_value x) (n_intval x) (n_recv x) (n_args x) (n_target x)
    (n_params x) (n_methodof x) (n_result x) (n_size x) (n_align x)
    (n_isunsigned x) (n_tid x) (n_elem x) (n_ismut x) (n_fields x)
    (n_methods x) (n_hasinit x) (n_len x).
Definition set_n_children (v : list Z) (x : node_t) : node_t :=
  mk_node (n_kind x) (n_flags x) (n_loc x) (n_type x) (n_nrefs x) (n_name x)
    (n_ref x) (n_init x) (n_isthis x) (n_op x) (n_expr x) (n_left x)
    (n_right x) v (n_cond x) (n_thenb x) (n_elseb x) (n_start x) (n_end x)
    (n_body x) (n_value x) (n_intval x) (n_recv x) (n_args x) (n_target x)
    (n_params x) (n_methodof x) (n_result x) (n_size x) (n_align x)
    (n_isunsigned x) (n_tid x) (n_elem x) (n_ismut x) (n_fields x)
    (n_methods x) (n_hasinit x) (n_len x).
Definition set_n_cond (v : Z) (x : node_t) : node_t :=
  mk_node (n_kind x) (n_flags x) (n_loc x) (n_type x) (n_nrefs x) (n_name x)
    (n_ref x) (n_init x) (n_isthis x) (n_op x) (n_expr x) (n_left x)
    (n_right x) (n_children x) v (n_thenb x) (n_elseb x) (n_start x) (n_end
    x) (n_body x) (n_value x) (n_intval x) (n_recv x) (n_args x) (n_target
    x) (n_params x) (n_methodof x) (n_result x) (n_size x) (n_align x)
    (n_isunsigned x) (n_tid x) (n_elem x) (n_ismut x) (n_fields x)
    (n_methods x) (n_hasinit x) (n_len x).
Definition set_n_thenb (v : Z) (x : node_t) : node_t :=
  mk_node (n_kind x) (n_flags x) (n_loc x) (n_type x) (n_nrefs x) (n_name x)
    (n_ref x) (n_init x) (n_isthis x) (n_op x) (n_expr x) (n_left x)
    (n_right x) (n_children x) (n_cond x) v (n_elseb x) (n_start x) (n_end
    x) (n_body x) (n_value x) (n_intval x) (n_recv x) (n_args x) (n_target
    x) (n_params x) (n_methodof x) (n_result x) (n_size x) (n_align x)
    (n_isunsigned x) (n_tid x) (n_elem x) (n_ismut x) (n_fields x)
    (n_methods x) (n_hasinit x) (n_len x).
Definition set_n_elseb (v : Z) (x : node_t) : node_t :=
  mk_node (n_kind x) (n_flags x) (n_loc x) (n_type x) (n_nrefs x) (n_name x)
    (n_ref x) (n_init x) (n_isthis x) (n_op x) (n_expr x) (n_left x)
    (n_right x) (n_children x) (n_cond x) (n_thenb x) v (n_start x) (n_end
    x) (n_body x) (n_value x) (n_intval x) (n_recv x) (n_args x) (n_target
    x) (n_params x) (n_methodof x) (n_result x) (n_size x) (n_align x)
    (n_isunsigned x) (n_tid x) (n_elem x) (n_ismut x) (n_fields x)
    (n_methods x) (n_hasinit x) (n_len x).
Definition set_n_start (v : Z) (x : node_t) : node_t :=
  mk_node (n_kind x) (n_flags x) (n_loc x) (n_type x) (n_nrefs x) (n_name x)
    (n_ref x) (n_init x) (n_isthis x) (n_op x) (n_expr x) (n_left x)
    (n_right x) (n_children x) (n_cond x) (n_thenb x) (n_elseb x) v (n_end
    x) (n_body x) (n_value x) (n_intval x) (n_recv x) (n_args x) (n_target
    x) (n_params x) (n_methodof x) (n_result x) (n_size x) (n_align x)
    (n_isunsigned x) (n_tid x) (n_elem x) (n_ismut x) (n_fields x)
    (n_methods x) (n_hasinit x) (n_len x).
Definition set_n_end (v : Z) (x : node_t) : node_t :=
  mk_node (n_kind x) (n_flags x) (n_loc x) (n_type x) (n_nrefs x) (n_name x)
    (n_ref x) (n_init x) (n_isthis x) (n_op x) (n_expr x) (n_left x)
    (n_right x) (n_children x) (n_cond x) (n_thenb x) (n_elseb x) (n_start
    x) v (n_body x) (n_value x) (n_intval x) (n_recv x) (n_args x) (n_target
    x) (n_params x) (n_methodof x) (n_result x) (n_size x) (n_align x)
    (n_isunsigned x) (n_tid x) (n_elem x) (n_ismut x) (n_fields x)
    (n_methods x) (n_hasinit x) (n_len x).
Definition set_n_body (v : Z) (x : node_t) : node_t :=
  mk_node (n_kind x) (n_flags x) (n_loc x) (n_type x) (n_nrefs x) (n_name x)
    (n_ref x) (n_init x) (n_isthis x) (n_op x) (n_expr x) (n_left x)
    (n_right x) (n_children x) (n_cond x) (n_thenb x) (n_elseb x) (n_start
    x) (n_end x) v (n_value x) (n_intval x) (n_recv x) (n_args x) (n_target
    x) (n_params x) (n_methodof x) (n_result x) (n_size x) (n_align x)
    (n_isunsigned x) (n_tid x) (n_elem x) (n_ismut x) (n_fields x)
    (n_methods x) (n_hasinit x) (n_len x).
Definition set_n_value (v : Z) (x : node_t) : node_t :=
  mk_node (n_kind x) (n_flags x) (n_loc x) (n_type x) (n_nrefs x) (n_name x)
    (n_ref x) (n_init x) (n_isthis x) (n_op x) (n_expr x) (n_left x)
    (n_right x) (n_children x) (n_cond x) (n_thenb x) (n_elseb x) (n_start
    x) (n_end x) (n_body x) v (n_intval x) (n_recv x) (n_args x) (n_target
    x) (n_params x) (n_methodof x) (n_result x) (n_size x) (n_align x)
    (n_isunsigned x) (n_tid x) (n_elem x) (n_ismut x) (n_fields x)
    (n_methods x) (n_hasinit x) (n_len x).
Definition set_n_intval (v : Z) (x : node_t) : node_t :=
  mk_node (n_kind x) (n_flags x) (n_loc x) (n_type x) (n_nrefs x) (n_name x)
    (n_ref x) (n_init x) (n_isthis x) (n_op x) (n_expr x) (n_left x)
    (n_right x) (n_children x) (n_cond x) (n_thenb x) (n_elseb x) (n_start
    x) (n_end x) (n_body x) (n_value x) v (n_recv x) (n_args x) (n_target x)
    (n_params x) (n_methodof x) (n_result x) (n_size x) (n_align x)
    (n_isunsigned x) (n_tid x) (n_elem x) (n_ismut x) (n_fields x)
    (n_methods x) (n_hasinit x) (n_len x).
Definition set_n_recv (v : Z) (x : node_t) : node_t :=
  mk_node (n_kind x) (n_flags x) (n_loc x) (n_type x) (n_nrefs x) (n_name x)
    (n_ref x) (n_init x) (n_isthis x) (n_op x) (n_expr x) (n_left x)
    (n_right x) (n_children x) (n_cond x) (n_thenb x) (n_elseb x) (n_start
    x) (n_end x) (n_body x) (n_value x) (n_intval x) v (n_args x) (n_target
    x) (n_params x) (n_methodof x) (n_result x) (n_size x) (n_align x)
    (n_isunsigned x) (n_tid x) (n_elem x) (n_ismut x) (n_fields x)
    (n_methods x) (n_hasinit x) (n_len x).
Definition set_n_args (v : list Z) (x : node_t) : node_t :=
  mk_node (n_kind x) (n_flags x) (n_loc x) (n_type x) (n_nrefs x) (n_name x)
    (n_ref x) (n_init x) (n_isthis x) (n_op x) (n_expr x) (n_left x)
    (n_right x) (n_children x) (n_cond x) (n_thenb x) (n_elseb x) (n_start
    x) (n_end x) (n_body x) (n_value x) (n_intval x) (n_recv x) v (n_target
    x) (n_params x) (n_methodof x) (n_result x) (n_size x) (n_align x)
    (n_isunsigned x) (n_tid x) (n_elem x) (n_ismut x) (n_fields x)
    (n_methods x) (n_hasinit x) (n_len x).
Definition set_n_target (v : Z) (x : node_t) : node_t :=
  mk_node (n_kind x) (n_flags x) (n_loc x) (n_type x) (n_nrefs x) (n_name x)
    (n_ref x) (n_init x) (n_isthis x) (n_op x) (n_expr x) (n_left x)
    (n_right x) (n_children x) (n_cond x) (n_thenb x) (n_elseb x) (n_start
    x) (n_end x) (n_body x) (n_value x) (n_intval x) (n_recv x) (n_args x) v
    (n_params x) (n_methodof x) (n_result x) (n_size x) (n_align x)
    (n_isunsigned x) (n_tid x) (n_elem x) (n_ismut x) (n_fields x)
    (n_methods x) (n_hasinit x) (n_len x).
Definition set_n_params (v : list Z) (x : node_t) : node_t :=
  mk_node (n_kind x) (n_flags x) (n_loc x) (n_type x) (n_nrefs x) (n_name x)
    (n_ref x) (n_init x) (n_isthis x) (n_op x) (n_expr x) (n_left x)
    (n_right x) (n_children x) (n_cond x) (n_thenb x) (n_elseb x) (n_start
    x) (n_end x) (n_body x) (n_value x) (n_intval x) (n_recv x) (n_args x)
    (n_target x) v (n_methodof x) (n_result x) (n_size x) (n_align x)
    (n_isunsigned x) (n_tid x) (n_elem x) (n_ismut x) (n_fields x)
    (n_methods x) (n_hasinit x) (n_len x).
Definition set_n_methodof (v : Z) (x : node_t) : node_t :=
  mk_node (n_kind x) (n_flags x) (n_loc x) (n_type x) (n_nrefs x) (n_name x)
    (n_ref x) (n_init x) (n_isthis x) (n_op x) (n_expr x) (n_left x)
    (n_right x) (n_children x) (n_cond x) (n_thenb x) (n_elseb x) (n_start
    x) (n_end x) (n_body x) (n_value x) (n_intval x) (n_recv x) (n_args x)
    (n_target x) (n_params x) v (n_result x) (n_size x) (n_align x)
    (n_isunsigned x) (n_tid x) (n_elem x) (n_ismut x) (n_fields x)
    (n_methods x) (n_hasinit x) (n_len x).
Definition set_n_result (v : Z) (x : node_t) : node_t :=
  mk_node (n_kind x) (n_flags x) (n_loc x) (n_type x) (n_nrefs x) (n_name x)
    (n_ref x) (n_init x) (n_isthis x) (n_op x) (n_expr x) (n_left x)
    (n_right x) (n_children x) (n_cond x) (n_thenb x) (n_elseb x) (n_start
    x) (n_end x) (n_body x) (n_value x) (n_intval x) (n_recv x) (n_args x)
    (n_target x) (n_params x) (n_methodof x) v (n_size x) (n_align x)
    (n_isunsigned x) (n_tid x) (n_elem x) (n_ismut x) (n_fields x)
    (n_methods x) (n_hasinit x) (n_len x).
Definition set_n_size (v : Z) (x : node_t) : node_t :=
  mk_node (n_kind x) (n_flags x) (n_loc x) (n_type x) (n_nrefs x) (n_name x)
    (n_ref x) (n_init x) (n_isthis x) (n_op x) (n_expr x) (n_left x)
    (n_right x) (n_children x) (n_cond x) (n_thenb x) (n_elseb x) (n_start
    x) (n_end x) (n_body x) (n_value x) (n_intval x) (n_recv x) (n_args x)
    (n_target x) (n_params x) (n_methodof x) (n_result x) v (n_align x)
    (n_isunsigned x) (n_tid x) (n_elem x) (n_ismut x) (n_fields x)
    (n_methods x) (n_hasinit x) (n_len x).
Definition set_n_align (v : Z) (x : node_t) : node_t :=
  mk_node (n_kind x) (n_flags x) (n_loc x) (n_type x) (n_nrefs x) (n_name x)
    (n_ref x) (n_init x) (n_isthis x) (n_op x) (n_expr x) (n_left x)
    (n_right x) (n_children x) (n_cond x) (n_thenb x) (n_elseb x) (n_start
    x) (n_end x) (n_body x) (n_value x) (n_intval x) (n_recv x) (n_args x)
    (n_target x) (n_params x) (n_methodof x) (n_result x) (n_size x) v
    (n_isunsigned x) (n_tid x) (n_elem x) (n_ismut x) (n_fields x)
    (n_methods x) (n_hasinit x) (n_len x).
Definition set_n_isunsigned (v : bool) (x : node_t) : node_t :=
  mk_node (n_kind x) (n_flags x) (n_loc x) (n_type x) (n_nrefs x) (n_name x)
    (n_ref x) (n_init x) (n_isthis x) (n_op x) (n_expr x) (n_left x)
    (n_right x) (n_children x) (n_cond x) (n_thenb x) (n_elseb x) (n_start
    x) (n_end x) (n_body x) (n_value x) (n_intval x) (n_recv x) (n_args x)
    (n_target x) (n_params x) (n_methodof x) (n_result x) (n_size x)
    (n_align x) v (n_tid x) (n_elem x) (n_ismut x) (n_fields x) (n_methods
    x) (n_hasinit x) (n_len x).
Definition set_n_tid (v : option sym_t) (x : node_t) : node_t :=
  mk_node (n_kind x) (n_flags x) (n_loc x) (n_type x) (n_nrefs x) (n_name x)
    (n_ref x) (n_init x) (n_isthis x) (n_op x) (n_expr x) (n_left x)
    (n_right x) (n_children x) (n_cond x) (n_thenb x) (n_elseb x) (n_start
    x) (n_end x) (n_body x) (n_value x) (n_intval x) (n_recv x) (n_args x)
    (n_target x) (n_params x) (n_methodof x) (n_result x) (n_size x)
    (n_align x) (n_isunsigned x) v (n_elem x) (n_ismut x) (n_fields x)
    (n_methods x) (n_hasinit x) (n_len x).
Definition set_n_elem (v : Z) (x : node_t) : node_t :=
  mk_node (n_kind x) (n_flags x) (n_loc x) (n_type x) (n_nrefs x) (n_name x)
    (n_ref x) (n_init x) (n_isthis x) (n_op x) (n_expr x) (n_left x)
    (n_right x) (n_children x) (n_cond x) (n_thenb x) (n_elseb x) (n_start
    x) (n_end x) (n_body x) (n_value x) (n_intval x) (n_recv x) (n_args x)
    (n_target x) (n_params x) (n_methodof x) (n_result x) (n_size x)
    (n_align x) (n_isunsigned x) (n_tid x) v (n_ismut x) (n_fields x)
    (n_methods x) (n_hasinit x) (n_len x).
Definition set_n_ismut (v : bool) (x : node_t) : node_t :=
  mk_node (n_kind x) (n_flags x) (n_loc x) (n_type x) (n_nrefs x) (n_name x)
    (n_ref x) (n_init x) (n_isthis x) (n_op x) (n_expr x) (n_left x)
    (n_right x) (n_children x) (n_cond x) (n_thenb x) (n_elseb x) (n_start
    x) (n_end x) (n_body x) (n_value x) (n_intval x) (n_recv x) (n_args x)
    (n_target x) (n_params x) (n_methodof x) (n_result x) (n_size x)
    (n_align x) (n_isunsigned x) (n_tid x) (n_elem x) v (n_fields x)
    (n_methods x) (n_hasinit x) (n_len x).
Definition set_n_fields (v : list Z) (x : node_t) : node_t :=
  mk_node (n_kind x) (n_flags x) (n_loc x) (n_type x) (n_nrefs x) (n_name x)
    (n_ref x) (n_init x) (n_isthis x) (n_op x) (n_expr x) (n_left x)
    (n_right x) (n_children x) (n_cond x) (n_thenb x) (n_elseb x) (n_start
    x) (n_end x) (n_body x) (n_value x) (n_intval x) (n_recv x) (n_args x)
    (n_target x) (n_params x) (n_methodof x) (n_result x) (n_size x)
    (n_align x) (n_isunsigned x) (n_tid x) (n_elem x) (n_ismut x) v
    (n_methods x) (n_hasinit x) (n_len x).
Definition set_n_methods (v : list Z) (x : node_t) : node_t :=
  mk_node (n_kind x) (n_flags x) (n_loc x) (n_type x) (n_nrefs x) (n_name x)
    (n_ref x) (n_init x) (n_isthis x) (n_op x) (n_expr x) (n_left x)
    (n_right x) (n_children x) (n_cond x) (n_thenb x) (n_elseb x) (n_start
    x) (n_end x) (n_body x) (n_value x) (n_intval x) (n_recv x) (n_args x)
    (n_target x) (n_params x) (n_methodof x) (n_result x) (n_size x)
    (n_align x) (n_isunsigned x) (n_tid x) (n_elem x) (n_ismut x) (n_fields
    x) v (n_hasinit x) (n_len x).
Definition set_n_hasinit (v : bool) (x : node_t) : node_t :=
  mk_node (n_kind x) (n_flags x) (n_loc x) (n_type x) (n_nrefs x) (n_name x)
    (n_ref x) (n_init x) (n_isthis x) (n_op x) (n_expr x) (n_left x)
    (n_right x) (n_children x) (n_cond x) (n_thenb x) (n_elseb x) (n_start
    x) (n_end x) (n_body x) (n_value x) (n_intval x) (n_recv x) (n_args x)
    (n_target x) (n_params x) (n_methodof x) (n_result x) (n_size x)
    (n_align x) (n_isunsigned x) (n_tid x) (n_elem x) (n_ismut x) (n_fields
    x) (n_methods x) v (n_len x).
Definition set_n_len (v : Z) (x : node_t) : node_t :=
  mk_node (n_kind x) (n_flags x) (n_loc x) (n_type x) (n_nrefs x) (n_name x)
    (n_ref x) (n_init x) (n_isthis x) (n_op x) (n_expr x) (n_left x)
    (n_right x) (n_children x) (n_cond x) (n_thenb x) (n_elseb x) (n_start
    x) (n_end x) (n_body x) (n_value x) (n_intval x) (n_recv x) (n_args x)
    (n_target x) (n_params x) (n_methodof x) (n_result x) (n_size x)
    (n_align x) (n_isunsigned x) (n_tid x) (n_elem x) (n_ismut x) (n_fields
    x) (n_methods x) (n_hasinit x) v.


(** Memory as [mem_alloc_zeroed] returns it. *)
Definition zero_node : node_t :=
  mk_node NODE_BAD 0 (mk_srcloc 0 0) 0 0 None 0 0 false TEOF 0 0 0 []
    0 0 0 0 0 0 0 0 0 [] 0 [] 0 0 0 0 false None 0 false [] [] false 0.

(** *** The store of nodes

    Address [a] > 0 is the node [nodes !! (a - 1)].  The first addresses
    hold the static nodes of [universe.c] and [parser.c]; the arena
    allocates after them. *)
Definition node_at (nodes : list node_t) (a : Z) : option node_t :=
  if 0 <? a then nodes !! Z.to_nat (a - 1) else None.

Definition node_put (nodes : list node_t) (a : Z) (n : node_t) : list node_t :=
  <[Z.to_nat (a - 1) := n]> nodes.

Definition type_void : Z := 1.
Definition type_unknown : Z := 2.
Definition type_bool : Z := 3.
Definition type_int : Z := 4.
Definition type_uint : Z := 5.
Definition type_i8 : Z := 6.
Definition type_i16 : Z := 7.
Definition type_i32 : Z := 8.
Definition type_i64 : Z := 9.
Definition type_u8 : Z := 10.
Definition type_u16 : Z := 11.
Definition type_u32 : Z := 12.
Definition type_u64 : Z := 13.
Definition type_f32 : Z := 14.
Definition type_f64 : Z := 15.
Definition const_true : Z := 16.
Definition const_false : Z := 17.
Definition last_resort_node : Z := 18.

(** [sym__] and [sym_this], the pre-interned symbols. *)
Definition sym__ : sym_t := "_"%string.
Definition sym_this : sym_t := "this"%string.

Section WithPrefix.

(** [TYPEID_PREFIX(kind)]: the byte that starts the type id of a kind. *)
Variable TYPEID_PREFIX : nodekind_t -> Z.

(** [DEFTYPE] of [universe.c]. *)
Definition DEFTYPE (kind : nodekind_t) (flags size : Z) (isunsigned : bool)
  : node_t :=
  set_n_kind kind (set_n_flags flags (set_n_size size (set_n_align size
    (set_n_isunsigned isunsigned
      (set_n_tid (Some (string_of_bytes [TYPEID_PREFIX kind])) zero_node))))).

(** The constants [true] and [false] are defined outside the sources at
    hand; they are boolean literals. *)
Definition DEFCONST (v : Z) : node_t :=
  set_n_kind EXPR_BOOLLIT (set_n_flags NF_CHECKED (set_n_type type_bool
    (set_n_intval v zero_node))).

Definition static_nodes : list node_t :=
  [ DEFTYPE TYPE_VOID NF_CHECKED 0 false;
    DEFTYPE TYPE_UNKNOWN NF_UNKNOWN 0 false;
    DEFTYPE TYPE_BOOL NF_CHECKED 1 true;
    DEFTYPE TYPE_INT NF_CHECKED 4 false;
    DEFTYPE TYPE_INT NF_CHECKED 4 true;
    DEFTYPE TYPE_I8 NF_CHECKED 1 false;
    DEFTYPE TYPE_I16 NF_CHECKED 2 false;
    DEFTYPE TYPE_I32 NF_CHECKED 4 false;
    DEFTYPE TYPE_I64 NF_CHECKED 8 false;
    DEFTYPE TYPE_I8 NF_CHECKED 1 true;
    DEFTYPE TYPE_I16 NF_CHECKED 2 true;
    DEFTYPE TYPE_I32 NF_CHECKED 4 true;
    DEFTYPE TYPE_I64 NF_CHECKED 8 true;
    DEFTYPE TYPE_F32 NF_CHECKED 4 false;
    DEFTYPE TYPE_F64 NF_CHECKED 8 false;
    DEFCONST 1;
    DEFCONST 0;
    zero_node ].

End WithPrefix.

End Ast.

(** ** A state monad with the ways a C function can fail to return

    [Panic]: the code called [panic].  [Fault]: the code would access memory
    through an invalid pointer or outside an array (undefined behaviour).
    [NoFuel]: the bound on recursion and loop turns that makes the model
    terminate was too small. *)

Inductive result (S A : Type) :=
  | Ok (a : A) (s : S)
  | Panic (s : S)
  | Fault
  | NoFuel.
Arguments Ok {S A} a s.
Arguments Panic {S A} s.
Arguments Fault {S A}.
Arguments NoFuel {S A}.

Definition M (S A : Type) : Type := S -> result S A.

Definition ret {S A} (a : A) : M S A := fun s => Ok a s.

Definition bind {S A B} (m : M S A) (k : A -> M S B) : M S B :=
  fun s =>
    match m s with
    | Ok a s' => k a s'
    | Panic s' => Panic s'
    | Fault => Fault
    | NoFuel => NoFuel
    end.

Definition get {S} : M S S := fun s => Ok s s.
Definition put {S} (s : S) : M S unit := fun _ => Ok tt s.
Definition modify {S} (f : S -> S) : M S unit := fun s => Ok tt (f s).
Definition panic {S A} : M S A := fun s => Panic s.
Definition fault {S A} : M S A := fun _ => Fault.
Definition nofuel {S A} : M S A := fun _ => NoFuel.

Definition when {S} (b : bool) (m : M S unit) : M S unit :=
  if b then m else ret tt.

Declare Scope monad_scope.
Delimit Scope monad_scope with monad.
Notation "x <- m ;; k" := (bind m (fun x => k))
  (at level 100, m at next level, right associativity,
   format "'[v' x  <-  m  ;;  '/' k ']'") : monad_scope.
Notation "m ;; k" := (bind m (fun _ => k))
  (at level 100, right associativity) : monad_scope.
Open Scope monad_scope.

(** ** [src/string.c]: [sfmtu64] *)

(** The digit characters of [sfmtu64]. *)
Definition sfmt_chars : list Z :=
  bytes_of_string "0123456789ABCDEFGHIJKLMNOPQRSTUVWXYZabcdefghijklmnopqrstuvwxyz".

(** The [do ... while (v)] loop: the digits, least significant first. *)
Fixpoint sfmtu64_loop (fuel : nat) (v base : Z) : list Z :=
  match fuel with
  | O => []
  | S fuel' =>
    let d := nth (Z.to_nat (v mod base)) sfmt_chars 0 in
    let v := v / base in
    if v =? 0 then [d] else d :: sfmtu64_loop fuel' v base
  end.

(** [sfmtu64(buf, v, base)]: the characters written to [buf]. *)
Definition sfmtu64 (v base : Z) : list Z :=
  let base := Z.min (Z.max base 2) 62 in
  rev (sfmtu64_loop 64 v base).

(** ** [src/typeid.c] *)

Module Typeid.
Import Ast.

Definition T (A : Type) : Type := M (list node_t) A.

Definition load (a : Z) : T node_t :=
  fun nodes => match node_at nodes a with
               | Some n => Ok n nodes
               | None => Fault
               end.

Definition store (a : Z) (n : node_t) : T unit :=
  fun nodes => match node_at nodes a with
               | Some _ => Ok tt (node_put nodes a n)
               | None => Fault
               end.

(** [buf_print_u32(buf, v, 16)] and [buf_print_u64(buf, v, 16)] are not in
    the sources at hand; they print with [sfmtu64]. *)
Definition write_u32 (buf : list Z) (v : Z) : list Z :=
  buf ++ sfmtu64 v 16 ++ [Scanner.ch ";"].

Definition write_u64 (buf : list Z) (v : Z) : list Z :=
  buf ++ sfmtu64 v 16 ++ [Scanner.ch ";"].

(** [strlen] of a symbol: the bytes before the first NUL. *)
Fixpoint strlen_bytes (l : list Z) : list Z :=
  match l with
  | [] => []
  | b :: l' => if b =? 0 then [] else b :: strlen_bytes l'
  end.

Definition cstr (s : sym_t) : list Z := strlen_bytes (bytes_of_string s).

Definition type_isprim (n : node_t) : bool := nodekind_isprimtype (n_kind n).

Section WithPrefix.

Variable TYPEID_PREFIX : nodekind_t -> Z.

Section Append.

(** The recursive call of [append]. *)
Variable append : list Z -> Z -> T (list Z).

Fixpoint append_types (buf : list Z) (locals : list Z) : T (list Z) :=
  match locals with
  | [] => ret buf
  | l :: locals' =>
    n <- load l ;;
    buf <- append buf (n_type n) ;;
    append_types buf locals'
  end.

Definition funtype (buf : list Z) (t : node_t) : T (list Z) :=
  let buf := write_u32 buf (u32 (Z.of_nat (length (n_params t)))) in
  buf <- append_types buf (n_params t) ;;
  append buf (n_result t).

Definition structtype (buf : list Z) (t : node_t) : T (list Z) :=
  let buf := write_u32 buf (u32 (Z.of_nat (length (n_fields t)))) in
  append_types buf (n_fields t).

Definition arraytype (buf : list Z) (t : node_t) : T (list Z) :=
  let buf := write_u64 buf (n_len t) in
  append buf (n_elem t).

Definition aliastype (buf : list Z) (t : node_t) : T (list Z) :=
  match n_name t with
  | None => fault
  | Some name =>
    let namelen := Z.of_nat (length (cstr name)) in
    let buf := write_u32 buf (u32 namelen) in
    ret (buf ++ cstr name)
  end.

Definition append_body (buf : list Z) (ta : Z) : T (list Z) :=
  t <- load ta ;;
  if type_isprim t then
    match n_tid t with
    | None => fault
    | Some tid => ret (buf ++ [hd 0 (bytes_of_string tid)])
    end
  else
    match n_tid t with
    | Some tid => ret (buf ++ cstr tid)
    | None =>
      let bufstart := length buf in
      let buf := buf ++ [TYPEID_PREFIX (n_kind t)] in
      buf <-
        match n_kind t with
        | TYPE_ARRAY => arraytype buf t
        | TYPE_FUN => funtype buf t
        | TYPE_OPTIONAL => append buf (n_elem t)
        | TYPE_STRUCT => structtype buf t
        | TYPE_ALIAS => aliastype buf t
        | TYPE_PTR | TYPE_REF | TYPE_MUTREF | TYPE_SLICE | TYPE_MUTSLICE =>
          append buf (n_elem t)
        | _ => ret buf
        end ;;
      t <- load ta ;;
      match n_tid t with
      | Some _ => ret buf
      | None =>
        store ta (set_n_tid (Some (sym_intern (drop bufstart buf))) t) ;;
        ret buf
      end
    end.

End Append.

Fixpoint append (fuel : nat) (buf : list Z) (ta : Z) : T (list Z) :=
  match fuel with
  | O => nofuel
  | S fuel' => append_body (append fuel') buf ta
  end.

(** [_typeid]: the type id of [t], computed once and kept in [t->tid]. *)
Definition _typeid (fuel : nat) (ta : Z) : T sym_t :=
  t <- load ta ;;
  match n_tid t with
  | Some tid => ret tid
  | None =>
    append fuel [] ta ;;
    t <- load ta ;;
    match n_tid t with
    | Some tid => ret tid
    | None => fault
    end
  end.

End WithPrefix.

(** Modelled from the spec: the prefix bytes of section 4.5 ([F] function,
    [S] struct, [A] array, [O] optional, [L] alias); the bytes of the
    other kinds are not given there and are chosen distinct. *)
Definition typeid_prefix (k : nodekind_t) : Z :=
  match k with
  | TYPE_FUN => Scanner.ch "F"
  | TYPE_STRUCT => Scanner.ch "S"
  | TYPE_ARRAY => Scanner.ch "A"
  | TYPE_OPTIONAL => Scanner.ch "O"
  | TYPE_ALIAS => Scanner.ch "L"
  | TYPE_PTR => Scanner.ch "P"
  | TYPE_REF => Scanner.ch "R"
  | TYPE_MUTREF => Scanner.ch "M"
  | TYPE_SLICE => Scanner.ch "s"
  | TYPE_MUTSLICE => Scanner.ch "m"
  | TYPE_VOID => Scanner.ch "v"
  | TYPE_BOOL => Scanner.ch "b"
  | TYPE_INT => Scanner.ch "i"
  | TYPE_I8 => Scanner.ch "1"
  | TYPE_I16 => Scanner.ch "2"
  | TYPE_I32 => Scanner.ch "4"
  | TYPE_I64 => Scanner.ch "8"
  | TYPE_F32 => Scanner.ch "f"
  | TYPE_F64 => Scanner.ch "d"
  | TYPE_UNKNOWN => Scanner.ch "u"
  | _ => Scanner.ch "?"
  end.

End Typeid.

(** ** [src/parser.c] *)

Module Parser.
Import Ast Scanner.

(** [prec_t] *)
Definition prec_t := Z.
Definition PREC_COMMA : prec_t := 0.
Definition PREC_ASSIGN : prec_t := 1.
Definition PREC_LOGICAL_OR : prec_t := 2.
Definition PREC_LOGICAL_AND : prec_t := 3.
Definition PREC_BITWISE_OR : prec_t := 4.
Definition PREC_BITWISE_XOR : prec_t := 5.
Definition PREC_BITWISE_AND : prec_t := 6.
Definition PREC_EQUAL : prec_t := 7.
Definition PREC_COMPARE : prec_t := 8.
Definition PREC_SHIFT : prec_t := 9.
Definition PREC_ADD : prec_t := 10.
Definition PREC_MUL : prec_t := 11.
Definition PREC_UNARY_PREFIX : prec_t := 12.
Definition PREC_UNARY_POSTFIX : prec_t := 13.
Definition PREC_MEMBER : prec_t := 14.
Definition PREC_LOWEST : prec_t := PREC_COMMA.

Definition exprflag_t := Z.

(** [parser_t].  [nodes] is the memory that holds the AST: the static nodes
    and, after them, the arena [ast_ma].  Allocation from the arena and from
    [p->ma] is taken to succeed, except where [scope.c] reports otherwise. *)
Record parser_t := mk_parser {
  scanner : scanner_t;
  scope : Scope.scope_t;
  pkgdefs : gmap string Z;
  methodmap : gmap Z (gmap string Z);
  typectx : Z;
  typectxstack : list Z;
  dotctx : Z;
  dotctxstack : list Z;
  fun_ : Z;
  nodes : list node_t
}.

Definition set_scanner (v : scanner_t) (x : parser_t) : parser_t :=
  mk_parser v (scope x) (pkgdefs x) (methodmap x) (typectx x) (typectxstack
    x) (dotctx x) (dotctxstack x) (fun_ x) (nodes x).
Definition set_scope (v : Scope.scope_t) (x : parser_t) : parser_t :=
  mk_parser (scanner x) v (pkgdefs x) (methodmap x) (typectx x)
    (typectxstack x) (dotctx x) (dotctxstack x) (fun_ x) (nodes x).
Definition set_pkgdefs (v : gmap string Z) (x : parser_t) : parser_t :=
  mk_parser (scanner x) (scope x) v (methodmap x) (typectx x) (typectxstack
    x) (dotctx x) (dotctxstack x) (fun_ x) (nodes x).
Definition set_methodmap (v : gmap Z (gmap string Z)) (x : parser_t) : parser_t :=
  mk_parser (scanner x) (scope x) (pkgdefs x) v (typectx x) (typectxstack x)
    (dotctx x) (dotctxstack x) (fun_ x) (nodes x).
Definition set_typectx (v : Z) (x : parser_t) : parser_t :=
  mk_parser (scanner x) (scope x) (pkgdefs x) (methodmap x) v (typectxstack
    x) (dotctx x) (dotctxstack x) (fun_ x) (nodes x).
Definition set_typectxstack (v : list Z) (x : parser_t) : parser_t :=
  mk_parser (scanner x) (scope x) (pkgdefs x) (methodmap x) (typectx x) v
    (dotctx x) (dotctxstack x) (fun_ x) (nodes x).
Definition set_dotctx (v : Z) (x : parser_t) : parser_t :=
  mk_parser (scanner x) (scope x) (pkgdefs x) (methodmap x) (typectx x)
    (typectxstack x) v (dotctxstack x) (fun_ x) (nodes x).
Definition set_dotctxstack (v : list Z) (x : parser_t) : parser_t :=
  mk_parser (scanner x) (scope x) (pkgdefs x) (methodmap x) (typectx x)
    (typectxstack x) (dotctx x) v (fun_ x) (nodes x).
Definition set_fun_ (v : Z) (x : parser_t) : parser_t :=
  mk_parser (scanner x) (scope x) (pkgdefs x) (methodmap x) (typectx x)
    (typectxstack x) (dotctx x) (dotctxstack x) v (nodes x).
Definition set_nodes (v : list node_t) (x : parser_t) : parser_t :=
  mk_parser (scanner x) (scope x) (pkgdefs x) (methodmap x) (typectx x)
    (typectxstack x) (dotctx x) (dotctxstack x) (fun_ x) v.


Definition P (A : Type) : Type := M parser_t A.

Definition U32_MAX : Z := 4294967295.

(** The package scope's parent: [universe()]. *)
Definition universe : gmap string Z :=
  list_to_map
    [ ("void"%string, type_void); ("bool"%string, type_bool);
      ("int"%string, type_int); ("uint"%string, type_uint);
      ("i8"%string, type_i8); ("i16"%string, type_i16);
      ("i32"%string, type_i32); ("i64"%string, type_i64);
      ("u8"%string, type_u8); ("u16"%string, type_u16);
      ("u32"%string, type_u32); ("u64"%string, type_u64);
      ("f32"%string, type_f32); ("f64"%string, type_f64);
      ("true"%string, const_true); ("false"%string, const_false) ].

(** *** Memory *)

Definition load (a : Z) : P node_t :=
  fun p => match node_at (nodes p) a with
           | Some n => Ok n p
           | None => Fault
           end.

Definition store (a : Z) (n : node_t) : P unit :=
  fun p => match node_at (nodes p) a with
           | Some _ => Ok tt (set_nodes (node_put (nodes p) a n) p)
           | None => Fault
           end.

Definition upd (a : Z) (f : node_t -> node_t) : P unit :=
  n <- load a ;; store a (f n).

(** [mem_alloc_zeroed] followed by the initialisation [init]. *)
Definition alloc (init : node_t) : P Z :=
  fun p => Ok (Z.of_nat (length (nodes p)) + 1) (set_nodes (nodes p ++ [init]) p).

(** A computation of [typeid.c] run on the parser's memory. *)
Definition liftT {A} (t : Typeid.T A) : P A :=
  fun p => match t (nodes p) with
           | Ok a nodes' => Ok a (set_nodes nodes' p)
           | Panic nodes' => Panic (set_nodes nodes' p)
           | Fault => Fault
           | NoFuel => NoFuel
           end.

Definition kind_of (a : Z) : P nodekind_t := n <- load a ;; ret (n_kind n).
Definition type_of (a : Z) : P Z := n <- load a ;; ret (n_type n).

Definition node_isexpr (n : node_t) : bool := nodekind_isexpr (n_kind n).
Definition node_istype (n : node_t) : bool := nodekind_istype (n_kind n).
Definition node_isusertype (n : node_t) : bool := nodekind_isusertype (n_kind n).
Definition type_isopt (n : node_t) : bool := kind_eqb (n_kind n) TYPE_OPTIONAL.

(** *** The environment of the parser *)

Section WithEnv.

Variable keywordtab : list (string * tok_t).
Variable TYPEID_PREFIX : nodekind_t -> Z.
(** [buf_print_leb128_u32]: the bytes it appends. *)
Variable buf_print_leb128_u32 : Z -> list Z.
(** [types_iscompat(x, y)], given the memory. *)
Variable types_iscompat : list node_t -> Z -> Z -> bool.
(** [strtof] and [strtod]: the offset of [endptr] in the string and whether
    the value is [HUGE_VALF], [HUGE_VAL]. *)
Variable strtof : list Z -> Z * bool.
Variable strtod : list Z -> Z * bool.

Definition u64log10 (u : Z) : Z :=
  let fix loop (fuel : nat) (w x : Z) : Z :=
    match fuel with
    | O => w
    | S fuel' =>
      if w >? 1 then
        if u >=? x then w else loop fuel' (w - 1) (x / 10)
      else w
    end in
  loop 20%nat 20 10000000000000000000.

Definition currtok : P tok_t := fun p => Ok (tok (scanner p)) p.
Definition currloc : P srcloc_t := fun p => Ok (loc (scanner p)) p.

Definition next : P unit :=
  modify (fun p => set_scanner (scanner_next keywordtab (scanner p)) p).

(** [save_scanstate], [restore_scanstate]: [scanstate_t] is the leading
    part of [scanner_t]; it is taken to hold every field but the pointer to
    the compiler, whose diagnostics are therefore not rolled back. *)
Definition save_scanstate : P scanner_t := fun p => Ok (scanner p) p.
Definition restore_scanstate (state : scanner_t) : P unit :=
  modify (fun p => set_scanner (set_compiler (compiler (scanner p)) state) p).

Definition lookahead_issym (sym0 : sym_t) : P bool :=
  scanstate <- save_scanstate ;;
  next ;;
  t <- currtok ;;
  p <- get ;;
  let ok := tok_eqb t TID && String.eqb (sym (scanner p)) sym0 in
  restore_scanstate scanstate ;;
  ret ok.

Definition tok_in (t : tok_t) (l : list tok_t) : bool :=
  existsb (tok_eqb t) l.

(** [fastforward]; [stoplist] without its terminating [0]. *)
Fixpoint fastforward (fuel : nat) (stoplist : list tok_t) : P unit :=
  match fuel with
  | O => nofuel
  | S fuel' =>
    t <- currtok ;;
    if tok_eqb t TEOF then ret tt
    else if tok_in t stoplist then ret tt
    else (next ;; fastforward fuel' stoplist)
  end.

Definition node_srcrange (n : Z) : P srcrange_t :=
  x <- load n ;;
  let l := n_loc x in
  match n_kind x with
  | EXPR_INTLIT =>
    ret (mk_srcrange l l (mk_srcloc (line l) (u32 (col l + u64log10 (n_intval x)))))
  | EXPR_ID =>
    match n_name x with
    | None => fault
    | Some name =>
      ret (mk_srcrange l l
             (mk_srcloc (line l) (u32 (col l + Z.of_nat (length (Typeid.cstr name))))))
    end
  | _ => ret (mk_srcrange l l (mk_srcloc 0 0))
  end.

Definition report (r : srcrange_t) (k : diagkind_t) (m : diagmsg) : P unit :=
  modify (fun p =>
    let s := scanner p in
    set_scanner (set_compiler (report_diagv (compiler s) r k m) s) p).

(** The test that opens [error] and [error1]: nothing is reported once the
    scanner is at the end of its input. *)
Definition at_eof : P bool :=
  fun p => Ok ((inp (scanner p) =? inend (scanner p))
               && tok_eqb (tok (scanner p)) TEOF) p.

Definition error1 (srcrange : srcrange_t) (m : diagmsg) : P unit :=
  eof <- at_eof ;;
  if eof then ret tt else report srcrange DIAG_ERR m.

Definition srcrange_of (n : Z) : P srcrange_t :=
  if n =? 0 then (l <- currloc ;; ret (focus_range l)) else node_srcrange n.

Definition error (n : Z) (m : diagmsg) : P unit :=
  eof <- at_eof ;;
  if eof then ret tt
  else (srcrange <- srcrange_of n ;; report srcrange DIAG_ERR m).

Definition warning (n : Z) (m : diagmsg) : P unit :=
  srcrange <- srcrange_of n ;; report srcrange DIAG_WARN m.

Definition out_of_mem : P unit :=
  error 0 MsgOutOfMemory ;;
  modify (fun p => set_scanner (set_inp (inend (scanner p)) (scanner p)) p).

Definition currlit : P string :=
  fun p => Ok (string_of_bytes (scanner_lit (scanner p))) p.

Definition unexpected (errmsg : string) : P unit :=
  t <- currtok ;;
  lit <- currlit ;;
  error 0 (MsgUnexpected t lit errmsg).

Definition expect_fail (expecttok : tok_t) (errmsg : string) : P unit :=
  t <- currtok ;;
  lit <- currlit ;;
  error 0 (MsgExpected expecttok errmsg t lit).

Definition expect_token (expecttok : tok_t) (errmsg : string) : P bool :=
  t <- currtok ;;
  let ok := tok_eqb t expecttok in
  when (negb ok) (expect_fail expecttok errmsg) ;;
  ret ok.

Definition expect (expecttok : tok_t) (errmsg : string) : P bool :=
  ok <- expect_token expecttok errmsg ;;
  next ;;
  ret ok.

Section WithFuel.

(** The bound on the turns of each loop. *)
Variable fuel : nat.

Definition fastforward_semi : P unit := fastforward fuel [TSEMI].

Definition expect2 (t0 : tok_t) (errmsg : string) : P bool :=
  t <- currtok ;;
  if tok_eqb t t0 then (next ;; ret true)
  else
    unexpected errmsg ;;
    fastforward fuel [t0; TSEMI] ;;
    t <- currtok ;;
    when (tok_eqb t t0) next ;;
    ret false.

Definition _mknode (kind : nodekind_t) : P Z :=
  l <- currloc ;;
  alloc (set_n_kind kind (set_n_loc l zero_node)).

Definition _mkexpr (kind : nodekind_t) (fl : exprflag_t) : P Z :=
  n <- _mknode kind ;;
  upd n (fun x => set_n_type type_void (set_n_flags fl x)) ;;
  ret n.

Definition mkbad : P Z :=
  n <- _mknode NODE_BAD ;;
  upd n (set_n_type type_void) ;;
  ret n.

Definition the_ptrsize : P Z := fun p => Ok (ptrsize (compiler (scanner p))) p.

Definition mkreftype (ismut : bool) : P Z :=
  t <- _mknode TYPE_REF ;;
  sz <- the_ptrsize ;;
  upd t (fun x => set_n_ismut ismut (set_n_align sz (set_n_size sz x))) ;;
  ret t.

(** [CLONE_NODE]: a copy of the node in fresh memory. *)
Definition CLONE_NODE (n : Z) : P Z := x <- load n ;; alloc x.

Definition clone_node (n : Z) : P Z :=
  k <- kind_of n ;;
  match k with
  | EXPR_FIELD | EXPR_PARAM | EXPR_LET | EXPR_VAR => CLONE_NODE n
  | _ => panic
  end.

(** *** Scopes *)

Definition scope_define (name : sym_t) (n : Z) : P bool :=
  fun p =>
    match Scope.scope_def Scope.resize_zero (scope p) (sym_addr name) n with
    | None => Fault
    | Some (ok, s') => Ok ok (set_scope s' p)
    end.

Definition enter_scope : P unit :=
  ok <- (fun p =>
          match Scope.scope_push Scope.resize_zero (scope p) with
          | None => Fault
          | Some (ok, s') => Ok ok (set_scope s' p)
          end) ;;
  when (negb ok) out_of_mem.

Definition leave_scope : P unit :=
  fun p =>
    match Scope.scope_pop (scope p) with
    | None => Fault
    | Some s' => Ok tt (set_scope s' p)
    end.

Definition scope_lookup (name : sym_t) (maxdepth : Z) : P Z :=
  fun p =>
    match Scope.scope_lookup (scope p) (sym_addr name) maxdepth with
    | None => Fault
    | Some n => Ok n p
    end.

(** [map_lookup(&p->pkgdefs, ...)]: the package map, then its parent. *)
Definition pkgdefs_lookup (name : sym_t) : P (option Z) :=
  fun p =>
    Ok (match pkgdefs p !! name with
        | Some n => Some n
        | None => universe !! name
        end) p.

Definition lookup (name : sym_t) : P Z :=
  n <- scope_lookup name U32_MAX ;;
  n <- (if n =? 0 then
          vp <- pkgdefs_lookup name ;;
          ret (match vp with Some n => n | None => 0 end)
        else ret n) ;;
  if n =? 0 then ret 0
  else
    x <- load n ;;
    when (node_isexpr x || node_isusertype x)
      (store n (set_n_nrefs (u32 (n_nrefs x + 1)) x)) ;;
    ret n.

Definition scope_istoplevel : P bool :=
  fun p => Ok (Scope.scope_istoplevel (scope p)) p.

Definition define_replace (name : sym_t) (n : Z) : P unit :=
  ok <- scope_define name n ;;
  when (negb ok) out_of_mem ;;
  top <- scope_istoplevel ;;
  when top (modify (fun p => set_pkgdefs (<[name := n]> (pkgdefs p)) p)).

Definition define (name : sym_t) (n : Z) : P unit :=
  if String.eqb name sym__ then ret tt
  else
    existing <- scope_lookup name 0 ;;
    if negb (existing =? 0) then error n (MsgRedefinition name)
    else
      ok <- scope_define name n ;;
      when (negb ok) out_of_mem ;;
      top <- scope_istoplevel ;;
      if top then
        p <- get ;;
        match pkgdefs p !! name with
        | Some v =>
          if negb (v =? 0) then error n (MsgRedefinition name)
          else modify (fun p => set_pkgdefs (<[name := n]> (pkgdefs p)) p)
        | None => modify (fun p => set_pkgdefs (<[name := n]> (pkgdefs p)) p)
        end
      else ret tt.

(** *** Small helpers *)

Definition push_children (n child : Z) : P unit :=
  upd n (fun x => set_n_children (n_children x ++ [child]) x).
Definition push_fields (n child : Z) : P unit :=
  upd n (fun x => set_n_fields (n_fields x ++ [child]) x).
Definition push_methods (n child : Z) : P unit :=
  upd n (fun x => set_n_methods (n_methods x ++ [child]) x).
Definition push_args (n child : Z) : P unit :=
  upd n (fun x => set_n_args (n_args x ++ [child]) x).
Definition push_params (n child : Z) : P unit :=
  upd n (fun x => set_n_params (n_params x ++ [child]) x).

Definition typectx_push (t : Z) : P unit :=
  modify (fun p => set_typectx t (set_typectxstack (typectxstack p ++ [typectx p]) p)).

Definition typectx_pop : P unit :=
  fun p =>
    match last (typectxstack p) with
    | None => Fault
    | Some t =>
      Ok tt (set_typectx t (set_typectxstack (removelast (typectxstack p)) p))
    end.

Definition dotctx_push (n : Z) : P unit :=
  modify (fun p => set_dotctx n (set_dotctxstack (dotctxstack p ++ [dotctx p]) p)).

Definition dotctx_pop : P unit :=
  fun p =>
    match last (dotctxstack p) with
    | None => Fault
    | Some n =>
      Ok tt (set_dotctx n (set_dotctxstack (removelast (dotctxstack p)) p))
    end.

Definition compat (x y : Z) : P bool :=
  fun p => Ok (types_iscompat (nodes p) x y) p.

Definition check_types_compat (x y origin : Z) : P bool :=
  if negb (x =? 0) && negb (y =? 0) then
    c <- compat x y ;;
    if negb c then (error origin (MsgIncompatibleTypes x y) ;; ret false)
    else ret true
  else ret true.

Definition named_type (name : sym_t) (origin : Z) : P Z :=
  ref <- lookup name ;;
  if ref =? 0 then (error origin (MsgUnknownType name) ;; ret type_void)
  else
    x <- load ref ;;
    if negb (node_istype x) then (error origin (MsgNotAType name) ;; ret type_void)
    else ret ref.

Definition cursym : P sym_t := fun p => Ok (sym (scanner p)) p.

Definition type_id : P Z :=
  name <- cursym ;;
  t <- named_type name 0 ;;
  next ;;
  ret t.

Definition lookup_method (recv : Z) (name : sym_t) : P Z :=
  fun p =>
    match methodmap p !! recv with
    | None => Ok 0 p
    | Some mm =>
      match mm !! name with
      | None => Ok 0 p
      | Some m => Ok m p
      end
    end.

Fixpoint lookup_field_in (fields : list Z) (name : sym_t) : P Z :=
  match fields with
  | [] => ret 0
  | f :: fields' =>
    x <- load f ;;
    if bool_decide (n_name x = Some name) then ret f
    else lookup_field_in fields' name
  end.

Definition lookup_struct_field (st : Z) (name : sym_t) : P Z :=
  x <- load st ;;
  lookup_field_in (n_fields x) name.

Definition lookup_member (recv : Z) (name : sym_t) : P Z :=
  k <- kind_of recv ;;
  field <- (if kind_eqb k TYPE_STRUCT then lookup_struct_field recv name else ret 0) ;;
  if negb (field =? 0) then ret field else lookup_method recv name.

Definition set_fields_type_from (st : Z) (start : nat) (t : Z) : P unit :=
  x <- load st ;;
  (fix go (l : list Z) : P unit :=
     match l with
     | [] => ret tt
     | f :: l' => upd f (set_n_type t) ;; go l'
     end) (drop start (n_fields x)).

(** *** Parselets

    [expr] and [type] below stand for the recursive calls of the functions
    of these names; the definitions of the two functions close the
    recursion further down. *)

Section Parselets.

Variable expr : prec_t -> exprflag_t -> P Z.
Variable type : prec_t -> P Z.

Record expr_parselet_t := mk_expr_parselet {
  e_prefix : option (exprflag_t -> P Z);
  e_infix : option (prec_t -> Z -> exprflag_t -> P Z);
  e_prec : prec_t
}.

Record type_parselet_t := mk_type_parselet {
  t_prefix : option (P Z);
  t_infix : option (prec_t -> Z -> P Z);
  t_prec : prec_t
}.

Record stmt_parselet_t := mk_stmt_parselet {
  s_prefix : option (P Z);
  s_infix : option (prec_t -> Z -> P Z);
  s_prec : prec_t
}.

Definition type_ptr : P Z :=
  t <- _mknode TYPE_PTR ;;
  next ;;
  sz <- the_ptrsize ;;
  upd t (fun x => set_n_align sz (set_n_size sz x)) ;;
  elem <- type PREC_UNARY_PREFIX ;;
  upd t (set_n_elem elem) ;;
  ret t.

Definition type_ref1 (ismut : bool) : P Z :=
  t <- mkreftype ismut ;;
  next ;;
  elem <- type PREC_UNARY_PREFIX ;;
  upd t (set_n_elem elem) ;;
  ret t.

Definition type_ref : P Z := type_ref1 false.

Definition type_mut : P Z :=
  next ;;
  t <- currtok ;;
  if negb (tok_eqb t TAND) then (unexpected "expecting '&'" ;; mkbad)
  else type_ref1 true.

Definition type_optional : P Z :=
  t <- _mknode TYPE_OPTIONAL ;;
  next ;;
  elem <- type PREC_UNARY_PREFIX ;;
  upd t (set_n_elem elem) ;;
  ret t.

Definition resolve_id (n : Z) : P bool :=
  x <- load n ;;
  match n_name x with
  | None => fault
  | Some name =>
    ref <- lookup name ;;
    upd n (set_n_ref ref) ;;
    if ref =? 0 then (error n (MsgUndeclared name) ;; ret false)
    else
      r <- load ref ;;
      if node_isexpr r then (upd n (set_n_type (n_type r)) ;; ret true)
      else if nodekind_istype (n_kind r) then (upd n (set_n_type ref) ;; ret true)
      else (error n (MsgCannotUseAsExpr ref name) ;; ret false)
  end.

Definition expr_id (fl : exprflag_t) : P Z :=
  n <- _mkexpr EXPR_ID fl ;;
  name <- cursym ;;
  upd n (set_n_name (Some name)) ;;
  next ;;
  resolve_id n ;;
  ret n.

Definition expr_var (fl : exprflag_t) : P Z :=
  t <- currtok ;;
  n <- _mkexpr (if tok_eqb t TLET then EXPR_LET else EXPR_VAR) fl ;;
  next ;;
  t <- currtok ;;
  if negb (tok_eqb t TID) then (unexpected "expecting identifier" ;; mkbad)
  else
    name <- cursym ;;
    upd n (set_n_name (Some name)) ;;
    next ;;
    t <- currtok ;;
    ok <-
      (if tok_eqb t TASSIGN then
         next ;;
         typectx_push type_void ;;
         init <- expr PREC_ASSIGN (Z.lor fl EX_RVALUE) ;;
         upd n (set_n_init init) ;;
         typectx_pop ;;
         ty <- type_of init ;;
         upd n (set_n_type ty) ;;
         ret true
       else
         ty <- type PREC_LOWEST ;;
         upd n (set_n_type ty) ;;
         t <- currtok ;;
         if tok_eqb t TASSIGN then
           next ;;
           typectx_push ty ;;
           init <- expr PREC_ASSIGN (Z.lor fl EX_RVALUE) ;;
           upd n (set_n_init init) ;;
           typectx_pop ;;
           ity <- type_of init ;;
           check_types_compat ty ity init
         else ret true) ;;
    define name n ;;
    x <- load n ;;
    (if (n_init x =? 0) && ok then
       if kind_eqb (n_kind x) EXPR_LET then error 0 MsgMissingLetValue
       else
         tk <- kind_of (n_type x) ;;
         when (kind_eqb tk TYPE_REF) (error 0 MsgMissingRefInit)
     else ret tt) ;;
    ret n.

Fixpoint clear_rvalue (k : nat) (n : Z) : P unit :=
  match k with
  | O => nofuel
  | S k' =>
    upd n (fun x => set_n_flags (clear_flag (n_flags x) EX_RVALUE) x) ;;
    x <- load n ;;
    match n_kind x with
    | EXPR_IF =>
      clear_rvalue k' (n_thenb x) ;;
      x <- load n ;;
      when (negb (n_elseb x =? 0)) (clear_rvalue k' (n_elseb x))
    | EXPR_BLOCK =>
      (fix go (l : list Z) : P unit :=
         match l with
         | [] => ret tt
         | c :: l' => clear_rvalue k' c ;; go l'
         end) (n_children x)
    | _ => ret tt
    end
  end.

(** The [for (;;)] loop of [block]; the result is [exit_expr_index]. *)
Fixpoint block_loop (k : nat) (n : Z) (fl : exprflag_t)
    (exit_expr_index : Z) (reported_unreachable : bool) : P Z :=
  match k with
  | O => nofuel
  | S k' =>
    cn <- expr PREC_LOWEST fl ;;
    push_children n cn ;;
    x <- load n ;;
    st <-
      (if has_flag (n_flags x) EX_EXITS then
         if negb reported_unreachable then
           (warning cn MsgUnreachable ;; ret (exit_expr_index, true))
         else ret (exit_expr_index, reported_unreachable)
       else
         ck <- kind_of cn ;;
         if kind_eqb ck EXPR_RETURN then
           x <- load n ;;
           store n (set_n_flags (Z.lor (n_flags x) EX_EXITS) x) ;;
           ret (u32 (Z.of_nat (length (n_children x)) - 1), reported_unreachable)
         else ret (exit_expr_index, reported_unreachable)) ;;
    let exit_expr_index := fst st in
    let reported_unreachable := snd st in
    t <- currtok ;;
    if negb (tok_eqb t TSEMI) then ret exit_expr_index
    else
      next ;;
      t <- currtok ;;
      if tok_eqb t TRBRACE || tok_eqb t TEOF then ret exit_expr_index
      else
        clear_rvalue fuel cn ;;
        block_loop k' n fl exit_expr_index reported_unreachable
  end.

Definition block (fl : exprflag_t) : P Z :=
  n <- _mkexpr EXPR_BLOCK fl ;;
  next ;;
  let isrvalue := has_flag fl EX_RVALUE in
  let fl := clear_flag fl EX_RVALUE in
  t <- currtok ;;
  exit_expr_index <-
    (if negb (tok_eqb t TRBRACE) && negb (tok_eqb t TEOF)
     then block_loop fuel n fl 0 false
     else ret 0) ;;
  expect2 TRBRACE ", expected '}' or ';'" ;;
  x <- load n ;;
  (if negb isrvalue && (0 <? Z.of_nat (length (n_children x))) then
     let index :=
       if has_flag (n_flags x) EX_EXITS then exit_expr_index
       else u32 (Z.of_nat (length (n_children x)) - 1) in
     match n_children x !! Z.to_nat index with
     | None => fault
     | Some c => clear_rvalue fuel c
     end
   else ret tt) ;;
  ret n.

Definition any_as_block (fl : exprflag_t) : P Z :=
  t <- currtok ;;
  if tok_eqb t TLBRACE then block fl
  else
    n <- _mkexpr EXPR_BLOCK fl ;;
    cn <- expr PREC_COMMA fl ;;
    push_children n cn ;;
    ret n.

Definition expr_block (fl : exprflag_t) : P Z :=
  enter_scope ;;
  n <- block fl ;;
  leave_scope ;;
  ret n.

Definition check_if_cond (cond : Z) : P Z :=
  c <- load cond ;;
  ct <- load (n_type c) ;;
  if kind_eqb (n_kind ct) TYPE_BOOL then ret 0
  else if negb (type_isopt ct) then (error cond MsgCondNotBool ;; ret 0)
  else
    let opt_elem := n_elem ct in
    match n_kind c with
    | EXPR_ID =>
      r <- load (n_ref c) ;;
      if negb (node_isexpr r) then (error cond MsgCondNotExpr ;; ret 0)
      else
        id2 <- CLONE_NODE cond ;;
        upd id2 (set_n_type opt_elem) ;;
        ref2 <- clone_node (n_ref c) ;;
        upd ref2 (fun x =>
          set_n_type opt_elem
            (set_n_flags (Z.lor (n_flags x) EX_SHADOWS_OPTIONAL) x)) ;;
        match n_name c with
        | None => fault
        | Some name => define_replace name ref2 ;; ret id2
        end
    | EXPR_LET | EXPR_VAR =>
      upd cond (fun x =>
        set_n_flags (Z.lor (n_flags x) EX_OPTIONAL) (set_n_type opt_elem x)) ;;
      ret 0
    | _ => ret 0
    end.

(** The [while] loop that ends [expr_if]: follow identifiers to the
    binding they name. *)
Fixpoint if_dst (k : nat) (dst : Z) : P Z :=
  match k with
  | O => nofuel
  | S k' =>
    d <- load dst ;;
    if kind_eqb (n_kind d) EXPR_ID then
      r <- load (n_ref d) ;;
      if node_isexpr r then if_dst k' (n_ref d) else ret dst
    else ret dst
  end.

Definition expr_if (fl : exprflag_t) : P Z :=
  n <- _mkexpr EXPR_IF fl ;;
  next ;;
  enter_scope ;;
  cond <- expr PREC_COMMA (Z.lor fl EX_RVALUE) ;;
  upd n (set_n_cond cond) ;;
  type_narrowed_binding <- check_if_cond cond ;;
  enter_scope ;;
  thenb <- any_as_block fl ;;
  upd n (set_n_thenb thenb) ;;
  leave_scope ;;
  t <- currtok ;;
  when (tok_eqb t TELSE)
    (next ;;
     enter_scope ;;
     elseb <- any_as_block fl ;;
     upd n (set_n_elseb elseb) ;;
     leave_scope) ;;
  leave_scope ;;
  when (negb (type_narrowed_binding =? 0))
    (x <- load n ;;
     dst <- if_dst fuel (n_cond x) ;;
     b <- load type_narrowed_binding ;;
     upd dst (fun d => set_n_nrefs (u32 (n_nrefs d + n_nrefs b)) d)) ;;
  ret n.

Definition expr_for (fl : exprflag_t) : P Z :=
  n <- _mkexpr EXPR_FOR fl ;;
  next ;;
  t <- currtok ;;
  let paren := tok_eqb t TLPAREN in
  when paren next ;;
  t <- currtok ;;
  (if tok_eqb t TSEMI then
     next ;;
     c <- expr PREC_COMMA fl ;;
     upd n (set_n_cond c) ;;
     expect TSEMI "" ;;
     next ;;
     e <- expr PREC_COMMA fl ;;
     upd n (set_n_end e)
   else
     c <- expr PREC_COMMA fl ;;
     upd n (set_n_cond c) ;;
     t <- currtok ;;
     when (tok_eqb t TSEMI)
       (next ;;
        upd n (fun x => set_n_start (n_cond x) x) ;;
        c <- expr PREC_COMMA fl ;;
        upd n (set_n_cond c) ;;
        expect TSEMI "" ;;
        e <- expr PREC_COMMA fl ;;
        upd n (set_n_end e))) ;;
  when paren (expect TRPAREN "" ;; ret tt) ;;
  b <- expr PREC_COMMA fl ;;
  upd n (set_n_body b) ;;
  ret n.

Definition expr_return (fl : exprflag_t) : P Z :=
  n <- _mkexpr EXPR_RETURN (Z.lor fl EX_RVALUE_CHECKED) ;;
  next ;;
  t <- currtok ;;
  if tok_eqb t TSEMI then ret n
  else
    v <- expr PREC_COMMA (Z.lor fl EX_RVALUE) ;;
    upd n (set_n_value v) ;;
    ty <- type_of v ;;
    upd n (set_n_type ty) ;;
    ret n.

(** The arithmetic of [select_int_type]: the type selected for the literal
    and whether the overflow error is reported.  [ctx] is [p->typectx],
    [kind] and [u] its [kind] and [isunsigned]. *)
Definition select_int_type_core (ctx : Z) (kind : nodekind_t) (u : bool)
    (intval isneg : Z) : Z * bool :=
  let uintval := intval in
  let uintval :=
    if negb (isneg =? 0)
    then u64 (Z.land uintval (Z.lnot 1152921504606846976))
    else uintval in
  let check (type maxval : Z) := (type, uintval >? maxval) in
  match kind with
  | TYPE_I8 => check ctx (if u then 255 else u64 (127 + isneg))
  | TYPE_I16 => check ctx (if u then 65535 else u64 (32767 + isneg))
  | TYPE_I32 => check ctx (if u then 4294967295 else u64 (2147483647 + isneg))
  | TYPE_I64 =>
    check ctx (if u then 18446744073709551615 else u64 (9223372036854775807 + isneg))
  | _ =>
    if negb (isneg =? 0) then
      if uintval <=? 2147483648 then (type_int, false)
      else if uintval <=? 9223372036854775808 then (type_i64, false)
      else check type_i64 9223372036854775808
    else
      if intval <=? 2147483647 then (type_int, false)
      else if intval <=? 9223372036854775807 then (type_i64, false)
      else check type_u64 18446744073709551615
  end.

Definition select_int_type (n : Z) (isneg : Z) : P Z :=
  p <- get ;;
  ctx <- load (typectx p) ;;
  x <- load n ;;
  let r := select_int_type_core (typectx p) (n_kind ctx) (n_isunsigned ctx)
             (n_intval x) isneg in
  when (snd r)
    (lit <- currlit ;;
     error n (MsgIntOverflow (negb (isneg =? 0)) lit (fst r))) ;;
  ret (fst r).

Definition intlit (fl : exprflag_t) (isneg : bool) : P Z :=
  n <- _mkexpr EXPR_INTLIT (Z.lor (Z.lor fl EX_RVALUE_CHECKED) EX_ANALYZED) ;;
  p <- get ;;
  upd n (set_n_intval (litint (scanner p))) ;;
  ty <- select_int_type n (if isneg then 1 else 0) ;;
  upd n (set_n_type ty) ;;
  next ;;
  ret n.

(** [floatlit]; the value of the literal is not represented. *)
Definition floatlit (fl : exprflag_t) (isneg : bool) : P Z :=
  n <- _mkexpr EXPR_FLOATLIT (Z.lor (Z.lor fl EX_RVALUE_CHECKED) EX_ANALYZED) ;;
  when isneg
    (modify (fun p =>
       set_scanner (set_litbuf (<[0%nat := ch "-"]> (litbuf (scanner p)))
                      (scanner p)) p)) ;;
  p <- get ;;
  let chars := litbuf (scanner p) in
  (if typectx p =? type_f32 then
     upd n (set_n_type type_f32) ;;
     let r := strtof chars in
     if negb (fst r =? Z.of_nat (length chars)) then error n MsgInvalidFloat
     else when (snd r) (error n MsgFloat32TooLarge)
   else
     upd n (set_n_type type_f64) ;;
     let r := strtod chars in
     if negb (fst r =? Z.of_nat (length chars)) then error n MsgInvalidFloat
     else when (snd r) (error n MsgFloat64TooLarge)) ;;
  next ;;
  ret n.

Definition expr_intlit (fl : exprflag_t) : P Z := intlit fl false.
Definition expr_floatlit (fl : exprflag_t) : P Z := floatlit fl false.

(** [expr_prefix_op].  The calls of [intlit] and [floatlit] pass
    [n->op == TMINUS] where the flags are expected and [fl] where [isneg]
    is expected, as the source does. *)
Definition expr_prefix_op (fl : exprflag_t) : P Z :=
  n <- _mkexpr EXPR_PREFIXOP fl ;;
  op <- currtok ;;
  upd n (set_n_op op) ;;
  next ;;
  let fl := Z.lor fl EX_RVALUE in
  t <- currtok ;;
  e <-
    match t with
    | TINTLIT => intlit (if tok_eqb op TMINUS then 1 else 0) (negb (fl =? 0))
    | TFLOATLIT => floatlit (if tok_eqb op TMINUS then 1 else 0) (negb (fl =? 0))
    | _ => expr PREC_UNARY_PREFIX fl
    end ;;
  upd n (set_n_expr e) ;;
  ty <- type_of e ;;
  upd n (set_n_type ty) ;;
  ret n.

Definition expr_infix_op (prec : prec_t) (left : Z) (fl : exprflag_t) : P Z :=
  n <- _mkexpr EXPR_BINOP fl ;;
  op <- currtok ;;
  upd n (set_n_op op) ;;
  next ;;
  upd left (fun x => set_n_flags (Z.lor (n_flags x) EX_RVALUE) x) ;;
  upd n (set_n_left left) ;;
  lt <- type_of left ;;
  typectx_push lt ;;
  right <- expr prec (Z.lor fl EX_RVALUE) ;;
  upd n (set_n_right right) ;;
  typectx_pop ;;
  lt <- type_of left ;;
  upd n (set_n_type lt) ;;
  ret n.

Definition expr_cmp_op (prec : prec_t) (left : Z) (fl : exprflag_t) : P Z :=
  n <- expr_infix_op prec left fl ;;
  upd n (set_n_type type_bool) ;;
  ret n.

Fixpoint expr_isstorage (k : nat) (n : Z) : P bool :=
  match k with
  | O => nofuel
  | S k' =>
    x <- load n ;;
    match n_kind x with
    | EXPR_ID =>
      if n_ref x =? 0 then ret false
      else
        r <- load (n_ref x) ;;
        if nodekind_isexpr (n_kind r) then expr_isstorage k' (n_ref x)
        else ret false
    | EXPR_MEMBER | EXPR_PARAM | EXPR_LET | EXPR_VAR | EXPR_FUN | EXPR_DEREF =>
      ret true
    | _ => ret false
    end
  end.

Fixpoint expr_ismut (k : nat) (n : Z) : P bool :=
  match k with
  | O => nofuel
  | S k' =>
    x <- load n ;;
    match n_kind x with
    | EXPR_ID =>
      if n_ref x =? 0 then ret false
      else
        r <- load (n_ref x) ;;
        if nodekind_isexpr (n_kind r) then expr_ismut k' (n_ref x)
        else ret false
    | EXPR_MEMBER =>
      a <- expr_ismut k' (n_target x) ;;
      if a then expr_ismut k' (n_recv x) else ret false
    | EXPR_PARAM | EXPR_VAR => ret true
    | _ => ret false
    end
  end.

Definition postfix_op (prec : prec_t) (left : Z) (fl : exprflag_t) : P Z :=
  n <- _mkexpr EXPR_POSTFIXOP fl ;;
  op <- currtok ;;
  upd n (set_n_op op) ;;
  next ;;
  upd n (set_n_expr left) ;;
  lt <- type_of left ;;
  upd n (set_n_type lt) ;;
  ret n.

Definition expr_deref (fl : exprflag_t) : P Z :=
  n <- _mkexpr EXPR_DEREF fl ;;
  op <- currtok ;;
  upd n (set_n_op op) ;;
  next ;;
  e <- expr PREC_UNARY_PREFIX fl ;;
  upd n (set_n_expr e) ;;
  t <- type_of e ;;
  tn <- load t ;;
  (if negb (kind_eqb (n_kind tn) TYPE_REF) then error n (MsgDerefNonRef t)
   else upd n (set_n_type (n_elem tn))) ;;
  ret n.

Definition expr_ref1 (ismut : bool) (fl : exprflag_t) : P Z :=
  n <- _mkexpr EXPR_PREFIXOP fl ;;
  op <- currtok ;;
  upd n (set_n_op op) ;;
  next ;;
  e <- expr PREC_UNARY_PREFIX (Z.lor fl EX_RVALUE) ;;
  upd n (set_n_expr e) ;;
  et <- type_of e ;;
  etn <- load et ;;
  (if kind_eqb (n_kind etn) TYPE_REF then error n (MsgRefOfRef et)
   else
     st <- expr_isstorage fuel e ;;
     if negb st then error n (MsgRefEphemeral et)
     else if ismut then
       m <- expr_ismut fuel e ;;
       if negb m then
         ex <- load e ;;
         (if kind_eqb (n_kind ex) EXPR_ID then (load (n_ref ex) ;; ret tt)
          else ret tt) ;;
         error n (MsgMutRefImmutable e)
       else ret tt
     else ret tt) ;;
  t <- mkreftype ismut ;;
  et <- type_of e ;;
  upd t (set_n_elem et) ;;
  upd n (set_n_type t) ;;
  ret n.

Definition expr_ref (fl : exprflag_t) : P Z := expr_ref1 false fl.

Definition expr_mut (fl : exprflag_t) : P Z :=
  next ;;
  t <- currtok ;;
  if negb (tok_eqb t TAND) then (unexpected "expecting '&'" ;; mkbad)
  else expr_ref1 true fl.

Definition expr_group (fl : exprflag_t) : P Z :=
  next ;;
  n <- expr PREC_COMMA fl ;;
  expect TRPAREN "" ;;
  ret n.

Definition named_param_or_id (fl : exprflag_t) : P Z :=
  n <- _mkexpr EXPR_ID fl ;;
  name <- cursym ;;
  upd n (set_n_name (Some name)) ;;
  next ;;
  t <- currtok ;;
  (if tok_eqb t TCOLON then
     next ;;
     upd n (fun x => set_n_name (Some name) (set_n_kind EXPR_PARAM x)) ;;
     init <- expr PREC_COMMA fl ;;
     upd n (set_n_init init) ;;
     ity <- type_of init ;;
     upd n (set_n_type ity)
   else (resolve_id n ;; ret tt)) ;;
  ret n.

(** The parameters that [args] matches arguments against: the stack node
    [param0] of type [recvtype], or the parameters or fields of [recvtype]. *)
Inductive paramv_t :=
  | Param0 (recvtype : Z)
  | Params (l : list Z).

Definition param_type (paramv : paramv_t) (paramidx : nat) : P Z :=
  match paramv with
  | Param0 recvtype =>
    match paramidx with O => ret recvtype | _ => ret type_void end
  | Params l =>
    match l !! paramidx with
    | None => ret type_void
    | Some a => type_of a
    end
  end.

Fixpoint args_loop (k : nat) (n : Z) (paramv : paramv_t) (paramidx : nat)
    (fl : exprflag_t) : P unit :=
  match k with
  | O => nofuel
  | S k' =>
    t <- param_type paramv paramidx ;;
    typectx_push t ;;
    tk <- currtok ;;
    arg <- (if tok_eqb tk TID then named_param_or_id fl else expr PREC_COMMA fl) ;;
    typectx_pop ;;
    push_args n arg ;;
    tk <- currtok ;;
    if negb (tok_eqb tk TSEMI) && negb (tok_eqb tk TCOMMA) then ret tt
    else (next ;; args_loop k' n paramv (S paramidx) fl)
  end.

(** [args]; [n] is the call whose [args] array is filled. *)
Definition args (n : Z) (recvtype : Z) (fl : exprflag_t) : P unit :=
  rt <- load recvtype ;;
  paramv <-
    match n_kind rt with
    | TYPE_FUN =>
      match n_params rt with
      | [] => ret (Params [])
      | p0 :: rest =>
        x <- load p0 ;;
        if n_isthis x then ret (Params rest) else ret (Params (p0 :: rest))
      end
    | TYPE_STRUCT => ret (Params (n_fields rt))
    | _ => ret (Param0 recvtype)
    end ;;
  typectx_push type_void ;;
  args_loop fuel n paramv 0%nat fl.

Definition expr_postfix_call (prec : prec_t) (left : Z) (fl : exprflag_t) : P Z :=
  n <- _mkexpr EXPR_CALL fl ;;
  next ;;
  l <- load left ;;
  let recvtype := n_type l in
  upd left (fun x => set_n_flags (Z.lor (n_flags x) EX_RVALUE) x) ;;
  (if recvtype =? 0 then error n (MsgCallingNonFun left)
   else
     lt <- load recvtype ;;
     if kind_eqb (n_kind lt) TYPE_FUN then upd n (set_n_type (n_result lt))
     else if nodekind_istype (n_kind lt) then upd n (set_n_type recvtype)
     else error n (MsgCallingNonFun left)) ;;
  upd n (set_n_recv left) ;;
  t <- currtok ;;
  when (negb (tok_eqb t TRPAREN))
    (args n (if recvtype =? 0 then type_void else recvtype) fl) ;;
  expect TRPAREN "to end function call" ;;
  rt <- load recvtype ;;
  x <- load n ;;
  match n_args x with
  | [a] =>
    if negb (kind_eqb (n_kind rt) TYPE_FUN) then
      aty <- type_of a ;;
      c <- compat aty (n_type x) ;;
      if c then ret a else ret n
    else ret n
  | _ => ret n
  end.

Definition expr_postfix_subscript (prec : prec_t) (left : Z) (fl : exprflag_t)
  : P Z :=
  n <- _mkexpr EXPR_POSTFIXOP fl ;;
  next ;;
  panic.

Definition expr_postfix_member (prec : prec_t) (left : Z) (fl : exprflag_t)
  : P Z :=
  n <- _mkexpr EXPR_MEMBER fl ;;
  next ;;
  upd left (fun x => set_n_flags (Z.lor (n_flags x) EX_RVALUE) x) ;;
  upd n (set_n_recv left) ;;
  name <- cursym ;;
  upd n (set_n_name (Some name)) ;;
  expect TID "" ;;
  ret n.

Definition expr_dotmember (fl : exprflag_t) : P Z :=
  p <- get ;;
  if dotctx p =? 0 then
    error 0 MsgDotOutsideContext ;;
    n <- mkbad ;;
    fastforward_semi ;;
    ret n
  else expr_postfix_member PREC_MEMBER (dotctx p) fl.

Definition this_param_type (recvt : Z) (ismut : bool) : P Z :=
  r <- load recvt ;;
  sz <- the_ptrsize ;;
  if negb ismut && nodekind_isprimtype (n_kind r) then ret recvt
  else if negb ismut && kind_eqb (n_kind r) TYPE_STRUCT
          && (n_align r <=? sz) && (n_size r <=? sz * 2) then ret recvt
  else
    t <- mkreftype ismut ;;
    upd t (set_n_elem recvt) ;;
    ret t.

Definition this_param (fun_ param : Z) (ismut : bool) : P unit :=
  f <- load fun_ ;;
  if n_methodof f =? 0 then
    upd param (fun x => set_n_nrefs 1 (set_n_type type_void x)) ;;
    error param MsgThisNonMethod
  else
    upd param (set_n_isthis true) ;;
    t <- this_param_type (n_methodof f) ismut ;;
    upd param (set_n_type t).

Definition set_types (l : list Z) (t : Z) : P unit :=
  (fix go (l : list Z) : P unit :=
     match l with
     | [] => ret tt
     | a :: l' => upd a (set_n_type t) ;; go l'
     end) l.

(** The [while] loop of [fun_params] up to the label [finish]; the result
    is [(isnametype, typeq)]. *)
Fixpoint fun_params_loop (k : nat) (fun_ : Z) (isnametype : bool)
    (typeq : list Z) : P (bool * list Z) :=
  match k with
  | O => nofuel
  | S k' =>
    t <- currtok ;;
    if tok_eqb t TEOF then ret (isnametype, typeq)
    else
      param <- _mkexpr EXPR_PARAM 0 ;;
      upd param (set_n_type 0) ;;
      push_params fun_ param ;;
      f <- load fun_ ;;
      let first := (length (n_params f) =? 1)%nat in
      t <- currtok ;;
      this_ismut <-
        (if tok_eqb t TMUT && first then
           b <- lookahead_issym sym_this ;;
           if b then (next ;; ret true) else ret false
         else ret false) ;;
      t <- currtok ;;
      st <-
        (if tok_eqb t TID then
           name <- cursym ;;
           l <- currloc ;;
           upd param (fun x => set_n_loc l (set_n_name (Some name) x)) ;;
           next ;;
           if String.eqb name sym_this && first then
             this_param fun_ param this_ismut ;;
             ret (true, typeq)
           else
             t <- currtok ;;
             if tok_in t [TRPAREN; TCOMMA; TSEMI] then
               ret (isnametype, typeq ++ [param])
             else
               ty <- type PREC_LOWEST ;;
               upd param (set_n_type ty) ;;
               set_types typeq ty ;;
               ret (true, [])
         else
           upd param (set_n_name (Some sym__)) ;;
           ty <- type PREC_LOWEST ;;
           upd param (set_n_type ty) ;;
           ret (isnametype, typeq)) ;;
      let isnametype := fst st in
      let typeq := snd st in
      t <- currtok ;;
      if tok_in t [TCOMMA; TSEMI] then
        next ;;
        t <- currtok ;;
        if tok_eqb t TRPAREN then ret (isnametype, typeq)
        else fun_params_loop k' fun_ isnametype typeq
      else if tok_eqb t TRPAREN then ret (isnametype, typeq)
      else
        unexpected "expecting ',' ';' or ')'" ;;
        fastforward fuel [TRPAREN; TSEMI] ;;
        ret (isnametype, typeq)
  end.

Definition fun_params (fun_ : Z) : P bool :=
  st <- fun_params_loop fuel fun_ false [] ;;
  let isnametype := fst st in
  let typeq := snd st in
  f <- load fun_ ;;
  (if isnametype then
     if (0 <? length typeq)%nat then
       error 0 MsgExpectingType ;;
       (fix go (l : list Z) : P unit :=
          match l with
          | [] => ret tt
          | a :: l' =>
            x <- load a ;;
            when (n_type x =? 0) (upd a (set_n_type type_void)) ;;
            go l'
          end) (n_params f)
     else ret tt
   else
     (fix go (l : list Z) : P unit :=
        match l with
        | [] => ret tt
        | a :: l' =>
          x <- load a ;;
          (if negb (n_type x =? 0) then ret tt
           else
             match n_name x with
             | None => fault
             | Some name =>
               t <- named_type name a ;;
               upd a (fun x => set_n_name (Some sym__) (set_n_type t x))
             end) ;;
          go l'
        end) (n_params f)) ;;
  ret isnametype.

(** [typeid_append] is declared outside the sources at hand; it appends the
    type id of a type to a buffer, which is what [append] of [typeid.c]
    does. *)
Definition typeid_append (buf : list Z) (t : Z) : P (list Z) :=
  liftT (Typeid.append TYPEID_PREFIX fuel buf t).

Definition typeid_fun (params : list Z) (result : Z) : P sym_t :=
  let buf := [TYPEID_PREFIX TYPE_FUN] in
  let buf := buf ++ buf_print_leb128_u32 (u32 (Z.of_nat (length params))) in
  buf <-
    (fix go (l : list Z) (buf : list Z) : P (list Z) :=
       match l with
       | [] => ret buf
       | a :: l' =>
         x <- load a ;;
         buf <- typeid_append buf (n_type x) ;;
         go l' buf
       end) params buf ;;
  buf <- typeid_append buf result ;;
  ret (sym_intern buf).

Definition typeidmap_lookup (tid : sym_t) : P Z :=
  fun p => Ok (default 0 (typeidmap (compiler (scanner p)) !! tid)) p.

Definition typeidmap_set (tid : sym_t) (t : Z) : P unit :=
  modify (fun p =>
    let s := scanner p in
    let c := compiler s in
    set_scanner
      (set_compiler (mk_compiler (ptrsize c) (diags c) (<[tid := t]> (typeidmap c))) s)
      p).

Definition funtype (params : list Z) (result : Z) : P Z :=
  tid <- typeid_fun params result ;;
  existing <- typeidmap_lookup tid ;;
  if negb (existing =? 0) then ret existing
  else
    ft <- _mknode TYPE_FUN ;;
    sz <- the_ptrsize ;;
    upd ft (fun x =>
      set_n_params params
        (set_n_result result
          (set_n_isunsigned true (set_n_align sz (set_n_size sz x))))) ;;
    typeidmap_set tid ft ;;
    ret ft.

Definition add_method (fun_ : Z) (name_loc : srcloc_t) : P unit :=
  f <- load fun_ ;;
  match n_name f with
  | None => fault
  | Some name =>
    let recv := n_methodof f in
    p <- get ;;
    let mm := default ∅ (methodmap p !! recv) in
    modify (set_methodmap (<[recv := mm]> (methodmap p))) ;;
    let existing := default 0 (mm !! name) in
    r <- load recv ;;
    existing <-
      (if (existing =? 0) && kind_eqb (n_kind r) TYPE_STRUCT
       then lookup_struct_field recv name
       else ret existing) ;;
    if negb (existing =? 0) then
      e <- load existing ;;
      let srcrange := focus_range name_loc in
      (if kind_eqb (n_kind e) EXPR_FUN
       then error1 srcrange (MsgDuplicateMethod name recv)
       else error1 srcrange (MsgDuplicateMember name recv existing)) ;;
      when (negb (line (n_loc e) =? 0)) (warning existing MsgPreviouslyDefined)
    else
      modify (fun p => set_methodmap (<[recv := <[name := fun_]> mm]> (methodmap p)) p)
  end.

Definition fun_name (fun_ : Z) (recv : Z) : P unit :=
  name <- cursym ;;
  upd fun_ (set_n_name (Some name)) ;;
  name_loc <- currloc ;;
  next ;;
  if negb (recv =? 0) then
    upd fun_ (set_n_methodof recv) ;;
    add_method fun_ name_loc
  else
    t <- currtok ;;
    if negb (tok_eqb t TDOT) then ret tt
    else
      next ;;
      recv <- lookup name ;;
      if recv =? 0 then error1 (focus_range name_loc) (MsgUndeclared name)
      else
        r <- load recv ;;
        if negb (nodekind_istype (n_kind r)) then
          error1 (focus_range name_loc) (MsgNotATypeNode recv)
        else
          upd fun_ (set_n_methodof recv) ;;
          name <- cursym ;;
          upd fun_ (set_n_name (Some name)) ;;
          name_loc <- currloc ;;
          ok <- expect TID "after '.'" ;;
          if negb ok then ret tt else add_method fun_ name_loc.

Definition fun_prototype (n : Z) (methodof : Z) (requirename : bool) : P bool :=
  t <- currtok ;;
  (if tok_eqb t TID then fun_name n methodof
   else when requirename (error 0 MsgMissingFunName)) ;;
  ok <- expect TLPAREN "for parameters" ;;
  if negb ok then
    fastforward fuel [TLBRACE; TSEMI] ;;
    b <- mkbad ;;
    upd n (set_n_type b) ;;
    ret false
  else
    t <- currtok ;;
    has_named_params <-
      (if negb (tok_eqb t TRPAREN) then fun_params n else ret false) ;;
    expect TRPAREN "to end parameters" ;;
    t <- currtok ;;
    result <- (if negb (tok_eqb t TLBRACE) then type PREC_MEMBER else ret type_void) ;;
    x <- load n ;;
    ft <- funtype (n_params x) result ;;
    upd n (set_n_type ft) ;;
    ret has_named_params.

(** [type_fun]; its [fun_t f] lives on the C stack and is given an address
    of its own here. *)
Definition type_fun : P Z :=
  l <- currloc ;;
  f <- alloc (set_n_kind EXPR_FUN (set_n_loc l zero_node)) ;;
  next ;;
  fun_prototype f 0 false ;;
  type_of f.

Definition fun_body (n : Z) (fl : exprflag_t) : P unit :=
  x <- load n ;;
  hasthis <-
    match n_params x with
    | [] => ret false
    | p0 :: _ => y <- load p0 ;; ret (n_isthis y)
    end ;;
  when hasthis
    (match n_params x with
     | [] => ret tt
     | p0 :: _ => dotctx_push p0
     end) ;;
  p <- get ;;
  let outer_fun := fun_ p in
  modify (set_fun_ n) ;;
  ft <- load (n_type x) ;;
  let fl := Z.lor fl EX_RVALUE in
  let fl := if n_result ft =? type_void then clear_flag fl EX_RVALUE else fl in
  typectx_push (n_result ft) ;;
  enter_scope ;;
  body <- any_as_block fl ;;
  upd n (set_n_body body) ;;
  upd body (fun b => set_n_flags (clear_flag (n_flags b) EX_RVALUE) b) ;;
  leave_scope ;;
  typectx_pop ;;
  modify (set_fun_ outer_fun) ;;
  when hasthis dotctx_pop.

(** [fun] *)
Definition fun_def (fl : exprflag_t) (methodof : Z) (requirename : bool) : P Z :=
  n <- _mkexpr EXPR_FUN fl ;;
  next ;;
  has_named_params <- fun_prototype n methodof requirename ;;
  x <- load n ;;
  tk <- kind_of (n_type x) ;;
  match n_name x with
  | Some name =>
    when (negb (kind_eqb tk NODE_BAD) && (n_methodof x =? 0)) (define name n)
  | None => ret tt
  end ;;
  when has_named_params
    (enter_scope ;;
     x <- load n ;;
     (fix go (l : list Z) : P unit :=
        match l with
        | [] => ret tt
        | a :: l' =>
          y <- load a ;;
          match n_name y with
          | None => fault
          | Some name => define name a
          end ;;
          go l'
        end) (n_params x)) ;;
  t <- currtok ;;
  when (negb (tok_eqb t TSEMI))
    (x <- load n ;;
     when (negb has_named_params && (0 <? length (n_params x))%nat)
       (error 0 MsgFunNoNamedArgsBody) ;;
     fun_body n fl) ;;
  when has_named_params leave_scope ;;
  ret n.

Definition expr_fun (fl : exprflag_t) : P Z := fun_def fl 0 false.
Definition stmt_fun : P Z := fun_def 0 0 true.

(** The first loop of [struct_fieldset]: the names of a field set. *)
Fixpoint struct_fieldset_names (k : nat) (st : Z) : P unit :=
  match k with
  | O => nofuel
  | S k' =>
    f <- _mknode EXPR_FIELD ;;
    name <- cursym ;;
    upd f (set_n_name (Some name)) ;;
    expect TID "" ;;
    dup <- lookup_struct_field st name ;;
    (if negb (dup =? 0) then error 0 (MsgDuplicateField name)
     else
       m <- lookup_method st name ;;
       when (negb (m =? 0)) (error 0 (MsgFieldConflictsMethod name))) ;;
    push_fields st f ;;
    t <- currtok ;;
    if negb (tok_eqb t TCOMMA) then ret tt
    else (next ;; struct_fieldset_names k' st)
  end.

(** The second loop of [struct_fieldset]: the initialisers; the result is
    the final value of [i]. *)
Fixpoint struct_fieldset_inits (k : nat) (st : Z) (i : nat) : P nat :=
  match k with
  | O => nofuel
  | S k' =>
    x <- load st ;;
    if (i =? length (n_fields x))%nat then
      error 0 MsgExcessFieldInit ;;
      expr PREC_COMMA EX_RVALUE ;;
      ret i
    else
      match n_fields x !! i with
      | None => fault
      | Some f =>
        let i := S i in
        fx <- load f ;;
        typectx_push (n_type fx) ;;
        e <- expr PREC_COMMA EX_RVALUE ;;
        upd f (set_n_init e) ;;
        typectx_pop ;;
        t <- currtok ;;
        if negb (tok_eqb t TCOMMA) then ret i
        else
          next ;;
          fx <- load f ;;
          ity <- type_of (n_init fx) ;;
          c <- compat (n_type fx) ity ;;
          when (negb c) (error (n_init fx) (MsgFieldInitType ity (n_type fx))) ;;
          struct_fieldset_inits k' st i
      end
  end.

Definition struct_fieldset (st : Z) : P bool :=
  x <- load st ;;
  let fields_start := length (n_fields x) in
  struct_fieldset_names fuel st ;;
  t <- type PREC_MEMBER ;;
  set_fields_type_from st fields_start t ;;
  tk <- currtok ;;
  if negb (tok_eqb tk TASSIGN) then ret false
  else
    next ;;
    i <- struct_fieldset_inits fuel st fields_start ;;
    x <- load st ;;
    when (i <? length (n_fields x))%nat (error 0 MsgMissingFieldInit) ;;
    ret true.

Fixpoint type_struct_loop (k : nat) (st : Z) : P unit :=
  match k with
  | O => nofuel
  | S k' =>
    t <- currtok ;;
    if tok_eqb t TRBRACE then ret tt
    else
      (if tok_eqb t TFUN then
         f <- fun_def 0 st true ;;
         push_methods st f
       else
         h <- struct_fieldset st ;;
         upd st (fun x => set_n_hasinit (n_hasinit x || h) x)) ;;
      t <- currtok ;;
      if negb (tok_eqb t TSEMI) then ret tt
      else (next ;; type_struct_loop k' st)
  end.

(** [ALIGN2(x, a)]: [x] rounded up to a multiple of the power of two [a]. *)
Definition ALIGN2 (x a : Z) : Z := u64 (Z.land (x + (a - 1)) (Z.lnot (a - 1))).

Definition type_struct : P Z :=
  st <- _mknode TYPE_STRUCT ;;
  next ;;
  type_struct_loop fuel st ;;
  expect TRBRACE "to end struct" ;;
  x <- load st ;;
  (fix go (l : list Z) : P unit :=
     match l with
     | [] => ret tt
     | f :: l' =>
       fx <- load f ;;
       ft <- load (n_type fx) ;;
       upd st (fun s =>
         set_n_size (u64 (n_size s + n_size ft))
           (set_n_align (Z.max (n_align s) (n_align ft)) s)) ;;
       go l'
     end) (n_fields x) ;;
  upd st (fun s => set_n_size (ALIGN2 (n_size s) (n_align s)) s) ;;
  ret st.

Definition stmt_typedef : P Z :=
  n <- _mknode STMT_TYPEDEF ;;
  next ;;
  name <- cursym ;;
  upd n (set_n_name (Some name)) ;;
  nameok <- expect TID "" ;;
  when nameok (define name n) ;;
  t <- type PREC_COMMA ;;
  upd n (set_n_type t) ;;
  when nameok
    (ok <- scope_define name t ;; when (negb ok) out_of_mem) ;;
  tk <- kind_of t ;;
  when (kind_eqb tk TYPE_STRUCT) (upd t (set_n_name (Some name))) ;;
  ret n.

(** *** Parselet tables *)

Definition expr_parsetab (t : tok_t) : expr_parselet_t :=
  match t with
  | TASSIGN | TMULASSIGN | TDIVASSIGN | TMODASSIGN | TADDASSIGN | TSUBASSIGN
  | TSHLASSIGN | TSHRASSIGN | TANDASSIGN | TXORASSIGN | TORASSIGN =>
    mk_expr_parselet None (Some expr_infix_op) PREC_ASSIGN
  | TOROR => mk_expr_parselet None (Some expr_cmp_op) PREC_LOGICAL_OR
  | TANDAND => mk_expr_parselet None (Some expr_cmp_op) PREC_LOGICAL_AND
  | TOR => mk_expr_parselet None (Some expr_infix_op) PREC_BITWISE_OR
  | TXOR => mk_expr_parselet None (Some expr_infix_op) PREC_BITWISE_XOR
  | TAND => mk_expr_parselet (Some expr_ref) (Some expr_infix_op) PREC_BITWISE_AND
  | TEQ | TNEQ => mk_expr_parselet None (Some expr_cmp_op) PREC_EQUAL
  | TLT | TGT | TLTEQ | TGTEQ => mk_expr_parselet None (Some expr_cmp_op) PREC_COMPARE
  | TSHL | TSHR => mk_expr_parselet None (Some expr_infix_op) PREC_SHIFT
  | TPLUS | TMINUS =>
    mk_expr_parselet (Some expr_prefix_op) (Some expr_infix_op) PREC_ADD
  | TSTAR => mk_expr_parselet (Some expr_deref) (Some expr_infix_op) PREC_MUL
  | TSLASH | TPERCENT => mk_expr_parselet None (Some expr_infix_op) PREC_MUL
  | TPLUSPLUS | TMINUSMINUS =>
    mk_expr_parselet (Some expr_prefix_op) (Some postfix_op) PREC_UNARY_PREFIX
  | TNOT | TTILDE => mk_expr_parselet (Some expr_prefix_op) None PREC_UNARY_PREFIX
  | TMUT => mk_expr_parselet (Some expr_mut) None PREC_UNARY_PREFIX
  | TLPAREN =>
    mk_expr_parselet (Some expr_group) (Some expr_postfix_call) PREC_UNARY_POSTFIX
  | TLBRACK => mk_expr_parselet None (Some expr_postfix_subscript) PREC_UNARY_POSTFIX
  | TDOT => mk_expr_parselet (Some expr_dotmember) (Some expr_postfix_member) PREC_MEMBER
  | TID => mk_expr_parselet (Some expr_id) None 0
  | TFUN => mk_expr_parselet (Some expr_fun) None 0
  | TLET | TVAR => mk_expr_parselet (Some expr_var) None 0
  | TIF => mk_expr_parselet (Some expr_if) None 0
  | TFOR => mk_expr_parselet (Some expr_for) None 0
  | TRETURN => mk_expr_parselet (Some expr_return) None 0
  | TINTLIT => mk_expr_parselet (Some expr_intlit) None 0
  | TFLOATLIT => mk_expr_parselet (Some expr_floatlit) None 0
  | TLBRACE => mk_expr_parselet (Some expr_block) None 0
  | _ => mk_expr_parselet None None 0
  end.

Definition type_parsetab (t : tok_t) : type_parselet_t :=
  match t with
  | TID => mk_type_parselet (Some type_id) None 0
  | TLBRACE => mk_type_parselet (Some type_struct) None 0
  | TFUN => mk_type_parselet (Some type_fun) None 0
  | TSTAR => mk_type_parselet (Some type_ptr) None 0
  | TAND => mk_type_parselet (Some type_ref) None 0
  | TMUT => mk_type_parselet (Some type_mut) None 0
  | TQUESTION => mk_type_parselet (Some type_optional) None 0
  | _ => mk_type_parselet None None 0
  end.

Definition stmt_parsetab (t : tok_t) : stmt_parselet_t :=
  match t with
  | TFUN => mk_stmt_parselet (Some stmt_fun) None 0
  | TTYPE => mk_stmt_parselet (Some stmt_typedef) None 0
  | _ => mk_stmt_parselet None None 0
  end.

(** *** The Pratt loops: the bodies of [stmt], [expr] and [type] *)

Fixpoint stmt_infix_loop (k : nat) (prec : prec_t) (n : Z) : P Z :=
  match k with
  | O => nofuel
  | S k' =>
    tok <- currtok ;;
    let parselet := stmt_parsetab tok in
    match s_infix parselet with
    | None => ret n
    | Some infix =>
      if s_prec parselet <? prec then ret n
      else (n <- infix prec n ;; stmt_infix_loop k' prec n)
    end
  end.

Definition stmt (prec : prec_t) : P Z :=
  tok <- currtok ;;
  let parselet := stmt_parsetab tok in
  match s_prefix parselet with
  | None =>
    unexpected "where a statement is expected" ;;
    fastforward_semi ;;
    mkbad
  | Some prefix =>
    n <- prefix ;;
    stmt_infix_loop fuel prec n
  end.

Fixpoint expr_infix_loop (k : nat) (prec : prec_t) (fl : exprflag_t) (n : Z)
  : P Z :=
  match k with
  | O => nofuel
  | S k' =>
    tok <- currtok ;;
    let parselet := expr_parsetab tok in
    match e_infix parselet with
    | None => ret n
    | Some infix =>
      if e_prec parselet <? prec then ret n
      else (n <- infix prec n fl ;; expr_infix_loop k' prec fl n)
    end
  end.

Definition expr_body (prec : prec_t) (fl : exprflag_t) : P Z :=
  tok <- currtok ;;
  let parselet := expr_parsetab tok in
  match e_prefix parselet with
  | None =>
    unexpected "where an expression is expected" ;;
    fastforward_semi ;;
    mkbad
  | Some prefix =>
    n <- prefix fl ;;
    expr_infix_loop fuel prec fl n
  end.

Fixpoint type_infix_loop (k : nat) (prec : prec_t) (t : Z) : P Z :=
  match k with
  | O => nofuel
  | S k' =>
    tok <- currtok ;;
    let parselet := type_parsetab tok in
    match t_infix parselet with
    | None => ret t
    | Some infix =>
      if t_prec parselet <? prec then ret t
      else (t <- infix prec t ;; type_infix_loop k' prec t)
    end
  end.

Definition type_body (prec : prec_t) : P Z :=
  tok <- currtok ;;
  let parselet := type_parsetab tok in
  match t_prefix parselet with
  | None =>
    unexpected "where type is expected" ;;
    fastforward_semi ;;
    ret type_void
  | Some prefix =>
    t <- prefix ;;
    type_infix_loop fuel prec t
  end.

(** The [while] loop of [parser_parse]. *)
Fixpoint parse_loop (k : nat) (unit_ : Z) : P unit :=
  match k with
  | O => nofuel
  | S k' =>
    t <- currtok ;;
    if tok_eqb t TEOF then ret tt
    else
      n <- stmt PREC_LOWEST ;;
      push_children unit_ n ;;
      ok <- expect_token TSEMI "" ;;
      (if negb ok then fastforward_semi else next) ;;
      parse_loop k' unit_
  end.

End Parselets.

End WithFuel.

(** [expr] and [type]: [fuel] bounds the depth of the recursion and the
    number of turns of every loop. *)
Fixpoint expr (fuel : nat) (prec : prec_t) (fl : exprflag_t) : P Z :=
  match fuel with
  | O => nofuel
  | S fuel' => expr_body fuel' (expr fuel') (type fuel') prec fl
  end
with type (fuel : nat) (prec : prec_t) : P Z :=
  match fuel with
  | O => nofuel
  | S fuel' => type_body fuel' (expr fuel') (type fuel') prec
  end.

(** [parser_parse]: [p->ast_ma] is the arena at the end of [nodes]. *)
Definition parser_parse (fuel : nat) (data : list Z) : P Z :=
  modify (fun p => set_scope (Scope.scope_clear (scope p)) p) ;;
  modify (fun p => set_scanner (scanner_set_input (scanner p) data) p) ;;
  unit_ <- _mknode NODE_UNIT ;;
  next ;;
  enter_scope ;;
  parse_loop fuel (expr fuel) (type fuel) fuel unit_ ;;
  leave_scope ;;
  ret unit_.

(** [parser_init] for a compiler [c]; the scope array starts out empty. *)
Definition parser_init (c : compiler_t) : parser_t :=
  mk_parser (scanner_init c) (Scope.mk_scope [] 0 0 0) ∅ ∅ type_void [] 0 [] 0
    (static_nodes TYPEID_PREFIX).

End WithEnv.

End Parser.

(** ** A concrete environment

    The parts of the environment that the sources at hand leave open, fixed
    so that the front-end can be run on inputs. *)

Module Run.
Import Ast Scanner Parser.

(** Unsigned LEB128, the encoding that [buf_print_leb128_u32] names. *)
Fixpoint leb128 (fuel : nat) (v : Z) : list Z :=
  match fuel with
  | O => []
  | S fuel' =>
    if v <? 128 then [v]
    else Z.lor (Z.land v 127) 128 :: leb128 fuel' (Z.shiftr v 7)
  end.

Definition buf_print_leb128_u32 (v : Z) : list Z := leb128 5 v.

(** Types are compatible when they are the same node. *)
Definition types_iscompat (nodes : list node_t) (x y : Z) : bool := x =? y.

(** A [strtod] that accepts the whole string and never overflows. *)
Definition strtod (chars : list Z) : Z * bool := (Z.of_nat (length chars), false).

Definition compiler0 : compiler_t := mk_compiler 8 [] ∅.

Definition parser0 : parser_t := parser_init Typeid.typeid_prefix compiler0.

Definition expr := Parser.expr keywordtab Typeid.typeid_prefix
  buf_print_leb128_u32 types_iscompat strtod strtod.

Definition type := Parser.type keywordtab Typeid.typeid_prefix
  buf_print_leb128_u32 types_iscompat strtod strtod.

Definition parser_parse (fuel : nat) (data : list Z) : P Z :=
  Parser.parser_parse keywordtab Typeid.typeid_prefix
    buf_print_leb128_u32 types_iscompat strtod strtod fuel data.

(** Parse a source text with a fresh parser. *)
Definition parse (fuel : nat) (src : string) : result parser_t Z :=
  parser_parse fuel (bytes_of_string src) parser0.

(** The diagnostics reported during a run. *)
Definition diags_of {A} (r : result parser_t A) : list diag_t :=
  match r with
  | Ok _ p | Panic p => diags (compiler (scanner p))
  | _ => []
  end.

Definition msgs_of {A} (r : result parser_t A) : list (diagkind_t * diagmsg) :=
  List.map (fun d => (d_kind d, d_msg d)) (diags_of r).

(** The node at an address after a run. *)
Definition node_of {A} (r : result parser_t A) (a : Z) : option node_t :=
  match r with
  | Ok _ p | Panic p => node_at (nodes p) a
  | _ => None
  end.

End Run.

(** ** Definitions used to state the properties *)

Module Props.
Import Ast Scanner Parser Run.

(** An expression of the AST read back from memory as a tree. *)
Inductive etree :=
  | EId (name : sym_t)
  | EInt (v : Z)
  | EBinop (op : tok_t) (l r : etree)
  | ENode (k : nodekind_t)
  | ENull.

Fixpoint tree_of (depth : nat) (nodes : list node_t) (a : Z) : etree :=
  match depth with
  | O => ENull
  | S depth' =>
    match node_at nodes a with
    | None => ENull
    | Some n =>
      match n_kind n with
      | EXPR_ID => match n_name n with Some s => EId s | None => ENull end
      | EXPR_INTLIT => EInt (n_intval n)
      | EXPR_BINOP =>
        EBinop (n_op n) (tree_of depth' nodes (n_left n))
          (tree_of depth' nodes (n_right n))
      | k => ENode k
      end
    end
  end.

(** Parse one expression of a source text with a fresh parser, the way
    [parser_parse] sets the scanner up. *)
Definition parse_expr (fuel : nat) (src : string) : result parser_t Z :=
  (modify (fun p => set_scanner
             (scanner_set_input (scanner p) (bytes_of_string src)) p) ;;
   Parser.next keywordtab ;;
   Parser.enter_scope ;;
   Run.expr fuel PREC_LOWEST 0) parser0.

Definition is_panic {S A} (r : result S A) : bool :=
  match r with Panic _ => true | _ => false end.

(** The kinds of the children of a node. *)
Definition child_kinds (nodes : list node_t) (a : Z) : list (option nodekind_t) :=
  match node_at nodes a with
  | None => []
  | Some n => List.map (fun c => option_map n_kind (node_at nodes c)) (n_children n)
  end.

(** The number of warnings [unreachable code] among diagnostics. *)
Definition is_unreachable (d : diag_t) : bool :=
  match d_kind d, d_msg d with
  | DIAG_WARN, MsgUnreachable => true
  | _, _ => false
  end.

Definition count_unreachable (ds : list diag_t) : nat :=
  length (filter (fun d => is_unreachable d = true) ds).


(** *** Scope stack *)

(** A scope stack with one open scope that holds one binding. *)
Definition scope_example : Scope.scope_t := Scope.mk_scope [0; 7; 8; 0] 4 3 0.

(** *** Semicolon insertion *)

Definition is_keyword_tok (t : tok_t) : bool :=
  match t with
  | TFUN | TTYPE | TLET | TVAR | TIF | TELSE | TFOR | TRETURN | TMUT => true
  | _ => false
  end.

Definition closing_bracket (t : tok_t) : bool :=
  match t with TRPAREN | TRBRACK | TRBRACE => true | _ => false end.

(** A keyword table maps its entries to keyword tokens. *)
Definition keywords_ok (kw : list (string * tok_t)) : Prop :=
  Forall (fun e => is_keyword_tok (snd e) = true) kw.

(** The tokens after which the flag is set as the specification lists them:
    closing brackets, identifiers, numeric literals and [return]. *)
Definition sets_flag_spec (t : tok_t) : bool :=
  closing_bracket t || tok_eqb t TID || tok_eqb t TINTLIT ||
  tok_eqb t TFLOATLIT || tok_eqb t TRETURN.

(** The tokens after which [scanner_next] leaves the flag set whatever the
    input was, and those after which it can be set. *)
Definition always_sets (t : tok_t) : bool :=
  closing_bracket t || tok_eqb t TINTLIT || is_keyword_tok t.

Definition may_set (t : tok_t) : bool :=
  always_sets t || tok_eqb t TID || tok_eqb t TFLOATLIT || tok_eqb t TEOF.

(** The token that was scanned is the one byte [;] of the input. *)
Definition explicit_semi (s : scanner_t) : Prop :=
  byte_at s (tokstart s) = ch ";" /\ inp s = tokstart s + 1.

(** The fields a sub-scanner leaves alone. *)
Record same (s s' : scanner_t) : Prop := {
  same_input : input s' = input s;
  same_flag : insertsemi s' = insertsemi s;
  same_tokstart : tokstart s' = tokstart s
}.

(** What holds of token and flag after a token has been scanned, [flag0]
    being the flag before. *)
Definition Post (flag0 : bool) (s' : scanner_t) : Prop :=
  (always_sets (tok s') = true -> insertsemi s' = true) /\
  (insertsemi s' = true -> may_set (tok s') = true) /\
  (flag0 = false -> tok s' = TSEMI -> explicit_semi s').

(** Where an identifier or a float literal leaves the flag clear: the
    identifier holds a byte that is not ASCII, the float literal starts
    with its point. *)
Definition clear_explained (s' : scanner_t) : Prop :=
  (tok s' = TID -> insertsemi s' = false ->
   exists i, tokstart s' <= i < inp s' /\ UTF8_SELF <= byte_at s' i) /\
  (tok s' = TFLOATLIT -> insertsemi s' = false ->
   byte_at s' (tokstart s') = ch ".").

(** A scanner at the start of a source text. *)
Definition scanner_on (src : string) : scanner_t :=
  scanner_set_input (scanner_init compiler0) (bytes_of_string src).

(** *** Type ids *)

(** The value that a computation returned, if it returned. *)
Definition result_value {S A} (r : result S A) : option A :=
  match r with Ok a _ => Some a | _ => None end.

(** The state in which a computation returned, if it returned. *)
Definition result_state {S A} (r : result S A) : option S :=
  match r with Ok _ s => Some s | _ => None end.

(** The alias signature as the specification words it: prefix, length of
    the name, name, and then the underlying type's id. *)
Definition alias_sig_claimed (PREFIX : nodekind_t -> Z) (name : sym_t)
    (underlying : list Z) : list Z :=
  [PREFIX TYPE_ALIAS] ++
  Typeid.write_u32 [] (u32 (Z.of_nat (length (Typeid.cstr name))))
    ++ Typeid.cstr name ++ underlying.

(** The alias signature that [append] builds. *)
Definition alias_sig (PREFIX : nodekind_t -> Z) (name : sym_t) : list Z :=
  [PREFIX TYPE_ALIAS] ++
  Typeid.write_u32 [] (u32 (Z.of_nat (length (Typeid.cstr name))))
    ++ Typeid.cstr name.

Definition alias_node (name : sym_t) (elem : Z) : node_t :=
  set_n_kind TYPE_ALIAS (set_n_name (Some name) (set_n_elem elem zero_node)).

Definition alias_heap (name : sym_t) (elem : Z) : list node_t :=
  static_nodes Typeid.typeid_prefix ++ [alias_node name elem].

(** *** Interning of types *)

(** A computation of the parser that leaves the scanner, and with it the
    compiler's map of type ids, alone. *)
Definition only_nodes {A} (m : P A) : Prop :=
  forall p a p', m p = Ok a p' -> scanner p' = scanner p.

Definition tidmap (p : parser_t) : gmap string Z := typeidmap (compiler (scanner p)).

(** A parser whose arena holds [count] parameters of type [i32], at the
    addresses that follow the static nodes. *)
Definition param_i32 : node_t :=
  set_n_kind EXPR_PARAM (set_n_type type_i32 zero_node).

Definition parser_with_params (count : nat) : parser_t :=
  set_nodes (nodes parser0 ++ replicate count param_i32) parser0.

(** Parse two types in a row from a source text. *)
Definition parse_types2 (fuel : nat) (src : string) : result parser_t (Z * Z) :=
  (modify (fun p => set_scanner
             (scanner_set_input (scanner p) (bytes_of_string src)) p) ;;
   Parser.next keywordtab ;;
   Parser.enter_scope ;;
   t1 <- Run.type fuel PREC_LOWEST ;;
   t2 <- Run.type fuel PREC_LOWEST ;;
   ret (t1, t2)) parser0.

(** *** Narrowing of an optional by [if] *)

Section IfSteps.

Variable keywordtab : list (string * tok_t).
Variable fuel : nat.
Variable expr : prec_t -> exprflag_t -> P Z.

(** [expr_if] in three steps: up to the condition, from the condition to
    the [then] branch, and from the [then] branch on. *)
Definition if_head (fl : exprflag_t) : P Z :=
  n <- _mkexpr EXPR_IF fl ;;
  Parser.next keywordtab ;;
  enter_scope ;;
  ret n.

Definition if_narrow (n cond : Z) : P Z :=
  upd n (set_n_cond cond) ;;
  type_narrowed_binding <- check_if_cond cond ;;
  enter_scope ;;
  ret type_narrowed_binding.

Definition if_tail (fl : exprflag_t) (n type_narrowed_binding thenb : Z) : P Z :=
  upd n (set_n_thenb thenb) ;;
  leave_scope ;;
  t <- currtok ;;
  when (tok_eqb t TELSE)
    (Parser.next keywordtab ;;
     enter_scope ;;
     elseb <- any_as_block keywordtab fuel expr fl ;;
     upd n (set_n_elseb elseb) ;;
     leave_scope) ;;
  leave_scope ;;
  when (negb (type_narrowed_binding =? 0))
    (x <- load n ;;
     dst <- if_dst fuel (n_cond x) ;;
     b <- load type_narrowed_binding ;;
     upd dst (fun d => set_n_nrefs (u32 (n_nrefs d + n_nrefs b)) d)) ;;
  ret n.

End IfSteps.

(** A scope stack that is well formed, was not allocated with one slot,
    and can double twice. *)
Definition scope_ok (s : Scope.scope_t) : Prop :=
  Scope.wf s /\ Scope.cap s <> 1 /\ Scope.cap s < 2^30.

(** [s'] extends [s]: the base and the slots in use are those of [s]. *)
Definition scope_kept (s s' : Scope.scope_t) : Prop :=
  Scope.base s' = Scope.base s /\ Scope.len s <= Scope.len s' /\
  take (Z.to_nat (Scope.len s)) (Scope.ptr s') =
  take (Z.to_nat (Scope.len s)) (Scope.ptr s).

(** The kinds that [clone_node] copies: the locals. *)
Definition is_local (k : nodekind_t) : bool :=
  match k with
  | EXPR_FIELD | EXPR_PARAM | EXPR_LET | EXPR_VAR => true
  | _ => false
  end.

(** [x'] is [x] as far as kind, type, referent, element, name and
    condition go; [nodes_keptb l l'] says so of every node of [l]. *)
Definition node_keptb (x x' : node_t) : bool :=
  kind_eqb (n_kind x') (n_kind x) && (n_type x' =? n_type x) &&
  (n_ref x' =? n_ref x) && (n_elem x' =? n_elem x) &&
  (n_cond x' =? n_cond x) && bool_decide (n_name x' = n_name x).

Fixpoint nodes_keptb (l l' : list node_t) : bool :=
  match l, l' with
  | [], _ => true
  | x :: l, x' :: l' => node_keptb x x' && nodes_keptb l l'
  | _ :: _, [] => false
  end.

(** The same, as a relation between two stores of nodes, for the fields
    that a binding is read by. *)
Definition same_fields (x x' : node_t) : Prop :=
  n_kind x' = n_kind x /\ n_type x' = n_type x /\ n_ref x' = n_ref x /\
  n_elem x' = n_elem x /\ n_name x' = n_name x.

Definition nodes_kept (nodes nodes' : list node_t) : Prop :=
  forall a x, node_at nodes a = Some x ->
    exists x', node_at nodes' a = Some x' /\ same_fields x x'.

(** [cond] is an identifier [name] that refers to [r] and has type [ot]. *)
Definition names_binding (nodes : list node_t) (cond : Z) (name : sym_t)
    (r ot : Z) : Prop :=
  exists c, node_at nodes cond = Some c /\ n_kind c = EXPR_ID /\
            n_name c = Some name /\ n_ref c = r /\ n_type c = ot.

(** [r] is a local whose type [ot] is the optional type of [T]. *)
Definition optional_binding (nodes : list node_t) (r ot T : Z) : Prop :=
  exists rn otn,
    node_at nodes r = Some rn /\ is_local (n_kind rn) = true /\
    n_type rn = ot /\
    node_at nodes ot = Some otn /\ n_kind otn = TYPE_OPTIONAL /\
    n_elem otn = T.

(** [a] is a local of type [T] that shadows an optional. *)
Definition narrowed_binding (nodes : list node_t) (a T : Z) : Prop :=
  exists x,
    node_at nodes a = Some x /\ is_local (n_kind x) = true /\
    n_type x = T /\ has_flag (n_flags x) EX_SHADOWS_OPTIONAL = true.

(** [lookup] of [name] answers the node [a]. *)
Definition resolves (p : parser_t) (name : sym_t) (a : Z) : Prop :=
  result_value (lookup name p) = Some a.

(** A parser that is about to read [if x { x + 1 }] where [x] is a
    variable of type [?i32]: the optional type is the node 19, the variable
    the node 20.  (The scanner has no token for [?], so the binding is
    written into the store.) *)
Definition opt_i32 : node_t :=
  set_n_kind TYPE_OPTIONAL (set_n_elem type_i32 zero_node).

Definition var_x (ot : Z) : node_t :=
  set_n_kind EXPR_VAR (set_n_name (Some "x"%string) (set_n_type ot zero_node)).

Definition if_setup (src : string) : P unit :=
  modify (fun p => set_scanner
            (scanner_set_input (scanner p) (bytes_of_string src)) p) ;;
  Parser.next keywordtab ;;
  enter_scope ;;
  ot <- alloc opt_i32 ;;
  v <- alloc (var_x ot) ;;
  define "x" v.

Definition if_start : parser_t :=
  match if_setup "if x { x + 1 }" parser0 with
  | Ok _ p => p
  | _ => parser0
  end.

(** *** Diagnostics of the scanner *)

(** [c'] is [c] with more diagnostics, all of them errors. *)
Definition only_errors (c c' : compiler_t) : Prop :=
  ptrsize c' = ptrsize c /\ typeidmap c' = typeidmap c /\
  exists l, diags c' = diags c ++ l /\
            Forall (fun d => d_kind d = DIAG_ERR) l.

(** *** Unreachable code in a block *)

(** The kinds of the nodes at the addresses [l]. *)
Definition kinds_of (nodes : list node_t) (l : list Z) : list (option nodekind_t) :=
  List.map (fun c => option_map n_kind (node_at nodes c)) l.


(** The number of warnings [unreachable code] reported so far. *)
Definition unreachable_count (p : parser_t) : nat :=
  count_unreachable (diags (compiler (scanner p))).

(** Every node of [nodes] is in [nodes'] with its kind, its children and
    its exits flag. *)
Definition block_frame (nodes nodes' : list node_t) : Prop :=
  forall a x, node_at nodes a = Some x ->
    exists x', node_at nodes' a = Some x' /\ n_kind x' = n_kind x /\
               n_children x' = n_children x /\
               has_flag (n_flags x') EX_EXITS = has_flag (n_flags x) EX_EXITS.

(** A parser of the children of a block that does not itself warn of
    unreachable code, keeps the frame and returns a node. *)
Definition quiet_child (expr : prec_t -> exprflag_t -> P Z) : Prop :=
  forall prec fl p cn p', expr prec fl p = Ok cn p' ->
    unreachable_count p' = unreachable_count p /\
    block_frame (nodes p) (nodes p') /\
    is_Some (node_at (nodes p') cn).

(** What a run of [m] that returns does to the state. *)
Definition pres {A} (R : parser_t -> parser_t -> Prop) (m : P A) : Prop :=
  forall p a p', m p = Ok a p' -> R p p'.

(** The store of nodes is the same and the scanner reported errors only. *)
Definition errs (p p' : parser_t) : Prop :=
  nodes p' = nodes p /\
  only_errors (compiler (scanner p)) (compiler (scanner p')).

(** No warning of unreachable code was added and the frame is kept. *)
Definition quiet_frame (p p' : parser_t) : Prop :=
  unreachable_count p' = unreachable_count p /\
  block_frame (nodes p) (nodes p').

(** [block_frame] and [quiet_child] as tests on a run of [expr], and the
    parser that fails where [expr] does not pass them. *)
Definition node_frameb (x x' : node_t) : bool :=
  kind_eqb (n_kind x') (n_kind x) &&
  bool_decide (n_children x' = n_children x) &&
  Bool.eqb (has_flag (n_flags x') EX_EXITS) (has_flag (n_flags x) EX_EXITS).

Fixpoint block_frameb (l l' : list node_t) : bool :=
  match l, l' with
  | [], _ => true
  | x :: l, x' :: l' => node_frameb x x' && block_frameb l l'
  | _ :: _, [] => false
  end.

Definition quiet_childb (p : parser_t) (cn : Z) (p' : parser_t) : bool :=
  (unreachable_count p' =? unreachable_count p)%nat &&
  block_frameb (nodes p) (nodes p') &&
  match node_at (nodes p') cn with Some _ => true | None => false end.

Definition guarded (expr : prec_t -> exprflag_t -> P Z)
    (prec : prec_t) (fl : exprflag_t) : P Z :=
  fun p =>
    match expr prec fl p with
    | Ok cn p' => if quiet_childb p cn p' then Ok cn p' else Fault
    | r => r
    end.

(** A parser that is about to read the block [{ return; 1 + 2 }]. *)
Definition block_start : parser_t :=
  match
    (modify (fun p => set_scanner
               (scanner_set_input (scanner p)
                  (bytes_of_string "{ return; 1 + 2 }")) p) ;;
     Parser.next keywordtab ;;
     enter_scope) parser0
  with
  | Ok _ p => p
  | _ => parser0
  end.

Definition is_return (k : nodekind_t) : bool := kind_eqb k EXPR_RETURN.

(** The number of children that follow the first [return]. *)
Fixpoint after_return (ks : list nodekind_t) : nat :=
  match ks with
  | [] => 0
  | k :: ks' => if is_return k then length ks' else after_return ks'
  end.

(** The warnings that a block with children of kinds [ks] is to give. *)
Definition warnings_due (ks : list nodekind_t) : nat :=
  if (0 <? after_return ks)%nat then 1 else 0.

(** [n] is a block whose children have the kinds [ks] and whose exits flag
    is [b]; in [block_state] the flag says whether a [return] is among the
    children. *)
Definition block_node (p : parser_t) (n : Z) (ks : list nodekind_t)
    (b : bool) : Prop :=
  exists x,
    node_at (nodes p) n = Some x /\ n_kind x = EXPR_BLOCK /\
    kinds_of (nodes p) (n_children x) = List.map Some ks /\
    has_flag (n_flags x) EX_EXITS = b.

Definition block_state (p : parser_t) (n : Z) (ks : list nodekind_t) : Prop :=
  block_node p n ks (existsb is_return ks).

(** Every node of [nodes] is in [nodes'] with its kind. *)
Definition kinds_kept (nodes nodes' : list node_t) : Prop :=
  forall a x, node_at nodes a = Some x ->
    exists x', node_at nodes' a = Some x' /\ n_kind x' = n_kind x.

(** *** Parsed functions *)

(** The body block of the first statement of a unit, a function
    definition. *)
Definition first_body (nodes : list node_t) (unit_ : Z) : option node_t :=
  match node_at nodes unit_ with
  | Some u =>
    match n_children u with
    | f :: _ =>
      match node_at nodes f with
      | Some fn => node_at nodes (n_body fn)
      | None => None
      end
    | [] => None
    end
  | None => None
  end.

(** *** Diagnostics *)

Definition unexp_let : diagkind_t * diagmsg :=
  (DIAG_ERR, MsgUnexpected TLET "let" "where a statement is expected").

End Props.

(** ** Definitions for the further properties *)

Module ScopeSpec.

(** The value that the bindings [kvs], made in this order, give [key]: that
    of the last binding of [key], if there is one. *)
Fixpoint latest (key : Z) (kvs : list (Z * Z)) : option Z :=
  match kvs with
  | [] => None
  | (k, v) :: rest =>
    match latest key rest with
    | Some x => Some x
    | None => if k =? key then Some v else None
    end
  end.

End ScopeSpec.

(** ** [src/string.c]

    A [const char*] is the list of the bytes from the pointer on; an index
    past the end of the list is an access outside the object, [None]. *)

Module Str.

Definition ISIZE_MAX : Z := 2^63 - 1.
Definition usize (z : Z) : Z := z mod 2^64.

(** The loop [while (len--)] of [slastindexofn]. *)
Fixpoint slastindexofn_loop (s : list Z) (len : nat) (c : Z) : option Z :=
  match len with
  | O => Some (-1)
  | S len' =>
    match s !! len' with
    | None => None
    | Some b =>
      if b =? c then Some (Z.of_nat len') else slastindexofn_loop s len' c
    end
  end.

Definition slastindexofn (s : list Z) (len : Z) (c : Z) : option Z :=
  let len := if len >? ISIZE_MAX then ISIZE_MAX else len in
  slastindexofn_loop s (Z.to_nat len) c.

(** [strlen]: the number of bytes before the first NUL. *)
Fixpoint strlen (s : list Z) : option Z :=
  match s with
  | [] => None
  | b :: s' =>
    if b =? 0 then Some 0
    else match strlen s' with
         | None => None
         | Some n => Some (n + 1)
         end
  end.

Definition slastindexof (s : list Z) (c : Z) : option Z :=
  match strlen s with
  | None => None
  | Some len => slastindexofn s len c
  end.

(** [strim_begin]: the offset [i] of the pointer [s + i] that it returns.
    The loop tests [s[i] == trimc] before [i < len]; it turns while
    [i < len], [len] times at most. *)
Fixpoint strim_begin_loop (fuel : nat) (s : list Z) (len : Z) (trimc : Z)
    (i : Z) : option Z :=
  match s !! Z.to_nat i with
  | None => None
  | Some b =>
    if (b =? trimc) && (i <? len) then
      match fuel with
      | O => None
      | S fuel' => strim_begin_loop fuel' s len trimc (i + 1)
      end
    else Some i
  end.

Definition strim_begin (s : list Z) (len : Z) (trimc : Z) : option Z :=
  strim_begin_loop (Z.to_nat len) s len trimc 0.

(** [strim_end]: the length that is left. *)
Fixpoint strim_end_loop (s : list Z) (len : nat) (trimc : Z) : option Z :=
  match len with
  | O => Some 0
  | S len' =>
    match s !! len' with
    | None => None
    | Some b =>
      if b =? trimc then strim_end_loop s len' trimc
      else Some (Z.of_nat len)
    end
  end.

Definition strim_end (s : list Z) (len : Z) (trimc : Z) : option Z :=
  strim_end_loop s (Z.to_nat len) trimc.

(** [s[i]] for an index that can be as large as a [usize]. *)
Definition byte_get (s : list Z) (i : Z) : option Z :=
  if i <? Z.of_nat (length s) then s !! Z.to_nat i else None.

(** [strrevn]: [j] starts at [len - 1] in [usize]; every turn of the loop
    brings [i] and [j] closer, so that it takes fewer turns than [s] has
    bytes. *)
Fixpoint strrevn_loop (fuel : nat) (s : list Z) (i j : Z)
  : option (list Z) :=
  if i <? j then
    match fuel with
    | O => None
    | S fuel' =>
      match byte_get s i, byte_get s j with
      | Some a, Some b =>
        strrevn_loop fuel'
          (<[Z.to_nat j := a]> (<[Z.to_nat i := b]> s)) (i + 1) (j - 1)
      | _, _ => None
      end
    end
  else Some s.

Definition strrevn (s : list Z) (len : Z) : option (list Z) :=
  strrevn_loop (length s) s 0 (usize (len - 1)).

(** The value of the digit character [c] of [sfmtu64]: its index in the
    table of digit characters. *)
Fixpoint index_of (c : Z) (l : list Z) (i : Z) : option Z :=
  match l with
  | [] => None
  | x :: l' => if x =? c then Some i else index_of c l' (i + 1)
  end.

Definition digit_of_char (c : Z) : option Z := index_of c sfmt_chars 0.

(** The number that a list of digit characters, most significant first,
    writes in base [base]. *)
Fixpoint number_of_digits (base : Z) (acc : Z) (cs : list Z) : option Z :=
  match cs with
  | [] => Some acc
  | c :: cs' =>
    match digit_of_char c with
    | Some d =>
      if d <? base then number_of_digits base (acc * base + d) cs' else None
    | None => None
    end
  end.

End Str.

(** ** What a call of the scanner reaches *)

Module ScanSpec.
Import Scanner.

(** The scanner [s'] reads the input [i0] and is at a position from [lo] to
    the end of it; it has the compiler [c0], or else it has stopped: its
    token is [EOF] and it is at the end of the input. *)
Definition reached (i0 : list Z) (c0 : compiler_t) (lo : Z) (s' : scanner_t)
  : Prop :=
  input s' = i0 /\ lo <= inp s' <= Z.of_nat (length i0) /\
  (compiler s' = c0 \/ (tok s' = TEOF /\ inp s' = Z.of_nat (length i0))).

(** What a call of [scanner_next] has done to [s]: it went forward in the
    same input, it reported nothing unless it stopped, and it either came to
    [EOF], or used up the pending semicolon, or consumed input. *)
Definition scanned (s s' : scanner_t) : Prop :=
  reached (input s) (compiler s) (inp s) s' /\
  (tok s' = TEOF \/
   (insertsemi s = true /\ insertsemi s' = false /\ tok s' = TSEMI) \/
   inp s < inp s').

(** What [number] leaves when the literal was too large: the scanner has
    stopped and the one error is reported at the token. *)
Definition too_large (s s' : scanner_t) : Prop :=
  tok s' = TEOF /\ inp s' = inend s /\ input s' = input s /\
  diags (compiler s') =
    diags (compiler s) ++
    [mk_diag (focus_range (loc s)) DIAG_ERR MsgIntLitTooLarge].

(** The prefix that marks the base of an integer literal. *)
Definition int_prefix (base : Z) : list Z :=
  if base =? 16 then bytes_of_string "0x"
  else if base =? 8 then bytes_of_string "0o"
  else if base =? 2 then bytes_of_string "0b"
  else [].

End ScanSpec.

Module TokenSpec.
Import Scanner.

(** The scanner as [scan1] has it when it looks at the first byte of the
    token: start and location of the token are set, the flag is clear and
    the byte consumed. *)
Definition token_start (s : scanner_t) : scanner_t :=
  let s := set_tokstart (inp s) s in
  let s := set_loc (mk_srcloc (lineno s)
                      (u32 (u32 (tokstart s - linestart s) + 1))) s in
  let s := set_insertsemi false s in
  set_inp (inp s + 1) s.

End TokenSpec.

Module IntSpec.
Import Ast.

(** The largest value of an integer type of [size] bytes: all bits when it
    is unsigned, all bits but the sign when it is signed. *)
Definition int_max (t : node_t) : Z :=
  if n_isunsigned t then 2 ^ (8 * n_size t) - 1
  else 2 ^ (8 * n_size t - 1) - 1.

(** The sized integer kinds, for which a type context decides the type of
    a literal. *)
Definition sized_int (k : nodekind_t) : bool :=
  match k with
  | TYPE_I8 | TYPE_I16 | TYPE_I32 | TYPE_I64 => true
  | _ => false
  end.

End IntSpec.

Module TypeidSpec.
Import Ast Typeid.

(** What [append] writes for a type that has its id: the one byte of a
    primitive type, the whole id of another. *)
Definition tid_bytes (t : node_t) : list Z :=
  match n_tid t with
  | Some tid =>
    if type_isprim t then [hd 0 (bytes_of_string tid)] else cstr tid
  | None => []
  end.

(** The signature of a function type: prefix, number of parameters, what
    is written for the type of each parameter, and for the result. *)
Definition fun_sig (PREFIX : nodekind_t -> Z) (ptypes : list node_t)
    (res : node_t) : list Z :=
  [PREFIX TYPE_FUN] ++
  write_u32 [] (u32 (Z.of_nat (length ptypes))) ++
  concat (List.map tid_bytes ptypes) ++ tid_bytes res.

(** The parameter at [l] has the type node [tn], which has its id. *)
Definition param_typed (nodes : list node_t) (l : Z) (tn : node_t) : Prop :=
  exists pn, node_at nodes l = Some pn /\
             node_at nodes (n_type pn) = Some tn /\ n_tid tn <> None.

(** [nodes'] is [nodes] with ids given to types that had none: every
    node is as it was, or had no id and differs in its id only. *)
Definition tids_added (nodes nodes' : list node_t) : Prop :=
  length nodes' = length nodes /\
  forall (i : nat) n, nodes !! i = Some n ->
    exists n', nodes' !! i = Some n' /\
      (n' = n \/ (n_tid n = None /\ exists x, n' = set_n_tid (Some x) n)).

(** The call added ids only, and the type at [ta] has its id. *)
Definition settled (nodes : list node_t) (ta : Z) (nodes' : list node_t)
  : Prop :=
  tids_added nodes nodes' /\
  exists t', node_at nodes' ta = Some t' /\ n_tid t' <> None.

End TypeidSpec.

Module TypeidExample.
Import Ast Typeid.

(** A function type of two [i32] parameters and [i32] result, after the
    static nodes and its two parameters. *)
Definition fun_node (params : list Z) (result : Z) : node_t :=
  set_n_kind TYPE_FUN (set_n_params params (set_n_result result zero_node)).

Definition fun_heap : list node_t :=
  static_nodes typeid_prefix ++
  [Props.param_i32; Props.param_i32; fun_node [19; 20] type_i32].

End TypeidExample.

Module ParserExample.
Import Parser.

(** A parser inside a scope that was opened at the top level, after one
    top-level binding. *)
Definition in_scope : parser_t :=
  set_scope (Scope.mk_scope [8; 7; 0; 0; 0; 0; 0; 0] 8 3 2) Run.parser0.

End ParserExample.

(** * Properties *)

(** ** The monad of the embedding *)

Lemma bind_Ok {S A B} (m : M S A) (k : A -> M S B) s a s' :
  m s = Ok a s' -> bind m k s = k a s'.
Proof. unfold bind. intros ->. reflexivity. Qed.

Lemma bind_inv {S A B} (m : M S A) (k : A -> M S B) s b s' :
  bind m k s = Ok b s' -> exists a s1, m s = Ok a s1 /\ k a s1 = Ok b s'.
Proof.
  unfold bind. destruct (m s) as [a s1| | |]; try discriminate.
  intros H. eauto.
Qed.

Lemma bind_ext_run {S A B} (m : M S A) (k1 k2 : A -> M S B) s :
  (forall a s', k1 a s' = k2 a s') -> bind m k1 s = bind m k2 s.
Proof. intros H. unfold bind. destruct (m s); auto. Qed.

(** ** The scope stack *)

Module ScopeProofs.
Import Scope.

Lemma slot_get_Some p i v : slot_get p i = Some v -> 0 <= i < Z.of_nat (length p).
Proof.
  unfold slot_get. destruct (0 <=? i) eqn:E1; destruct (i <? Z.of_nat (length p)) eqn:E2; simpl; try discriminate.
  intros _. lia.
Qed.

Lemma slot_set_Some p i v p' : slot_set p i v = Some p' ->
  0 <= i < Z.of_nat (length p) /\ length p' = length p /\
  slot_get p' i = Some v /\
  forall j, j <> i -> slot_get p' j = slot_get p j.
Proof.
  unfold slot_set, slot_get.
  destruct (0 <=? i) eqn:E1; destruct (i <? Z.of_nat (length p)) eqn:E2; simpl; try discriminate.
  intros [= <-]. rewrite length_insert.
  split; [lia|]. split; [reflexivity|]. split.
  - rewrite E2. apply list_lookup_insert_eq. lia.
  - intros j Hj. destruct ((0 <=? j) && (j <? Z.of_nat (length p))) eqn:E; [|reflexivity].
    apply list_lookup_insert_ne. apply andb_true_iff in E. lia.
Qed.

Lemma lookup_loop_agree fuel : forall p p' key i b d,
  (forall j, 0 <= j < i -> slot_get p' j = slot_get p j) ->
  lookup_loop fuel p' key i b d = lookup_loop fuel p key i b d.
Proof.
  induction fuel as [|fuel IH]; intros p p' key i b d H; simpl; [reflexivity|].
  destruct (i >? 1) eqn:Ei; [|reflexivity].
  assert (1 < i) by lia.
  destruct (i - 1 =? b) eqn:Eb.
  - destruct (d =? 0); [reflexivity|].
    rewrite (H (i - 1)) by lia.
    destruct (slot_get p (i - 1)); [|reflexivity].
    apply IH. intros j Hj. apply H. lia.
  - rewrite (H (i - 1)) by lia.
    destruct (slot_get p (i - 1)); [|reflexivity].
    destruct (z =? key).
    + apply H. lia.
    + apply IH. intros j Hj. apply H. lia.
Qed.

Section Undo.
Variable mem_resizev : list Z -> Z -> Z -> option (list Z).
Hypothesis Hres : resize_ok mem_resizev.

Lemma u32_id z : is_u32 z -> u32 z = z.
Proof. unfold is_u32, u32. intros. apply Z.mod_small. lia. Qed.

Lemma scope_grow_spec s ok s1 :
  wf s -> scope_grow mem_resizev s = (ok, s1) ->
  if ok then
    is_u32 (cap s1) /\ Z.of_nat (length (ptr s1)) = cap s1 /\
    len s1 = len s /\ base s1 = base s /\
    (cap s1 = 4 /\ cap s = 0 \/ cap s1 = u32 (cap s * 2)) /\
    forall j, 0 <= j < cap s -> j < cap s1 -> slot_get (ptr s1) j = slot_get (ptr s) j
  else s1 = s.
Proof using Hres.
  intros (Hc & Hb & Hl & Hp). unfold scope_grow.
  set (newcap := u32 _).
  destruct (mem_resizev (ptr s) (cap s) newcap) as [np|] eqn:E; intros [= <- <-]; [|reflexivity].
  destruct (Hres _ _ _ _ E) as [Hlen Hag]. simpl.
  split. { subst newcap. unfold is_u32, u32. apply Z.mod_pos_bound. lia. }
  split; [exact Hlen|]. split; [reflexivity|]. split; [reflexivity|].
  split.
  - subst newcap. destruct (cap s =? 0) eqn:E0.
    + left. apply Z.eqb_eq in E0. rewrite E0. split; [reflexivity|reflexivity].
    + right. f_equal. lia.
  - intros j Hj Hj'. unfold slot_get. rewrite Hlen, Hp.
    destruct ((0 <=? j) && (j <? newcap)) eqn:E1.
    + replace ((0 <=? j) && (j <? cap s)) with true by (symmetry; apply andb_true_iff; lia).
      apply andb_true_iff in E1.
      destruct (lookup_lt_is_Some_2 (ptr s) (Z.to_nat j)) as [v Hv]; [lia|].
      rewrite Hv. apply Hag; [lia|lia|exact Hv].
    + apply andb_false_iff in E1. lia.
Qed.

Lemma scope_push_spec s s1 :
  wf s -> scope_push mem_resizev s = Some (true, s1) ->
  wf s1 /\ len s1 = len s + 1 /\ base s1 = len s /\
  slot_get (ptr s1) (len s) = Some (base s) /\
  forall j, 0 <= j < len s -> slot_get (ptr s1) j = slot_get (ptr s) j.
Proof using Hres.
  intros Hwf. pose proof Hwf as (Hc & Hb & Hl & Hp). unfold scope_push.
  destruct (len s >=? cap s) eqn:Eg.
  - destruct (scope_grow mem_resizev s) as [ok g] eqn:Eg'.
    pose proof (scope_grow_spec _ _ _ Hwf Eg') as Hg.
    destruct ok; simpl; [|discriminate].
    destruct Hg as (Hc1 & Hp1 & Hl1 & Hb1 & Hcap & Hag).
    destruct (slot_set (ptr g) (len g) (base g)) as [p'|] eqn:Es; [|discriminate].
    intros [= <-]. simpl.
    destruct (slot_set_Some _ _ _ _ Es) as (Hr & Hlen & Hget & Hoth).
    rewrite Hl1, Hb1 in *.
    assert (len s + 1 <= cap g) by lia.
    rewrite u32_id by (unfold is_u32 in *; lia).
    unfold wf, is_u32 in *; simpl; split_and!; try lia; try exact Hget.
    intros j Hj. rewrite Hoth by lia. apply Hag; lia.
  - simpl. destruct (slot_set (ptr s) (len s) (base s)) as [p'|] eqn:Es; [|discriminate].
    intros [= <-]. simpl.
    destruct (slot_set_Some _ _ _ _ Es) as (Hr & Hlen & Hget & Hoth).
    assert (len s + 1 <= cap s) by lia.
    rewrite u32_id by (unfold is_u32 in *; lia).
    unfold wf, is_u32 in *; simpl; split_and!; try lia; try exact Hget.
    intros j Hj. apply Hoth. lia.
Qed.

Lemma scope_def_spec s k v s1 :
  wf s -> scope_def mem_resizev s k v = Some (true, s1) ->
  wf s1 /\ len s1 = len s + 2 /\ base s1 = base s /\
  forall j, 0 <= j < len s -> slot_get (ptr s1) j = slot_get (ptr s) j.
Proof using Hres.
  intros Hwf. pose proof Hwf as (Hc & Hb & Hl & Hp). unfold scope_def.
  destruct (u32 (cap s - len s) <? 2) eqn:Eg.
  - destruct (scope_grow mem_resizev s) as [ok g] eqn:Eg'.
    pose proof (scope_grow_spec _ _ _ Hwf Eg') as Hg.
    destruct ok; simpl; [|discriminate].
    destruct Hg as (Hc1 & Hp1 & Hl1 & Hb1 & Hcap & Hag).
    destruct (slot_set (ptr g) (len g) v) as [p1|] eqn:Es1; [|discriminate].
    destruct (slot_set p1 (u32 (len g + 1)) k) as [p2|] eqn:Es2; [|discriminate].
    intros [= <-]. simpl.
    destruct (slot_set_Some _ _ _ _ Es1) as (Hr1 & Hlen1 & Hget1 & Hoth1).
    destruct (slot_set_Some _ _ _ _ Es2) as (Hr2 & Hlen2 & Hget2 & Hoth2).
    rewrite Hl1, Hb1 in *.
    rewrite (u32_id (len s + 1)) in * by (unfold is_u32 in *; lia).
    assert (len s + 2 <= cap g) by lia.
    rewrite u32_id by (unfold is_u32 in *; lia).
    unfold wf, is_u32 in *; simpl; split_and!; try lia.
    intros j Hj. rewrite Hoth2, Hoth1 by lia. apply Hag; lia.
  - simpl.
    destruct (slot_set (ptr s) (len s) v) as [p1|] eqn:Es1; [|discriminate].
    destruct (slot_set p1 (u32 (len s + 1)) k) as [p2|] eqn:Es2; [|discriminate].
    intros [= <-]. simpl.
    destruct (slot_set_Some _ _ _ _ Es1) as (Hr1 & Hlen1 & Hget1 & Hoth1).
    destruct (slot_set_Some _ _ _ _ Es2) as (Hr2 & Hlen2 & Hget2 & Hoth2).
    rewrite (u32_id (len s + 1)) in * by (unfold is_u32 in *; lia).
    assert (len s + 2 <= cap s) by lia.
    rewrite u32_id by (unfold is_u32 in *; lia).
    unfold wf, is_u32 in *; simpl; split_and!; try lia.
    intros j Hj. rewrite Hoth2, Hoth1 by lia. reflexivity.
Qed.

Lemma scope_defs_spec kvs : forall s s1,
  wf s -> scope_defs mem_resizev s kvs = Some s1 ->
  wf s1 /\ len s1 = len s + 2 * Z.of_nat (length kvs) /\ base s1 = base s /\
  forall j, 0 <= j < len s -> slot_get (ptr s1) j = slot_get (ptr s) j.
Proof using Hres.
  induction kvs as [|[k v] kvs IH]; intros s s1 Hwf; simpl.
  - intros [= <-]. repeat split; try apply Hwf; lia.
  - destruct (scope_def mem_resizev s k v) as [[[] s']|] eqn:Ed; try discriminate.
    intros Hd. destruct (scope_def_spec _ _ _ _ Hwf Ed) as (Hwf' & Hl' & Hb' & Hag').
    destruct (IH _ _ Hwf' Hd) as (Hwf1 & Hl1 & Hb1 & Hag1).
    split; [exact Hwf1|]. split; [lia|]. split; [congruence|].
    intros j Hj. rewrite Hag1 by lia. apply Hag'. lia.
Qed.

(** C10: [scope_pop] exactly undoes [scope_push].  From a well-formed scope
    stack, after a successful [scope_push] and any number of successful
    [scope_def]s, [scope_pop] succeeds, [len] and [base] are what they were
    before the push, and every [scope_lookup] answers what it answered before
    the push: no binding defined since is visible.  The allocator is any
    [mem_resizev] that keeps the old words ([resize_ok]). *)
Theorem scope_pop_undoes_push s s1 kvs s2 :
  wf s ->
  scope_push mem_resizev s = Some (true, s1) ->
  scope_defs mem_resizev s1 kvs = Some s2 ->
  exists s3,
    scope_pop s2 = Some s3 /\
    len s3 = len s /\ base s3 = base s /\
    forall key maxdepth, scope_lookup s3 key maxdepth = scope_lookup s key maxdepth.
Proof using Hres.
  intros Hwf Hpush Hdefs.
  destruct (scope_push_spec _ _ Hwf Hpush) as (Hwf1 & Hl1 & Hb1 & Hsave & Hag1).
  destruct (scope_defs_spec _ _ _ Hwf1 Hdefs) as (Hwf2 & Hl2 & Hb2 & Hag2).
  unfold scope_pop. rewrite Hb2, Hb1.
  rewrite Hag2, Hsave by (destruct Hwf as (_ & _ & ? & _); lia).
  eexists. split; [reflexivity|]. simpl.
  destruct Hwf as (Hc & Hb & Hl & Hp).
  rewrite u32_id by exact Hb.
  split; [reflexivity|]. split; [reflexivity|].
  intros key maxdepth. unfold scope_lookup. simpl.
  apply lookup_loop_agree. intros j Hj. rewrite Hag2 by lia. apply Hag1. lia.
Qed.
End Undo.

Lemma resize_zero_ok : resize_ok resize_zero.
Proof.
  intros p old new p'. unfold resize_zero.
  destruct (0 <? new) eqn:E; [|discriminate]. intros [= <-]. split.
  - rewrite length_take, length_app, length_replicate. lia.
  - intros i v Ho Hn Hv. rewrite lookup_take_lt by lia.
    apply lookup_app_l_Some. exact Hv.
Qed.


Lemma scope_pop_undoes_push_witness :
  wf Props.scope_example /\
  exists s1 s2,
    scope_push resize_zero Props.scope_example = Some (true, s1) /\
    scope_defs resize_zero s1 [(11, 21); (12, 22)] = Some s2 /\
    exists s3,
      scope_pop s2 = Some s3 /\
      len s3 = len Props.scope_example /\ base s3 = base Props.scope_example /\
      forall key maxdepth,
        scope_lookup s3 key maxdepth = scope_lookup Props.scope_example key maxdepth.
Proof.
  split; [unfold wf, is_u32; simpl; lia|].
  eexists _, _.
  split; [vm_compute; reflexivity|].
  split; [vm_compute; reflexivity|].
  eapply (scope_pop_undoes_push resize_zero resize_zero_ok Props.scope_example
            _ [(11, 21); (12, 22)]).
  - unfold wf, is_u32; simpl; lia.
  - vm_compute; reflexivity.
  - vm_compute; reflexivity.
Defined.

End ScopeProofs.

(** ** The scanner: when the semicolon flag is set *)

Module ScannerProofs.
Import Scanner Props.

Ltac fsimpl :=
  cbn [compiler input inp tokstart tokend linestart lineno tok loc insertsemi
       litint litbuf litlenoffs sym
       set_compiler set_input set_inp set_tokstart set_tokend set_linestart
       set_lineno set_tok set_loc set_insertsemi set_litint set_litbuf
       set_litlenoffs set_sym] in *.


Lemma same_refl s : same s s.
Proof. split; reflexivity. Qed.
Lemma same_trans s1 s2 s3 : same s1 s2 -> same s2 s3 -> same s1 s3.
Proof. intros [] []; split; congruence. Qed.

Lemma inend_same s s' : input s' = input s -> inend s' = inend s.
Proof. unfold inend. intros ->. reflexivity. Qed.

Lemma error_spec s m : same s (error s m) /\ tok (error s m) = TEOF.
Proof. unfold error, stop_scanning. fsimpl. split; [split|]; reflexivity. Qed.

Lemma floatnumber_loop_spec fuel : forall s base a,
  same s (floatnumber_loop fuel s base a) /\
  tok (floatnumber_loop fuel s base a) = tok s.
Proof.
  induction fuel as [|fuel IH]; intros s base a; simpl.
  - split; [apply same_refl|reflexivity].
  - repeat match goal with
    | |- context [if ?c then _ else _] => destruct c
    end;
    try (split; [apply same_refl|reflexivity]);
    match goal with
    | |- context [floatnumber_loop fuel ?s' ?b ?a'] =>
      destruct (IH s' b a') as [[H1 H2 H3] H4]; fsimpl;
      split; [split|]; congruence
    end.
Qed.

Lemma floatnumber_spec s base :
  same s (floatnumber s base) /\ tok (floatnumber s base) = TFLOATLIT.
Proof.
  unfold floatnumber.
  match goal with
  | |- context [floatnumber_loop ?f ?s' ?b ?a'] =>
    destruct (floatnumber_loop_spec f s' b a') as [[H1 H2 H3] H4]
  end.
  destruct (base =? 16); fsimpl; (split; [split|]; congruence).
Qed.

Lemma number_end_spec s acc any c :
  same s (number_end s acc any c) /\
  (tok (number_end s acc any c) = tok s \/ tok (number_end s acc any c) = TEOF).
Proof.
  unfold number_end.
  destruct (any <? 0); destruct (c =? ch "_"); unfold error, stop_scanning; fsimpl;
    (split; [split; reflexivity|]); auto.
Qed.

Lemma number_loop_spec fuel : forall s base start cutoff cutlim acc any c,
  let s' := number_loop fuel s base start cutoff cutlim acc any c in
  same s s' /\
  (tok s' = tok s \/ tok s' = TFLOATLIT \/ tok s' = TEOF).
Proof.
  induction fuel as [|fuel IH]; intros s base start cutoff cutlim acc any c; simpl.
  - split; [split; reflexivity|auto].
  - repeat match goal with
    | |- context [if ?c then _ else _] => destruct c
    end;
    try match goal with
    | |- context [number_end ?s' ?a ?b ?c'] =>
      destruct (number_end_spec s' a b c') as [[H1 H2 H3] H4]; fsimpl;
      split; [split; fsimpl; congruence|fsimpl; tauto]
    | |- context [number_loop fuel ?s' ?b ?st ?co ?cl ?a ?an ?c'] =>
      destruct (IH s' b st co cl a an c') as [[H1 H2 H3] H4]; fsimpl;
      split; [split; fsimpl; congruence|fsimpl; tauto]
    | |- context [floatnumber ?s' ?b] =>
      destruct (floatnumber_spec s' b) as [[H1 H2 H3] H4]; fsimpl;
      split; [split; fsimpl; congruence|fsimpl; tauto]
    | |- context [error ?s' ?m] =>
      destruct (error_spec s' m) as [[H1 H2 H3] H4]; fsimpl;
      split; [split; fsimpl; congruence|fsimpl; tauto]
    end.
Qed.

Lemma number_spec s base :
  let s' := number s base in
  input s' = input s /\ tokstart s' = tokstart s /\ insertsemi s' = true /\
  (tok s' = TINTLIT \/ tok s' = TFLOATLIT \/ tok s' = TEOF).
Proof.
  unfold number.
  match goal with
  | |- context [number_loop ?f ?s' ?b ?st ?co ?cl ?a ?an ?c'] =>
    destruct (number_loop_spec f s' b st co cl a an c') as [[H1 H2 H3] H4]
  end.
  fsimpl. split_and!; try congruence; try exact H4.
Qed.

Lemma zeronumber_spec s :
  let s' := zeronumber s in
  input s' = input s /\ tokstart s' = tokstart s /\ insertsemi s' = true /\
  (tok s' = TINTLIT \/ tok s' = TFLOATLIT \/ tok s' = TEOF).
Proof.
  unfold zeronumber.
  repeat match goal with
  | |- context [if ?c then _ else _] => destruct c
  end;
  match goal with
  | |- context [number ?s' ?b] =>
    destruct (number_spec s' b) as (H1 & H2 & H3 & H4); fsimpl; split_and!; try congruence; try exact H4
  end.
Qed.

Lemma utf8seq_spec s : same s (snd (utf8seq s)) /\ tok (snd (utf8seq s)) = tok s.
Proof.
  unfold utf8seq.
  repeat match goal with
  | |- context [if ?c then _ else _] => destruct c
  end; fsimpl; (split; [split; reflexivity|reflexivity]).
Qed.

Lemma identifier_utf8_loop_spec fuel : forall s,
  let r := identifier_utf8_loop fuel s in
  same s (snd r) /\ (if fst r then tok (snd r) = tok s else tok (snd r) = TEOF).
Proof.
  induction fuel as [|fuel IH]; intros s; simpl.
  - split; [apply same_refl|reflexivity].
  - destruct (inp s <? inend s); [|split; [apply same_refl|reflexivity]].
    destruct (cur s >=? UTF8_SELF).
    + destruct (utf8seq s) as [ok s1] eqn:E.
      pose proof (utf8seq_spec s) as [Hs Ht]. rewrite E in Hs, Ht. simpl in Hs, Ht.
      destruct ok; simpl.
      * destruct (IH s1) as [Hs' Ht']. split; [eapply same_trans; eauto|].
        destruct (fst (identifier_utf8_loop fuel s1)); congruence.
      * destruct (error_spec s1 MsgInvalidUTF8) as [Hs' Ht'].
        split; [eapply same_trans; eauto|exact Ht'].
    + destruct (isalnum (cur s) || (cur s =? ch "_")).
      * destruct (IH (set_inp (inp s + 1) s)) as [[H1 H2 H3] Ht']. fsimpl.
        split; [split; congruence|exact Ht'].
      * split; [apply same_refl|reflexivity].
Qed.

Lemma identifier_utf8_spec s :
  let s' := identifier_utf8 s in
  same s s' /\ (tok s' = TID \/ tok s' = TEOF).
Proof.
  unfold identifier_utf8.
  pose proof (identifier_utf8_loop_spec (S (length (input s))) s) as H.
  cbv zeta in H.
  set (r := identifier_utf8_loop (S (length (input s))) s) in *.
  destruct H as [[H1 H2 H3] Ht].
  destruct r as [ok s1]. cbn [fst snd] in *.
  destruct ok; cbn [negb]; unfold intern_identifier; fsimpl.
  - split; [split; fsimpl; congruence|auto].
  - split; [split; fsimpl; congruence|auto].
Qed.

Lemma utf8seq_inp s : inp s < inp (snd (utf8seq s)).
Proof.
  unfold utf8seq. cbv zeta.
  repeat match goal with
  | |- context [if ?c then _ else _] => destruct c
  end; cbn [snd]; fsimpl; lia.
Qed.

Lemma identifier_utf8_loop_inp fuel : forall s,
  fst (identifier_utf8_loop fuel s) = true ->
  inp s <= inp (snd (identifier_utf8_loop fuel s)).
Proof.
  induction fuel as [|fuel IH]; intros s; cbn [identifier_utf8_loop].
  - intros _. cbn [snd]. lia.
  - destruct (inp s <? inend s); [|intros _; cbn [snd]; lia].
    destruct (cur s >=? UTF8_SELF).
    + pose proof (utf8seq_inp s) as Hu.
      destruct (utf8seq s) as [ok s1]. cbn [snd] in Hu.
      destruct ok; cbn [negb].
      * intros H. specialize (IH s1 H). lia.
      * cbn [fst]. discriminate.
    + destruct (isalnum (cur s) || (cur s =? ch "_")); [|intros _; cbn [snd]; lia].
      intros H. specialize (IH _ H). fsimpl. lia.
Qed.

Lemma identifier_utf8_loop_strict fuel s :
  (inp s <? inend s) = true -> (cur s >=? UTF8_SELF) = true ->
  fst (identifier_utf8_loop (S fuel) s) = true ->
  inp s < inp (snd (identifier_utf8_loop (S fuel) s)).
Proof.
  intros E1 E2. cbn [identifier_utf8_loop]. rewrite E1, E2.
  pose proof (utf8seq_inp s) as Hu.
  destruct (utf8seq s) as [ok s1]. cbn [snd] in Hu.
  destruct ok; cbn [negb].
  - intros H. pose proof (identifier_utf8_loop_inp fuel s1 H). lia.
  - cbn [fst]. discriminate.
Qed.

(** An identifier that starts at a byte outside ASCII is not empty. *)
Lemma identifier_utf8_inp s :
  tok (identifier_utf8 s) = TID ->
  (inp s <? inend s) = true -> (cur s >=? UTF8_SELF) = true ->
  inp s < inp (identifier_utf8 s).
Proof.
  intros Ht E1 E2. unfold identifier_utf8 in *.
  pose proof (identifier_utf8_loop_spec (S (length (input s))) s) as [_ Hs].
  pose proof (identifier_utf8_loop_strict (length (input s)) s E1 E2) as Hi.
  destruct (identifier_utf8_loop (S (length (input s))) s) as [ok s1].
  cbn [fst snd] in *. destruct ok; cbn [negb] in *.
  - unfold intern_identifier. fsimpl. apply Hi. reflexivity.
  - congruence.
Qed.

Lemma identifier_loop_inp fuel : forall s, inp s <= inp (identifier_loop fuel s).
Proof.
  induction fuel as [|fuel IH]; intros s; cbn [identifier_loop]; [lia|].
  destruct ((inp s <? inend s) && (isalnum (cur s) || (cur s =? ch "_"))); [|lia].
  specialize (IH (set_inp (inp s + 1) s)). fsimpl. lia.
Qed.

Lemma byte_at_input s s' i : input s' = input s -> byte_at s' i = byte_at s i.
Proof. unfold byte_at. intros ->. reflexivity. Qed.

Section Keywords.
Variable kw : list (string * tok_t).
Hypothesis Hkw : keywords_ok kw.

Lemma maybe_keyword_loop_spec fuel : forall s lit low high,
  let s' := maybe_keyword_loop kw fuel s lit low high in
  same s s' /\ (tok s' = tok s \/ is_keyword_tok (tok s') = true).
Proof using Hkw.
  induction fuel as [|fuel IH]; intros s lit low high; simpl.
  - split; [apply same_refl|auto].
  - destruct (low <? high); [|split; [apply same_refl|auto]].
    destruct (kw !! Z.to_nat ((low + high) / 2)) as [[k t]|] eqn:E;
      [|split; [apply same_refl|auto]].
    destruct (strncmp lit (bytes_of_string k) (length lit) =? 0).
    + fsimpl. split; [split; reflexivity|]. right.
      unfold keywords_ok in Hkw. rewrite Forall_forall in Hkw.
      apply (Hkw (k, t)). eapply list_elem_of_lookup_2. exact E.
    + destruct (strncmp lit (bytes_of_string k) (length lit) <? 0); apply IH.
Qed.

Lemma identifier_loop_spec fuel : forall s,
  same s (identifier_loop fuel s) /\ tok (identifier_loop fuel s) = tok s.
Proof.
  induction fuel as [|fuel IH]; intros s; simpl.
  - split; [apply same_refl|reflexivity].
  - destruct ((inp s <? inend s) && (isalnum (cur s) || (cur s =? ch "_"))).
    + destruct (IH (set_inp (inp s + 1) s)) as [[H1 H2 H3] Ht]. fsimpl.
      split; [split; congruence|exact Ht].
    + split; [apply same_refl|reflexivity].
Qed.

Lemma identifier_spec s :
  let s' := identifier kw s in
  input s' = input s /\ tokstart s' = tokstart s /\
  ((insertsemi s' = true /\ (tok s' = TID \/ is_keyword_tok (tok s') = true)) \/
   (insertsemi s' = insertsemi s /\ (tok s' = TID \/ tok s' = TEOF))).
Proof using Hkw.
  unfold identifier.
  destruct (identifier_loop_spec (S (length (input s))) s) as [[H1 H2 H3] Ht].
  set (s1 := identifier_loop (S (length (input s))) s) in *.
  destruct ((inp s1 <? inend s1) && (cur s1 >=? UTF8_SELF)).
  - destruct (identifier_utf8_spec s1) as [[G1 G2 G3] Gt].
    repeat split; try congruence. right. split; [congruence|exact Gt].
  - unfold maybe_keyword.
    match goal with
    | |- context [maybe_keyword_loop kw ?f ?s' ?l ?lo ?hi] =>
      destruct (maybe_keyword_loop_spec f s' l lo hi) as [[G1 G2 G3] Gt]
    end.
    unfold intern_identifier in *. fsimpl.
    repeat split; try congruence. left. split; [congruence|].
    destruct Gt as [Gt|Gt]; [left; congruence|right; exact Gt].
Qed.
(** An identifier after which the flag is clear holds a byte that is not
    ASCII. *)
Lemma identifier_clear s :
  tok (identifier kw s) = TID -> insertsemi (identifier kw s) = false ->
  exists i, inp s <= i < inp (identifier kw s) /\
            UTF8_SELF <= byte_at (identifier kw s) i.
Proof.
  unfold identifier.
  pose proof (identifier_loop_inp (S (length (input s))) s) as Hle.
  set (s1 := identifier_loop (S (length (input s))) s) in *.
  destruct ((inp s1 <? inend s1) && (cur s1 >=? UTF8_SELF)) eqn:E.
  - apply andb_true_iff in E as [E1 E2]. intros Ht _.
    pose proof (identifier_utf8_inp s1 Ht E1 E2) as Hlt.
    destruct (identifier_utf8_spec s1) as [[G1 _ _] _].
    exists (inp s1). split; [lia|].
    rewrite (byte_at_input s1 _ _ G1). apply Z.geb_le in E2. exact E2.
  - unfold maybe_keyword.
    match goal with
    | |- context [maybe_keyword_loop kw ?f ?s' ?l ?lo ?hi] =>
      destruct (maybe_keyword_loop_spec f s' l lo hi) as [[_ G2 _] _]
    end.
    unfold intern_identifier in *. fsimpl. intros _ Hf. congruence.
Qed.

End Keywords.

Lemma line_comment_loop_spec fuel : forall s,
  let s' := line_comment_loop fuel s in
  same s s' /\ tok s' = tok s /\ (inp s <= inend s -> inp s <= inp s' <= inend s).
Proof.
  induction fuel as [|fuel IH]; intros s; simpl.
  - split_and!; [apply same_refl|reflexivity|lia].
  - destruct ((inp s <? inend s) && negb (cur s =? 10)) eqn:E.
    + destruct (IH (set_inp (inp s + 1) s)) as ([H1 H2 H3] & Ht & Hi).
      apply andb_true_iff in E as [E _].
      fsimpl. rewrite (inend_same s (set_inp (inp s + 1) s)) in Hi by reflexivity.
      split_and!; [split; fsimpl; congruence|exact Ht|lia].
    + split_and!; [apply same_refl|reflexivity|lia].
Qed.

Lemma block_comment_loop_spec fuel : forall s st,
  let s' := block_comment_loop fuel s st in
  same s s' /\ tok s' = tok s /\ (inp s <= inend s -> inp s <= inp s' <= inend s).
Proof.
  induction fuel as [|fuel IH]; intros s st; simpl.
  - split_and!; [apply same_refl|reflexivity|lia].
  - destruct (inp s <? inend s) eqn:E; [|split_and!; [apply same_refl|reflexivity|lia]].
    assert (Hlt : inp s < inend s) by lia.
    repeat match goal with
    | |- context [if ?c then _ else _] => destruct c
    end;
    try match goal with
    | |- context [block_comment_loop fuel ?s1 ?st1] =>
      destruct (IH s1 st1) as ([H1 H2 H3] & Ht & Hi);
      assert (Hend : inend s1 = inend s) by (apply inend_same; reflexivity);
      rewrite Hend in Hi;
      unfold newline in *; fsimpl;
      split_and!; [split; fsimpl; congruence|exact Ht|lia]
    end.
    fsimpl. split_and!; [split; reflexivity|reflexivity|lia].
Qed.

Lemma skip_comment_spec s :
  let s' := skip_comment s in
  same s s' /\ tok s' = tok s /\
  (inp s + 2 <= inend s -> inp s + 2 <= inp s' <= inend s).
Proof.
  unfold skip_comment.
  destruct (byte_at s (inp s + 1) =? ch "/").
  - match goal with
    | |- context [line_comment_loop ?f ?s1] =>
      destruct (line_comment_loop_spec f s1) as ([H1 H2 H3] & Ht & Hi)
    end.
    fsimpl. rewrite (inend_same s (set_inp (inp s + 2) s)) in Hi by reflexivity.
    split_and!; [split; fsimpl; congruence|exact Ht|lia].
  - match goal with
    | |- context [block_comment_loop ?f ?s1 ?st] =>
      destruct (block_comment_loop_spec f s1 st) as ([H1 H2 H3] & Ht & Hi)
    end.
    fsimpl. rewrite (inend_same s (set_inp (inp s + 2) s)) in Hi by reflexivity.
    split_and!; [split; fsimpl; congruence|exact Ht|lia].
Qed.

Lemma skip_whitespace_spec fuel : forall s,
  let s' := skip_whitespace fuel s in
  same s s' /\ tok s' = tok s /\ (inp s <= inend s -> inp s <= inp s' <= inend s).
Proof.
  induction fuel as [|fuel IH]; intros s; simpl.
  - split_and!; [apply same_refl|reflexivity|lia].
  - destruct ((inp s <? inend s) && isspace (cur s)) eqn:E;
      [|split_and!; [apply same_refl|reflexivity|lia]].
    apply andb_true_iff in E as [E _].
    match goal with
    | |- context [skip_whitespace fuel ?s1] =>
      destruct (IH s1) as ([H1 H2 H3] & Ht & Hi);
      rewrite (inend_same s s1) in Hi
        by (destruct (cur s =? 10); unfold newline; reflexivity)
    end.
    destruct (cur s =? 10); unfold newline in *; fsimpl;
      (split_and!; [split; fsimpl; congruence|exact Ht|lia]).
Qed.

Lemma byte_at_same s s' i : input s' = input s -> byte_at s' i = byte_at s i.
Proof. unfold byte_at. intros ->. reflexivity. Qed.

Ltac post_direct :=
  unfold Post, explicit_semi; fsimpl;
  split_and!; intros;
  try discriminate; try reflexivity;
  try match goal with
      | H : always_sets ?t = true |- _ =>
        is_constructor t; vm_compute in H; discriminate H
      end.

Section Scan.
Variable kw : list (string * tok_t).
Hypothesis Hkw : keywords_ok kw.

Lemma keyword_not_semi t : is_keyword_tok t = true -> t <> TSEMI.
Proof. intros H ->. discriminate H. Qed.

Lemma Post_of_number flag0 s' :
  insertsemi s' = true ->
  (tok s' = TINTLIT \/ tok s' = TFLOATLIT \/ tok s' = TEOF) ->
  Post flag0 s'.
Proof.
  intros Hf Ht. unfold Post. split_and!.
  - intros _. exact Hf.
  - intros _. destruct Ht as [->| [->| ->]]; reflexivity.
  - intros _ E. destruct Ht as [Ht| [Ht| Ht]]; congruence.
Qed.

Lemma Post_of_unset flag0 s' :
  insertsemi s' = false ->
  (tok s' = TID \/ tok s' = TFLOATLIT \/ tok s' = TEOF) ->
  Post flag0 s'.
Proof.
  intros Hf Ht. unfold Post. split_and!.
  - intros E. destruct Ht as [Ht| [Ht| Ht]]; rewrite Ht in E; discriminate E.
  - intros E. congruence.
  - intros _ E. destruct Ht as [Ht| [Ht| Ht]]; congruence.
Qed.

Lemma Post_of_identifier flag0 s' :
  insertsemi s' = true ->
  (tok s' = TID \/ is_keyword_tok (tok s') = true) ->
  Post flag0 s'.
Proof.
  intros Hf Ht. unfold Post. split_and!.
  - intros _. exact Hf.
  - intros _. destruct Ht as [->|Ht]; [reflexivity|].
    unfold may_set, always_sets. rewrite Ht.
    rewrite orb_true_r. reflexivity.
  - intros _ E. destruct Ht as [Ht|Ht]; [congruence|].
    rewrite E in Ht. discriminate Ht.
Qed.

Lemma scan1_spec (k : scanner_t -> scanner_t) s :
  0 <= inp s -> inp s < inend s ->
  (forall s2, input s2 = input s -> insertsemi s2 = insertsemi s ->
     inp s + 2 <= inp s2 <= inend s -> Post (insertsemi s) (k s2)) ->
  Post (insertsemi s) (scan1 kw k s).
Proof using Hkw.
  intros H0 Hlt Hk. unfold scan1.
  set (flag0 := insertsemi s).
  cbv zeta.
  repeat match goal with
  | |- context [if ?c then _ else _] => destruct c eqn:?
  end;
  try (post_direct; fail).
  - (* ; *)
    match goal with H : (cur _ =? ch ";") = true |- _ =>
      apply Z.eqb_eq in H; unfold cur, byte_at in H; fsimpl; rename H into Hc end.
    unfold Post, explicit_semi; fsimpl. split_and!; intros; try discriminate.
    split; [unfold byte_at; fsimpl; exact Hc|reflexivity].
  - (* 0 *)
    match goal with |- context [zeronumber ?s1] =>
      destruct (zeronumber_spec s1) as (H1 & H2 & H3 & H4) end.
    apply Post_of_number; assumption.
  - (* .5 *)
    match goal with |- context [floatnumber ?s1 ?b] =>
      destruct (floatnumber_spec s1 b) as ([H1 H2 H3] & H4) end.
    apply Post_of_unset; [fsimpl; congruence|auto].
  - (* comment *)
    match goal with |- context [skip_comment ?s1] =>
      destruct (skip_comment_spec s1) as ([H1 H2 H3] & H4 & H5) end.
    fsimpl.
    match goal with H : ((_ <? _) && _) = true |- _ =>
      apply andb_true_iff in H as [Hin _]; unfold inend in Hin; fsimpl end.
    apply Z.ltb_lt in Hin.
    apply Hk; [congruence|congruence|].
    unfold inend in *; fsimpl.
    match goal with |- _ <= inp ?s2 <= _ => set (i2 := inp s2) in * end.
    clearbody i2. clear - H0 Hlt Hin H5. lia.
  - (* digit *)
    match goal with |- context [number ?s1 ?b] =>
      destruct (number_spec s1 b) as (H1 & H2 & H3 & H4) end.
    apply Post_of_number; assumption.
  - (* utf8 *)
    match goal with |- context [identifier_utf8 ?s1] =>
      destruct (identifier_utf8_spec s1) as ([H1 H2 H3] & H4) end.
    apply Post_of_unset; [fsimpl; congruence|tauto].
  - (* identifier *)
    match goal with |- context [identifier kw ?s1] =>
      destruct (identifier_spec kw Hkw s1) as (H1 & H2 & [[H3 H4]|[H3 H4]]) end.
    + apply Post_of_identifier; assumption.
    + apply Post_of_unset; [fsimpl; congruence|tauto].
Qed.

Lemma scan0_spec fuel : forall s,
  0 <= inp s <= inend s ->
  (Z.to_nat (inend s - inp s) < fuel)%nat ->
  Post (insertsemi s) (scan0 kw fuel s).
Proof using Hkw.
  induction fuel as [|fuel IH]; intros s Hwf Hfuel; [lia|].
  cbn [scan0]. cbv zeta.
  match goal with |- context [skip_whitespace ?f ?s1] =>
    pose proof (skip_whitespace_spec f s1) as Hws; cbv zeta in Hws;
    set (s2 := skip_whitespace f s1) in *
  end.
  destruct Hws as ([H1 H2 H3] & Ht & Hi). fsimpl.
  rewrite (inend_same s (set_litlenoffs 0 s)) in Hi by reflexivity.
  specialize (Hi ltac:(lia)).
  assert (Hend : inend s2 = inend s) by (apply inend_same; exact H1).
  destruct (negb (linestart s =? linestart s2) && insertsemi s2) eqn:E1.
  - apply andb_true_iff in E1 as [_ E1].
    unfold Post; fsimpl. split_and!; intros; try discriminate. congruence.
  - destruct (inp s2 >=? inend s2) eqn:E2.
    + destruct (insertsemi s2) eqn:E3; unfold Post; fsimpl;
        split_and!; intros; try discriminate; try congruence.
    + rewrite <- H2.
      apply scan1_spec; [lia|lia|].
      intros s3 G1 G2 G3. rewrite <- G2.
      apply IH.
      * rewrite (inend_same s2 s3) by exact G1. lia.
      * rewrite (inend_same s2 s3) by exact G1. lia.
Qed.

Theorem scanner_next_insertsemi_base s :
  0 <= inp s <= inend s ->
  Post (insertsemi s) (scanner_next kw s).
Proof using Hkw.
  intros Hwf. unfold scanner_next.
  change (insertsemi s) with (insertsemi (set_tokend (inp s) s)).
  apply scan0_spec.
  - unfold inend in *. fsimpl. exact Hwf.
  - unfold inend in *. fsimpl. lia.
Qed.
Ltac clear_direct :=
  unfold clear_explained; fsimpl; split; intros; discriminate.

Lemma clear_explained_set s' :
  insertsemi s' = true -> clear_explained s'.
Proof. intros H. split; intros _ Hf; congruence. Qed.

Lemma scan1_clear (k : scanner_t -> scanner_t) s :
  0 <= inp s -> inp s < inend s ->
  (forall s2, input s2 = input s ->
     inp s + 2 <= inp s2 <= inend s -> clear_explained (k s2)) ->
  clear_explained (scan1 kw k s).
Proof using Hkw.
  intros H0 Hlt Hk. unfold scan1.
  cbv zeta.
  repeat match goal with
  | |- context [if ?c then _ else _] => destruct c eqn:?
  end;
  try (clear_direct; fail).
  - (* 0 *)
    match goal with |- context [zeronumber ?s1] =>
      destruct (zeronumber_spec s1) as (H1 & H2 & H3 & H4) end.
    apply clear_explained_set. exact H3.
  - (* .5 *)
    match goal with |- context [floatnumber ?s1 ?b] =>
      destruct (floatnumber_spec s1 b) as ([H1 H2 H3] & H4) end.
    split; [intros Ht; congruence|]. intros _ _.
    rewrite H3. fsimpl. erewrite byte_at_input by exact H1.
    match goal with H : (cur _ =? ch ".") = true |- _ =>
      apply Z.eqb_eq in H; exact H end.
  - (* comment *)
    match goal with |- context [skip_comment ?s1] =>
      destruct (skip_comment_spec s1) as ([H1 H2 H3] & H4 & H5) end.
    fsimpl.
    match goal with H : ((_ <? _) && _) = true |- _ =>
      apply andb_true_iff in H as [Hin _]; unfold inend in Hin; fsimpl end.
    apply Z.ltb_lt in Hin.
    apply Hk; [congruence|].
    unfold inend in *; fsimpl.
    match goal with |- _ <= inp ?s2 <= _ => set (i2 := inp s2) in * end.
    clearbody i2. clear - H0 Hlt Hin H5. lia.
  - (* digit *)
    match goal with |- context [number ?s1 ?b] =>
      destruct (number_spec s1 b) as (H1 & H2 & H3 & H4) end.
    apply clear_explained_set. exact H3.
  - (* utf8 *)
    match goal with |- context [identifier_utf8 ?s1] =>
      destruct (identifier_utf8_spec s1) as ([H1 H2 H3] & H4);
      pose proof (identifier_utf8_inp s1) as Hi
    end.
    split; [|intros Ht; destruct H4; congruence].
    intros Ht _. specialize (Hi Ht).
    match goal with H : (_ >=? UTF8_SELF) = true |- _ => rename H into Hc end.
    unfold cur, byte_at, inend in Hi, Hc. fsimpl.
    rewrite Z.add_simpl_r in *.
    apply Z.ltb_lt in Hlt. unfold inend in Hlt.
    specialize (Hi Hlt Hc).
    exists (inp s). rewrite H3. fsimpl. split; [split; [apply Z.le_refl|exact Hi]|].
    erewrite byte_at_input by exact H1. unfold byte_at. fsimpl.
    apply Z.geb_le in Hc. exact Hc.
  - (* identifier *)
    match goal with |- context [identifier kw ?s1] =>
      destruct (identifier_spec kw Hkw s1) as (H1 & H2 & H3);
      pose proof (identifier_clear kw Hkw s1) as Hi
    end.
    split.
    + intros Ht Hf. destruct (Hi Ht Hf) as (i & Hr & Hb).
      exists i. split; [|exact Hb]. rewrite H2. fsimpl. fsimpl.
      clear - Hr. cbn [inp set_inp] in Hr. lia.
    + intros Ht. destruct H3 as [[_ [H3|H3]]|[_ [H3|H3]]]; try congruence.
      rewrite Ht in H3. discriminate H3.
Qed.

Lemma scan0_clear fuel : forall s,
  0 <= inp s <= inend s ->
  (Z.to_nat (inend s - inp s) < fuel)%nat ->
  clear_explained (scan0 kw fuel s).
Proof using Hkw.
  induction fuel as [|fuel IH]; intros s Hwf Hfuel; [lia|].
  cbn [scan0]. cbv zeta.
  match goal with |- context [skip_whitespace ?f ?s1] =>
    pose proof (skip_whitespace_spec f s1) as Hws; cbv zeta in Hws;
    set (s2 := skip_whitespace f s1) in *
  end.
  destruct Hws as ([H1 H2 H3] & Ht & Hi). fsimpl.
  rewrite (inend_same s (set_litlenoffs 0 s)) in Hi by reflexivity.
  specialize (Hi ltac:(lia)).
  assert (Hend : inend s2 = inend s) by (apply inend_same; exact H1).
  destruct (negb (linestart s =? linestart s2) && insertsemi s2) eqn:E1.
  - clear_direct.
  - destruct (inp s2 >=? inend s2) eqn:E2.
    + destruct (insertsemi s2) eqn:E3; clear_direct.
    + apply scan1_clear; [lia|lia|].
      intros s3 G1 G3.
      apply IH.
      * rewrite (inend_same s2 s3) by exact G1. lia.
      * rewrite (inend_same s2 s3) by exact G1. lia.
Qed.

Lemma scanner_next_clear s :
  0 <= inp s <= inend s -> clear_explained (scanner_next kw s).
Proof using Hkw.
  intros Hwf. unfold scanner_next. cbv zeta.
  apply scan0_clear.
  - unfold inend in *. fsimpl. exact Hwf.
  - unfold inend in *. fsimpl. lia.
Qed.

End Scan.

Lemma keywordtab_ok : keywords_ok keywordtab.
Proof. unfold keywords_ok, keywordtab. repeat constructor. Qed.

(** C5 (as amended): after [scanner_next] has scanned a token from a scanner
    whose position lies inside its input, whatever the keyword table (as
    long as it maps to keyword tokens): the flag is set after every closing
    bracket, every integer literal and every keyword, [return] as well as
    the others; it is set only after one of these, an identifier, a float
    literal or the [EOF] that ends a scan in error; a [SEMI] scanned
    while the flag was clear is a byte [;] of the input, not a synthetic
    one; the flag is set after an identifier whose bytes are all ASCII, and
    after a float literal that does not start with its point. *)
Theorem insertsemi_after_token kw s :
  keywords_ok kw ->
  0 <= inp s <= inend s ->
  (always_sets (tok (scanner_next kw s)) = true ->
   insertsemi (scanner_next kw s) = true) /\
  (insertsemi (scanner_next kw s) = true ->
   may_set (tok (scanner_next kw s)) = true) /\
  (insertsemi s = false -> tok (scanner_next kw s) = TSEMI ->
   explicit_semi (scanner_next kw s)) /\
  (tok (scanner_next kw s) = TID ->
   (forall i, tokstart (scanner_next kw s) <= i < inp (scanner_next kw s) ->
              byte_at (scanner_next kw s) i < UTF8_SELF) ->
   insertsemi (scanner_next kw s) = true) /\
  (tok (scanner_next kw s) = TFLOATLIT ->
   byte_at (scanner_next kw s) (tokstart (scanner_next kw s)) <> ch "." ->
   insertsemi (scanner_next kw s) = true).
Proof.
  intros Hkw Hpos.
  destruct (scanner_next_insertsemi_base kw Hkw s Hpos) as (A & B & C).
  destruct (scanner_next_clear kw Hkw s Hpos) as [D E].
  split; [exact A|]. split; [exact B|]. split; [exact C|]. split.
  - intros Ht Hall.
    destruct (insertsemi (scanner_next kw s)) eqn:F; [reflexivity|].
    destruct (D Ht eq_refl) as (i & Hr & Hb).
    specialize (Hall i Hr). lia.
  - intros Ht Hdot.
    destruct (insertsemi (scanner_next kw s)) eqn:F; [reflexivity|].
    contradiction (Hdot (E Ht eq_refl)).
Qed.

Lemma insertsemi_after_token_witness :
  keywords_ok keywordtab /\
  0 <= inp (scanner_on "mut") <= inend (scanner_on "mut") /\
  tok (scanner_next keywordtab (scanner_on "mut")) = TMUT /\
  insertsemi (scanner_next keywordtab (scanner_on "mut")) = true.
Proof.
  split; [exact keywordtab_ok|].
  split; [vm_compute; split; discriminate|].
  split; [vm_compute; reflexivity|].
  refine (proj1 (insertsemi_after_token keywordtab (scanner_on "mut")
                   keywordtab_ok _) _).
  - vm_compute; split; discriminate.
  - vm_compute; reflexivity.
Defined.

(** The flag is set after [let], which is not among the tokens that the
    specification lists, and the newline that follows becomes a [SEMI]. *)
Lemma insertsemi_only_listed_counterexample :
  ~ (insertsemi (scanner_next keywordtab (scanner_on "let")) = true ->
     sets_flag_spec (tok (scanner_next keywordtab (scanner_on "let"))) = true).
Proof.
  intros H.
  assert (E : insertsemi (scanner_next keywordtab (scanner_on "let")) = true)
    by (vm_compute; reflexivity).
  apply H in E. vm_compute in E. discriminate E.
Defined.

End ScannerProofs.

(** ** Type ids: the signature of an alias *)

Module TypeidProofs.
Import Ast Scanner Typeid Props.

Lemma write_u32_app buf v : write_u32 buf v = buf ++ write_u32 [] v.
Proof. unfold write_u32. reflexivity. Qed.

(** C9 (as amended): for an alias type that has no type id yet, [append]
    writes the alias prefix byte, the length of the name as a [u32] and the
    bytes of the name, and nothing else: it stores the interned signature in
    the node and does not look at the underlying type. *)
Theorem alias_typeid_is_prefix_length_name
    (PREFIX : nodekind_t -> Z) (fuel : nat) (buf : list Z) (ta : Z)
    (nodes : list node_t) (t : node_t) (name : sym_t) :
  node_at nodes ta = Some t ->
  n_kind t = TYPE_ALIAS -> n_tid t = None -> n_name t = Some name ->
  append PREFIX (S fuel) buf ta nodes =
    Ok (buf ++ alias_sig PREFIX name)
       (node_put nodes ta (set_n_tid (Some (sym_intern (alias_sig PREFIX name))) t)).
Proof.
  intros Hn Hk Ht Hname.
  cbn [append]. unfold append_body.
  erewrite bind_Ok by (unfold load; rewrite Hn; reflexivity).
  unfold type_isprim. rewrite Hk.
  change (nodekind_isprimtype TYPE_ALIAS) with false. cbv iota.
  rewrite Ht. cbv beta iota.
  erewrite bind_Ok by (unfold aliastype; rewrite Hname; reflexivity).
  erewrite bind_Ok by (unfold load; rewrite Hn; reflexivity).
  rewrite Ht. cbv beta iota.
  erewrite bind_Ok by (unfold store; rewrite Hn; reflexivity).
  unfold ret.
  rewrite (write_u32_app (buf ++ _)).
  unfold alias_sig.
  rewrite <- !app_assoc.
  rewrite drop_app_length. reflexivity.
Qed.

Lemma alias_typeid_witness :
  node_at (alias_heap "A" type_i32) 19 = Some (alias_node "A" type_i32) /\
  append typeid_prefix 1 [] 19 (alias_heap "A" type_i32) =
    Ok (bytes_of_string "L1;A")
       (node_put (alias_heap "A" type_i32) 19
          (set_n_tid (Some "L1;A"%string) (alias_node "A" type_i32))).
Proof.
  split; [reflexivity|].
  apply (alias_typeid_is_prefix_length_name typeid_prefix 0 [] 19
           (alias_heap "A" type_i32) (alias_node "A" type_i32) "A");
    reflexivity.
Defined.

(** The id of an alias [A] of [i32] is not the signature that the
    specification words, which would end in the id of [i32]; it is the same
    as the id of an alias [A] of [bool]. *)
Lemma alias_typeid_counterexample :
  result_value (_typeid typeid_prefix 5 19 (alias_heap "A" type_i32))
    <> Some (sym_intern (alias_sig_claimed typeid_prefix "A"
                           [typeid_prefix TYPE_I32]))
  /\ result_value (_typeid typeid_prefix 5 19 (alias_heap "A" type_i32))
     = result_value (_typeid typeid_prefix 5 19 (alias_heap "A" type_bool)).
Proof.
  split.
  - vm_compute. discriminate.
  - vm_compute. reflexivity.
Defined.

End TypeidProofs.

(** ** Interning of function types *)

Module InternProofs.
Import Ast Scanner Parser Run Props.


Lemma only_nodes_ret {A} (a : A) : only_nodes (ret a).
Proof. intros p a' p'. unfold ret. intros [= _ <-]. reflexivity. Qed.

Lemma only_nodes_bind {A B} (m : P A) (k : A -> P B) :
  only_nodes m -> (forall a, only_nodes (k a)) -> only_nodes (bind m k).
Proof.
  intros Hm Hk p b p' H. apply bind_inv in H as (a & p1 & H1 & H2).
  rewrite (Hk _ _ _ _ H2). eapply Hm; eauto.
Qed.

Lemma only_nodes_load a : only_nodes (load a).
Proof.
  intros p n p'. unfold load. destruct (node_at (nodes p) a); [|discriminate].
  intros [= _ <-]. reflexivity.
Qed.

Lemma only_nodes_liftT {A} (t : Typeid.T A) : only_nodes (liftT t).
Proof.
  intros p a p'. unfold liftT. destruct (t (nodes p)); try discriminate.
  intros [= _ <-]. reflexivity.
Qed.

Section Env.
Variable TYPEID_PREFIX : nodekind_t -> Z.
Variable buf_print_leb128_u32 : Z -> list Z.
Variable fuel : nat.

Local Abbreviation typeid_fun := (Parser.typeid_fun TYPEID_PREFIX buf_print_leb128_u32 fuel).
Local Abbreviation funtype := (Parser.funtype TYPEID_PREFIX buf_print_leb128_u32 fuel).

Lemma only_nodes_typeid_fun params result : only_nodes (typeid_fun params result).
Proof.
  unfold Parser.typeid_fun.
  apply only_nodes_bind.
  - generalize ([TYPEID_PREFIX TYPE_FUN] ++
                buf_print_leb128_u32 (u32 (Z.of_nat (length params)))).
    induction params as [|a l IH]; intros buf.
    + apply only_nodes_ret.
    + apply only_nodes_bind; [apply only_nodes_load|]. intros x.
      apply only_nodes_bind; [apply only_nodes_liftT|]. intros buf'. apply IH.
  - intros buf. apply only_nodes_bind; [apply only_nodes_liftT|].
    intros b. apply only_nodes_ret.
Qed.


Lemma mknode_pos kind p n p' : _mknode kind p = Ok n p' -> 0 < n.
Proof.
  unfold _mknode, bind, currloc, alloc. intros [= <- _]. lia.
Qed.

Lemma funtype_fresh_registers tid params result q ft p' :
  (ft <- _mknode TYPE_FUN ;;
   sz <- the_ptrsize ;;
   upd ft (fun x =>
      set_n_params params
        (set_n_result result
          (set_n_isunsigned true (set_n_align sz (set_n_size sz x))))) ;;
   typeidmap_set tid ft ;;
   ret ft) q = Ok ft p' ->
  ft <> 0 /\ tidmap p' !! tid = Some ft.
Proof.
  intros H.
  apply bind_inv in H as (ft' & q1 & H1 & H).
  apply bind_inv in H as (sz & q2 & H2 & H).
  apply bind_inv in H as (u & q3 & H3 & H).
  apply bind_inv in H as (u' & q4 & H4 & H).
  unfold ret in H. injection H as E1 E2. subst ft' p'.
  apply mknode_pos in H1. split; [lia|].
  unfold typeidmap_set, modify in H4. injection H4 as E4. subst q4.
  unfold tidmap. cbn. apply lookup_insert_eq.
Qed.

(** After [funtype], the map holds the returned node under the type id. *)
Lemma funtype_registers params result p tid q ft p' :
  typeid_fun params result p = Ok tid q ->
  funtype params result p = Ok ft p' ->
  ft <> 0 /\ tidmap p' !! tid = Some ft.
Proof.
  intros Htid. unfold Parser.funtype.
  rewrite (bind_Ok _ _ _ _ _ Htid).
  unfold bind at 1. unfold typeidmap_lookup at 1.
  destruct (typeidmap (compiler (scanner q)) !! tid) as [e|] eqn:E; unfold default; cbn [from_option id].
  - destruct (e =? 0) eqn:E0; cbn [negb].
    + intros H. pose proof H as H'.
      apply bind_inv in H' as (ft' & q1 & H1 & H').
      apply bind_inv in H' as (sz & q2 & H2 & H').
      apply bind_inv in H' as (u & q3 & H3 & H').
      apply bind_inv in H' as (u' & q4 & H4 & H').
      unfold ret in H'. injection H' as E1 E2. subst ft'.
      eapply funtype_fresh_registers. exact H.
    + unfold ret. intros [= <- <-]. split.
      * apply Z.eqb_neq in E0. exact E0.
      * unfold tidmap. exact E.
  - change (negb (0 =? 0)) with false. cbv iota.
    intros H. pose proof H as H'.
    apply bind_inv in H' as (ft' & q1 & H1 & H').
    apply bind_inv in H' as (sz & q2 & H2 & H').
    apply bind_inv in H' as (u & q3 & H3 & H').
    apply bind_inv in H' as (u' & q4 & H4 & H').
    unfold ret in H'. injection H' as E1 E2. subst ft'.
    eapply funtype_fresh_registers. exact H.
Qed.

(** [funtype] returns the node that the map holds under the type id. *)
Lemma funtype_returns_registered params result p tid q ft0 ft p' :
  typeid_fun params result p = Ok tid q ->
  tidmap p !! tid = Some ft0 -> ft0 <> 0 ->
  funtype params result p = Ok ft p' ->
  ft = ft0.
Proof.
  intros Htid Hmap Hnz. unfold Parser.funtype.
  rewrite (bind_Ok _ _ _ _ _ Htid).
  pose proof (only_nodes_typeid_fun _ _ _ _ _ Htid) as Hs.
  unfold bind at 1. unfold typeidmap_lookup at 1.
  unfold tidmap in Hmap. rewrite <- Hs in Hmap. rewrite Hmap. unfold default; cbn [from_option id].
  apply Z.eqb_neq in Hnz. rewrite Hnz. cbn [negb]. unfold ret.
  intros [= <- _]. reflexivity.
Qed.

End Env.



End InternProofs.

(** ** Runs of the parser *)

Module ParseProofs.
Import Ast Scanner Parser Run Props.

(** C1: a subscript expression stops the parser.  [expr_postfix_subscript]
    is [panic("TODO")]: on the input below, whatever fuel beyond 20 the
    parser is given, [parser_parse] does not return a unit; the process
    is aborted after the diagnostic for the undeclared [a]. *)
Theorem subscript_panics : forall k,
  is_panic (parse (20 + k) "fun g() { a[0] }") = true /\
  result_value (parse (20 + k) "fun g() { a[0] }") = None /\
  msgs_of (parse (20 + k) "fun g() { a[0] }") = [(DIAG_ERR, MsgUndeclared "a")].
Proof. intro k. split_and!; vm_compute; reflexivity. Qed.

(** C2: the right operand of an infix operator is parsed at the precedence
    of the caller, not of the operator: [expr] hands its own [prec] to the
    infix parselet, and [expr_infix_op] parses its right operand with it.
    So [a * b + c], parsed at the lowest precedence, is [a * (b + c)]. *)
Theorem infix_right_operand_takes_lower_precedence : forall k,
  exists n p,
    parse_expr (10 + k) "a * b + c" = Ok n p /\
    tree_of 3 (nodes p) n =
      EBinop TSTAR (EId "a") (EBinop TPLUS (EId "b") (EId "c")) /\
    tree_of 3 (nodes p) n <>
      EBinop TPLUS (EBinop TSTAR (EId "a") (EId "b")) (EId "c").
Proof.
  intro k. eexists _, _. split; [vm_compute; reflexivity|].
  split; [vm_compute; reflexivity|]. vm_compute. discriminate.
Qed.

(** C6 (as amended): [let] is not a statement of the top level.  The input
    [let a = 1; let a = 2] gives two errors, each [unexpected let], and a
    unit with two [BAD] children; inside a function body the same two
    definitions give exactly one diagnostic, the redefinition of [a], and
    the body block has both definitions as children. *)
Theorem toplevel_let_is_rejected : forall k,
  (exists unit_ p,
     parse (20 + k) "let a = 1; let a = 2" = Ok unit_ p /\
     option_map n_kind (node_at (nodes p) unit_) = Some NODE_UNIT /\
     child_kinds (nodes p) unit_ = [Some NODE_BAD; Some NODE_BAD] /\
     msgs_of (parse (20 + k) "let a = 1; let a = 2") = [unexp_let; unexp_let]) /\
  (exists unit_ p body,
     parse (20 + k) "fun g() { let a = 1; let a = 2 }" = Ok unit_ p /\
     msgs_of (parse (20 + k) "fun g() { let a = 1; let a = 2 }") =
       [(DIAG_ERR, MsgRedefinition "a")] /\
     first_body (nodes p) unit_ = Some body /\
     kinds_of (nodes p) (n_children body) = [Some EXPR_LET; Some EXPR_LET]).
Proof.
  intro k. split.
  - eexists _, _. split; [vm_compute; reflexivity|].
    split_and!; vm_compute; reflexivity.
  - eexists _, _, _. split; [vm_compute; reflexivity|].
    split; [vm_compute; reflexivity|].
    split; [vm_compute; reflexivity|].
    vm_compute; reflexivity.
Qed.

Lemma toplevel_let_counterexample :
  ~ (exists unit_ p,
       parse 20 "let a = 1; let a = 2" = Ok unit_ p /\
       msgs_of (parse 20 "let a = 1; let a = 2") = [(DIAG_ERR, MsgRedefinition "a")] /\
       length (child_kinds (nodes p) unit_) = 2%nat).
Proof.
  intros (u & p & _ & H & _). vm_compute in H. discriminate H.
Defined.

(** [select_int_type] on a literal that is not negative, in a type context
    that asks for no width: the smallest of [int], [i64] and [u64] that
    holds the value, and no error. *)
Lemma select_int_type_nonneg ctx v :
  0 <= v < 2^64 ->
  select_int_type_core ctx TYPE_VOID false v 0 =
    (if v <=? 2147483647 then type_int
     else if v <=? 9223372036854775807 then type_i64 else type_u64, false).
Proof.
  intros Hv. unfold select_int_type_core. cbn [negb Z.eqb].
  destruct (v <=? 2147483647); [reflexivity|].
  destruct (v <=? 9223372036854775807); [reflexivity|].
  cbv beta. f_equal. rewrite Z.gtb_ltb. apply Z.ltb_ge. lia.
Qed.

(** C7: the mask [~0x1000000000000000] of [select_int_type] clears bit 60
    of a negative literal, not a sign.  The literal [0x1000000000000000] in
    negative position is typed from the value 0: it selects [int] where no
    width is asked for, and it passes for an [i8] without the overflow
    error; [0x8000000000000000] in negative position does select [i64].
    From source text the negative position is reached through the prefix
    [+] (whose parselet hands its flags to [intlit] as [isneg]): the
    definition of an [i8] from [+0x1000000000000000] gives no diagnostic,
    where the same literal without the sign overflows. *)
Theorem select_int_type_clears_bit_60 : forall k,
  select_int_type_core type_void TYPE_VOID false 1152921504606846976 1
    = (type_int, false) /\
  select_int_type_core type_i8 TYPE_I8 false 1152921504606846976 1
    = (type_i8, false) /\
  select_int_type_core type_void TYPE_VOID false 9223372036854775808 1
    = (type_i64, false) /\
  msgs_of (parse (30 + k) "fun g() { let a i8 = +0x1000000000000000 }") = [] /\
  msgs_of (parse (30 + k) "fun g() { let a i8 = 0x1000000000000000 }") =
    [(DIAG_ERR, MsgIntOverflow false "0x1000000000000000" type_i8)].
Proof. intro k. split_and!; vm_compute; reflexivity. Qed.

(** C8: the function name [f] is scanned as the keyword [fun], because
    [maybe_keyword] compares only as many bytes as the identifier has.  For
    [fun f() { return; 1 + 2 }] the parser has no function name and no
    prototype, and the body is parsed with a null type context, which the
    literal [1] dereferences.  With the name [g] the body block has its two
    children, the exits flag and the one warning. *)
Theorem unreachable_code_example : forall k,
  tokens_of keywordtab "fun f() { return; 1 + 2 }" =
    [TFUN; TFUN; TLPAREN; TRPAREN; TLBRACE; TRETURN; TSEMI; TINTLIT; TPLUS;
     TINTLIT; TRBRACE; TSEMI; TEOF] /\
  parse (30 + k) "fun f() { return; 1 + 2 }" = Fault /\
  msgs_of (parse (30 + k) "fun f();") =
    [(DIAG_ERR, MsgMissingFunName);
     (DIAG_ERR, MsgExpected TLPAREN "for parameters" TFUN "f")] /\
  exists unit_ p body,
    parse (30 + k) "fun g() { return; 1 + 2 }" = Ok unit_ p /\
    first_body (nodes p) unit_ = Some body /\
    n_kind body = EXPR_BLOCK /\
    kinds_of (nodes p) (n_children body) = [Some EXPR_RETURN; Some EXPR_BINOP] /\
    has_flag (n_flags body) EX_EXITS = true /\
    msgs_of (parse (30 + k) "fun g() { return; 1 + 2 }") =
      [(DIAG_WARN, MsgUnreachable)].
Proof.
  intro k. split; [vm_compute; reflexivity|].
  split; [vm_compute; reflexivity|].
  split; [vm_compute; reflexivity|].
  eexists _, _, _. split; [vm_compute; reflexivity|].
  split; [vm_compute; reflexivity|].
  split_and!; vm_compute; reflexivity.
Qed.

End ParseProofs.

(** ** The scope stack with the allocator of the parser *)

Module ScopeZero.
Import Scope ScopeProofs.

Lemma slot_get_lookup p i : 0 <= i -> slot_get p i = p !! Z.to_nat i.
Proof.
  intros Hi. unfold slot_get.
  replace (0 <=? i) with true by (symmetry; apply Z.leb_le; exact Hi).
  destruct (i <? Z.of_nat (length p)) eqn:E; simpl; [reflexivity|].
  symmetry. apply lookup_ge_None. apply Z.ltb_ge in E. lia.
Qed.

Lemma slot_get_take p p' n j :
  take n p' = take n p -> 0 <= j < Z.of_nat n ->
  slot_get p' j = slot_get p j.
Proof.
  intros Ht Hj. rewrite !slot_get_lookup by lia.
  rewrite <- (lookup_take_lt p' n) by lia.
  rewrite <- (lookup_take_lt p n) by lia.
  rewrite Ht. reflexivity.
Qed.

Lemma scope_grow_zero s :
  wf s -> cap s < 2^31 ->
  exists g, scope_grow resize_zero s = (true, g) /\
            (cap g = 4 /\ cap s = 0 \/ cap g = 2 * cap s /\ 0 < cap s).
Proof.
  intros (Hc & Hb & Hl & Hp) Hcap. unfold scope_grow, resize_zero.
  destruct (cap s =? 0) eqn:E0.
  - apply Z.eqb_eq in E0. rewrite E0. cbn. eexists. split; [reflexivity|].
    left. split; reflexivity.
  - apply Z.eqb_neq in E0. unfold is_u32 in Hc.
    replace (u32 ((cap s + 4 / 2 * 0) * 2)) with (2 * cap s).
    2:{ unfold u32. rewrite Z.mod_small by lia. lia. }
    replace (0 <? 2 * cap s) with true by (symmetry; apply Z.ltb_lt; lia).
    eexists. split; [reflexivity|]. right. simpl. lia.
Qed.

Lemma scope_push_zero s :
  wf s -> cap s < 2^31 ->
  exists s1, scope_push resize_zero s = Some (true, s1) /\
             cap s1 <= 2 * Z.max (cap s) 2 /\ (cap s <> 1 -> cap s1 <> 1).
Proof.
  intros Hwf Hcap. pose proof Hwf as (Hc & Hb & Hl & Hp). unfold scope_push.
  destruct (len s >=? cap s) eqn:Eg.
  - destruct (scope_grow_zero s Hwf Hcap) as (g & Eg' & Hg). rewrite Eg'.
    pose proof (scope_grow_spec _ resize_zero_ok _ _ _ Hwf Eg')
      as (Hc1 & Hp1 & Hl1 & Hb1 & _ & _).
    cbn [negb]. unfold slot_set.
    replace ((0 <=? len g) && (len g <? Z.of_nat (length (ptr g)))) with true.
    2:{ symmetry. apply andb_true_iff. split; [apply Z.leb_le|apply Z.ltb_lt]; lia. }
    eexists. split; [reflexivity|]. simpl. lia.
  - cbn [negb]. unfold slot_set.
    replace ((0 <=? len s) && (len s <? Z.of_nat (length (ptr s)))) with true.
    2:{ symmetry. apply andb_true_iff. split; [apply Z.leb_le|apply Z.ltb_lt]; lia. }
    eexists. split; [reflexivity|]. simpl. lia.
Qed.

Lemma scope_def_zero s k v :
  wf s -> cap s <> 1 -> cap s < 2^31 ->
  exists s1, scope_def resize_zero s k v = Some (true, s1) /\
             cap s1 <= 2 * Z.max (cap s) 2 /\ cap s1 <> 1 /\
             slot_get (ptr s1) (len s) = Some v /\
             slot_get (ptr s1) (len s + 1) = Some k.
Proof.
  intros Hwf Hne Hcap. pose proof Hwf as (Hc & Hb & Hl & Hp). unfold scope_def.
  unfold is_u32 in *.
  assert (Hsets : forall g, len g = len s -> len s + 2 <= Z.of_nat (length (ptr g)) ->
    exists p1 p2, slot_set (ptr g) (len g) v = Some p1 /\
                  slot_set p1 (u32 (len g + 1)) k = Some p2 /\
                  slot_get p2 (len s) = Some v /\ slot_get p2 (len s + 1) = Some k).
  { intros g Hlg Hroom.
    unfold slot_set at 1.
    replace ((0 <=? len g) && (len g <? Z.of_nat (length (ptr g)))) with true.
    2:{ symmetry. apply andb_true_iff. split; [apply Z.leb_le|apply Z.ltb_lt]; lia. }
    eexists. rewrite u32_id by (unfold is_u32; lia).
    unfold slot_set. rewrite length_insert.
    replace ((0 <=? len g + 1) && (len g + 1 <? Z.of_nat (length (ptr g)))) with true.
    2:{ symmetry. apply andb_true_iff. split; [apply Z.leb_le|apply Z.ltb_lt]; lia. }
    eexists. split; [reflexivity|]. split; [reflexivity|].
    rewrite !slot_get_lookup by lia. rewrite Hlg. split.
    - rewrite list_lookup_insert_ne by lia.
      apply list_lookup_insert_eq. lia.
    - apply list_lookup_insert_eq. rewrite length_insert. lia. }
  destruct (u32 (cap s - len s) <? 2) eqn:Eg.
  - destruct (scope_grow_zero s Hwf ltac:(lia)) as (g & Eg' & Hg). rewrite Eg'.
    pose proof (scope_grow_spec _ resize_zero_ok _ _ _ Hwf Eg')
      as (Hc1 & Hp1 & Hl1 & Hb1 & _ & _).
    cbn [negb].
    destruct (Hsets g Hl1 ltac:(lia)) as (p1 & p2 & E1 & E2 & G1 & G2).
    rewrite E1, E2. eexists. split; [reflexivity|]. simpl.
    split_and!; try lia; assumption.
  - cbn [negb]. apply Z.ltb_ge in Eg.
    unfold u32 in Eg. rewrite Z.mod_small in Eg by lia.
    destruct (Hsets s eq_refl ltac:(lia)) as (p1 & p2 & E1 & E2 & G1 & G2).
    rewrite E1, E2. eexists. split; [reflexivity|]. simpl.
    split_and!; try lia; assumption.
Qed.

(** A binding defined in a scope that was opened since is found first. *)
Lemma lookup_in_enclosing s key v b :
  is_u32 b -> b + 1 < len s - 2 ->
  base s = len s - 1 ->
  slot_get (ptr s) (len s - 1) = Some b ->
  slot_get (ptr s) (len s - 2) = Some key ->
  slot_get (ptr s) (len s - 3) = Some v ->
  scope_lookup s key 4294967295 = Some v.
Proof.
  intros Hb Hlt Hbase H1 H2 H3. unfold scope_lookup.
  pose proof Hb as Hb'. unfold is_u32 in Hb'.
  destruct (Z.to_nat (len s)) as [|[|fuel]] eqn:Ef; [lia|lia|].
  cbn [lookup_loop].
  replace (len s >? 1) with true by (symmetry; apply Z.gtb_lt; lia).
  rewrite Hbase, Z.eqb_refl. cbn [Z.eqb]. rewrite H1.
  replace (len s - 1 >? 1) with true by (symmetry; apply Z.gtb_lt; lia).
  rewrite (u32_id b Hb).
  replace (len s - 1 - 1 =? b) with false by (symmetry; apply Z.eqb_neq; lia).
  replace (len s - 1 - 1) with (len s - 2) by lia. rewrite H2, Z.eqb_refl.
  replace (len s - 2 - 1) with (len s - 3) by lia. exact H3.
Qed.

Lemma lookup_empty s key d r :
  scope_lookup s key d = Some r -> r <> 0 -> 1 < len s.
Proof.
  unfold scope_lookup. intros H Hr.
  destruct (Z.to_nat (len s)) as [|fuel] eqn:Ef.
  - simpl in H. congruence.
  - simpl in H. destruct (len s >? 1) eqn:E; [lia|congruence].
Qed.

End ScopeZero.

(** ** Narrowing of an optional by [if] *)

Module IfProofs.
Import Ast Scanner Parser Props.

Ltac psimpl :=
  cbn [scanner scope pkgdefs methodmap typectx typectxstack dotctx
       dotctxstack fun_ nodes
       set_scanner set_scope set_pkgdefs set_methodmap set_typectx
       set_typectxstack set_dotctx set_dotctxstack set_fun_ set_nodes] in *.

(** *** The store of nodes *)

Lemma node_at_Some nodes a x :
  node_at nodes a = Some x -> 0 < a <= Z.of_nat (length nodes).
Proof.
  unfold node_at. destruct (0 <? a) eqn:E; [|discriminate].
  intros H. apply lookup_lt_Some in H. lia.
Qed.

Lemma node_at_app nodes l a x :
  node_at nodes a = Some x -> node_at (nodes ++ l) a = Some x.
Proof.
  unfold node_at. destruct (0 <? a); [|discriminate].
  apply lookup_app_l_Some.
Qed.

Lemma node_at_new nodes x :
  node_at (nodes ++ [x]) (Z.of_nat (length nodes) + 1) = Some x.
Proof.
  unfold node_at.
  replace (0 <? Z.of_nat (length nodes) + 1) with true
    by (symmetry; apply Z.ltb_lt; lia).
  replace (Z.to_nat (Z.of_nat (length nodes) + 1 - 1)) with (length nodes) by lia.
  apply list_lookup_middle. reflexivity.
Qed.

Lemma node_put_new nodes x y :
  node_put (nodes ++ [x]) (Z.of_nat (length nodes) + 1) y = nodes ++ [y].
Proof.
  unfold node_put.
  replace (Z.to_nat (Z.of_nat (length nodes) + 1 - 1)) with (length nodes + 0)%nat by lia.
  rewrite insert_app_r. reflexivity.
Qed.

Lemma node_at_put_eq nodes a x y :
  node_at nodes a = Some x -> node_at (node_put nodes a y) a = Some y.
Proof.
  unfold node_at, node_put. destruct (0 <? a); [|discriminate].
  intros H. apply list_lookup_insert_eq. eapply lookup_lt_Some. exact H.
Qed.

Lemma node_at_put_ne nodes a b y :
  0 < a -> a <> b -> node_at (node_put nodes a y) b = node_at nodes b.
Proof.
  intros Ha Hne. unfold node_at, node_put.
  destruct (0 <? b) eqn:E; [|reflexivity].
  apply Z.ltb_lt in E. apply list_lookup_insert_ne. lia.
Qed.

Lemma length_node_put nodes a y : length (node_put nodes a y) = length nodes.
Proof. unfold node_put. apply length_insert. Qed.

(** *** Nodes kept *)

Lemma same_fields_refl x : same_fields x x.
Proof. unfold same_fields. tauto. Qed.

Lemma same_fields_trans x y z : same_fields x y -> same_fields y z -> same_fields x z.
Proof. unfold same_fields. intuition congruence. Qed.

Lemma nodes_kept_refl nodes : nodes_kept nodes nodes.
Proof. intros a x H. exists x. split; [exact H|apply same_fields_refl]. Qed.

Lemma nodes_kept_trans n1 n2 n3 :
  nodes_kept n1 n2 -> nodes_kept n2 n3 -> nodes_kept n1 n3.
Proof.
  intros H12 H23 a x H. destruct (H12 _ _ H) as (y & Hy & Hxy).
  destruct (H23 _ _ Hy) as (z & Hz & Hyz). exists z.
  split; [exact Hz|eapply same_fields_trans; eauto].
Qed.

Lemma nodes_kept_app nodes l : nodes_kept nodes (nodes ++ l).
Proof.
  intros a x H. exists x. split; [apply node_at_app; exact H|apply same_fields_refl].
Qed.

Lemma nodes_kept_put nodes a x y :
  node_at nodes a = Some x -> same_fields x y ->
  nodes_kept nodes (node_put nodes a y).
Proof.
  intros Ha Hxy b z Hb. destruct (Z.eq_dec a b) as [<-|Hne].
  - exists y. split; [eapply node_at_put_eq; eauto|congruence].
  - exists z. split; [|apply same_fields_refl].
    rewrite node_at_put_ne; [exact Hb| |exact Hne].
    apply node_at_Some in Ha. lia.
Qed.

Lemma kind_eqb_eq a b : kind_eqb a b = true -> a = b.
Proof.
  unfold kind_eqb. intros H. apply Z.eqb_eq in H.
  destruct a; destruct b; try reflexivity; discriminate H.
Qed.

Lemma node_keptb_fields x x' :
  node_keptb x x' = true -> same_fields x x' /\ n_cond x' = n_cond x.
Proof.
  unfold node_keptb, same_fields. rewrite !andb_true_iff.
  intros (((((Hk & Ht) & Hr) & He) & Hc) & Hn).
  apply kind_eqb_eq in Hk. apply Z.eqb_eq in Ht, Hr, He, Hc.
  apply bool_decide_eq_true in Hn. tauto.
Qed.

Lemma nodes_keptb_lookup l : forall l' i x,
  nodes_keptb l l' = true -> l !! i = Some x ->
  exists x', l' !! i = Some x' /\ node_keptb x x' = true.
Proof.
  induction l as [|y l IH]; intros l' i x H Hi; [discriminate|].
  destruct l' as [|y' l']; [discriminate|]. simpl in H.
  apply andb_true_iff in H as [Hy Hl].
  destruct i as [|i]; simpl in *.
  - injection Hi as <-. eauto.
  - eapply IH; eauto.
Qed.

Lemma nodes_keptb_at l l' a x :
  nodes_keptb l l' = true -> node_at l a = Some x ->
  exists x', node_at l' a = Some x' /\ same_fields x x' /\ n_cond x' = n_cond x.
Proof.
  unfold node_at. intros H. destruct (0 <? a); [|discriminate].
  intros Hx. destruct (nodes_keptb_lookup _ _ _ _ H Hx) as (x' & Hx' & Hk).
  exists x'. split; [exact Hx'|]. apply node_keptb_fields. exact Hk.
Qed.

Lemma nodes_keptb_kept l l' : nodes_keptb l l' = true -> nodes_kept l l'.
Proof.
  intros H a x Hx. destruct (nodes_keptb_at _ _ _ _ H Hx) as (x' & ? & ? & _).
  eauto.
Qed.

Lemma names_binding_kept nodes nodes' cond name r ot :
  nodes_kept nodes nodes' ->
  names_binding nodes cond name r ot -> names_binding nodes' cond name r ot.
Proof.
  intros Hk (c & Hc & H1 & H2 & H3 & H4).
  destruct (Hk _ _ Hc) as (c' & Hc' & (E1 & E2 & E3 & E4 & E5)).
  exists c'. split; [exact Hc'|]. split_and!; congruence.
Qed.

Lemma optional_binding_kept nodes nodes' r ot T :
  nodes_kept nodes nodes' ->
  optional_binding nodes r ot T -> optional_binding nodes' r ot T.
Proof.
  intros Hk (rn & otn & Hr & H1 & H2 & Ho & H3 & H4).
  destruct (Hk _ _ Hr) as (rn' & Hr' & (E1 & E2 & E3 & E4 & E5)).
  destruct (Hk _ _ Ho) as (otn' & Ho' & (F1 & F2 & F3 & F4 & F5)).
  exists rn', otn'. split; [exact Hr'|]. split_and!; try congruence.
Qed.

(** *** Steps of the parser *)

Lemma load_Ok p a x : node_at (nodes p) a = Some x -> load a p = Ok x p.
Proof. unfold load. intros ->. reflexivity. Qed.

Lemma store_Ok p a x y :
  node_at (nodes p) a = Some x ->
  store a y p = Ok tt (set_nodes (node_put (nodes p) a y) p).
Proof. unfold store. intros ->. reflexivity. Qed.

Lemma upd_Ok p a x f :
  node_at (nodes p) a = Some x ->
  upd a f p = Ok tt (set_nodes (node_put (nodes p) a (f x)) p).
Proof.
  intros H. unfold upd. rewrite (bind_Ok _ _ _ _ _ (load_Ok _ _ _ H)).
  apply (store_Ok _ _ _ _ H).
Qed.

Lemma mkexpr_Ok k fl p :
  exists x, _mkexpr k fl p =
    Ok (Z.of_nat (length (nodes p)) + 1) (set_nodes (nodes p ++ [x]) p).
Proof.
  unfold _mkexpr, _mknode, currloc, alloc.
  unfold bind at 2. unfold bind at 2. cbv beta iota.
  eexists. unfold bind. erewrite upd_Ok by (psimpl; apply node_at_new).
  psimpl. rewrite node_put_new. unfold ret. reflexivity.
Qed.

Lemma enter_scope_Ok p s1 :
  Scope.scope_push Scope.resize_zero (scope p) = Some (true, s1) ->
  enter_scope p = Ok tt (set_scope s1 p).
Proof. unfold enter_scope, bind. intros ->. reflexivity. Qed.

Lemma leave_scope_Ok p s1 :
  Scope.scope_pop (scope p) = Some s1 ->
  leave_scope p = Ok tt (set_scope s1 p).
Proof. unfold leave_scope. intros ->. reflexivity. Qed.

Lemma is_local_isexpr x : is_local (n_kind x) = true -> node_isexpr x = true.
Proof.
  unfold node_isexpr. destruct (n_kind x); try discriminate; reflexivity.
Qed.

Lemma is_local_not_id x : is_local (n_kind x) = true -> kind_eqb (n_kind x) EXPR_ID = false.
Proof. destruct (n_kind x); try discriminate; reflexivity. Qed.

(** [lookup] answers what the scope stack holds for the name. *)
Lemma lookup_resolves p name a x :
  Scope.scope_lookup (scope p) (sym_addr name) U32_MAX = Some a ->
  a <> 0 -> node_at (nodes p) a = Some x ->
  resolves p name a.
Proof.
  intros Hs Ha Hx. unfold resolves, lookup.
  assert (E : Parser.scope_lookup name U32_MAX p = Ok a p)
    by (unfold Parser.scope_lookup; rewrite Hs; reflexivity).
  rewrite (bind_Ok _ _ _ _ _ E).
  apply Z.eqb_neq in Ha. rewrite Ha.
  unfold bind at 1. unfold ret at 1. cbv beta iota. rewrite Ha.
  rewrite (bind_Ok _ _ _ _ _ (load_Ok _ _ _ Hx)).
  destruct (node_isexpr x || node_isusertype x); unfold when.
  - rewrite (bind_Ok _ _ _ _ _ (store_Ok _ _ _ _ Hx)). reflexivity.
  - reflexivity.
Qed.

Section If.

Variable keywordtab : list (string * tok_t).
Variable fuel : nat.
Variable expr : prec_t -> exprflag_t -> P Z.

Lemma if_head_spec fl p n p1 :
  scope_ok (scope p) ->
  if_head keywordtab fl p = Ok n p1 ->
  exists x,
    n = Z.of_nat (length (nodes p)) + 1 /\ nodes p1 = nodes p ++ [x] /\
    Scope.scope_push Scope.resize_zero (scope p) = Some (true, scope p1).
Proof.
  intros (Hwf & _ & Hcap).
  destruct (ScopeZero.scope_push_zero (scope p) Hwf ltac:(lia)) as (s1 & Hs1 & _).
  destruct (mkexpr_Ok EXPR_IF fl p) as (x & Hx).
  unfold if_head. rewrite (bind_Ok _ _ _ _ _ Hx).
  unfold Parser.next. unfold bind at 1. unfold modify. cbv beta iota.
  erewrite bind_Ok by (apply enter_scope_Ok; exact Hs1).
  unfold ret. intros [= <- <-]. exists x. psimpl. auto.
Qed.

(** [check_if_cond] on an identifier of optional type: the binding is
    cloned, the clone gets the element type and the flag, and it is defined
    under the name in the current scope. *)
Lemma check_if_cond_spec p cond name r ot T :
  names_binding (nodes p) cond name r ot ->
  optional_binding (nodes p) r ot T ->
  scope_ok (scope p) ->
  exists id2 p' s' c2 r2,
    check_if_cond cond p = Ok id2 p' /\
    id2 = Z.of_nat (length (nodes p)) + 1 /\
    nodes p' = nodes p ++ [c2; r2] /\
    is_local (n_kind r2) = true /\ n_type r2 = T /\
    has_flag (n_flags r2) EX_SHADOWS_OPTIONAL = true /\
    Scope.scope_def Scope.resize_zero (scope p) (sym_addr name)
      (Z.of_nat (length (nodes p)) + 2) = Some (true, s') /\
    scope p' = s'.
Proof.
  intros (c & Hc & K1 & K2 & K3 & K4) (rn & otn & Hr & L1 & L2 & Ho & L3 & L4)
    (Hwf & Hne & Hcap).
  destruct (ScopeZero.scope_def_zero (scope p) (sym_addr name)
              (Z.of_nat (length (nodes p)) + 2) Hwf Hne ltac:(lia))
    as (s' & Hdef & _).
  unfold check_if_cond.
  rewrite (bind_Ok _ _ _ _ _ (load_Ok _ _ _ Hc)). rewrite K4.
  rewrite (bind_Ok _ _ _ _ _ (load_Ok _ _ _ Ho)).
  replace (kind_eqb (n_kind otn) TYPE_BOOL) with false by (rewrite L3; reflexivity).
  replace (type_isopt otn) with true by (unfold type_isopt; rewrite L3; reflexivity).
  cbn [negb]. rewrite K1, K3. cbv iota.
  rewrite (bind_Ok _ _ _ _ _ (load_Ok _ _ _ Hr)).
  rewrite (is_local_isexpr _ L1). cbn [negb].
  unfold CLONE_NODE at 1.
  unfold bind at 1. rewrite (bind_Ok _ _ _ _ _ (load_Ok _ _ _ Hc)).
  unfold alloc at 1. cbv beta iota.
  erewrite bind_Ok by (apply upd_Ok; psimpl; apply node_at_new).
  psimpl. rewrite node_put_new.
  assert (Ek : clone_node r (set_nodes (nodes p ++ [set_n_type (n_elem otn) c]) p) =
               Ok (Z.of_nat (length (nodes p)) + 2)
                  (set_nodes (nodes p ++ [set_n_type (n_elem otn) c] ++ [rn]) p)).
  { unfold clone_node, kind_of.
    assert (Hr' : node_at (nodes (set_nodes (nodes p ++ [set_n_type (n_elem otn) c]) p)) r
                  = Some rn) by (psimpl; apply node_at_app; exact Hr).
    unfold bind at 1. rewrite (bind_Ok _ _ _ _ _ (load_Ok _ _ _ Hr')).
    unfold ret at 1. cbv beta iota.
    assert (Ec : CLONE_NODE r (set_nodes (nodes p ++ [set_n_type (n_elem otn) c]) p) =
               Ok (Z.of_nat (length (nodes p)) + 2)
                  (set_nodes (nodes p ++ [set_n_type (n_elem otn) c] ++ [rn]) p)).
    { unfold CLONE_NODE. rewrite (bind_Ok _ _ _ _ _ (load_Ok _ _ _ Hr')).
      unfold alloc. psimpl. rewrite length_app. simpl length.
      rewrite <- app_assoc. f_equal. lia. }
    destruct (n_kind rn); try discriminate L1; exact Ec. }
  rewrite (bind_Ok _ _ _ _ _ Ek).
  erewrite bind_Ok.
  2:{ apply upd_Ok with (x := rn). psimpl. rewrite app_assoc.
      replace (Z.of_nat (length (nodes p)) + 2)
        with (Z.of_nat (length (nodes p ++ [set_n_type (n_elem otn) c])) + 1)
        by (rewrite length_app; simpl length; lia).
      apply node_at_new. }
  psimpl. rewrite K2.
  unfold define_replace, scope_define.
  unfold bind at 1. unfold bind at 1. psimpl. rewrite Hdef. cbv beta iota.
  unfold when at 1. cbn [negb]. unfold ret at 1. cbv beta iota.
  unfold scope_istoplevel. unfold bind at 1. unfold bind at 1. cbv beta iota.
  assert (Eput : node_put (nodes p ++ [set_n_type (n_elem otn) c] ++ [rn])
                   (Z.of_nat (length (nodes p)) + 2)
                   (set_n_type (n_elem otn)
                      (set_n_flags (Z.lor (n_flags rn) EX_SHADOWS_OPTIONAL) rn)) =
                 nodes p ++ [set_n_type (n_elem otn) c;
                             set_n_type (n_elem otn)
                               (set_n_flags (Z.lor (n_flags rn) EX_SHADOWS_OPTIONAL) rn)]).
  { rewrite app_assoc.
    replace (Z.of_nat (length (nodes p)) + 2)
      with (Z.of_nat (length (nodes p ++ [set_n_type (n_elem otn) c])) + 1)
      by (rewrite length_app; simpl length; lia).
    rewrite node_put_new. rewrite <- app_assoc. reflexivity. }
  rewrite Eput.
  assert (Hflag : has_flag (Z.lor (n_flags rn) EX_SHADOWS_OPTIONAL) EX_SHADOWS_OPTIONAL = true).
  { unfold has_flag. apply negb_true_iff. apply Z.eqb_neq.
    rewrite Z.land_lor_distr_l. intros H. apply Z.lor_eq_0_iff in H as [_ H].
    discriminate H. }
  psimpl.
  destruct (Scope.scope_istoplevel s'); unfold when, modify, ret, bind; cbv beta iota;
    (eexists _, _, s', _, _; split; [reflexivity|]; psimpl;
     split; [reflexivity|]; split; [reflexivity|];
     split_and!; try reflexivity; try assumption; congruence).
Qed.

Lemma same_fields_set_cond v x : same_fields x (set_n_cond v x).
Proof. unfold same_fields. cbn. tauto. Qed.

Lemma same_fields_set_thenb v x : same_fields x (set_n_thenb v x).
Proof. unfold same_fields. cbn. tauto. Qed.

Lemma same_fields_set_nrefs v x : same_fields x (set_n_nrefs v x).
Proof. unfold same_fields. cbn. tauto. Qed.

Lemma node_at_app2 (l : list node_t) x y :
  node_at (l ++ [x; y]) (Z.of_nat (length l) + 1) = Some x /\
  node_at (l ++ [x; y]) (Z.of_nat (length l) + 2) = Some y.
Proof.
  unfold node_at.
  replace (0 <? Z.of_nat (length l) + 1) with true by (symmetry; apply Z.ltb_lt; lia).
  replace (0 <? Z.of_nat (length l) + 2) with true by (symmetry; apply Z.ltb_lt; lia).
  replace (Z.to_nat (Z.of_nat (length l) + 1 - 1)) with (length l + 0)%nat by lia.
  replace (Z.to_nat (Z.of_nat (length l) + 2 - 1)) with (length l + 1)%nat by lia.
  rewrite !lookup_app_r by lia.
  replace (length l + 0 - length l)%nat with 0%nat by lia.
  replace (length l + 1 - length l)%nat with 1%nat by lia.
  split; reflexivity.
Qed.

Lemma if_head_cont {B} (K : Z -> P B) fl p :
  (n <- _mkexpr EXPR_IF fl ;; Parser.next keywordtab ;; enter_scope ;; K n) p =
  (n <- if_head keywordtab fl ;; K n) p.
Proof.
  unfold if_head, bind.
  destruct (_mkexpr EXPR_IF fl p) as [n q| | |]; try reflexivity.
  destruct (Parser.next keywordtab q) as [u q1| | |]; try reflexivity.
  destruct (enter_scope q1) as [u1 q2| | |]; reflexivity.
Qed.

Lemma if_narrow_cont {B} (K : Z -> P B) n cond p :
  (upd n (set_n_cond cond) ;; t <- check_if_cond cond ;; enter_scope ;; K t) p =
  (t <- if_narrow n cond ;; K t) p.
Proof.
  unfold if_narrow, bind.
  destruct (upd n (set_n_cond cond) p) as [u q| | |]; try reflexivity.
  destruct (check_if_cond cond q) as [t q1| | |]; try reflexivity.
  destruct (enter_scope q1) as [u1 q2| | |]; reflexivity.
Qed.

(** [expr_if] is its three steps around the two sub-parsers. *)
Lemma expr_if_steps fl p :
  expr_if keywordtab fuel expr fl p =
  (n <- if_head keywordtab fl ;;
   cond <- expr PREC_COMMA (Z.lor fl EX_RVALUE) ;;
   t <- if_narrow n cond ;;
   thenb <- any_as_block keywordtab fuel expr fl ;;
   if_tail keywordtab fuel expr fl n t thenb) p.
Proof.
  unfold expr_if. rewrite if_head_cont.
  apply bind_ext_run. intros n q.
  apply bind_ext_run. intros cond q1.
  rewrite if_narrow_cont. reflexivity.
Qed.

Lemma if_narrow_spec n cond p name r ot T tnb p3 :
  names_binding (nodes p) cond name r ot ->
  optional_binding (nodes p) r ot T ->
  scope_ok (scope p) ->
  if_narrow n cond p = Ok tnb p3 ->
  exists xn s' c2 r2,
    node_at (nodes p) n = Some xn /\
    tnb = Z.of_nat (length (nodes p)) + 1 /\
    nodes p3 = node_put (nodes p) n (set_n_cond cond xn) ++ [c2; r2] /\
    is_local (n_kind r2) = true /\ n_type r2 = T /\
    has_flag (n_flags r2) EX_SHADOWS_OPTIONAL = true /\
    Scope.scope_def Scope.resize_zero (scope p) (sym_addr name)
      (Z.of_nat (length (nodes p)) + 2) = Some (true, s') /\
    Scope.scope_push Scope.resize_zero s' = Some (true, scope p3).
Proof.
  intros Hid Hopt Hok. unfold if_narrow.
  destruct (node_at (nodes p) n) as [xn|] eqn:Hn.
  2:{ unfold upd, load, bind. rewrite Hn. discriminate. }
  rewrite (bind_Ok _ _ _ _ _ (upd_Ok _ _ _ _ Hn)).
  pose proof (nodes_kept_put _ _ _ _ Hn (same_fields_set_cond cond xn)) as Hk.
  set (q := set_nodes (node_put (nodes p) n (set_n_cond cond xn)) p).
  destruct (check_if_cond_spec q cond name r ot T) as
    (id2 & p' & s' & c2 & r2 & E & Eid & En & R1 & R2 & R3 & Hdef & Hs').
  { eapply names_binding_kept; eauto. }
  { eapply optional_binding_kept; eauto. }
  { exact Hok. }
  rewrite (bind_Ok _ _ _ _ _ E).
  destruct Hok as (Hwf & Hne & Hcap).
  destruct (ScopeZero.scope_def_zero (scope p) (sym_addr name)
              (Z.of_nat (length (nodes p)) + 2) Hwf Hne ltac:(lia))
    as (s'' & Hdef' & Hcap' & _).
  subst q. psimpl. rewrite length_node_put in *.
  rewrite Hdef' in Hdef. injection Hdef as <-.
  pose proof (ScopeProofs.scope_def_spec _ ScopeProofs.resize_zero_ok _ _ _ _ Hwf Hdef')
    as (Hwf' & _).
  destruct (ScopeZero.scope_push_zero s'' Hwf' ltac:(lia)) as (s3 & Hpush & _).
  erewrite bind_Ok by (apply enter_scope_Ok; rewrite Hs'; exact Hpush).
  unfold ret. intros [= <- <-]. psimpl.
  exists xn, s'', c2, r2. split_and!; try assumption; reflexivity.
Qed.

Lemma tok_eqb_neq t t' : t <> t' -> tok_eqb t t' = false.
Proof.
  intros H. unfold tok_eqb. apply Z.eqb_neq. intros E. apply H.
  destruct t; destruct t'; try reflexivity; discriminate E.
Qed.

(** The loop that ends [expr_if] stops at the binding of the identifier. *)
Lemma if_dst_local k q cond name r ot T :
  names_binding (nodes q) cond name r ot ->
  optional_binding (nodes q) r ot T ->
  if_dst (S (S k)) cond q = Ok r q.
Proof.
  intros (c & Hc & K1 & K2 & K3 & K4) (rn & otn & Hr & L1 & _).
  cbn [if_dst].
  rewrite (bind_Ok _ _ _ _ _ (load_Ok _ _ _ Hc)). rewrite K1, K3.
  change (kind_eqb EXPR_ID EXPR_ID) with true. cbv iota.
  rewrite (bind_Ok _ _ _ _ _ (load_Ok _ _ _ Hr)).
  rewrite (is_local_isexpr _ L1).
  rewrite (bind_Ok _ _ _ _ _ (load_Ok _ _ _ Hr)).
  rewrite (is_local_not_id _ L1). reflexivity.
Qed.

Lemma if_tail_spec fl n tnb thenb p cond name r ot T xn b s5 s6 :
  (2 <= fuel)%nat ->
  node_at (nodes p) n = Some xn -> n_cond xn = cond ->
  names_binding (nodes p) cond name r ot ->
  optional_binding (nodes p) r ot T ->
  tnb <> 0 -> node_at (nodes p) tnb = Some b ->
  tok (scanner p) <> TELSE ->
  Scope.scope_pop (scope p) = Some s5 -> Scope.scope_pop s5 = Some s6 ->
  exists pf,
    if_tail keywordtab fuel expr fl n tnb thenb p = Ok n pf /\
    scope pf = s6 /\ nodes_kept (nodes p) (nodes pf).
Proof.
  intros Hfuel Hn Hcond Hid Hopt Htnb Hb Htok Hpop5 Hpop6.
  destruct fuel as [|[|k]]; [lia|lia|].
  unfold if_tail.
  rewrite (bind_Ok _ _ _ _ _ (upd_Ok _ _ _ _ Hn)).
  pose proof (nodes_kept_put _ _ _ _ Hn (same_fields_set_thenb thenb xn)) as Hk.
  set (q := set_nodes (node_put (nodes p) n (set_n_thenb thenb xn)) p) in *.
  erewrite bind_Ok by (apply leave_scope_Ok; exact Hpop5).
  unfold bind at 1. unfold currtok at 1. psimpl.
  change (scanner q) with (scanner p).
  rewrite (tok_eqb_neq _ _ Htok). unfold when at 1.
  unfold bind at 1. unfold ret at 1. cbv beta iota.
  erewrite bind_Ok by (apply leave_scope_Ok; exact Hpop6).
  apply Z.eqb_neq in Htnb. rewrite Htnb. cbn [negb]. unfold when.
  set (q2 := set_scope s6 (set_scope s5 q)).
  assert (Hn2 : node_at (nodes q2) n = Some (set_n_thenb thenb xn))
    by (subst q2 q; psimpl; eapply node_at_put_eq; eauto).
  assert (Hid2 : names_binding (nodes q2) cond name r ot)
    by (subst q2 q; psimpl; eapply names_binding_kept; eauto).
  assert (Hopt2 : optional_binding (nodes q2) r ot T)
    by (subst q2 q; psimpl; eapply optional_binding_kept; eauto).
  destruct (Hk _ _ Hb) as (b' & Hb' & _).
  pose proof Hopt2 as (rn & otn & Hr & _).
  unfold bind at 1.
  rewrite (bind_Ok _ _ _ _ _ (load_Ok _ _ _ Hn2)).
  change (n_cond (set_n_thenb thenb xn)) with (n_cond xn). rewrite Hcond.
  rewrite (bind_Ok _ _ _ _ _ (if_dst_local k q2 cond name r ot T Hid2 Hopt2)).
  erewrite bind_Ok by (apply load_Ok; subst q2 q; psimpl; exact Hb').
  rewrite (upd_Ok _ _ _ _ Hr).
  unfold ret. eexists. split; [reflexivity|]. psimpl. split; [reflexivity|].
  eapply nodes_kept_trans; [exact Hk|].
  subst q2 q. psimpl. psimpl.
  eapply nodes_kept_put; [exact Hr|apply same_fields_set_nrefs].
Qed.


End If.

Ltac by_compute :=
  vm_compute; repeat split; try reflexivity; try discriminate;
  try (intros ?; discriminate).


End IfProofs.

(** ** The scanner reports errors only *)

Module ScannerDiags.
Import Scanner Props ScannerProofs.

Lemma only_errors_refl c : only_errors c c.
Proof.
  split; [reflexivity|]. split; [reflexivity|].
  exists []. split; [symmetry; apply app_nil_r|constructor].
Qed.

Lemma only_errors_trans c1 c2 c3 :
  only_errors c1 c2 -> only_errors c2 c3 -> only_errors c1 c3.
Proof.
  intros (P1 & T1 & l1 & D1 & F1) (P2 & T2 & l2 & D2 & F2).
  split; [congruence|]. split; [congruence|].
  exists (l1 ++ l2). split.
  - rewrite D2, D1. symmetry. apply app_assoc.
  - apply Forall_app. split; assumption.
Qed.

Lemma only_errors_report c r m : only_errors c (report_diagv c r DIAG_ERR m).
Proof.
  split; [reflexivity|]. split; [reflexivity|].
  eexists. split; [reflexivity|]. repeat constructor.
Qed.

Create HintDb oe.

Ltac oe :=
  repeat first
    [ assumption
    | progress fsimpl
    | match goal with
      | |- context [if ?b then _ else _] => destruct b
      end
    | solve [auto 2 with oe] ].

Lemma oe_error c s m :
  only_errors c (compiler s) -> only_errors c (compiler (error s m)).
Proof.
  intros H. unfold error, stop_scanning. fsimpl.
  eapply only_errors_trans; [exact H|apply only_errors_report].
Qed.
#[local] Hint Resolve oe_error : oe.

Lemma oe_floatnumber_loop fuel : forall c s base a,
  only_errors c (compiler s) ->
  only_errors c (compiler (floatnumber_loop fuel s base a)).
Proof.
  induction fuel as [|fuel IH]; intros c s base a H; cbn [floatnumber_loop];
    [exact H|].
  cbv zeta. oe; apply IH; oe.
Qed.
#[local] Hint Resolve oe_floatnumber_loop : oe.

Lemma oe_floatnumber c s base :
  only_errors c (compiler s) -> only_errors c (compiler (floatnumber s base)).
Proof. intros H. unfold floatnumber. apply oe_floatnumber_loop. oe. Qed.
#[local] Hint Resolve oe_floatnumber : oe.

Lemma oe_number_end c s acc any ch0 :
  only_errors c (compiler s) ->
  only_errors c (compiler (number_end s acc any ch0)).
Proof.
  intros H. unfold number_end. cbv zeta.
  destruct (any <? 0); destruct (ch0 =? ch "_"); oe;
    repeat (apply oe_error); oe.
Qed.
#[local] Hint Resolve oe_number_end : oe.

Lemma oe_number_loop fuel : forall c s base st cutoff cutlim acc any ch0,
  only_errors c (compiler s) ->
  only_errors c (compiler (number_loop fuel s base st cutoff cutlim acc any ch0)).
Proof.
  induction fuel as [|fuel IH]; intros c s base st cutoff cutlim acc any ch0 H;
    cbn [number_loop]; [exact H|].
  cbv zeta.
  repeat match goal with
  | |- context [if ?b then _ else _] => destruct b
  end;
  first [ apply oe_number_end; exact H
        | apply oe_error; exact H
        | apply oe_floatnumber; fsimpl; exact H
        | apply IH; fsimpl; exact H ].
Qed.
#[local] Hint Resolve oe_number_loop : oe.

Lemma oe_number c s base :
  only_errors c (compiler s) -> only_errors c (compiler (number s base)).
Proof. intros H. unfold number. cbv zeta. apply oe_number_loop. oe. Qed.
#[local] Hint Resolve oe_number : oe.

Lemma oe_zeronumber c s :
  only_errors c (compiler s) -> only_errors c (compiler (zeronumber s)).
Proof.
  intros H. unfold zeronumber. cbv zeta.
  repeat match goal with
  | |- context [if ?b then _ else _] => destruct b
  end; apply oe_number; fsimpl; exact H.
Qed.
#[local] Hint Resolve oe_zeronumber : oe.

Lemma oe_utf8seq c s :
  only_errors c (compiler s) -> only_errors c (compiler (snd (utf8seq s))).
Proof.
  intros H. unfold utf8seq. cbv zeta.
  repeat match goal with
  | |- context [if ?b then _ else _] => destruct b
  end; cbn [snd]; fsimpl; exact H.
Qed.

Lemma oe_identifier_utf8_loop fuel : forall c s,
  only_errors c (compiler s) ->
  only_errors c (compiler (snd (identifier_utf8_loop fuel s))).
Proof.
  induction fuel as [|fuel IH]; intros c s H; cbn [identifier_utf8_loop];
    [exact H|].
  destruct (inp s <? inend s); [|exact H].
  destruct (cur s >=? UTF8_SELF).
  - pose proof (oe_utf8seq c s H) as Hu.
    destruct (utf8seq s) as [ok s1]. cbn [snd] in Hu.
    destruct ok; cbn [negb snd].
    + apply IH. exact Hu.
    + apply oe_error. exact Hu.
  - destruct (isalnum (cur s) || (cur s =? ch "_")); [|exact H].
    apply IH. fsimpl. exact H.
Qed.

Lemma oe_identifier_utf8 c s :
  only_errors c (compiler s) -> only_errors c (compiler (identifier_utf8 s)).
Proof.
  intros H. unfold identifier_utf8.
  pose proof (oe_identifier_utf8_loop (S (length (input s))) c s H) as Hu.
  destruct (identifier_utf8_loop (S (length (input s))) s) as [ok s1].
  cbn [snd] in Hu. destruct ok; cbn [negb]; unfold intern_identifier; fsimpl;
    exact Hu.
Qed.
#[local] Hint Resolve oe_identifier_utf8 : oe.

Section Keywords.
Variable kw : list (string * tok_t).

Lemma oe_maybe_keyword_loop fuel : forall c s lit low high,
  only_errors c (compiler s) ->
  only_errors c (compiler (maybe_keyword_loop kw fuel s lit low high)).
Proof.
  induction fuel as [|fuel IH]; intros c s lit low high H;
    cbn [maybe_keyword_loop]; [exact H|].
  cbv zeta. destruct (low <? high); [|exact H].
  destruct (kw !! Z.to_nat ((low + high) / 2)) as [[k t]|]; [|exact H].
  repeat match goal with
  | |- context [if ?b then _ else _] => destruct b
  end; first [apply IH; exact H | fsimpl; exact H].
Qed.

Lemma oe_identifier_loop fuel : forall c s,
  only_errors c (compiler s) ->
  only_errors c (compiler (identifier_loop fuel s)).
Proof.
  induction fuel as [|fuel IH]; intros c s H; cbn [identifier_loop]; [exact H|].
  destruct ((inp s <? inend s) && (isalnum (cur s) || (cur s =? ch "_")));
    [|exact H].
  apply IH. fsimpl. exact H.
Qed.

Lemma oe_identifier c s :
  only_errors c (compiler s) -> only_errors c (compiler (identifier kw s)).
Proof.
  intros H. unfold identifier. cbv zeta.
  pose proof (oe_identifier_loop (S (length (input s))) c s H) as H1.
  destruct ((inp (identifier_loop (S (length (input s))) s) <?
             inend (identifier_loop (S (length (input s))) s)) &&
            (cur (identifier_loop (S (length (input s))) s) >=? UTF8_SELF)).
  - apply oe_identifier_utf8. exact H1.
  - unfold maybe_keyword. apply oe_maybe_keyword_loop.
    unfold intern_identifier. fsimpl. exact H1.
Qed.

Lemma oe_line_comment_loop fuel : forall c s,
  only_errors c (compiler s) ->
  only_errors c (compiler (line_comment_loop fuel s)).
Proof.
  induction fuel as [|fuel IH]; intros c s H; cbn [line_comment_loop]; [exact H|].
  destruct ((inp s <? inend s) && negb (cur s =? 10)); [|exact H].
  apply IH. fsimpl. exact H.
Qed.

Lemma oe_block_comment_loop fuel : forall c s st,
  only_errors c (compiler s) ->
  only_errors c (compiler (block_comment_loop fuel s st)).
Proof.
  induction fuel as [|fuel IH]; intros c s st H; cbn [block_comment_loop];
    [exact H|].
  repeat match goal with
  | |- context [if ?b then _ else _] => destruct b
  end; first [apply IH; unfold newline; fsimpl; exact H | fsimpl; exact H].
Qed.

Lemma oe_skip_comment c s :
  only_errors c (compiler s) -> only_errors c (compiler (skip_comment s)).
Proof.
  intros H. unfold skip_comment. cbv zeta.
  destruct (byte_at s (inp s + 1) =? ch "/").
  - apply oe_line_comment_loop. fsimpl. exact H.
  - apply oe_block_comment_loop. fsimpl. exact H.
Qed.

Lemma oe_skip_whitespace fuel : forall c s,
  only_errors c (compiler s) ->
  only_errors c (compiler (skip_whitespace fuel s)).
Proof.
  induction fuel as [|fuel IH]; intros c s H; cbn [skip_whitespace]; [exact H|].
  destruct ((inp s <? inend s) && isspace (cur s)); [|exact H].
  cbv zeta. apply IH. destruct (cur s =? 10); unfold newline; fsimpl; exact H.
Qed.

Lemma oe_scan1 (k : scanner_t -> scanner_t) c s :
  (forall s', only_errors c (compiler s') -> only_errors c (compiler (k s'))) ->
  only_errors c (compiler s) -> only_errors c (compiler (scan1 kw k s)).
Proof.
  intros Hk H. unfold scan1. cbv zeta.
  repeat match goal with
  | |- context [if ?b then _ else _] => destruct b
  end;
  first [ fsimpl; exact H
        | apply oe_zeronumber; fsimpl; exact H
        | apply oe_floatnumber; fsimpl; exact H
        | apply Hk; apply oe_skip_comment; fsimpl; exact H
        | apply oe_number; fsimpl; exact H
        | apply oe_identifier_utf8; fsimpl; exact H
        | apply oe_identifier; fsimpl; exact H
        | unfold stop_scanning; fsimpl; apply oe_error; fsimpl; exact H ].
Qed.

Lemma oe_scan0 fuel : forall c s,
  only_errors c (compiler s) -> only_errors c (compiler (scan0 kw fuel s)).
Proof.
  induction fuel as [|fuel IH]; intros c s H; cbn [scan0]; [exact H|].
  cbv zeta.
  pose proof (oe_skip_whitespace (S (length (input (set_litlenoffs 0 s)))) c
                (set_litlenoffs 0 s) H) as Hw.
  repeat match goal with
  | |- context [if ?b then _ else _] => destruct b
  end;
  first [ fsimpl; exact Hw
        | apply oe_scan1; [intros s' Hs'; apply IH; exact Hs'|exact Hw] ].
Qed.

(** [scanner_next] adds nothing but errors to the diagnostics and leaves
    the rest of the compiler alone. *)
Lemma scanner_next_only_errors s :
  only_errors (compiler s) (compiler (scanner_next kw s)).
Proof.
  unfold scanner_next. cbv zeta. apply oe_scan0. fsimpl.
  apply only_errors_refl.
Qed.

End Keywords.

End ScannerDiags.

(** ** Unreachable code in a block *)

Module BlockProofs.
Import Ast Scanner Parser Props IfProofs.

(** *** Counting warnings *)

Lemma count_unreachable_app l l' :
  count_unreachable (l ++ l') = (count_unreachable l + count_unreachable l')%nat.
Proof. unfold count_unreachable. rewrite filter_app, length_app. reflexivity. Qed.

Lemma count_unreachable_errors l :
  Forall (fun d => d_kind d = DIAG_ERR) l -> count_unreachable l = 0%nat.
Proof.
  unfold count_unreachable. induction 1 as [|d l Hd _ IH]; [reflexivity|].
  rewrite filter_cons_False; [exact IH|].
  unfold is_unreachable. rewrite Hd. discriminate.
Qed.

Lemma only_errors_count c c' :
  only_errors c c' -> count_unreachable (diags c') = count_unreachable (diags c).
Proof.
  intros (_ & _ & l & -> & Hl).
  rewrite count_unreachable_app, (count_unreachable_errors _ Hl). lia.
Qed.

(** *** The relations between states *)

Lemma block_frame_refl nodes : block_frame nodes nodes.
Proof. intros a x H. exists x. auto. Qed.

Lemma block_frame_trans n1 n2 n3 :
  block_frame n1 n2 -> block_frame n2 n3 -> block_frame n1 n3.
Proof.
  intros H12 H23 a x H. destruct (H12 _ _ H) as (y & Hy & K1 & K2 & K3).
  destruct (H23 _ _ Hy) as (z & Hz & L1 & L2 & L3). exists z.
  split; [exact Hz|]. split_and!; congruence.
Qed.

Lemma quiet_frame_refl p : quiet_frame p p.
Proof. split; [reflexivity|apply block_frame_refl]. Qed.

Lemma quiet_frame_trans p1 p2 p3 :
  quiet_frame p1 p2 -> quiet_frame p2 p3 -> quiet_frame p1 p3.
Proof.
  intros [C1 F1] [C2 F2]. split; [congruence|eapply block_frame_trans; eauto].
Qed.

Lemma errs_refl p : errs p p.
Proof. split; [reflexivity|apply ScannerDiags.only_errors_refl]. Qed.

Lemma errs_trans p1 p2 p3 : errs p1 p2 -> errs p2 p3 -> errs p1 p3.
Proof.
  intros [N1 E1] [N2 E2]. split; [congruence|].
  eapply ScannerDiags.only_errors_trans; eauto.
Qed.

Lemma errs_quiet_frame p p' : errs p p' -> quiet_frame p p'.
Proof.
  intros [N E]. split.
  - unfold unreachable_count. apply only_errors_count. exact E.
  - rewrite N. apply block_frame_refl.
Qed.

(** *** Runs that keep a relation *)

Section Pres.
Variable R : parser_t -> parser_t -> Prop.
Hypothesis Rrefl : forall p, R p p.
Hypothesis Rtrans : forall p1 p2 p3, R p1 p2 -> R p2 p3 -> R p1 p3.

Lemma pres_ret {A} (a : A) : pres R (ret a).
Proof using Rrefl. intros p a' p'. unfold ret. intros [= _ <-]. apply Rrefl. Qed.

Lemma pres_bind {A B} (m : P A) (k : A -> P B) :
  pres R m -> (forall a, pres R (k a)) -> pres R (bind m k).
Proof using Rtrans.
  intros Hm Hk p b p' H. apply bind_inv in H as (a & p1 & H1 & H2).
  eapply Rtrans; [eapply Hm; eauto|eapply Hk; eauto].
Qed.

Lemma pres_when (b : bool) (m : P unit) : pres R m -> pres R (when b m).
Proof using Rrefl. intros Hm. unfold when. destruct b; [exact Hm|apply pres_ret]. Qed.

Lemma pres_read {A} (f : parser_t -> A) : pres R (fun p => Ok (f p) p).
Proof using Rrefl. intros p a p'. intros [= _ <-]. apply Rrefl. Qed.

End Pres.

Lemma load_inv a p x p' :
  load a p = Ok x p' -> p' = p /\ node_at (nodes p) a = Some x.
Proof.
  unfold load. destruct (node_at (nodes p) a); [|discriminate].
  intros [= <- <-]. auto.
Qed.

Lemma upd_inv a f p u p' :
  upd a f p = Ok u p' ->
  exists x, node_at (nodes p) a = Some x /\
            p' = set_nodes (node_put (nodes p) a (f x)) p.
Proof.
  intros H. unfold upd in H. apply bind_inv in H as (x & p1 & H1 & H2).
  apply load_inv in H1 as [-> Hx]. exists x. split; [exact Hx|].
  rewrite (store_Ok _ _ _ _ Hx) in H2. injection H2 as _ <-. reflexivity.
Qed.

Lemma has_flag_clear_rvalue f :
  has_flag (clear_flag f EX_RVALUE) EX_EXITS = has_flag f EX_EXITS.
Proof.
  unfold has_flag, clear_flag. rewrite <- Z.land_assoc. reflexivity.
Qed.

Lemma has_flag_set_exits f : has_flag (Z.lor f EX_EXITS) EX_EXITS = true.
Proof.
  unfold has_flag. apply negb_true_iff. apply Z.eqb_neq.
  rewrite Z.land_lor_distr_l. intros H. apply Z.lor_eq_0_iff in H as [_ H].
  discriminate H.
Qed.

Lemma block_frame_put nodes a x y :
  node_at nodes a = Some x ->
  n_kind y = n_kind x -> n_children y = n_children x ->
  has_flag (n_flags y) EX_EXITS = has_flag (n_flags x) EX_EXITS ->
  block_frame nodes (node_put nodes a y).
Proof.
  intros Ha K1 K2 K3 b z Hb. destruct (Z.eq_dec a b) as [<-|Hne].
  - exists y. split; [eapply node_at_put_eq; eauto|].
    replace z with x by congruence. auto.
  - exists z. split; [|auto].
    rewrite node_at_put_ne; [exact Hb| |exact Hne].
    apply node_at_Some in Ha. lia.
Qed.

Lemma block_frame_kinds nodes nodes' :
  block_frame nodes nodes' -> kinds_kept nodes nodes'.
Proof.
  intros H a x Hx. destruct (H _ _ Hx) as (x' & Hx' & K & _). eauto.
Qed.

Lemma kinds_kept_put nodes a x y :
  node_at nodes a = Some x -> n_kind y = n_kind x ->
  kinds_kept nodes (node_put nodes a y).
Proof.
  intros Ha K b z Hb. destruct (Z.eq_dec a b) as [<-|Hne].
  - exists y. split; [eapply node_at_put_eq; eauto|congruence].
  - exists z. split; [|reflexivity].
    rewrite node_at_put_ne; [exact Hb| |exact Hne].
    apply node_at_Some in Ha. lia.
Qed.

Lemma kinds_of_kept nodes nodes' l : forall ks,
  kinds_kept nodes nodes' ->
  kinds_of nodes l = List.map Some ks -> kinds_of nodes' l = List.map Some ks.
Proof.
  induction l as [|c l IH]; intros ks Hk H; destruct ks as [|k ks];
    try discriminate H; [reflexivity|].
  simpl in H. injection H as Hc Hl. simpl. f_equal.
  - destruct (node_at nodes c) as [x|] eqn:Ex; [|discriminate Hc].
    destruct (Hk _ _ Ex) as (x' & -> & K). simpl in *. congruence.
  - apply IH; assumption.
Qed.

Lemma block_node_frame p p' n ks b :
  block_frame (nodes p) (nodes p') -> block_node p n ks b -> block_node p' n ks b.
Proof.
  intros Hf (x & Hx & K1 & K2 & K3).
  destruct (Hf _ _ Hx) as (x' & Hx' & L1 & L2 & L3).
  exists x'. split; [exact Hx'|]. split; [congruence|]. split; [|congruence].
  rewrite L2. eapply kinds_of_kept; [apply block_frame_kinds; exact Hf|exact K2].
Qed.

Lemma after_return_app_return ks l :
  existsb is_return ks = true ->
  after_return (ks ++ l) = (after_return ks + length l)%nat.
Proof.
  induction ks as [|k ks IH]; simpl; [discriminate|].
  destruct (is_return k); simpl.
  - intros _. apply length_app.
  - exact IH.
Qed.

Lemma after_return_none ks : existsb is_return ks = false -> after_return ks = 0%nat.
Proof.
  induction ks as [|k ks IH]; simpl; [reflexivity|].
  destruct (is_return k); simpl; [discriminate|exact IH].
Qed.

Lemma after_return_snoc_none ks k :
  existsb is_return ks = false -> after_return (ks ++ [k]) = 0%nat.
Proof.
  induction ks as [|k' ks IH]; simpl.
  - intros _. destruct (is_return k); reflexivity.
  - destruct (is_return k'); simpl; [discriminate|exact IH].
Qed.

Section Block.

Variable keywordtab : list (string * tok_t).
Variable fuel : nat.
Variable expr : prec_t -> exprflag_t -> P Z.

Lemma pres_next : pres errs (Parser.next keywordtab).
Proof.
  intros p a p'. unfold Parser.next, modify. intros [= _ <-].
  split; [reflexivity|]. psimpl. apply ScannerDiags.scanner_next_only_errors.
Qed.

Lemma pres_report_err r m : pres errs (report r DIAG_ERR m).
Proof.
  intros p a p'. unfold report, modify. intros [= _ <-].
  split; [reflexivity|]. psimpl. ScannerProofs.fsimpl.
  apply ScannerDiags.only_errors_report.
Qed.

Lemma pres_error0 m : pres errs (error 0 m).
Proof.
  unfold error. apply (pres_bind _ errs_trans).
  - unfold at_eof. apply (pres_read _ errs_refl).
  - intros eof. destruct eof; [apply (pres_ret _ errs_refl)|].
    apply (pres_bind _ errs_trans).
    + unfold srcrange_of. change (0 =? 0) with true. cbv iota.
      apply (pres_bind _ errs_trans).
      * unfold currloc. apply (pres_read _ errs_refl).
      * intros l. apply (pres_ret _ errs_refl).
    + intros r. apply pres_report_err.
Qed.

Lemma pres_unexpected msg : pres errs (unexpected msg).
Proof.
  unfold unexpected. apply (pres_bind _ errs_trans).
  - unfold currtok. apply (pres_read _ errs_refl).
  - intros t. apply (pres_bind _ errs_trans).
    + unfold currlit. apply (pres_read _ errs_refl).
    + intros lit. apply pres_error0.
Qed.

Lemma pres_fastforward k l : pres errs (fastforward keywordtab k l).
Proof.
  induction k as [|k IH]; cbn [fastforward].
  - intros p a p'. discriminate.
  - apply (pres_bind _ errs_trans).
    + unfold currtok. apply (pres_read _ errs_refl).
    + intros t. destruct (tok_eqb t TEOF); [apply (pres_ret _ errs_refl)|].
      destruct (tok_in t l); [apply (pres_ret _ errs_refl)|].
      apply (pres_bind _ errs_trans); [apply pres_next|intros _; exact IH].
Qed.

Lemma pres_expect2 t0 msg : pres errs (expect2 keywordtab fuel t0 msg).
Proof.
  unfold expect2. apply (pres_bind _ errs_trans).
  - unfold currtok. apply (pres_read _ errs_refl).
  - intros t. destruct (tok_eqb t t0).
    + apply (pres_bind _ errs_trans); [apply pres_next|].
      intros _. apply (pres_ret _ errs_refl).
    + apply (pres_bind _ errs_trans); [apply pres_unexpected|]. intros _.
      apply (pres_bind _ errs_trans); [apply pres_fastforward|]. intros _.
      apply (pres_bind _ errs_trans).
      { unfold currtok. apply (pres_read _ errs_refl). }
      intros t'. apply (pres_bind _ errs_trans).
      { apply (pres_when _ errs_refl). apply pres_next. }
      intros _. apply (pres_ret _ errs_refl).
Qed.

Lemma srcrange_of_state n p r p' : srcrange_of n p = Ok r p' -> p' = p.
Proof.
  unfold srcrange_of. destruct (n =? 0).
  - unfold bind, currloc, ret. intros [= _ <-]. reflexivity.
  - unfold node_srcrange. intros H. apply bind_inv in H as (x & q & H1 & H2).
    apply load_inv in H1 as [-> _].
    destruct (n_kind x);
      try (unfold ret in H2; injection H2 as _ <-; reflexivity).
    destruct (n_name x); [|discriminate H2].
    unfold ret in H2. injection H2 as _ <-. reflexivity.
Qed.

Lemma warning_unreachable cn p u p' :
  warning cn MsgUnreachable p = Ok u p' ->
  nodes p' = nodes p /\ unreachable_count p' = S (unreachable_count p).
Proof.
  unfold warning. intros H. apply bind_inv in H as (r & q & H1 & H2).
  apply srcrange_of_state in H1 as ->.
  unfold report, modify in H2. injection H2 as _ <-.
  split; [reflexivity|].
  unfold unreachable_count. psimpl. ScannerProofs.fsimpl.
  unfold report_diagv. cbn [diags].
  rewrite count_unreachable_app. unfold count_unreachable at 2. simpl. lia.
Qed.

Lemma pres_clear_rvalue k : forall a, pres quiet_frame (clear_rvalue k a).
Proof.
  induction k as [|k IH]; intros a; cbn [clear_rvalue].
  - intros p u p'. discriminate.
  - apply (pres_bind _ quiet_frame_trans).
    + intros p u p' H. apply upd_inv in H as (x & Hx & ->).
      split; [reflexivity|]. psimpl.
      eapply block_frame_put; [exact Hx|reflexivity|reflexivity|].
      apply has_flag_clear_rvalue.
    + intros _. apply (pres_bind _ quiet_frame_trans).
      * intros p x p' H. apply load_inv in H as [-> _]. apply quiet_frame_refl.
      * intros x.
        destruct (n_kind x); try apply (pres_ret _ quiet_frame_refl).
        -- induction (n_children x) as [|c l IHl];
             [apply (pres_ret _ quiet_frame_refl)|].
           apply (pres_bind _ quiet_frame_trans); [apply IH|intros _; exact IHl].
        -- apply (pres_bind _ quiet_frame_trans); [apply IH|]. intros _.
           apply (pres_bind _ quiet_frame_trans).
           { intros p y p' H. apply load_inv in H as [-> _]. apply quiet_frame_refl. }
           intros y. apply (pres_when _ quiet_frame_refl). apply IH.
Qed.

Lemma block_node_quiet p p' n ks b :
  quiet_frame p p' -> block_node p n ks b -> block_node p' n ks b.
Proof. intros [_ Hf]. apply block_node_frame. exact Hf. Qed.

Lemma mkexpr_node k fl p :
  exists x,
    _mkexpr k fl p =
      Ok (Z.of_nat (length (nodes p)) + 1) (set_nodes (nodes p ++ [x]) p) /\
    n_kind x = k /\ n_flags x = fl /\ n_children x = [].
Proof.
  unfold _mkexpr, _mknode, currloc, alloc.
  unfold bind at 2. unfold bind at 2. cbv beta iota.
  eexists. split.
  - unfold bind. erewrite upd_Ok by (psimpl; apply node_at_new).
    psimpl. rewrite node_put_new. unfold ret. reflexivity.
  - split_and!; reflexivity.
Qed.

(** The step of the loop of [block] that marks the exit or warns. *)
Lemma mark_spec n cn x e rep p st p' ks kc c0 y :
  (if has_flag (n_flags x) EX_EXITS then
     if negb rep then (warning cn MsgUnreachable ;; ret (e, true))
     else ret (e, rep)
   else
     ck <- kind_of cn ;;
     if kind_eqb ck EXPR_RETURN then
       x <- load n ;;
       store n (set_n_flags (Z.lor (n_flags x) EX_EXITS) x) ;;
       ret (u32 (Z.of_nat (length (n_children x)) - 1), rep)
     else ret (e, rep)) p = Ok st p' ->
  node_at (nodes p) n = Some x -> n_kind x = EXPR_BLOCK ->
  kinds_of (nodes p) (n_children x) = List.map Some (ks ++ [kc]) ->
  has_flag (n_flags x) EX_EXITS = existsb is_return ks ->
  node_at (nodes p) cn = Some y -> n_kind y = kc ->
  rep = (0 <? after_return ks)%nat ->
  unreachable_count p = (c0 + warnings_due ks)%nat ->
  block_state p' n (ks ++ [kc]) /\
  snd st = (0 <? after_return (ks ++ [kc]))%nat /\
  unreachable_count p' = (c0 + warnings_due (ks ++ [kc]))%nat.
Proof.
  intros H Hx Hk Hks Hfl Hy Hkc Hrep Hc.
  unfold block_state, block_node, warnings_due in *. rewrite existsb_app.
  cbn [existsb]. rewrite orb_false_r.
  destruct (existsb is_return ks) eqn:Eret; rewrite Hfl in H.
  - (* a return came before: warn once *)
    rewrite (after_return_app_return _ [kc] Eret). cbn [length].
    replace (0 <? after_return ks + 1)%nat with true
      by (symmetry; apply Nat.ltb_lt; lia).
    destruct (0 <? after_return ks)%nat eqn:Ea; subst rep; cbn [negb] in H.
    + unfold ret in H. injection H as <- <-.
      split; [|split; [reflexivity|exact Hc]].
      exists x. cbn [orb]. auto.
    + apply bind_inv in H as (u & q & Hw & H).
      apply warning_unreachable in Hw as [Hn Hcount].
      unfold ret in H. injection H as <- <-.
      split; [|split; [reflexivity|lia]].
      exists x. rewrite Hn. cbn [orb]. auto.
  - (* no return so far *)
    rewrite (after_return_snoc_none _ kc Eret).
    rewrite (after_return_none _ Eret) in *. cbn [Nat.ltb Nat.leb] in *. subst rep.
    apply bind_inv in H as (ck & q & Hck & H).
    unfold kind_of in Hck. apply bind_inv in Hck as (y' & q' & Hl & Hr).
    apply load_inv in Hl as [-> Hy']. unfold ret in Hr. injection Hr as <- <-.
    replace y' with y in * by congruence. rewrite Hkc in H.
    cbn [orb]. unfold is_return.
    destruct (kind_eqb kc EXPR_RETURN).
    + apply bind_inv in H as (x' & q & Hl & H). apply load_inv in Hl as [-> Hx'].
      replace x' with x in * by congruence.
      apply bind_inv in H as (u & q & Hs & H).
      rewrite (store_Ok _ _ _ _ Hx) in Hs. injection Hs as _ <-.
      unfold ret in H. injection H as <- <-. psimpl.
      split; [|split; [reflexivity|exact Hc]].
      eexists. split; [eapply node_at_put_eq; exact Hx|].
      split; [exact Hk|].
      split; [|cbn [n_flags set_n_flags]; apply has_flag_set_exits].
      cbn [n_children set_n_flags].
      eapply kinds_of_kept; [|exact Hks].
      eapply kinds_kept_put; [exact Hx|reflexivity].
    + unfold ret in H. injection H as <- <-.
      split; [|split; [reflexivity|exact Hc]].
      exists x. auto.
Qed.

Hypothesis Hchild : quiet_child expr.

Lemma block_loop_spec k : forall n fl e rep p e' p' ks c0,
  block_loop keywordtab fuel expr k n fl e rep p = Ok e' p' ->
  block_state p n ks ->
  rep = (0 <? after_return ks)%nat ->
  unreachable_count p = (c0 + warnings_due ks)%nat ->
  exists ks',
    block_state p' n ks' /\
    unreachable_count p' = (c0 + warnings_due ks')%nat /\
    (length ks < length ks')%nat.
Proof using Hchild.
  induction k as [|k IH]; intros n fl e rep p e' p' ks c0 H Hst Hrep Hc;
    cbn [block_loop] in H; [discriminate H|].
  apply bind_inv in H as (cn & p1 & Hexpr & H).
  destruct (Hchild _ _ _ _ _ Hexpr) as (Hc1 & Hf1 & [y Hy]).
  pose proof (block_node_frame _ _ _ _ _ Hf1 Hst) as (x1 & Hx1 & K1 & K2 & K3).
  apply bind_inv in H as (u & p2 & Hpush & H).
  unfold push_children in Hpush. apply upd_inv in Hpush as (x1' & Hx1' & ->).
  replace x1' with x1 in * by congruence.
  apply bind_inv in H as (x2 & q & Hl & H). apply load_inv in Hl as [-> Hx2].
  psimpl. rewrite (node_at_put_eq _ _ _ _ Hx1) in Hx2. injection Hx2 as <-.
  apply bind_inv in H as (st & p3 & Hmark & H).
  assert (Hkk : kinds_kept (nodes p1)
                  (node_put (nodes p1) n
                     (set_n_children (n_children x1 ++ [cn]) x1)))
    by (eapply kinds_kept_put; [exact Hx1|reflexivity]).
  destruct (Hkk _ _ Hy) as (y2 & Hy2 & Ky).
  destruct (mark_spec n cn _ e rep _ st p3 ks (n_kind y) c0 y2 Hmark) as
    (Hst3 & Hrep3 & Hc3).
  { psimpl. eapply node_at_put_eq. exact Hx1. }
  { exact K1. }
  { psimpl. cbn [n_children set_n_children]. unfold kinds_of.
    rewrite List.map_app, List.map_app. f_equal.
    - eapply kinds_of_kept; [exact Hkk|exact K2].
    - cbn [List.map]. rewrite Hy2. cbn [option_map]. rewrite Ky. reflexivity. }
  { exact K3. }
  { psimpl. exact Hy2. }
  { exact Ky. }
  { exact Hrep. }
  { unfold unreachable_count in *. psimpl. congruence. }
  assert (Hlen : (length ks < length (ks ++ [n_kind y]))%nat)
    by (rewrite length_app; cbn [length]; lia).
  apply bind_inv in H as (t & q & Ht & H).
  unfold currtok in Ht. injection Ht as <- <-.
  destruct (negb (tok_eqb (tok (scanner p3)) TSEMI)).
  { unfold ret in H. injection H as _ <-. eauto. }
  apply bind_inv in H as (u1 & p4 & Hnext & H).
  pose proof (errs_quiet_frame _ _ (pres_next _ _ _ Hnext)) as Hq4.
  apply bind_inv in H as (t & q & Ht & H).
  unfold currtok in Ht. injection Ht as <- <-.
  destruct (tok_eqb (tok (scanner p4)) TRBRACE || tok_eqb (tok (scanner p4)) TEOF).
  { unfold ret in H. injection H as _ <-.
    exists (ks ++ [n_kind y]). split; [eapply block_node_quiet; eauto|].
    split; [|exact Hlen]. destruct Hq4 as [-> _]. exact Hc3. }
  apply bind_inv in H as (u2 & p5 & Hclear & H).
  pose proof (pres_clear_rvalue _ _ _ _ _ Hclear) as Hq5.
  destruct (IH _ _ _ _ _ _ _ (ks ++ [n_kind y]) c0 H) as (ks' & S1 & S2 & S3).
  - eapply block_node_quiet; [exact Hq5|]. eapply block_node_quiet; eauto.
  - exact Hrep3.
  - destruct Hq5 as [-> _]. destruct Hq4 as [-> _]. exact Hc3.
  - exists ks'. split; [exact S1|]. split; [exact S2|lia].
Qed.


End Block.

Lemma block_frameb_lookup l : forall l' i x,
  block_frameb l l' = true -> l !! i = Some x ->
  exists x', l' !! i = Some x' /\ node_frameb x x' = true.
Proof.
  induction l as [|y l IH]; intros l' i x H Hi; [discriminate|].
  destruct l' as [|y' l']; [discriminate|]. simpl in H.
  apply andb_true_iff in H as [Hy Hl].
  destruct i as [|i]; simpl in *.
  - injection Hi as <-. eauto.
  - eapply IH; eauto.
Qed.

Lemma block_frameb_frame l l' : block_frameb l l' = true -> block_frame l l'.
Proof.
  intros H a x. unfold node_at. destruct (0 <? a); [|discriminate].
  intros Hx. destruct (block_frameb_lookup _ _ _ _ H Hx) as (x' & Hx' & Hk).
  exists x'. split; [exact Hx'|].
  unfold node_frameb in Hk. rewrite !andb_true_iff in Hk.
  destruct Hk as ((Hk & Hc) & Hf).
  apply kind_eqb_eq in Hk. apply bool_decide_eq_true in Hc.
  apply Bool.eqb_prop in Hf. auto.
Qed.

(** The guarded parser is a quiet parser of children. *)
Lemma guarded_quiet expr : quiet_child (guarded expr).
Proof.
  intros prec fl p cn p'. unfold guarded.
  destruct (expr prec fl p) as [cn' q| | |]; try discriminate.
  destruct (quiet_childb p cn' q) eqn:E; [|discriminate].
  intros [= <- <-]. unfold quiet_childb in E. rewrite !andb_true_iff in E.
  destruct E as ((Ec & Ef) & En). split; [apply Nat.eqb_eq; exact Ec|].
  split; [apply block_frameb_frame; exact Ef|].
  destruct (node_at (nodes q) cn'); [eauto|discriminate].
Qed.


End BlockProofs.

(** ** The scope stack: lookup, bounds and failure *)

Module ScopeLaws.
Import Scope ScopeProofs ScopeSpec.

Lemma lookup_loop_fuel fuel1 : forall fuel2 p key i b d,
  (Z.to_nat i <= fuel1)%nat -> (Z.to_nat i <= fuel2)%nat ->
  lookup_loop fuel1 p key i b d = lookup_loop fuel2 p key i b d.
Proof.
  induction fuel1 as [|f1 IH]; intros [|f2] p key i b d H1 H2; simpl;
    try reflexivity.
  - destruct (Z.gtb_spec i 1); [lia|reflexivity].
  - destruct (Z.gtb_spec i 1); [lia|reflexivity].
  - destruct (Z.gtb_spec i 1); [|reflexivity].
    destruct (i - 1 =? b).
    + destruct (d =? 0); [reflexivity|].
      destruct (slot_get p (i - 1)); [|reflexivity]. apply IH; lia.
    + destruct (slot_get p (i - 1)) as [z|]; [|reflexivity].
      destruct (z =? key); [reflexivity|]. apply IH; lia.
Qed.

Lemma slot_get_inside p i :
  0 <= i < Z.of_nat (length p) -> exists v, slot_get p i = Some v.
Proof.
  intros H. unfold slot_get.
  replace ((0 <=? i) && (i <? Z.of_nat (length p))) with true
    by (symmetry; apply andb_true_iff; lia).
  apply lookup_lt_is_Some_2. lia.
Qed.

Lemma slot_set_inside p i v :
  0 <= i < Z.of_nat (length p) -> exists p', slot_set p i v = Some p'.
Proof.
  intros H. unfold slot_set.
  replace ((0 <=? i) && (i <? Z.of_nat (length p))) with true
    by (symmetry; apply andb_true_iff; lia).
  eauto.
Qed.

(** The loop of [scope_lookup] reads below [i] only. *)
Lemma lookup_loop_inside fuel : forall p key i b d,
  i <= Z.of_nat (length p) -> exists r, lookup_loop fuel p key i b d = Some r.
Proof.
  induction fuel as [|fuel IH]; intros p key i b d Hi; simpl; [eauto|].
  destruct (Z.gtb_spec i 1); [|eauto].
  destruct (slot_get_inside p (i - 1)) as [x Hx]; [lia|].
  destruct (i - 1 =? b).
  - destruct (d =? 0); [eauto|]. rewrite Hx. apply IH. lia.
  - rewrite Hx. destruct (x =? key).
    + apply slot_get_inside. lia.
    + apply IH. lia.
Qed.

Lemma latest_snoc key kvs k v :
  latest key (kvs ++ [(k, v)]) =
  if k =? key then Some v else latest key kvs.
Proof.
  induction kvs as [|[k0 v0] kvs IH]; simpl.
  - reflexivity.
  - rewrite IH. destruct (k =? key); [reflexivity|].
    reflexivity.
Qed.

Section Laws.
Variable mem_resizev : list Z -> Z -> Z -> option (list Z).
Hypothesis Hres : resize_ok mem_resizev.

Lemma scope_defs_snoc kvs : forall s k v s2,
  scope_defs mem_resizev s (kvs ++ [(k, v)]) = Some s2 ->
  exists s', scope_defs mem_resizev s kvs = Some s' /\
             scope_def mem_resizev s' k v = Some (true, s2).
Proof.
  induction kvs as [|[k0 v0] kvs IH]; intros s k v s2; simpl.
  - destruct (scope_def mem_resizev s k v) as [[[] s']|] eqn:E; try discriminate.
    intros [= <-]. exists s. split; [reflexivity|exact E].
  - destruct (scope_def mem_resizev s k0 v0) as [[[] s']|]; try discriminate.
    apply IH.
Qed.

(** What a successful [scope_def] wrote. *)
Lemma scope_def_slots s k v s1 :
  wf s -> scope_def mem_resizev s k v = Some (true, s1) ->
  slot_get (ptr s1) (len s) = Some v /\
  slot_get (ptr s1) (len s + 1) = Some k.
Proof using Hres.
  intros Hwf. pose proof Hwf as (Hc & Hb & Hl & Hp). unfold scope_def.
  destruct (u32 (cap s - len s) <? 2) eqn:Eg.
  - destruct (scope_grow mem_resizev s) as [ok g] eqn:Eg'.
    pose proof (scope_grow_spec mem_resizev Hres _ _ _ Hwf Eg') as Hg.
    destruct ok; simpl; [|discriminate].
    destruct Hg as (Hc1 & Hp1 & Hl1 & Hb1 & Hcap & Hag).
    destruct (slot_set (ptr g) (len g) v) as [p1|] eqn:Es1; [|discriminate].
    destruct (slot_set p1 (u32 (len g + 1)) k) as [p2|] eqn:Es2; [|discriminate].
    intros [= <-]. simpl.
    destruct (slot_set_Some _ _ _ _ Es1) as (Hr1 & Hlen1 & Hget1 & Hoth1).
    destruct (slot_set_Some _ _ _ _ Es2) as (Hr2 & Hlen2 & Hget2 & Hoth2).
    rewrite Hl1 in *.
    rewrite (u32_id (len s + 1)) in * by (unfold is_u32 in *; lia).
    split; [|exact Hget2]. rewrite Hoth2 by lia. exact Hget1.
  - simpl.
    destruct (slot_set (ptr s) (len s) v) as [p1|] eqn:Es1; [|discriminate].
    destruct (slot_set p1 (u32 (len s + 1)) k) as [p2|] eqn:Es2; [|discriminate].
    intros [= <-]. simpl.
    destruct (slot_set_Some _ _ _ _ Es1) as (Hr1 & Hlen1 & Hget1 & Hoth1).
    destruct (slot_set_Some _ _ _ _ Es2) as (Hr2 & Hlen2 & Hget2 & Hoth2).
    rewrite (u32_id (len s + 1)) in * by (unfold is_u32 in *; lia).
    split; [|exact Hget2]. rewrite Hoth2 by lia. exact Hget1.
Qed.

Lemma lookup_def_step s k v s1 key d :
  wf s -> base s <= len s ->
  scope_def mem_resizev s k v = Some (true, s1) ->
  scope_lookup s1 key d =
  if k =? key then Some v else scope_lookup s key d.
Proof using Hres.
  intros Hwf Hbl Hdef.
  destruct (scope_def_spec mem_resizev Hres _ _ _ _ Hwf Hdef)
    as (Hwf1 & Hl1 & Hb1 & Hag).
  destruct (scope_def_slots _ _ _ _ Hwf Hdef) as [Hv Hk].
  pose proof Hwf as (Hc & Hb & Hl & Hp).
  unfold scope_lookup. rewrite Hl1, Hb1.
  replace (Z.to_nat (len s + 2)) with (S (Z.to_nat (len s + 1))) by lia.
  cbn [lookup_loop].
  destruct (Z.gtb_spec (len s + 2) 1); [|lia].
  replace (len s + 2 - 1) with (len s + 1) by lia.
  destruct (Z.eqb_spec (len s + 1) (base s)); [lia|].
  rewrite Hk. replace (len s + 1 - 1) with (len s) by lia.
  destruct (k =? key); [exact Hv|].
  rewrite (lookup_loop_fuel _ (Z.to_nat (len s))) by lia.
  apply lookup_loop_agree. exact Hag.
Qed.

(** A binding is found as soon as it is made, whatever the depth of the
    search, and it changes the answer for no other key. *)
Theorem scope_def_then_lookup s k v s1 :
  wf s -> base s <= len s ->
  scope_def mem_resizev s k v = Some (true, s1) ->
  forall d,
    scope_lookup s1 k d = Some v /\
    forall k', k' <> k -> scope_lookup s1 k' d = scope_lookup s k' d.
Proof using Hres.
  intros Hwf Hbl Hdef d. split.
  - rewrite (lookup_def_step _ _ _ _ k d Hwf Hbl Hdef).
    rewrite Z.eqb_refl. reflexivity.
  - intros k' Hne. rewrite (lookup_def_step _ _ _ _ k' d Hwf Hbl Hdef).
    destruct (Z.eqb_spec k k'); [congruence|reflexivity].
Qed.

Lemma lookup_fresh_scope s s1 key d :
  wf s -> scope_push mem_resizev s = Some (true, s1) ->
  scope_lookup s1 key d =
  if d =? 0 then Some 0 else scope_lookup s key (d - 1).
Proof using Hres.
  intros Hwf Hpush.
  destruct (scope_push_spec mem_resizev Hres _ _ Hwf Hpush)
    as (Hwf1 & Hl1 & Hb1 & Hsave & Hag).
  pose proof Hwf as (Hc & Hb & Hl & Hp).
  unfold scope_lookup. rewrite Hl1, Hb1.
  replace (Z.to_nat (len s + 1)) with (S (Z.to_nat (len s))) by lia.
  cbn [lookup_loop].
  destruct (Z.gtb_spec (len s + 1) 1).
  - replace (len s + 1 - 1) with (len s) by lia.
    rewrite Z.eqb_refl. destruct (d =? 0); [reflexivity|].
    rewrite Hsave, (u32_id _ Hb).
    apply lookup_loop_agree. exact Hag.
  - assert (len s = 0) as -> by lia. simpl.
    destruct (d =? 0); reflexivity.
Qed.

(** Lookup across a scope boundary: in a scope opened by [scope_push] and
    filled by [scope_def]s, a key bound there answers with its last binding;
    any other key is not found at depth 0 and is otherwise looked up in the
    enclosing scopes with one level less. *)
Theorem scope_lookup_through_push s s1 kvs s2 key d :
  wf s ->
  scope_push mem_resizev s = Some (true, s1) ->
  scope_defs mem_resizev s1 kvs = Some s2 ->
  scope_lookup s2 key d =
  match latest key kvs with
  | Some v => Some v
  | None => if d =? 0 then Some 0 else scope_lookup s key (d - 1)
  end.
Proof using Hres.
  intros Hwf Hpush.
  destruct (scope_push_spec mem_resizev Hres _ _ Hwf Hpush)
    as (Hwf1 & Hl1 & Hb1 & _ & _).
  revert s2. induction kvs as [|[k v] kvs IH] using rev_ind; intros s2 Hdefs.
  - simpl in Hdefs. injection Hdefs as <-. simpl.
    apply lookup_fresh_scope; assumption.
  - apply scope_defs_snoc in Hdefs as (s' & Hd1 & Hd2).
    destruct (scope_defs_spec mem_resizev Hres _ _ _ Hwf1 Hd1)
      as (Hwf' & Hl' & Hb' & _).
    rewrite (lookup_def_step s' k v s2 key d Hwf' ltac:(lia) Hd2).
    rewrite latest_snoc. destruct (k =? key); [reflexivity|].
    apply IH. exact Hd1.
Qed.

(** [scope_push] and [scope_def] stay inside the array, keep the scope
    well formed, and leave it as it was when the allocator fails. *)
Theorem scope_push_def_in_bounds s :
  wf s -> cap s <> 1 -> cap s < 2^31 ->
  (exists ok s1, scope_push mem_resizev s = Some (ok, s1) /\ wf s1 /\
     (ok = false -> s1 = s)) /\
  (forall k v, exists ok s1, scope_def mem_resizev s k v = Some (ok, s1) /\
     wf s1 /\ (ok = false -> s1 = s)).
Proof using Hres.
  intros Hwf Hc1 Hc2. pose proof Hwf as (Hc & Hb & Hl & Hp).
  assert (Hgrow : forall ok g, scope_grow mem_resizev s = (ok, g) ->
            if ok then wf g /\ len g = len s /\ len s + 2 <= cap g else g = s).
  { intros ok g Eg.
    pose proof (scope_grow_spec mem_resizev Hres _ _ _ Hwf Eg) as Hg.
    destruct ok; [|exact Hg].
    destruct Hg as (Hcg & Hpg & Hlg & Hbg & Hcap & _).
    assert (Hnew : cap g = if cap s =? 0 then 4 else 2 * cap s).
    { unfold scope_grow in Eg.
      destruct (mem_resizev (ptr s) (cap s) _); [|discriminate].
      injection Eg as <-. simpl.
      destruct (Z.eqb_spec (cap s) 0) as [E0|E0].
      - rewrite E0. reflexivity.
      - unfold u32. rewrite Z.mod_small by (unfold is_u32 in *; lia). lia. }
    assert (len s + 2 <= cap g /\ cap s <= cap g).
    { rewrite Hnew. destruct (Z.eqb_spec (cap s) 0); unfold is_u32 in *; lia. }
    unfold wf. rewrite Hlg, Hbg. split_and!; try assumption; try lia. }
  split.
  - unfold scope_push. destruct (len s >=? cap s) eqn:Eg.
    + destruct (scope_grow mem_resizev s) as [ok g] eqn:Eg'.
      specialize (Hgrow _ _ eq_refl). destruct ok; simpl.
      * destruct Hgrow as ((Hcg & Hbg & Hlg & Hpg) & Hlen & Hroom).
        destruct (slot_set_inside (ptr g) (len g) (base g)) as [p' Hs]; [lia|].
        rewrite Hs. do 2 eexists. split; [reflexivity|].
        split; [|discriminate].
        destruct (slot_set_Some _ _ _ _ Hs) as (_ & Hlen' & _ & _).
        unfold wf; simpl. rewrite u32_id by (unfold is_u32 in *; lia).
        unfold is_u32 in *. split_and!; try lia.
      * subst g. do 2 eexists. split; [reflexivity|]. split; [exact Hwf|reflexivity].
    + simpl. rewrite Z.geb_leb in Eg. apply Z.leb_gt in Eg.
      destruct (slot_set_inside (ptr s) (len s) (base s)) as [p' Hs]; [lia|].
      rewrite Hs. do 2 eexists. split; [reflexivity|]. split; [|discriminate].
      destruct (slot_set_Some _ _ _ _ Hs) as (_ & Hlen' & _ & _).
      unfold wf; simpl. rewrite u32_id by (unfold is_u32 in *; lia).
      unfold is_u32 in *. split_and!; try lia.
  - intros k v. unfold scope_def.
    assert (Hdo : forall g, wf g -> len g + 2 <= cap g ->
              exists ok s1,
                match slot_set (ptr g) (len g) v with
                | Some p1 =>
                  match slot_set p1 (u32 (len g + 1)) k with
                  | Some p2 =>
                    Some (true, mk_scope p2 (cap g) (u32 (len g + 2)) (base g))
                  | None => None
                  end
                | None => None
                end = Some (ok, s1) /\ wf s1 /\ (ok = false -> s1 = s)).
    { intros g (Hcg & Hbg & Hlg & Hpg) Hroom.
      destruct (slot_set_inside (ptr g) (len g) v) as [p1 Hs1]; [lia|].
      rewrite Hs1.
      destruct (slot_set_Some _ _ _ _ Hs1) as (_ & Hlen1 & _ & _).
      rewrite (u32_id (len g + 1)) by (unfold is_u32 in *; lia).
      destruct (slot_set_inside p1 (len g + 1) k) as [p2 Hs2]; [lia|].
      rewrite Hs2.
      destruct (slot_set_Some _ _ _ _ Hs2) as (_ & Hlen2 & _ & _).
      do 2 eexists. split; [reflexivity|]. split; [|discriminate].
      unfold wf; simpl. rewrite u32_id by (unfold is_u32 in *; lia).
      unfold is_u32 in *. split_and!; try lia. }
    destruct (u32 (cap s - len s) <? 2) eqn:Eg.
    + destruct (scope_grow mem_resizev s) as [ok g] eqn:Eg'.
      specialize (Hgrow _ _ eq_refl). destruct ok; simpl.
      * destruct Hgrow as (Hwfg & Hlen & Hroom). apply Hdo; [exact Hwfg|lia].
      * subst g. do 2 eexists. split; [reflexivity|]. split; [exact Hwf|reflexivity].
    + simpl. apply Z.ltb_ge in Eg.
      rewrite u32_id in Eg by (unfold is_u32 in *; lia).
      apply Hdo; [exact Hwf|lia].
Qed.

End Laws.

(** [scope_lookup] reads inside the array and always answers, whatever the
    slots hold; [scope_pop] of a scope that [scope_push] opened reads inside
    the array and keeps the scope well formed. *)
Theorem scope_lookup_pop_in_bounds s :
  wf s ->
  (forall key d, exists r, scope_lookup s key d = Some r) /\
  (base s < len s -> exists s1, scope_pop s = Some s1 /\ wf s1 /\
     len s1 = base s /\ cap s1 = cap s).
Proof.
  intros (Hc & Hb & Hl & Hp). split.
  - intros key d. apply lookup_loop_inside. lia.
  - intros Hbl. unfold scope_pop.
    destruct (slot_get_inside (ptr s) (base s)) as [b Hg];
      [unfold is_u32 in *; lia|].
    rewrite Hg. eexists. split; [reflexivity|].
    unfold wf; simpl. split_and!; try reflexivity; try assumption;
      unfold is_u32 in *; try lia.
    unfold u32. apply Z.mod_pos_bound. lia.
Qed.

Lemma scope_def_then_lookup_witness :
  exists s1, scope_def resize_zero Props.scope_example 11 21 = Some (true, s1) /\
    scope_lookup s1 11 0 = Some 21 /\
    scope_lookup s1 7 0 = scope_lookup Props.scope_example 7 0.
Proof.
  eexists. split; [vm_compute; reflexivity|].
  refine ((fun H => conj (proj1 H) (proj2 H 7 _))
            (scope_def_then_lookup resize_zero resize_zero_ok
               Props.scope_example 11 21 _ _ _ _ 0)).
  - lia.
  - unfold wf, is_u32; simpl; lia.
  - simpl; lia.
  - vm_compute; reflexivity.
Defined.

Lemma scope_lookup_through_push_witness :
  exists s1 s2,
    scope_push resize_zero Props.scope_example = Some (true, s1) /\
    scope_defs resize_zero s1 [(11, 21); (12, 22); (11, 23)] = Some s2 /\
    scope_lookup s2 11 0 = Some 23 /\
    scope_lookup s2 8 0 = Some 0 /\
    scope_lookup s2 8 1 = Some 7.
Proof.
  do 2 eexists. split; [vm_compute; reflexivity|].
  split; [vm_compute; reflexivity|].
  assert (Hwf : wf Props.scope_example) by (unfold wf, is_u32; simpl; lia).
  split_and!.
  - exact (scope_lookup_through_push resize_zero resize_zero_ok
             Props.scope_example _ [(11, 21); (12, 22); (11, 23)] _ 11 0
             Hwf eq_refl eq_refl).
  - exact (scope_lookup_through_push resize_zero resize_zero_ok
             Props.scope_example _ [(11, 21); (12, 22); (11, 23)] _ 8 0
             Hwf eq_refl eq_refl).
  - exact (scope_lookup_through_push resize_zero resize_zero_ok
             Props.scope_example _ [(11, 21); (12, 22); (11, 23)] _ 8 1
             Hwf eq_refl eq_refl).
Defined.

Lemma scope_push_def_in_bounds_witness :
  exists ok s1, scope_push resize_zero Props.scope_example = Some (ok, s1) /\
                wf s1 /\ (ok = false -> s1 = Props.scope_example).
Proof.
  refine (proj1 (scope_push_def_in_bounds resize_zero resize_zero_ok
                   Props.scope_example _ _ _)).
  - unfold wf, is_u32; simpl; lia.
  - simpl; lia.
  - simpl; lia.
Defined.

Lemma scope_lookup_pop_in_bounds_witness :
  exists r, scope_lookup Props.scope_example 8 0 = Some r.
Proof.
  refine (proj1 (scope_lookup_pop_in_bounds Props.scope_example _) 8 0).
  unfold wf, is_u32; simpl; lia.
Defined.

End ScopeLaws.

(** ** [src/string.c] *)

Module StrProofs.
Import Str.

(** *** [slastindexofn] *)

Lemma slastindexofn_loop_spec s c : forall len : nat,
  (len <= length s)%nat ->
  exists r, slastindexofn_loop s len c = Some r /\
    ((r = -1 /\ forall i : nat, (i < len)%nat -> s !! i <> Some c) \/
     (0 <= r < Z.of_nat len /\ s !! Z.to_nat r = Some c /\
      forall i : nat, r < Z.of_nat i -> (i < len)%nat -> s !! i <> Some c)).
Proof.
  induction len as [|len IH]; intros Hlen; simpl.
  - eexists. split; [reflexivity|]. left. split; [reflexivity|]. lia.
  - destruct (lookup_lt_is_Some_2 s len) as [b Hb]; [lia|]. rewrite Hb.
    destruct (Z.eqb_spec b c) as [->|Hne].
    + eexists. split; [reflexivity|]. right.
      split; [lia|]. split; [rewrite Nat2Z.id; exact Hb|]. lia.
    + destruct IH as (r & Hr & Hcase); [lia|].
      exists r. split; [exact Hr|].
      assert (Hlast : s !! len <> Some c) by congruence.
      destruct Hcase as [[-> Hnone]|(Hrange & Hat & Hafter)].
      * left. split; [reflexivity|]. intros i Hi.
        destruct (decide (i = len)) as [->|]; [exact Hlast|]. apply Hnone. lia.
      * right. split; [lia|]. split; [exact Hat|]. intros i Hri Hi.
        destruct (decide (i = len)) as [->|]; [exact Hlast|].
        apply Hafter; lia.
Qed.

(** [slastindexofn] answers [-1] exactly when the byte is not among the
    first [len] ones, and otherwise the index of its last occurrence among
    them; it reads no byte beyond these. *)
Theorem slastindexofn_last s len c :
  0 <= len <= Z.of_nat (length s) -> len <= ISIZE_MAX ->
  exists r, slastindexofn s len c = Some r /\
    ((r = -1 /\ forall i, 0 <= i < len -> s !! Z.to_nat i <> Some c) \/
     (0 <= r < len /\ s !! Z.to_nat r = Some c /\
      forall i, r < i < len -> s !! Z.to_nat i <> Some c)).
Proof.
  intros Hlen Hmax. unfold slastindexofn.
  destruct (Z.gtb_spec len ISIZE_MAX); [lia|].
  destruct (slastindexofn_loop_spec s c (Z.to_nat len)) as (r & Hr & Hcase);
    [lia|].
  exists r. split; [exact Hr|].
  destruct Hcase as [[-> Hnone]|(Hrange & Hat & Hafter)].
  - left. split; [reflexivity|]. intros i Hi. apply Hnone. lia.
  - right. split; [lia|]. split; [exact Hat|]. intros i Hi.
    apply Hafter; lia.
Qed.

Lemma slastindexofn_last_witness :
  slastindexofn (bytes_of_string "a/b/c") 5 (Scanner.ch "/") = Some 3 /\
  slastindexofn (bytes_of_string "a/b/c") 3 (Scanner.ch "/") = Some 1 /\
  exists r, slastindexofn (bytes_of_string "a/b/c") 5 (Scanner.ch "x") = Some r.
Proof.
  split; [reflexivity|]. split; [reflexivity|].
  destruct (slastindexofn_last (bytes_of_string "a/b/c") 5 (Scanner.ch "x"))
    as (r & Hr & _).
  - simpl. lia.
  - unfold ISIZE_MAX. lia.
  - exists r. exact Hr.
Defined.

(** *** [strim_end] and [strim_begin] *)

Lemma strim_end_loop_spec s c : forall len : nat,
  (len <= length s)%nat ->
  exists r : nat, strim_end_loop s len c = Some (Z.of_nat r) /\
    (r <= len)%nat /\
    (forall i : nat, (r <= i)%nat -> (i < len)%nat -> s !! i = Some c) /\
    (r = O \/ exists b, s !! (r - 1)%nat = Some b /\ b <> c) /\
    strim_end_loop s r c = Some (Z.of_nat r).
Proof.
  induction len as [|len IH]; intros Hlen.
  - exists O. simpl. split; [reflexivity|]. split; [lia|].
    split; [lia|]. split; [left; reflexivity|reflexivity].
  - cbn [strim_end_loop].
    destruct (lookup_lt_is_Some_2 s len) as [b Hb]; [lia|]. rewrite Hb.
    destruct (Z.eqb_spec b c) as [->|Hne].
    + destruct IH as (r & Hr & Hle & Hall & Hstop & Hidem); [lia|].
      exists r. split; [exact Hr|]. split; [lia|].
      split; [|split; assumption].
      intros i Hi1 Hi2. destruct (decide (i = len)) as [->|]; [exact Hb|].
      apply Hall; lia.
    + exists (S len). split; [reflexivity|]. split; [lia|].
      split; [lia|]. split.
      * right. exists b. replace (S len - 1)%nat with len by lia.
        split; [exact Hb|exact Hne].
      * cbn [strim_end_loop]. rewrite Hb.
        destruct (Z.eqb_spec b c); [contradiction|reflexivity].
Qed.

(** [strim_end] gives a length [r] that is not larger, every byte from [r]
    up to the old length is the trimmed one, and the byte before [r], if
    there is one, is not; trimming again changes nothing. *)
Theorem strim_end_trims s len c :
  0 <= len <= Z.of_nat (length s) ->
  exists r, strim_end s len c = Some r /\ 0 <= r <= len /\
    (forall i, r <= i < len -> s !! Z.to_nat i = Some c) /\
    (r = 0 \/ exists b, s !! Z.to_nat (r - 1) = Some b /\ b <> c) /\
    strim_end s r c = Some r.
Proof.
  intros Hlen. unfold strim_end.
  destruct (strim_end_loop_spec s c (Z.to_nat len))
    as (r & Hr & Hle & Hall & Hstop & Hidem); [lia|].
  exists (Z.of_nat r). split; [exact Hr|]. split; [lia|]. split; [|split].
  - intros i Hi. apply Hall; lia.
  - destruct Hstop as [->|(b & Hb & Hne)]; [left; reflexivity|].
    right. exists b. split; [|exact Hne].
    replace (Z.to_nat (Z.of_nat r - 1)) with (r - 1)%nat by lia. exact Hb.
  - rewrite Nat2Z.id. exact Hidem.
Qed.

Lemma strim_end_trims_witness :
  strim_end (bytes_of_string "a/b//") 5 (Scanner.ch "/") = Some 3 /\
  exists r, strim_end (bytes_of_string "///") 3 (Scanner.ch "/") = Some r /\
            0 <= r <= 3.
Proof.
  split; [reflexivity|].
  destruct (strim_end_trims (bytes_of_string "///") 3 (Scanner.ch "/"))
    as (r & Hr & Hle & _).
  - simpl. lia.
  - exists r. split; [exact Hr|exact Hle].
Defined.

Lemma strim_begin_loop_spec s len c : forall (fuel : nat) (i : Z),
  0 <= i <= len -> len < Z.of_nat (length s) ->
  Z.of_nat fuel = len - i ->
  (forall j, 0 <= j < i -> s !! Z.to_nat j = Some c) ->
  exists r, strim_begin_loop fuel s len c i = Some r /\ i <= r <= len /\
    (forall j, 0 <= j < r -> s !! Z.to_nat j = Some c) /\
    (r = len \/ exists b, s !! Z.to_nat r = Some b /\ b <> c).
Proof.
  induction fuel as [|fuel IH]; intros i Hi Hlen Hfuel Hall.
  - assert (i = len) as -> by lia. cbn [strim_begin_loop].
    destruct (lookup_lt_is_Some_2 s (Z.to_nat len)) as [b Hb]; [lia|].
    rewrite Hb. rewrite Z.ltb_irrefl, andb_false_r.
    exists len. split; [reflexivity|]. split; [lia|].
    split; [exact Hall|left; reflexivity].
  - cbn [strim_begin_loop].
    destruct (lookup_lt_is_Some_2 s (Z.to_nat i)) as [b Hb]; [lia|].
    rewrite Hb. destruct (Z.eqb_spec b c) as [->|Hne].
    + destruct (Z.ltb_spec i len); [|lia]. cbn [andb].
      destruct (IH (i + 1)) as (r & Hr & Hle & Hall' & Hstop); try lia.
      { intros j Hj. destruct (decide (j = i)) as [->|]; [exact Hb|].
        apply Hall. lia. }
      exists r. split; [exact Hr|]. split; [lia|]. split; assumption.
    + cbn [andb]. exists i. split; [reflexivity|]. split; [lia|].
      split; [exact Hall|]. right. exists b. split; [exact Hb|exact Hne].
Qed.

Lemma strim_begin_loop_past s len c : forall (fuel : nat) (i : Z),
  0 <= i <= len -> len = Z.of_nat (length s) ->
  Z.of_nat fuel = len - i ->
  (forall j, i <= j < len -> s !! Z.to_nat j = Some c) ->
  strim_begin_loop fuel s len c i = None.
Proof.
  induction fuel as [|fuel IH]; intros i Hi Hlen Hfuel Hall.
  - assert (i = len) as -> by lia. cbn [strim_begin_loop].
    rewrite lookup_ge_None_2 by lia. reflexivity.
  - cbn [strim_begin_loop]. rewrite (Hall i) by lia.
    rewrite Z.eqb_refl. destruct (Z.ltb_spec i len); [|lia]. cbn [andb].
    apply IH; try lia. intros j Hj. apply Hall. lia.
Qed.

(** [strim_begin], given a string with at least one byte after the first
    [len] (such as the NUL that ends it), gives an offset [r] up to [len]
    before which every byte is the trimmed one and at which, unless it is
    [len], the byte is another.  Given exactly [len] bytes that are all the
    trimmed one, it reads the byte after them. *)
Theorem strim_begin_trims s len c :
  0 <= len ->
  (len < Z.of_nat (length s) ->
   exists r, strim_begin s len c = Some r /\ 0 <= r <= len /\
     (forall j, 0 <= j < r -> s !! Z.to_nat j = Some c) /\
     (r = len \/ exists b, s !! Z.to_nat r = Some b /\ b <> c)) /\
  (len = Z.of_nat (length s) ->
   (forall j, 0 <= j < len -> s !! Z.to_nat j = Some c) ->
   strim_begin s len c = None).
Proof.
  intros H0. unfold strim_begin. split.
  - intros Hlen. apply strim_begin_loop_spec; try lia.
  - intros Hlen Hall. apply strim_begin_loop_past; try lia. exact Hall.
Qed.

Lemma strim_begin_trims_witness :
  strim_begin (bytes_of_string "//a/" ++ [0]) 4 (Scanner.ch "/") = Some 2 /\
  strim_begin (bytes_of_string "//") 2 (Scanner.ch "/") = None.
Proof.
  split; [reflexivity|].
  refine (proj2 (strim_begin_trims (bytes_of_string "//") 2 (Scanner.ch "/") _)
            _ _).
  - lia.
  - reflexivity.
  - intros j Hj. assert (j = 0 \/ j = 1) as [->| ->] by lia; reflexivity.
Defined.

(** *** [strrevn] *)

Lemma byte_get_middle l1 l2 x i :
  i = Z.of_nat (length l1) -> byte_get (l1 ++ x :: l2) i = Some x.
Proof.
  intros ->. unfold byte_get. rewrite length_app. cbn [length].
  destruct (Z.ltb_spec (Z.of_nat (length l1))
              (Z.of_nat (length l1 + S (length l2)))); [|lia].
  rewrite Nat2Z.id. apply list_lookup_middle. reflexivity.
Qed.

Lemma insert_middle (l1 l2 : list Z) x y n :
  n = length l1 -> <[n := y]> (l1 ++ x :: l2) = l1 ++ y :: l2.
Proof.
  intros ->. rewrite insert_app_r_alt by lia.
  rewrite Nat.sub_diag. reflexivity.
Qed.

Lemma strrevn_loop_rev fuel : forall a m b,
  (length m <= fuel)%nat ->
  strrevn_loop fuel (a ++ m ++ b) (Z.of_nat (length a))
    (Z.of_nat (length a) + Z.of_nat (length m) - 1) =
  Some (a ++ rev m ++ b).
Proof.
  induction fuel as [|fuel IH]; intros a m b Hm.
  - destruct m; [|simpl in Hm; lia]. cbn [strrevn_loop length].
    match goal with |- context [?u <? ?w] => destruct (Z.ltb_spec u w) end;
      [lia|reflexivity].
  - destruct m as [|x m].
    { cbn [strrevn_loop length].
      match goal with |- context [?u <? ?w] => destruct (Z.ltb_spec u w) end;
      [lia|reflexivity]. }
    destruct m as [|y m _] using rev_ind.
    { cbn [strrevn_loop length].
      match goal with |- context [?u <? ?w] => destruct (Z.ltb_spec u w) end;
      [lia|reflexivity]. }
    cbn [length] in Hm. rewrite length_app in Hm. cbn [length] in Hm.
    cbn [strrevn_loop].
    set (i := Z.of_nat (length a)).
    set (j := i + Z.of_nat (length (x :: m ++ [y])) - 1).
    assert (Hj : j = Z.of_nat (length (a ++ x :: m))).
    { subst j i. cbn [length]. rewrite !length_app. cbn [length]. lia. }
    destruct (Z.ltb_spec i j) as [_|Hge].
    2:{ rewrite Hj, length_app in Hge. subst i. cbn [length] in Hge. lia. }
    change ((x :: m ++ [y]) ++ b) with (x :: (m ++ [y]) ++ b).
    rewrite (byte_get_middle a ((m ++ [y]) ++ b) x i) by reflexivity.
    replace (a ++ x :: (m ++ [y]) ++ b) with ((a ++ x :: m) ++ y :: b)
      by (simpl; rewrite <- !app_assoc; reflexivity).
    rewrite (byte_get_middle (a ++ x :: m) b y j) by exact Hj.
    replace ((a ++ x :: m) ++ y :: b) with (a ++ x :: (m ++ y :: b))
      by (rewrite <- app_assoc; reflexivity).
    rewrite (insert_middle a (m ++ y :: b) x y) by (subst i; lia).
    replace (a ++ y :: m ++ y :: b) with ((a ++ y :: m) ++ y :: b)
      by (rewrite <- app_assoc; reflexivity).
    rewrite (insert_middle (a ++ y :: m) b y x)
      by (rewrite Hj, !length_app; cbn [length]; lia).
    replace ((a ++ y :: m) ++ x :: b) with ((a ++ [y]) ++ m ++ (x :: b))
      by (rewrite <- !app_assoc; reflexivity).
    replace (i + 1) with (Z.of_nat (length (a ++ [y])))
      by (subst i; rewrite length_app; cbn [length]; lia).
    replace (j - 1) with
      (Z.of_nat (length (a ++ [y])) + Z.of_nat (length m) - 1)
      by (rewrite Hj, !length_app; cbn [length]; lia).
    rewrite IH by lia.
    f_equal. cbn [rev]. rewrite rev_app_distr. cbn [rev app].
    rewrite <- !app_assoc. reflexivity.
Qed.

(** [strrevn] reverses the first [len] bytes in place and leaves the others
    as they are, for a [len] that is not 0. *)
Theorem strrevn_reverses s len :
  0 < len <= Z.of_nat (length s) -> len < 2^64 ->
  strrevn s len =
  Some (rev (take (Z.to_nat len) s) ++ drop (Z.to_nat len) s).
Proof.
  intros Hlen Hmax. unfold strrevn, usize.
  rewrite Z.mod_small by lia.
  pose proof (strrevn_loop_rev (length s) [] (take (Z.to_nat len) s)
                (drop (Z.to_nat len) s)) as H.
  rewrite length_take in H. cbn [app length] in H.
  rewrite take_drop in H.
  replace (Z.of_nat 0 + Z.of_nat (Z.to_nat len `min` length s) - 1)
    with (len - 1) in H by lia.
  apply H. lia.
Qed.

Lemma strrevn_reverses_witness :
  strrevn (bytes_of_string "abcde") 4 = Some (bytes_of_string "dcbae").
Proof.
  refine (strrevn_reverses (bytes_of_string "abcde") 4 _ _).
  - simpl. lia.
  - lia.
Defined.

(** *** [sfmtu64] *)

Lemma chars_digit d :
  0 <= d < 62 -> digit_of_char (nth (Z.to_nat d) sfmt_chars 0) = Some d.
Proof.
  intros Hd.
  assert (H : forallb (fun n =>
                match digit_of_char (nth n sfmt_chars 0) with
                | Some x => x =? Z.of_nat n
                | None => false
                end) (seq 0 62) = true) by (vm_compute; reflexivity).
  rewrite forallb_forall in H.
  specialize (H (Z.to_nat d)). rewrite in_seq in H.
  specialize (H ltac:(lia)).
  destruct (digit_of_char (nth (Z.to_nat d) sfmt_chars 0)) as [x|];
    [|discriminate].
  apply Z.eqb_eq in H. f_equal. lia.
Qed.

Lemma chars_not_zero d :
  0 < d < 62 -> nth (Z.to_nat d) sfmt_chars 0 <> Scanner.ch "0".
Proof.
  intros Hd.
  assert (H : forallb (fun n =>
                negb (nth n sfmt_chars 0 =? Scanner.ch "0")) (seq 1 61) = true)
    by (vm_compute; reflexivity).
  rewrite forallb_forall in H.
  specialize (H (Z.to_nat d)). rewrite in_seq in H.
  specialize (H ltac:(lia)).
  apply negb_true_iff, Z.eqb_neq in H. exact H.
Qed.

Lemma number_of_digits_app b l1 : forall acc l2,
  number_of_digits b acc (l1 ++ l2) =
  match number_of_digits b acc l1 with
  | Some a => number_of_digits b a l2
  | None => None
  end.
Proof.
  induction l1 as [|c l1 IH]; intros acc l2; simpl; [reflexivity|].
  destruct (digit_of_char c) as [d|]; [|reflexivity].
  destruct (d <? b); [apply IH|reflexivity].
Qed.

Lemma hd_rev_last (l : list Z) d : hd d (rev l) = List.last l d.
Proof.
  destruct l as [|x l _] using rev_ind; [reflexivity|].
  rewrite rev_app_distr, last_last. reflexivity.
Qed.

Section Digits.
Variable b : Z.
Hypothesis Hb : 2 <= b <= 62.

Lemma div_lt_pow2 v (f : nat) : 0 <= v < 2 ^ Z.of_nat (S f) -> 0 <= v / b < 2 ^ Z.of_nat f.
Proof using Hb.
  intros Hv. rewrite Nat2Z.inj_succ, Z.pow_succ_r in Hv by lia.
  split; [apply Z.div_pos; lia|].
  apply Z.div_lt_upper_bound; [lia|]. nia.
Qed.

Lemma sfmtu64_loop_value fuel : forall v acc,
  0 <= v < 2 ^ Z.of_nat fuel ->
  number_of_digits b acc (rev (sfmtu64_loop fuel v b)) =
  Some (acc * b ^ Z.of_nat (length (sfmtu64_loop fuel v b)) + v).
Proof using Hb.
  induction fuel as [|fuel IH]; intros v acc Hv.
  - simpl in *. f_equal. lia.
  - cbn [sfmtu64_loop]. cbv zeta.
    pose proof (Z.mod_pos_bound v b ltac:(lia)) as Hm.
    pose proof (Z.div_mod v b ltac:(lia)) as Hdm.
    pose proof (div_lt_pow2 v fuel Hv) as Hv'.
    destruct (Z.eqb_spec (v / b) 0) as [E0|E0].
    + cbn [rev app number_of_digits length].
      rewrite chars_digit by lia.
      destruct (Z.ltb_spec (v mod b) b); [|lia].
      f_equal. rewrite Z.pow_1_r. lia.
    + cbn [rev length]. rewrite number_of_digits_app, IH by exact Hv'.
      cbn [number_of_digits]. rewrite chars_digit by lia.
      destruct (Z.ltb_spec (v mod b) b); [|lia].
      f_equal. rewrite Nat2Z.inj_succ, Z.pow_succ_r by lia. nia.
Qed.

Lemma sfmtu64_loop_length fuel v :
  (1 <= length (sfmtu64_loop (S fuel) v b) <= S fuel)%nat.
Proof.
  revert v. induction fuel as [|fuel IH]; intros v.
  - simpl. destruct (v / b =? 0); simpl; lia.
  - specialize (IH (v / b)). remember (S fuel) as f.
    cbn [sfmtu64_loop]. cbv zeta.
    destruct (v / b =? 0); cbn [length]; lia.
Qed.

Lemma sfmtu64_loop_last fuel : forall v,
  0 < v < 2 ^ Z.of_nat fuel ->
  exists d, 0 < d < b /\
    List.last (sfmtu64_loop fuel v b) 0 = nth (Z.to_nat d) sfmt_chars 0.
Proof using Hb.
  induction fuel as [|fuel IH]; intros v Hv.
  - simpl in Hv. lia.
  - cbn [sfmtu64_loop]. cbv zeta.
    pose proof (Z.mod_pos_bound v b ltac:(lia)) as Hm.
    pose proof (Z.div_mod v b ltac:(lia)) as Hdm.
    pose proof (div_lt_pow2 v fuel ltac:(lia)) as Hv'.
    destruct (Z.eqb_spec (v / b) 0) as [E0|E0].
    + exists (v mod b). split; [lia|reflexivity].
    + destruct (IH (v / b)) as (d & Hd & Hl); [lia|].
      exists d. split; [exact Hd|]. rewrite <- Hl.
      destruct fuel; [simpl in Hv'; lia|].
      pose proof (sfmtu64_loop_length fuel (v / b)) as Hlen.
      destruct (sfmtu64_loop (S fuel) (v / b) b); [simpl in Hlen; lia|].
      reflexivity.
Qed.

End Digits.

(** The characters that [sfmtu64] writes for a 64-bit [v] are the digits of
    [v] in the base (brought into 2..62), most significant first: read back
    as a number they give [v].  There are between 1 and 64 of them, and the
    first is not [0] unless [v] is 0. *)
Theorem sfmtu64_digits v base :
  0 <= v < 2^64 ->
  number_of_digits (Z.min (Z.max base 2) 62) 0 (sfmtu64 v base) = Some v /\
  (1 <= length (sfmtu64 v base) <= 64)%nat /\
  (v <> 0 -> hd 0 (sfmtu64 v base) <> Scanner.ch "0").
Proof.
  intros Hv. unfold sfmtu64. cbv zeta.
  set (b := Z.min (Z.max base 2) 62).
  assert (Hb : 2 <= b <= 62) by (subst b; lia).
  split; [|split].
  - rewrite (sfmtu64_loop_value b Hb 64 v 0) by exact Hv. f_equal.
  - rewrite length_rev. apply (sfmtu64_loop_length b 63 v).
  - intros Hne. rewrite hd_rev_last.
    destruct (sfmtu64_loop_last b Hb 64 v) as (d & Hd & ->); [lia|].
    apply chars_not_zero. lia.
Qed.

Lemma sfmtu64_digits_witness :
  sfmtu64 255 16 = bytes_of_string "FF" /\
  number_of_digits 16 0 (sfmtu64 255 16) = Some 255.
Proof.
  split; [reflexivity|].
  refine (proj1 (sfmtu64_digits 255 16 _)). lia.
Defined.

End StrProofs.

(** ** The scanner goes forward and reaches the end *)

Module ScanProgress.
Import Scanner Props ScannerProofs ScanSpec.

Ltac bools :=
  repeat match goal with
  | H : (_ && _) = true |- _ => apply andb_true_iff in H as [? ?]
  | H : (_ <? _) = true |- _ => apply Z.ltb_lt in H
  | H : (_ <? _) = false |- _ => apply Z.ltb_ge in H
  | H : (inp _ =? _) = true |- _ => apply Z.eqb_eq in H
  | H : (inp _ =? _) = false |- _ => apply Z.eqb_neq in H
  | H : (_ >=? _) = true |- _ => rewrite Z.geb_leb in H; apply Z.leb_le in H
  | H : (_ >=? _) = false |- _ => rewrite Z.geb_leb in H; apply Z.leb_gt in H
  end;
  repeat match goal with
  | H : _ = true |- _ => clear H
  | H : _ = false |- _ => clear H
  end.

Ltac norm := unfold inend in *; fsimpl.

Ltac ifs :=
  repeat match goal with
  | |- context [if ?c then _ else _] => destruct c eqn:?
  end.

Lemma reached_here s lo :
  lo <= inp s <= inend s -> reached (input s) (compiler s) lo s.
Proof.
  intros H. unfold reached, inend in *.
  split; [reflexivity|]. split; [exact H|]. left. reflexivity.
Qed.

Lemma reached_weaken i0 c0 lo lo' s' :
  reached i0 c0 lo s' -> lo' <= lo -> reached i0 c0 lo' s'.
Proof.
  intros (H1 & H2 & H3) Hle. split; [exact H1|]. split; [lia|exact H3].
Qed.

Lemma reached_error c0 lo s m :
  lo <= inend s -> reached (input s) c0 lo (error s m).
Proof.
  intros H. unfold error, stop_scanning, reached. norm.
  split; [reflexivity|]. split; [lia|]. right. split; reflexivity.
Qed.

(** A step that changes neither input nor compiler passes [reached] on. *)
Lemma reached_via s s1 c0 lo s' :
  input s1 = input s -> (compiler s1 = compiler s \/ True) ->
  reached (input s1) c0 lo s' -> reached (input s) c0 lo s'.
Proof. intros -> _ H. exact H. Qed.

Lemma reached_floatnumber_loop fuel : forall s base a lo,
  lo <= inp s <= inend s ->
  reached (input s) (compiler s) lo (floatnumber_loop fuel s base a).
Proof.
  induction fuel as [|fuel IH]; intros s base a lo H; cbn [floatnumber_loop].
  - apply reached_here. exact H.
  - cbv zeta. ifs; try (apply reached_here; exact H);
      bools; norm;
      match goal with
      | |- reached _ _ _ (floatnumber_loop _ ?s1 _ _) =>
        apply (IH s1); norm; lia
      end.
Qed.

Lemma reached_floatnumber s base lo :
  lo <= inp s <= inend s ->
  reached (input s) (compiler s) lo (floatnumber s base).
Proof.
  intros H. unfold floatnumber. cbv zeta.
  destruct (base =? 16);
    match goal with
    | |- reached _ _ _ (floatnumber_loop _ ?s1 _ _) =>
      apply (reached_floatnumber_loop _ s1)
    end; norm; exact H.
Qed.

(** A float literal that starts with a digit or with its point is not
    empty. *)
Lemma digit_in_float x :
  isdigit x = true ->
  ((x =? ch "E") || (x =? ch "e")) = false /\
  ((x =? ch "P") || (x =? ch "p")) = false /\
  ((x =? ch "+") || (x =? ch "-")) = false /\
  (x =? ch "_") = false /\ (x =? ch ".") = false /\
  isalnum x = true.
Proof.
  intros Hx. unfold isalnum, isalpha, isupper, islower, isdigit in *.
  apply andb_true_iff in Hx as [Hx1 Hx2].
  apply Z.leb_le in Hx1. apply Z.leb_le in Hx2.
  unfold ch, byte_of_ascii. simpl.
  repeat split;
    repeat match goal with
    | |- context [?u =? ?w] => destruct (Z.eqb_spec u w); [lia|]
    | |- context [?u <=? ?w] => destruct (Z.leb_spec u w); try lia
    end; reflexivity.
Qed.

Lemma reached_floatnumber_loop_strict fuel s base a :
  inp s < inend s -> isdigit (cur s) = true \/ cur s = ch "." ->
  reached (input s) (compiler s) (inp s + 1)
    (floatnumber_loop (S fuel) s base a).
Proof.
  intros H Hc. cbn [floatnumber_loop]. cbv zeta.
  destruct (Z.eqb_spec (inp s) (inend s)); [lia|].
  destruct Hc as [Hc|Hc].
  - destruct (digit_in_float _ Hc) as (D1 & D2 & D3 & D4 & D5 & D6).
    rewrite D1, D2, D3, D4, D5, D6. cbn [negb].
    match goal with
    | |- reached _ _ _ (floatnumber_loop _ ?s2 _ _) =>
      apply (reached_floatnumber_loop _ s2)
    end. norm. lia.
  - rewrite Hc.
    change ((ch "." =? ch "E") || (ch "." =? ch "e")) with false.
    change ((ch "." =? ch "P") || (ch "." =? ch "p")) with false.
    change ((ch "." =? ch "+") || (ch "." =? ch "-")) with false.
    change (ch "." =? ch "_") with false.
    change (ch "." =? ch ".") with true. cbv iota.
    match goal with
    | |- reached _ _ _ (floatnumber_loop _ ?s2 _ _) =>
      apply (reached_floatnumber_loop _ s2)
    end. norm. lia.
Qed.

(** A float literal that starts with a digit or with its point is not
    empty. *)
Lemma reached_floatnumber_strict s base :
  inp s < inend s -> isdigit (cur s) = true \/ cur s = ch "." ->
  reached (input s) (compiler s) (inp s + 1) (floatnumber s base).
Proof.
  intros H Hc. unfold floatnumber. cbv zeta.
  destruct (base =? 16); cbn [length input set_litbuf set_tok];
    match goal with
    | |- reached _ _ _ (floatnumber_loop (S ?f) ?s1 _ _) =>
      apply (reached_floatnumber_loop_strict f s1); [exact H|exact Hc]
    end.
Qed.


Lemma reached_number_end s acc any c lo :
  lo <= inp s <= inend s ->
  reached (input s) (compiler s) lo (number_end s acc any c).
Proof.
  intros H. unfold number_end. cbv zeta.
  destruct (any <? 0); destruct (c =? ch "_").
  - refine (reached_error _ lo (error (set_litint acc s) _) _ _).
    unfold error, stop_scanning. norm. lia.
  - refine (reached_error _ lo (set_litint acc s) _ _). norm. lia.
  - refine (reached_error _ lo (set_litint acc s) _ _). norm. lia.
  - refine (reached_here (set_litint acc s) lo _). norm. exact H.
Qed.

Lemma reached_number_loop base start lo fuel :
  forall s cutoff cutlim acc any c,
  lo <= inp s <= inend s ->
  (forall s1, input s1 = input s -> compiler s1 = compiler s ->
     reached (input s) (compiler s) lo (floatnumber (set_inp start s1) base)) ->
  reached (input s) (compiler s) lo
    (number_loop fuel s base start cutoff cutlim acc any c).
Proof.
  induction fuel as [|fuel IH]; intros s cutoff cutlim acc any c H Hf;
    cbn [number_loop].
  - apply reached_here. exact H.
  - cbv zeta.
    destruct (Z.eqb_spec (inp s) (inend s)) as [E|E];
      [apply reached_number_end; exact H|].
    assert (Hnext : forall acc' any',
              reached (input s) (compiler s) lo
                (number_loop fuel (set_inp (inp s + 1) s) base start cutoff
                   cutlim acc' any' (cur (set_inp (inp s + 1) s)))).
    { intros acc' any'.
      refine (IH (set_inp (inp s + 1) s) _ _ _ _ _ _ _).
      - norm. lia.
      - intros s1 E1 E2. exact (Hf s1 E1 E2). }
    assert (Herr : forall m, reached (input s) (compiler s) lo (error s m)).
    { intros m. apply reached_error. lia. }
    ifs; try apply Hnext; try apply Herr; try (apply reached_number_end; exact H).
    apply Hf; reflexivity.
Qed.

Lemma reached_number s base lo :
  lo <= inp s <= inend s ->
  reached (input s) (compiler s) lo (number s base).
Proof.
  intros H. unfold number. cbv zeta.
  match goal with
  | |- reached _ _ _ (number_loop _ ?s1 _ ?st _ _ _ _ _) =>
    refine (reached_number_loop base st lo _ s1 _ _ _ _ _ _ _)
  end.
  - norm. exact H.
  - intros s1 E1 E2. norm.
    pose proof (reached_floatnumber (set_inp (inp s) s1) base lo) as R.
    norm. rewrite E1, E2 in R. norm. apply R. exact H.
Qed.

(** An integer literal that starts with a digit is not empty. *)
Lemma reached_number_strict s base :
  inp s < inend s -> isdigit (cur s) = true ->
  reached (input s) (compiler s) (inp s + 1) (number s base).
Proof.
  intros H Hd. unfold number. cbv zeta.
  cbn [length input set_litint set_insertsemi set_tok number_loop].
  cbv zeta. norm.
  destruct (Z.eqb_spec (inp s) (Z.of_nat (length (input s)))); [lia|].
  change (cur (set_litint 0 (set_insertsemi true (set_tok TINTLIT s))))
    with (cur s).
  rewrite Hd.
  assert (Hf : forall s1, input s1 = input s -> compiler s1 = compiler s ->
            reached (input s) (compiler s) (inp s + 1)
              (floatnumber (set_inp (inp s) s1) base)).
  { intros s1 E1 E2.
    pose proof (reached_floatnumber_strict (set_inp (inp s) s1) base) as R.
    unfold cur, byte_at in R, Hd. norm. rewrite E1, E2 in R.
    apply R; [exact H|left; exact Hd]. }
  ifs.
  - refine (reached_error _ _ (set_litint 0 (set_insertsemi true (set_tok TINTLIT s))) _ _).
    norm. lia.
  - match goal with
    | |- reached _ _ _ (number_loop _ ?s1 _ ?st _ _ _ _ _) =>
      refine (reached_number_loop base st _ _ s1 _ _ _ _ _ _ _)
    end; [norm; lia|exact Hf].
  - match goal with
    | |- reached _ _ _ (number_loop _ ?s1 _ ?st _ _ _ _ _) =>
      refine (reached_number_loop base st _ _ s1 _ _ _ _ _ _ _)
    end; [norm; lia|exact Hf].
Qed.

Lemma reached_zeronumber s lo :
  lo <= inp s <= inend s ->
  reached (input s) (compiler s) lo (zeronumber s).
Proof.
  intros H. unfold zeronumber. cbv zeta.
  destruct (Z.ltb_spec (inp s) (inend s)).
  - ifs; try (apply reached_number; exact H);
      match goal with
      | |- reached _ _ _ (number ?s1 _) =>
        refine (reached_number s1 _ lo _); norm; lia
      end.
  - apply reached_number. exact H.
Qed.


(** *** Identifiers *)

Lemma byte_at_nonzero s i : byte_at s i <> 0 -> 0 <= i < inend s.
Proof.
  unfold byte_at, inend. destruct (Z.leb_spec 0 i); [|congruence].
  intros Hn. split; [assumption|].
  destruct (Z.ltb_spec i (Z.of_nat (length (input s)))); [assumption|].
  rewrite nth_overflow in Hn by lia. congruence.
Qed.

Lemma utf8seq_pos s :
  inp s < inend s ->
  input (snd (utf8seq s)) = input s /\
  compiler (snd (utf8seq s)) = compiler s /\
  inp s < inp (snd (utf8seq s)) /\
  (fst (utf8seq s) = true -> inp (snd (utf8seq s)) <= inend s).
Proof.
  intros H. unfold utf8seq. cbv zeta.
  ifs; cbn [fst snd]; fsimpl;
    (split; [reflexivity|]); (split; [reflexivity|]); (split; [lia|]);
    intros Hok; try discriminate Hok;
    repeat match goal with
    | E : (cur ?x =? 0) = false |- _ =>
      apply Z.eqb_neq, byte_at_nonzero in E; unfold inend in E; fsimpl
    end;
    bools; unfold inend in *; lia.
Qed.

Lemma identifier_utf8_loop_pos fuel : forall s,
  inp s <= inend s ->
  (fst (identifier_utf8_loop fuel s) = true ->
   input (snd (identifier_utf8_loop fuel s)) = input s /\
   compiler (snd (identifier_utf8_loop fuel s)) = compiler s /\
   inp s <= inp (snd (identifier_utf8_loop fuel s)) <= inend s) /\
  (fst (identifier_utf8_loop fuel s) = false ->
   forall c0 lo, lo <= inend s ->
     reached (input s) c0 lo (snd (identifier_utf8_loop fuel s))).
Proof.
  induction fuel as [|fuel IH]; intros s H; cbn [identifier_utf8_loop].
  - cbn [fst snd]. split; [intros _; split_and!; try reflexivity; lia|discriminate].
  - destruct (Z.ltb_spec (inp s) (inend s)) as [Hlt|Hge];
      [|cbn [fst snd]; split; [intros _; split_and!; try reflexivity; lia|discriminate]].
    destruct (cur s >=? UTF8_SELF).
    + destruct (utf8seq_pos s Hlt) as (U1 & U2 & U3 & U4).
      destruct (utf8seq s) as [ok s1]. cbn [fst snd] in *.
      destruct ok; cbn [negb].
      * specialize (U4 eq_refl).
        destruct (IH s1) as [I1 I2]; [unfold inend in *; rewrite U1; lia|].
        unfold inend in *. rewrite U1, U2 in *. split.
        -- intros Hok. destruct (I1 Hok) as (J1 & J2 & J3).
           split_and!; try assumption; lia.
        -- intros Hok c0 lo Hlo. apply (I2 Hok). exact Hlo.
      * cbn [fst snd]. split; [discriminate|]. intros _ c0 lo Hlo.
        rewrite <- U1. apply reached_error. unfold inend in *. rewrite U1. exact Hlo.
    + destruct (isalnum (cur s) || (cur s =? ch "_")).
      * destruct (IH (set_inp (inp s + 1) s)) as [I1 I2]; [norm; lia|].
        norm. split.
        -- intros Hok. destruct (I1 Hok) as (J1 & J2 & J3).
           split_and!; try assumption; lia.
        -- intros Hok c0 lo Hlo. apply (I2 Hok). exact Hlo.
      * cbn [fst snd]. split; [intros _; split_and!; try reflexivity; lia|discriminate].
Qed.

Lemma reached_identifier_utf8 s lo :
  lo <= inp s <= inend s ->
  reached (input s) (compiler s) lo (identifier_utf8 s).
Proof.
  intros H. unfold identifier_utf8.
  destruct (identifier_utf8_loop_pos (S (length (input s))) s) as [I1 I2]; [lia|].
  destruct (identifier_utf8_loop (S (length (input s))) s) as [ok s1].
  cbn [fst snd] in *. destruct ok; cbn [negb].
  - destruct (I1 eq_refl) as (J1 & J2 & J3).
    unfold intern_identifier, reached. norm.
    split; [exact J1|]. split; [lia|]. left. exact J2.
  - apply I2; [reflexivity|lia].
Qed.

(** An identifier that starts at a byte outside ASCII is not empty. *)
Lemma reached_identifier_utf8_strict s :
  inp s < inend s -> (cur s >=? UTF8_SELF) = true ->
  reached (input s) (compiler s) (inp s + 1) (identifier_utf8 s).
Proof.
  intros H Hc. unfold identifier_utf8.
  destruct (identifier_utf8_loop_pos (S (length (input s))) s) as [I1 I2]; [lia|].
  pose proof (identifier_utf8_loop_strict (length (input s)) s) as Hs.
  destruct (identifier_utf8_loop (S (length (input s))) s) as [ok s1].
  cbn [fst snd] in *. destruct ok; cbn [negb].
  - destruct (I1 eq_refl) as (J1 & J2 & J3).
    specialize (Hs ltac:(apply Z.ltb_lt; exact H) Hc eq_refl).
    unfold intern_identifier, reached. norm.
    split; [exact J1|]. split; [lia|]. left. exact J2.
  - apply I2; [reflexivity|lia].
Qed.

Lemma identifier_loop_pos fuel : forall s,
  inp s <= inend s ->
  input (identifier_loop fuel s) = input s /\
  compiler (identifier_loop fuel s) = compiler s /\
  inp s <= inp (identifier_loop fuel s) <= inend s.
Proof.
  induction fuel as [|fuel IH]; intros s H; cbn [identifier_loop].
  - split_and!; try reflexivity; lia.
  - destruct ((inp s <? inend s) && (isalnum (cur s) || (cur s =? ch "_")))
      eqn:E; [|split_and!; try reflexivity; lia].
    bools. destruct (IH (set_inp (inp s + 1) s)) as (J1 & J2 & J3); [norm; lia|].
    norm. split_and!; try assumption; lia.
Qed.

Lemma maybe_keyword_loop_pos kw fuel : forall s lit low high,
  input (maybe_keyword_loop kw fuel s lit low high) = input s /\
  compiler (maybe_keyword_loop kw fuel s lit low high) = compiler s /\
  inp (maybe_keyword_loop kw fuel s lit low high) = inp s.
Proof.
  induction fuel as [|fuel IH]; intros s lit low high; cbn [maybe_keyword_loop].
  - split_and!; reflexivity.
  - destruct (low <? high); [|split_and!; reflexivity].
    destruct (kw !! Z.to_nat ((low + high) / 2)) as [[k t]|];
      [|split_and!; reflexivity].
    ifs; try apply IH. split_and!; reflexivity.
Qed.

Lemma reached_identifier kw s lo :
  lo <= inp s <= inend s ->
  reached (input s) (compiler s) lo (identifier kw s).
Proof.
  intros H. unfold identifier.
  destruct (identifier_loop_pos (S (length (input s))) s) as (J1 & J2 & J3); [lia|].
  set (s1 := identifier_loop (S (length (input s))) s) in *.
  rewrite <- J1, <- J2.
  destruct ((inp s1 <? inend s1) && (cur s1 >=? UTF8_SELF)).
  - apply reached_identifier_utf8. unfold inend in *. rewrite J1. lia.
  - unfold maybe_keyword.
    match goal with
    | |- context [maybe_keyword_loop kw ?f ?s' ?l ?lo' ?hi] =>
      destruct (maybe_keyword_loop_pos kw f s' l lo' hi) as (K1 & K2 & K3)
    end.
    unfold intern_identifier in *. norm. unfold reached.
    rewrite K1, K2, K3. split; [reflexivity|]. split; [rewrite J1; lia|].
    left. reflexivity.
Qed.

(** *** Comments and white space *)

Lemma line_comment_loop_compiler fuel : forall s,
  compiler (line_comment_loop fuel s) = compiler s.
Proof.
  induction fuel as [|fuel IH]; intros s; cbn [line_comment_loop];
    [reflexivity|].
  destruct ((inp s <? inend s) && negb (cur s =? 10)); [|reflexivity].
  rewrite IH. reflexivity.
Qed.

Lemma block_comment_loop_compiler fuel : forall s st,
  compiler (block_comment_loop fuel s st) = compiler s.
Proof.
  induction fuel as [|fuel IH]; intros s st; cbn [block_comment_loop];
    [reflexivity|].
  ifs; try reflexivity; rewrite IH; reflexivity.
Qed.

Lemma skip_comment_compiler s : compiler (skip_comment s) = compiler s.
Proof.
  unfold skip_comment. cbv zeta. destruct (byte_at s (inp s + 1) =? ch "/").
  - rewrite line_comment_loop_compiler. reflexivity.
  - rewrite block_comment_loop_compiler. reflexivity.
Qed.

Lemma skip_whitespace_compiler fuel : forall s,
  compiler (skip_whitespace fuel s) = compiler s.
Proof.
  induction fuel as [|fuel IH]; intros s; cbn [skip_whitespace];
    [reflexivity|].
  destruct ((inp s <? inend s) && isspace (cur s)); [|reflexivity].
  rewrite IH. destruct (cur s =? 10); reflexivity.
Qed.


(** *** A whole token *)

Lemma scanned_of_reached s s' :
  reached (input s) (compiler s) (inp s + 1) s' -> scanned s s'.
Proof.
  intros H. split; [apply (reached_weaken _ _ _ _ _ H); lia|].
  right. right. destruct H as (_ & H & _). lia.
Qed.

Section Scan.
Variable kw : list (string * tok_t).

Ltac token_now :=
  apply scanned_of_reached;
  refine (reached_here _ _ _); bools; norm; lia.

Lemma scan1_scanned (k : scanner_t -> scanner_t) s :
  0 <= inp s -> inp s < inend s ->
  (forall s2, input s2 = input s -> compiler s2 = compiler s ->
     insertsemi s2 = insertsemi s ->
     inp s + 2 <= inp s2 <= inend s -> scanned s (k s2)) ->
  scanned s (scan1 kw k s).
Proof.
  intros H0 Hlt Hk. unfold scan1. cbv zeta.
  repeat match goal with
  | |- context [if ?c then _ else _] => destruct c eqn:?
  end;
  try (token_now; fail).
  - (* 0 *)
    apply scanned_of_reached.
    match goal with |- reached _ _ _ (zeronumber ?s1) =>
      refine (reached_zeronumber s1 _ _) end.
    bools; norm; lia.
  - (* .5 *)
    apply scanned_of_reached. fsimpl. rewrite Z.add_simpl_r.
    match goal with |- reached _ _ _ (floatnumber ?s1 ?b) =>
      pose proof (reached_floatnumber_strict s1 b) as R end.
    match goal with H : (cur _ =? ch ".") = true |- _ =>
      apply Z.eqb_eq in H; rename H into Hdot end.
    unfold cur, byte_at, inend in R, Hdot. fsimpl.
    apply R; [unfold inend in Hlt; exact Hlt|right; exact Hdot].
  - (* comment *)
    match goal with |- context [skip_comment ?s1] =>
      destruct (skip_comment_spec s1) as ([H1 H2 H3] & H4 & H5);
      pose proof (skip_comment_compiler s1) as H6
    end.
    fsimpl.
    match goal with H : ((_ <? _) && _) = true |- _ =>
      apply andb_true_iff in H as [Hin _]; unfold inend in Hin; fsimpl end.
    apply Z.ltb_lt in Hin.
    apply Hk; [exact H1|exact H6|exact H2|].
    unfold inend in *; fsimpl.
    match goal with |- _ <= inp ?s2 <= _ => set (i2 := inp s2) in * end.
    clearbody i2. clear - H0 Hlt Hin H5. lia.
  - (* digit *)
    apply scanned_of_reached. fsimpl. rewrite Z.add_simpl_r.
    match goal with |- reached _ _ _ (number ?s1 ?b) =>
      pose proof (reached_number_strict s1 b) as R end.
    match goal with H : isdigit _ = true |- _ => rename H into Hd end.
    unfold cur, byte_at, inend in R, Hd. fsimpl.
    apply R; [unfold inend in Hlt; exact Hlt|exact Hd].
  - (* utf8 *)
    apply scanned_of_reached. fsimpl. rewrite Z.add_simpl_r.
    match goal with |- reached _ _ _ (identifier_utf8 ?s1) =>
      pose proof (reached_identifier_utf8_strict s1) as R end.
    match goal with H : (_ >=? UTF8_SELF) = true |- _ => rename H into Hc end.
    unfold cur, byte_at, inend in R, Hc. fsimpl.
    apply R; [unfold inend in Hlt; exact Hlt|exact Hc].
  - (* identifier *)
    apply scanned_of_reached.
    match goal with |- reached _ _ _ (identifier kw ?s1) =>
      refine (reached_identifier kw s1 _ _) end.
    bools; norm; lia.
  - (* unexpected byte *)
    apply scanned_of_reached. unfold stop_scanning.
    unfold reached, error, stop_scanning. norm.
    split; [reflexivity|]. split; [lia|]. right. split; reflexivity.
Qed.

Lemma scanned_later s s2 s' :
  input s2 = input s -> compiler s2 = compiler s ->
  insertsemi s2 = insertsemi s -> inp s <= inp s2 ->
  scanned s2 s' -> scanned s s'.
Proof.
  intros E1 E2 E3 Hle [R P]. rewrite E1, E2, E3 in *. split.
  - apply (reached_weaken _ _ _ _ _ R). exact Hle.
  - destruct P as [P|[P|P]]; [left; exact P|right; left; exact P|].
    right. right. lia.
Qed.

Lemma scan0_scanned fuel : forall s,
  0 <= inp s <= inend s ->
  (Z.to_nat (inend s - inp s) < fuel)%nat ->
  scanned s (scan0 kw fuel s).
Proof.
  induction fuel as [|fuel IH]; intros s Hwf Hfuel; [lia|].
  cbn [scan0]. cbv zeta.
  match goal with |- context [skip_whitespace ?f ?s1] =>
    pose proof (skip_whitespace_spec f s1) as Hws; cbv zeta in Hws;
    pose proof (skip_whitespace_compiler f s1) as Hc;
    set (s2 := skip_whitespace f s1) in *
  end.
  destruct Hws as ([H1 H2 H3] & Ht & Hi). fsimpl.
  rewrite (inend_same s (set_litlenoffs 0 s)) in Hi by reflexivity.
  specialize (Hi ltac:(lia)).
  assert (Hend : inend s2 = inend s) by (apply inend_same; exact H1).
  destruct (negb (linestart s =? linestart s2) && insertsemi s2) eqn:E1.
  - apply andb_true_iff in E1 as [_ E1]. split.
    + unfold reached. norm. split; [exact H1|]. split; [lia|]. left. exact Hc.
    + right. left. fsimpl. split; [congruence|]. split; reflexivity.
  - destruct (inp s2 >=? inend s2) eqn:E2.
    + destruct (insertsemi s2) eqn:E3.
      * split.
        -- unfold reached. norm. split; [exact H1|]. split; [lia|]. left. exact Hc.
        -- right. left. fsimpl. split; [congruence|]. split; reflexivity.
      * split.
        -- unfold reached. norm. split; [exact H1|]. split; [lia|]. left. exact Hc.
        -- left. reflexivity.
    + rewrite Z.geb_leb in E2. apply Z.leb_gt in E2.
      apply (scanned_later s s2); [exact H1|exact Hc|exact H2|lia|].
      apply scan1_scanned; [lia|lia|].
      intros s3 G1 G2 G3 G4.
      apply (scanned_later s2 s3); [exact G1|exact G2|exact G3|lia|].
      apply IH.
      * rewrite (inend_same s2 s3) by exact G1. lia.
      * rewrite (inend_same s2 s3) by exact G1. lia.
Qed.

Lemma scanner_next_scanned s :
  0 <= inp s <= inend s -> scanned s (scanner_next kw s).
Proof.
  intros Hwf. unfold scanner_next. cbv zeta.
  refine (scan0_scanned _ (set_tokend (inp s) s) _ _).
  - unfold inend in *. fsimpl. exact Hwf.
  - unfold inend in *. fsimpl. lia.
Qed.

(** The measure that a call lowers unless it returns [EOF]: twice the
    input that is left, and one for a pending semicolon. *)
Lemma scanned_measure s s' :
  inp s <= inend s -> scanned s s' ->
  tok s' = TEOF \/
  2 * (inend s' - inp s') + Z.b2z (insertsemi s') <
  2 * (inend s - inp s) + Z.b2z (insertsemi s).
Proof.
  intros Hle [(R1 & R2 & _) P].
  assert (inend s' = inend s) by (unfold inend; rewrite R1; reflexivity).
  unfold inend in *.
  destruct P as [P|[(P1 & P2 & _)|P]]; [left; exact P|right|right].
  - rewrite P1, P2. simpl. lia.
  - destruct (insertsemi s'), (insertsemi s); simpl; lia.
Qed.

Lemma reaches_eof (n : nat) : forall s,
  0 <= inp s <= inend s ->
  2 * (inend s - inp s) + Z.b2z (insertsemi s) <= Z.of_nat n ->
  exists m, (m <= n)%nat /\
    tok (Nat.iter (S m) (scanner_next kw) s) = TEOF.
Proof.
  induction n as [|n IH]; intros s Hwf Hm.
  - exists O. split; [lia|]. cbn [Nat.iter].
    pose proof (scanner_next_scanned s Hwf) as Hs.
    destruct (scanned_measure _ _ (proj2 Hwf) Hs) as [E|Hlt]; [exact E|].
    destruct Hs as [(R1 & R2 & _) _].
    assert (inend (scanner_next kw s) = inend s)
      by (unfold inend; rewrite R1; reflexivity).
    unfold inend in *. destruct (insertsemi (scanner_next kw s)); simpl in *; lia.
  - pose proof (scanner_next_scanned s Hwf) as Hs.
    destruct (scanned_measure _ _ (proj2 Hwf) Hs) as [E|Hlt].
    + exists O. split; [lia|]. exact E.
    + destruct Hs as [(R1 & R2 & _) _].
      assert (Hend : inend (scanner_next kw s) = inend s)
        by (unfold inend; rewrite R1; reflexivity).
      destruct (IH (scanner_next kw s)) as (m & Hm1 & Hm2).
      * unfold inend in *. rewrite R1. lia.
      * lia.
      * exists (S m). split; [lia|].
        rewrite Nat.iter_succ_r. exact Hm2.
Qed.

End Scan.




(** Repeated calls of [scanner_next] reach [EOF]: from a position inside an
    input of which [n] bytes are left, after [2 * n + 2] calls at most. *)
Theorem scanner_reaches_eof kw s :
  0 <= inp s <= inend s ->
  exists m, Z.of_nat m <= 2 * (inend s - inp s) + 1 /\
    tok (Nat.iter (S m) (scanner_next kw) s) = TEOF.
Proof.
  intros Hwf.
  destruct (reaches_eof kw
              (Z.to_nat (2 * (inend s - inp s) + Z.b2z (insertsemi s))) s Hwf)
    as (m & Hm & Ht).
  - destruct (insertsemi s); simpl; lia.
  - exists m. split; [|exact Ht]. destruct (insertsemi s); simpl in Hm; lia.
Qed.

Lemma scanner_reaches_eof_witness :
  exists m, Z.of_nat m <= 7 /\
    tok (Nat.iter (S m) (scanner_next keywordtab) (scanner_on "a b")) = TEOF.
Proof.
  refine (scanner_reaches_eof keywordtab (scanner_on "a b") _).
  vm_compute. split; discriminate.
Defined.

Lemma scanner_next_at_end kw s :
  inp s = inend s ->
  tok (scanner_next kw s) = (if insertsemi s then TSEMI else TEOF) /\
  input (scanner_next kw s) = input s /\
  inp (scanner_next kw s) = inp s /\
  insertsemi (scanner_next kw s) = false.
Proof.
  intros He. unfold scanner_next. cbv zeta. cbn [scan0 skip_whitespace].
  cbv zeta. norm.
  destruct (Z.ltb_spec (inp s) (Z.of_nat (length (input s)))); [lia|].
  cbn [andb]. norm. rewrite Z.eqb_refl. cbn [negb andb].
  destruct (Z.geb_spec (inp s) (Z.of_nat (length (input s)))); [|lia].
  destruct (insertsemi s) eqn:E; norm; rewrite ?E; split_and!; reflexivity.
Qed.

(** At the end of the input the scanner gives the pending semicolon, if
    there is one, and from then on [EOF] at every call. *)
Theorem scanner_eof_is_final kw s :
  inp s = inend s ->
  tok (scanner_next kw s) = (if insertsemi s then TSEMI else TEOF) /\
  forall n, tok (Nat.iter (S (S n)) (scanner_next kw) s) = TEOF.
Proof.
  intros He.
  destruct (scanner_next_at_end kw s He) as (T1 & I1 & P1 & F1).
  split; [exact T1|].
  assert (Hall : forall n,
            let sn := Nat.iter (S n) (scanner_next kw) s in
            inp sn = inend sn /\ insertsemi sn = false).
  { induction n as [|n IH].
    - change (Nat.iter 1 (scanner_next kw) s) with (scanner_next kw s).
      cbv zeta. unfold inend in *. rewrite I1, P1. split; [exact He|exact F1].
    - cbv zeta in *. destruct IH as [E1 E2].
      change (Nat.iter (S (S n)) (scanner_next kw) s)
        with (scanner_next kw (Nat.iter (S n) (scanner_next kw) s)).
      destruct (scanner_next_at_end kw _ E1) as (_ & I2 & P2 & F2).
      unfold inend in *. rewrite I2, P2. split; [exact E1|exact F2]. }
  intros n. destruct (Hall n) as [E1 E2]. cbv zeta in E1, E2.
  change (Nat.iter (S (S n)) (scanner_next kw) s)
    with (scanner_next kw (Nat.iter (S n) (scanner_next kw) s)).
  destruct (scanner_next_at_end kw _ E1) as (T2 & _).
  rewrite T2, E2. reflexivity.
Qed.

Lemma scanner_eof_is_final_witness :
  tok (scanner_next keywordtab
         (scanner_next keywordtab (scanner_on "a"))) = TSEMI /\
  tok (Nat.iter 5 (scanner_next keywordtab)
         (scanner_next keywordtab (scanner_on "a"))) = TEOF.
Proof.
  pose proof (scanner_eof_is_final keywordtab
                (scanner_next keywordtab (scanner_on "a")) eq_refl) as [H1 H2].
  split; [exact H1|exact (H2 3%nat)].
Defined.

End ScanProgress.

(** ** Integer literals: what [sfmtu64] writes, the scanner reads *)

Module NumberProofs.
Import Scanner Props ScannerProofs ScanSpec TokenSpec Str StrProofs.

Lemma index_of_sound c : forall l i r,
  index_of c l i = Some r -> i <= r /\ nth (Z.to_nat (r - i)) l 0 = c.
Proof.
  induction l as [|x l IH]; intros i r; simpl; [discriminate|].
  destruct (Z.eqb_spec x c) as [->|Hne].
  - intros [= <-]. rewrite Z.sub_diag. split; [lia|reflexivity].
  - intros H. destruct (IH _ _ H) as [Hle Hn]. split; [lia|].
    replace (Z.to_nat (r - i)) with (S (Z.to_nat (r - (i + 1)))) by lia.
    exact Hn.
Qed.

(** How [number] reads the digit characters of [sfmtu64] below 36. *)
Lemma digit_read d :
  0 <= d < 36 ->
  (if isdigit (nth (Z.to_nat d) sfmt_chars 0)
   then u8 (nth (Z.to_nat d) sfmt_chars 0 - ch "0")
   else if isupper (nth (Z.to_nat d) sfmt_chars 0)
        then u8 (nth (Z.to_nat d) sfmt_chars 0 - (ch "A" - 10))
        else -1) = d.
Proof.
  intros Hd.
  assert (H : forallb (fun n =>
                (if isdigit (nth n sfmt_chars 0)
                 then u8 (nth n sfmt_chars 0 - ch "0")
                 else if isupper (nth n sfmt_chars 0)
                      then u8 (nth n sfmt_chars 0 - (ch "A" - 10))
                      else -1) =? Z.of_nat n) (seq 0 36) = true)
    by (vm_compute; reflexivity).
  rewrite forallb_forall in H.
  specialize (H (Z.to_nat d)). rewrite in_seq in H.
  specialize (H ltac:(lia)).
  apply Z.eqb_eq in H. rewrite H. lia.
Qed.

Lemma number_of_digits_le base : forall cs acc V,
  2 <= base -> 0 <= acc ->
  number_of_digits base acc cs = Some V -> acc <= V.
Proof.
  induction cs as [|c cs IH]; intros acc V Hb Ha; simpl.
  - intros [= <-]. lia.
  - destruct (digit_of_char c) as [d|] eqn:Ed; [|discriminate].
    destruct (Z.ltb_spec d base); [|discriminate].
    intros H'. destruct (index_of_sound _ _ _ _ Ed) as [Hd _].
    apply IH in H'; [nia|lia|nia].
Qed.

Lemma drop_cons_nth (l : list Z) : forall n x r,
  drop n l = x :: r -> nth n l 0 = x /\ drop (S n) l = r /\ (n < length l)%nat.
Proof.
  induction l as [|y l IH]; intros [|n] x r; simpl; try discriminate.
  - intros [= -> ->]. split; [reflexivity|]. split; [reflexivity|lia].
  - intros H. destruct (IH _ _ _ H) as (H1 & H2 & H3).
    split; [exact H1|]. split; [exact H2|lia].
Qed.

Section Number.
Variable base : Z.
Hypothesis Hbase : 2 <= base <= 36.

Lemma number_loop_value start cutoff cutlim fuel :
  cutoff = 18446744073709551615 / base ->
  cutlim = 18446744073709551615 mod base ->
  forall s rest acc any V,
  0 <= inp s <= inend s ->
  drop (Z.to_nat (inp s)) (input s) = rest ->
  number_of_digits base acc rest = Some V -> V < 2^64 ->
  0 <= acc -> 0 <= any ->
  (length rest < fuel)%nat ->
  let s' := number_loop fuel s base start cutoff cutlim acc any (cur s) in
  tok s' = tok s /\ litint s' = V /\ inp s' = inend s /\
  input s' = input s /\ compiler s' = compiler s /\
  insertsemi s' = insertsemi s.
Proof using Hbase.
  intros Hcut Hlim.
  pose proof (Z.div_mod 18446744073709551615 base ltac:(lia)) as Hdm.
  pose proof (Z.mod_pos_bound 18446744073709551615 base ltac:(lia)) as Hmb.
  rewrite <- Hcut, <- Hlim in Hdm. rewrite <- Hlim in Hmb.
  clear Hcut Hlim.
  induction fuel as [|fuel IH]; intros s rest acc any V H0 Hdrop Hval HV Hacc
    Hany Hfuel; [lia|].
  cbn [number_loop]. cbv zeta.
  destruct rest as [|c rest].
  - assert (Hend : inp s = inend s).
    { unfold inend in *. apply (f_equal (@length Z)) in Hdrop.
      rewrite length_drop in Hdrop. simpl in Hdrop. lia. }
    simpl in Hval. injection Hval as <-.
    assert (Hcur : cur s = 0).
    { unfold cur, byte_at. destruct (0 <=? inp s); [|reflexivity].
      apply nth_overflow. unfold inend in Hend. lia. }
    destruct (Z.eqb_spec (inp s) (inend s)); [|contradiction].
    unfold number_end. cbv zeta.
    destruct (Z.ltb_spec any 0); [lia|].
    rewrite Hcur. change (0 =? ch "_") with false. cbv iota.
    fsimpl. split_and!; try reflexivity. exact Hend.
  - destruct (drop_cons_nth _ _ _ _ Hdrop) as (Hc & Hdrop' & Hlt).
    assert (Hcur : cur s = c).
    { unfold cur, byte_at. destruct (Z.leb_spec 0 (inp s)); [exact Hc|lia]. }
    destruct (Z.eqb_spec (inp s) (inend s)) as [E|E];
      [unfold inend in E; lia|].
    simpl in Hval.
    destruct (digit_of_char c) as [d|] eqn:Ed; [|discriminate].
    destruct (Z.ltb_spec d base) as [Hdb|]; [|discriminate].
    destruct (index_of_sound _ _ _ _ Ed) as [Hd0 Hnth].
    rewrite Z.sub_0_r in Hnth.
    pose proof (digit_read d ltac:(lia)) as Hrd. rewrite Hnth in Hrd.
    pose proof (number_of_digits_le base rest (acc * base + d) V
                  ltac:(lia) ltac:(nia) Hval) as Hle.
    assert (Hacc' : acc <= cutoff) by nia.
    assert (Hlim' : acc = cutoff -> d <= cutlim) by (intros ->; lia).
    assert (Hstep :
      (if d >=? base then error s (MsgInvalidIntLit base)
       else if (any <? 0) || (acc >? cutoff) ||
               ((acc =? cutoff) && (d >? cutlim))
            then number_loop fuel (set_inp (inp s + 1) s) base start cutoff
                   cutlim acc (-1) (cur (set_inp (inp s + 1) s))
            else number_loop fuel (set_inp (inp s + 1) s) base start cutoff
                   cutlim (u64 (u64 (acc * base) + d)) 1
                   (cur (set_inp (inp s + 1) s))) =
      number_loop fuel (set_inp (inp s + 1) s) base start cutoff cutlim
        (acc * base + d) 1 (cur (set_inp (inp s + 1) s))).
    { destruct (Z.geb_spec d base); [lia|].
      destruct (Z.ltb_spec any 0); [lia|].
      destruct (Z.gtb_spec acc cutoff); [lia|]. cbn [orb].
      destruct (Z.eqb_spec acc cutoff); destruct (Z.gtb_spec d cutlim);
        cbn [andb]; try (exfalso; lia);
        unfold u64; rewrite (Z.mod_small (acc * base)) by nia;
        rewrite Z.mod_small by nia; reflexivity. }
    assert (Hrec :
      let s' := number_loop fuel (set_inp (inp s + 1) s) base start cutoff
                  cutlim (acc * base + d) 1 (cur (set_inp (inp s + 1) s)) in
      tok s' = tok s /\ litint s' = V /\ inp s' = inend s /\
      input s' = input s /\ compiler s' = compiler s /\
      insertsemi s' = insertsemi s).
    { refine (IH (set_inp (inp s + 1) s) rest (acc * base + d) 1 V
                _ _ Hval HV _ _ _).
      - unfold inend in *. fsimpl. lia.
      - fsimpl. replace (Z.to_nat (inp s + 1)) with (S (Z.to_nat (inp s)))
          by lia. exact Hdrop'.
      - nia.
      - lia.
      - simpl in Hfuel. lia. }
    rewrite Hcur.
    destruct (isdigit c).
    + rewrite Hrd. rewrite Hstep. exact Hrec.
    + destruct (isupper c); [|lia].
      rewrite Hrd. rewrite Hstep. exact Hrec.
Qed.

Lemma number_value s ds V :
  0 <= inp s <= inend s ->
  drop (Z.to_nat (inp s)) (input s) = ds ->
  number_of_digits base 0 ds = Some V -> V < 2^64 ->
  tok (number s base) = TINTLIT /\ litint (number s base) = V /\
  inp (number s base) = inend s /\ input (number s base) = input s /\
  compiler (number s base) = compiler s /\
  insertsemi (number s base) = true.
Proof using Hbase.
  intros H0 Hdrop Hval HV. unfold number. cbv zeta.
  match goal with
  | |- context [number_loop ?f ?s1 _ ?st ?co ?cl _ _ _] =>
    pose proof (number_loop_value st co cl f eq_refl eq_refl s1 ds 0 0 V)
      as H
  end.
  cbv zeta in H. apply H; fsimpl; try assumption; try lia.
  apply (f_equal (@length Z)) in Hdrop. rewrite length_drop in Hdrop. lia.
Qed.

End Number.

(** *** From the first byte to the literal *)

Lemma scan0_first kw fuel s :
  inp s < inend s -> isspace (cur s) = false ->
  scan0 kw (S fuel) s = scan1 kw (scan0 kw fuel) (set_litlenoffs 0 s).
Proof.
  intros Hlt Hsp. cbn [scan0 skip_whitespace]. cbv zeta.
  change (cur (set_litlenoffs 0 s)) with (cur s).
  rewrite Hsp, andb_false_r. fsimpl. rewrite Z.eqb_refl. cbn [negb andb].
  unfold inend in *. fsimpl.
  destruct (Z.geb_spec (inp s) (Z.of_nat (length (input s)))); [lia|].
  reflexivity.
Qed.

Lemma scan1_zero kw k s :
  cur s = ch "0" -> scan1 kw k s = zeronumber (token_start s).
Proof.
  intros Hc. unfold scan1, token_start. cbv zeta.
  match goal with
  | |- context [if cur ?S =? _ then _ else _] => change (cur S) with (cur s)
  end.
  rewrite Hc. reflexivity.
Qed.

Lemma scan1_digit kw k s :
  isdigit (cur s) = true -> cur s <> ch "0" ->
  scan1 kw k s = number (set_inp (inp s + 1 - 1) (token_start s)) 10.
Proof.
  intros Hd Hz. unfold scan1, token_start. cbv zeta.
  match goal with
  | |- context [if cur ?S =? _ then _ else _] => change (cur S) with (cur s)
  end.
  pose proof Hd as Hd'. unfold isdigit in Hd'.
  apply andb_true_iff in Hd' as [D1 D2].
  apply Z.leb_le in D1. apply Z.leb_le in D2.
  assert (D3 : cur s <> 48) by exact Hz.
  set (c := cur s) in *. clearbody c.
  repeat match goal with
  | |- context [c =? ?w] =>
    destruct (Z.eqb_spec c w) as [E|_];
      [exfalso; unfold ch, byte_of_ascii in E; simpl in E; lia|]
  end.
  rewrite Hd. fsimpl. reflexivity.
Qed.


Lemma zeronumber_prefixed s x b :
  inp s < inend s -> cur s = x ->
  (x = ch "x" /\ b = 16) \/ (x = ch "o" /\ b = 8) \/ (x = ch "b" /\ b = 2) ->
  zeronumber s = number (set_inp (inp s + 1) s) b.
Proof.
  intros Hlt Hc Hx. unfold zeronumber. cbv zeta.
  destruct (Z.ltb_spec (inp s) (inend s)); [|lia].
  rewrite Hc. destruct Hx as [[-> ->]|[[-> ->]|[-> ->]]]; reflexivity.
Qed.

Lemma scan_prefixed kw c0 x b ds V :
  (x = ch "x" /\ b = 16) \/ (x = ch "o" /\ b = 8) \/ (x = ch "b" /\ b = 2) ->
  number_of_digits b 0 ds = Some V -> V < 2^64 ->
  let s' := scanner_next kw
              (scanner_set_input (scanner_init c0) (ch "0" :: x :: ds)) in
  tok s' = TINTLIT /\ litint s' = V /\ inp s' = inend s' /\
  compiler s' = c0 /\ insertsemi s' = true.
Proof.
  intros Hx Hval HV. cbv zeta. unfold scanner_next. cbv zeta.
  set (s0 := set_tokend _ _).
  assert (Hb : 2 <= b <= 36) by (destruct Hx as [[_ ->]|[[_ ->]|[_ ->]]]; lia).
  rewrite (scan0_first kw _ s0);
    [|unfold inend; simpl; lia|reflexivity].
  rewrite (scan1_zero kw _ (set_litlenoffs 0 s0)) by reflexivity.
  rewrite (zeronumber_prefixed _ x b);
    [|unfold inend; simpl; lia|reflexivity|exact Hx].
  match goal with
  | |- context [number ?s1 b] =>
    destruct (number_value b Hb s1 ds V) as (N1 & N2 & N3 & N4 & N5 & N6)
  end;
    [unfold inend; simpl; lia|reflexivity|exact Hval|exact HV|].
  split; [exact N1|]. split; [exact N2|]. split; [|split; [exact N5|exact N6]].
  rewrite N3. unfold inend. rewrite N4. reflexivity.
Qed.

Lemma digit_not_space c : isdigit c = true -> isspace c = false.
Proof.
  unfold isdigit, isspace. intros H. apply andb_true_iff in H as [H1 H2].
  apply Z.leb_le in H1. apply Z.leb_le in H2.
  destruct (Z.eqb_spec c 32); [lia|]. cbn [orb].
  destruct (Z.leb_spec 9 c); destruct (Z.leb_spec c 13); try reflexivity; lia.
Qed.

Lemma scan_decimal kw c0 c ds V :
  isdigit c = true -> c <> ch "0" ->
  number_of_digits 10 0 (c :: ds) = Some V -> V < 2^64 ->
  let s' := scanner_next kw
              (scanner_set_input (scanner_init c0) (c :: ds)) in
  tok s' = TINTLIT /\ litint s' = V /\ inp s' = inend s' /\
  compiler s' = c0 /\ insertsemi s' = true.
Proof.
  intros Hd Hz Hval HV. cbv zeta. unfold scanner_next. cbv zeta.
  set (s0 := set_tokend _ _).
  rewrite (scan0_first kw _ s0);
    [|unfold inend; simpl; lia|exact (digit_not_space c Hd)].
  rewrite (scan1_digit kw _ (set_litlenoffs 0 s0)); [|exact Hd|exact Hz].
  match goal with
  | |- context [number ?s1 10] =>
    destruct (number_value 10 ltac:(lia) s1 (c :: ds) V)
      as (N1 & N2 & N3 & N4 & N5 & N6)
  end;
    [unfold inend; simpl; lia|reflexivity|exact Hval|exact HV|].
  split; [exact N1|]. split; [exact N2|]. split; [|split; [exact N5|exact N6]].
  rewrite N3. unfold inend. rewrite N4. reflexivity.
Qed.

Lemma chars_decimal d :
  0 <= d < 10 -> nth (Z.to_nat d) sfmt_chars 0 = ch "0" + d.
Proof.
  intros Hd.
  assert (H : forallb (fun n => nth n sfmt_chars 0 =? ch "0" + Z.of_nat n)
                (seq 0 10) = true) by (vm_compute; reflexivity).
  rewrite forallb_forall in H.
  specialize (H (Z.to_nat d)). rewrite in_seq in H.
  specialize (H ltac:(lia)). apply Z.eqb_eq in H. rewrite H. lia.
Qed.




(** *** Literals that do not fit 64 bits *)

Section Overflow.
Variable base : Z.
Hypothesis Hbase : 2 <= base <= 36.
Variables start cutoff cutlim : Z.
Hypothesis Hcut : cutoff = 18446744073709551615 / base.
Hypothesis Hlim : cutlim = 18446744073709551615 mod base.

Lemma digit_step s c rest d :
  0 <= inp s <= inend s ->
  drop (Z.to_nat (inp s)) (input s) = c :: rest ->
  digit_of_char c = Some d -> d < base ->
  cur s = c /\ inp s <> inend s /\
  drop (Z.to_nat (inp s + 1)) (input s) = rest /\ 0 <= d /\
  (if isdigit c then u8 (c - ch "0")
   else if isupper c then u8 (c - (ch "A" - 10)) else -1) = d.
Proof using Hbase.
  intros H0 Hdrop Ed Hdb.
  destruct (drop_cons_nth _ _ _ _ Hdrop) as (Hc & Hdrop' & Hlt).
  destruct (index_of_sound _ _ _ _ Ed) as [Hd0 Hnth].
  rewrite Z.sub_0_r in Hnth.
  pose proof (digit_read d ltac:(lia)) as Hrd. rewrite Hnth in Hrd.
  split; [unfold cur, byte_at; destruct (Z.leb_spec 0 (inp s)); [exact Hc|lia]|].
  split; [unfold inend; lia|].
  split; [replace (Z.to_nat (inp s + 1)) with (S (Z.to_nat (inp s))) by lia;
          exact Hdrop'|].
  split; [exact Hd0|exact Hrd].
Qed.

Lemma number_loop_flagged fuel : forall s rest acc W V,
  0 <= inp s <= inend s ->
  drop (Z.to_nat (inp s)) (input s) = rest ->
  number_of_digits base W rest = Some V ->
  (length rest < fuel)%nat ->
  too_large s
    (number_loop fuel s base start cutoff cutlim acc (-1) (cur s)).
Proof using Hbase.
  induction fuel as [|fuel IH]; intros s rest acc W V H0 Hdrop Hval Hfuel;
    [lia|].
  cbn [number_loop]. cbv zeta.
  destruct rest as [|c rest].
  - assert (Hend : inp s = inend s).
    { unfold inend in *. apply (f_equal (@length Z)) in Hdrop.
      rewrite length_drop in Hdrop. simpl in Hdrop. lia. }
    assert (Hcur : cur s = 0).
    { unfold cur, byte_at. destruct (0 <=? inp s); [|reflexivity].
      apply nth_overflow. unfold inend in Hend. lia. }
    destruct (Z.eqb_spec (inp s) (inend s)); [|contradiction].
    unfold number_end. cbv zeta. cbn [Z.ltb Z.compare].
    rewrite Hcur. change (0 =? ch "_") with false. cbv iota.
    unfold too_large, error, stop_scanning, report_diagv, inend. fsimpl.
    split_and!; reflexivity.
  - simpl in Hval.
    destruct (digit_of_char c) as [d|] eqn:Ed; [|discriminate].
    destruct (Z.ltb_spec d base) as [Hdb|]; [|discriminate].
    destruct (digit_step s c rest d H0 Hdrop Ed Hdb)
      as (Hcur & Hne & Hdrop' & Hd0 & Hrd).
    destruct (Z.eqb_spec (inp s) (inend s)); [contradiction|].
    assert (Hrec : too_large s
              (number_loop fuel (set_inp (inp s + 1) s) base start cutoff
                 cutlim acc (-1) (cur (set_inp (inp s + 1) s)))).
    { pose proof (IH (set_inp (inp s + 1) s) rest acc (W * base + d) V) as R.
      unfold too_large, inend in *. fsimpl. apply R.
      - lia.
      - exact Hdrop'.
      - exact Hval.
      - simpl in Hfuel. lia. }
    rewrite Hcur.
    destruct (isdigit c).
    + rewrite Hrd. destruct (Z.geb_spec d base); [lia|]. exact Hrec.
    + destruct (isupper c); [|lia].
      rewrite Hrd. destruct (Z.geb_spec d base); [lia|]. exact Hrec.
Qed.

Lemma number_loop_overflow fuel : forall s rest acc any V,
  0 <= inp s <= inend s ->
  drop (Z.to_nat (inp s)) (input s) = rest ->
  number_of_digits base acc rest = Some V -> 2^64 <= V ->
  0 <= acc < 2^64 -> 0 <= any ->
  (length rest < fuel)%nat ->
  too_large s
    (number_loop fuel s base start cutoff cutlim acc any (cur s)).
Proof using Hbase Hcut Hlim.
  pose proof (Z.div_mod 18446744073709551615 base ltac:(lia)) as Hdm.
  pose proof (Z.mod_pos_bound 18446744073709551615 base ltac:(lia)) as Hmb.
  rewrite <- Hcut, <- Hlim in Hdm. rewrite <- Hlim in Hmb.
  induction fuel as [|fuel IH]; intros s rest acc any V H0 Hdrop Hval HV Hacc
    Hany Hfuel; [lia|].
  destruct rest as [|c rest].
  - simpl in Hval. injection Hval as <-. lia.
  - cbn [number_loop]. cbv zeta. simpl in Hval.
    destruct (digit_of_char c) as [d|] eqn:Ed; [|discriminate].
    destruct (Z.ltb_spec d base) as [Hdb|]; [|discriminate].
    destruct (digit_step s c rest d H0 Hdrop Ed Hdb)
      as (Hcur & Hne & Hdrop' & Hd0 & Hrd).
    destruct (Z.eqb_spec (inp s) (inend s)); [contradiction|].
    assert (Hstep : too_large s
      (if d >=? base then error s (MsgInvalidIntLit base)
       else if (any <? 0) || (acc >? cutoff) ||
               ((acc =? cutoff) && (d >? cutlim))
            then number_loop fuel (set_inp (inp s + 1) s) base start cutoff
                   cutlim acc (-1) (cur (set_inp (inp s + 1) s))
            else number_loop fuel (set_inp (inp s + 1) s) base start cutoff
                   cutlim (u64 (u64 (acc * base) + d)) 1
                   (cur (set_inp (inp s + 1) s)))).
    { destruct (Z.geb_spec d base); [lia|].
      assert (Hflag : too_large s
                (number_loop fuel (set_inp (inp s + 1) s) base start cutoff
                   cutlim acc (-1) (cur (set_inp (inp s + 1) s)))).
      { pose proof (number_loop_flagged fuel (set_inp (inp s + 1) s) rest acc
                      (acc * base + d) V) as R.
        unfold too_large, inend in *. fsimpl. apply R.
        - lia.
        - exact Hdrop'.
        - exact Hval.
        - simpl in Hfuel. lia. }
      destruct (Z.ltb_spec any 0); [lia|].
      destruct (Z.gtb_spec acc cutoff); [exact Hflag|]. cbn [orb].
      destruct (Z.eqb_spec acc cutoff); destruct (Z.gtb_spec d cutlim);
        cbn [andb]; try exact Hflag;
        (assert (Hfit : acc * base + d < 2^64) by nia;
         unfold u64; rewrite (Z.mod_small (acc * base)) by nia;
         rewrite Z.mod_small by nia;
         pose proof (IH (set_inp (inp s + 1) s) rest (acc * base + d) 1 V)
           as R;
         unfold too_large, inend in *; fsimpl; apply R;
         [lia|exact Hdrop'|exact Hval|exact HV|nia|lia
         |simpl in Hfuel; lia]). }
    rewrite Hcur.
    destruct (isdigit c).
    + rewrite Hrd. exact Hstep.
    + destruct (isupper c); [|lia]. rewrite Hrd. exact Hstep.
Qed.

End Overflow.


Lemma number_too_large base s ds V :
  2 <= base <= 36 ->
  0 <= inp s <= inend s ->
  drop (Z.to_nat (inp s)) (input s) = ds ->
  number_of_digits base 0 ds = Some V -> 2^64 <= V ->
  too_large s (number s base).
Proof.
  intros Hbase H0 Hdrop Hval HV. unfold number. cbv zeta.
  match goal with
  | |- context [number_loop ?f ?s1 _ ?st ?co ?cl _ _ _] =>
    pose proof (number_loop_overflow base Hbase st co cl eq_refl eq_refl f
                  s1 ds 0 0 V) as H
  end.
  unfold too_large, inend in *. fsimpl. apply H; try assumption; try lia.
  apply (f_equal (@length Z)) in Hdrop. rewrite length_drop in Hdrop. lia.
Qed.

(** Where [scanner_next] hands an integer literal at the start of the input
    to [number]. *)
Lemma literal_reaches_number kw c0 base ds :
  base = 2 \/ base = 8 \/ base = 10 \/ base = 16 ->
  (base = 10 -> exists c ds', ds = c :: ds' /\ isdigit c = true /\ c <> ch "0") ->
  exists S,
    scanner_next kw
      (scanner_set_input (scanner_init c0) (int_prefix base ++ ds))
      = number S base /\
    input S = int_prefix base ++ ds /\ 0 <= inp S <= inend S /\
    drop (Z.to_nat (inp S)) (input S) = ds /\
    compiler S = c0 /\ loc S = mk_srcloc 1 1.
Proof.
  intros Hbase Hdec.
  destruct (Z.eq_dec base 10) as [->|Hne].
  - destruct (Hdec eq_refl) as (c & ds' & -> & Hd & Hz).
    change (int_prefix 10 ++ c :: ds') with (c :: ds').
    unfold scanner_next. cbv zeta. set (s0 := set_tokend _ _).
    rewrite (scan0_first kw _ s0);
      [|unfold inend; simpl; lia|exact (digit_not_space c Hd)].
    rewrite (scan1_digit kw _ (set_litlenoffs 0 s0)); [|exact Hd|exact Hz].
    eexists. split; [reflexivity|].
    split; [reflexivity|]. split; [unfold inend; simpl; lia|].
    split; [reflexivity|]. split; reflexivity.
  - assert (Hx : exists x,
              int_prefix base ++ ds = ch "0" :: x :: ds /\
              ((x = ch "x" /\ base = 16) \/ (x = ch "o" /\ base = 8) \/
               (x = ch "b" /\ base = 2))).
    { destruct Hbase as [->|[->|[->| ->]]]; try contradiction;
        eexists; (split; [reflexivity|]); auto. }
    destruct Hx as (x & -> & Hx).
    unfold scanner_next. cbv zeta. set (s0 := set_tokend _ _).
    rewrite (scan0_first kw _ s0);
      [|unfold inend; simpl; lia|reflexivity].
    rewrite (scan1_zero kw _ (set_litlenoffs 0 s0)) by reflexivity.
    rewrite (zeronumber_prefixed _ x base);
      [|unfold inend; simpl; lia|reflexivity|exact Hx].
    eexists. split; [reflexivity|].
    split; [reflexivity|]. split; [unfold inend; simpl; lia|].
    split; [reflexivity|]. split; reflexivity.
Qed.



End NumberProofs.

(** ** Helpers of the parser *)

Module ParserLaws.
Import Ast Scanner Parser Props Str StrProofs ScanSpec.

(** *** [u64log10] *)

Lemma loop_length10 (k : nat) : forall (fuel : nat) v,
  (k < fuel)%nat -> 0 <= v < 10 ^ Z.of_nat (S k) ->
  (k = O \/ 10 ^ Z.of_nat k <= v) ->
  length (sfmtu64_loop fuel v 10) = S k.
Proof.
  induction k as [|k IH]; intros fuel v Hf Hv Hlo;
    (destruct fuel as [|fuel]; [lia|]); cbn [sfmtu64_loop]; cbv zeta.
  - change (10 ^ Z.of_nat 1) with 10 in Hv.
    rewrite Z.div_small by lia. reflexivity.
  - destruct Hlo as [Hlo|Hlo]; [discriminate|].
    rewrite Nat2Z.inj_succ, Z.pow_succ_r in Hlo by lia.
    rewrite (Nat2Z.inj_succ (S k)), Z.pow_succ_r in Hv by lia.
    assert (Hq : 10 ^ Z.of_nat k <= v / 10 < 10 ^ Z.of_nat (S k)).
    { split.
      - apply Z.div_le_lower_bound; lia.
      - apply Z.div_lt_upper_bound; lia. }
    assert (0 < 10 ^ Z.of_nat k) by (apply Z.pow_pos_nonneg; lia).
    destruct (Z.eqb_spec (v / 10) 0); [lia|].
    cbn [length]. f_equal. apply IH; [lia|lia|].
    destruct k; [left; reflexivity|right; lia].
Qed.


Lemma u64log10_loop u : forall (fuel : nat) w x,
  w = Z.of_nat fuel -> x = 10 ^ (w - 1) -> 0 <= u < 10 ^ w ->
  let r :=
    (fix loop (fuel : nat) (w x : Z) {struct fuel} : Z :=
       match fuel with
       | O => w
       | S fuel' =>
         if w >? 1 then
           if u >=? x then w else loop fuel' (w - 1) (x / 10)
         else w
       end) fuel w x in
  (1 <= r \/ fuel = O) /\ r <= w /\ u < 10 ^ r /\ (r <= 1 \/ 10 ^ (r - 1) <= u).
Proof.
  induction fuel as [|fuel IH]; intros w x Hw Hx Hu; cbv zeta.
  - split; [right; reflexivity|]. split; [lia|]. split; [lia|left; lia].
  - destruct (Z.gtb_spec w 1) as [Hw1|Hw1].
    + destruct (Z.geb_spec u x) as [Hux|Hux].
      * split; [left; lia|]. split; [lia|]. split; [lia|right; lia].
      * assert (Hx' : x / 10 = 10 ^ (w - 1 - 1)).
        { rewrite Hx. replace (w - 1) with (Z.succ (w - 1 - 1)) at 1 by lia.
          rewrite Z.pow_succ_r by lia. rewrite Z.mul_comm, Z.div_mul by lia.
          reflexivity. }
        specialize (IH (w - 1) (x / 10) ltac:(lia) Hx' ltac:(lia)).
        cbv zeta in IH. destruct IH as (I1 & I2 & I3 & I4).
        split; [|split; [lia|split; assumption]].
        destruct I1 as [I1|I1]; [left; exact I1|lia].
    + split; [left; lia|]. split; [lia|]. split; [lia|left; lia].
Qed.

(** [u64log10 u] is the number of decimal digits of [u]: as many as
    [sfmtu64] writes in base 10, the [w] with [10^(w-1) <= u < 10^w] (and 1
    for 0). *)
Theorem u64log10_counts_digits u :
  0 <= u < 2^64 ->
  u64log10 u = Z.of_nat (length (sfmtu64 u 10)) /\
  1 <= u64log10 u <= 20 /\
  u < 10 ^ u64log10 u /\
  (u64log10 u = 1 \/ 10 ^ (u64log10 u - 1) <= u).
Proof.
  intros Hu.
  pose proof (u64log10_loop u 20 20 10000000000000000000 eq_refl eq_refl
                ltac:(lia)) as H.
  cbv zeta in H. change (_ 20%nat 20 10000000000000000000) with (u64log10 u) in H.
  destruct H as (H1 & H2 & H3 & H4).
  destruct H1 as [H1|H1]; [|discriminate].
  assert (Hlen : length (sfmtu64 u 10) = Z.to_nat (u64log10 u)).
  { unfold sfmtu64. cbv zeta. rewrite length_rev.
    change (Z.min (Z.max 10 2) 62) with 10.
    replace (Z.to_nat (u64log10 u)) with (S (Z.to_nat (u64log10 u - 1))) by lia.
    apply loop_length10.
    - lia.
    - replace (Z.of_nat (S (Z.to_nat (u64log10 u - 1)))) with (u64log10 u) by lia.
      lia.
    - destruct H4 as [H4|H4]; [left; lia|right].
      rewrite Z2Nat.id by lia. exact H4. }
  split; [rewrite Hlen; lia|]. split; [lia|]. split; [exact H3|].
  destruct H4 as [H4|H4]; [left; lia|right; exact H4].
Qed.

Lemma u64log10_counts_digits_witness :
  u64log10 1234 = 4 /\ u64log10 1234 = Z.of_nat (length (sfmtu64 1234 10)).
Proof.
  split; [reflexivity|].
  refine (proj1 (u64log10_counts_digits 1234 _)). lia.
Defined.


(** *** [select_int_type] *)

(** The type of an integer literal that is not negative, in the context of
    any of the types of [universe.c]: in the context of a sized integer
    type it is that type, and the overflow error is reported exactly when
    the value is above the largest value of the type; in any other context
    it is [int], [i64] or [u64], a type that holds the value, and no error
    is reported. *)
Theorem intlit_type_holds_value PREFIX ctxa ctxn v :
  node_at (static_nodes PREFIX) ctxa = Some ctxn ->
  0 <= v < 2^64 ->
  exists tyn,
    node_at (static_nodes PREFIX)
      (fst (select_int_type_core ctxa (n_kind ctxn) (n_isunsigned ctxn) v 0))
      = Some tyn /\
    (snd (select_int_type_core ctxa (n_kind ctxn) (n_isunsigned ctxn) v 0)
       = false <-> v <= IntSpec.int_max tyn) /\
    (if IntSpec.sized_int (n_kind ctxn)
     then fst (select_int_type_core ctxa (n_kind ctxn) (n_isunsigned ctxn) v 0)
          = ctxa
     else snd (select_int_type_core ctxa (n_kind ctxn) (n_isunsigned ctxn) v 0)
          = false).
Proof.
  intros Hn Hv. unfold node_at in Hn.
  destruct (Z.ltb_spec 0 ctxa) as [Hpos|]; [|discriminate].
  remember (Z.to_nat (ctxa - 1)) as i eqn:Hi.
  assert (Ha : ctxa = Z.of_nat i + 1) by lia. subst ctxa. clear Hi Hpos.
  do 18 (destruct i as [|i];
    [ cbn in Hn; injection Hn as <-;
      unfold select_int_type_core; cbn;
      repeat match goal with
      | |- context [v <=? ?w] => destruct (Z.leb_spec v w)
      | |- context [v >? ?w] => destruct (Z.gtb_spec v w)
      end;
      repeat match goal with
      | H : context [u64 ?e] |- _ =>
        let x := eval vm_compute in (u64 e) in change (u64 e) with x in H
      end;
      try (exfalso; lia);
      cbn; eexists; (split; [reflexivity|]);
      unfold IntSpec.int_max; cbn;
      repeat match goal with
      | |- context [2 ^ ?e] =>
        let x := eval vm_compute in (2 ^ e) in change (2 ^ e) with x
      end;
      (split; [split; [first [intros _; lia|discriminate]
                      |first [reflexivity|intros; lia]]
              |reflexivity])
    | ]).
  cbn in Hn. discriminate.
Qed.

Lemma intlit_type_holds_value_witness :
  select_int_type_core type_i8 TYPE_I8 false 200 0 = (type_i8, true) /\
  exists tyn,
    node_at (static_nodes Typeid.typeid_prefix)
      (fst (select_int_type_core type_i8 TYPE_I8 false 200 0)) = Some tyn /\
    (snd (select_int_type_core type_i8 TYPE_I8 false 200 0) = false <->
     200 <= IntSpec.int_max tyn).
Proof.
  split; [reflexivity|].
  destruct (intlit_type_holds_value Typeid.typeid_prefix type_i8
              (DEFTYPE Typeid.typeid_prefix TYPE_I8 NF_CHECKED 1 false) 200)
    as (tyn & H1 & H2 & _).
  - reflexivity.
  - lia.
  - exists tyn. split; [exact H1|exact H2].
Defined.


(** *** [fastforward] *)

Lemma tok_eqb_eq t t' : tok_eqb t t' = true -> t = t'.
Proof.
  unfold tok_eqb. intros H. apply Z.eqb_eq in H.
  destruct t; destruct t'; try reflexivity; discriminate H.
Qed.

Section Fastforward.
Variable kw : list (string * tok_t).
Variable stoplist : list tok_t.

Lemma fastforward_measure (fuel : nat) : forall p,
  0 <= inp (scanner p) <= inend (scanner p) ->
  2 * (inend (scanner p) - inp (scanner p))
    + Z.b2z (insertsemi (scanner p)) + 2 <= Z.of_nat fuel ->
  exists p', fastforward kw fuel stoplist p = Ok tt p' /\
    (tok (scanner p') = TEOF \/ tok_in (tok (scanner p')) stoplist = true) /\
    nodes p' = nodes p /\ scope p' = scope p /\
    input (scanner p') = input (scanner p) /\
    inp (scanner p) <= inp (scanner p') <= inend (scanner p) /\
    only_errors (compiler (scanner p)) (compiler (scanner p')).
Proof.
  induction fuel as [|fuel IH]; intros p Hwf Hm.
  - destruct (insertsemi (scanner p)); simpl in Hm; lia.
  - cbn [fastforward]. unfold bind at 1. unfold currtok at 1.
    destruct (tok_eqb (tok (scanner p)) TEOF) eqn:E1.
    { exists p. split; [reflexivity|]. apply tok_eqb_eq in E1.
      split; [left; exact E1|]. split_and!; try reflexivity; try lia.
      apply ScannerDiags.only_errors_refl. }
    destruct (tok_in (tok (scanner p)) stoplist) eqn:E2.
    { exists p. split; [reflexivity|].
      split; [right; exact E2|]. split_and!; try reflexivity; try lia.
      apply ScannerDiags.only_errors_refl. }
    unfold bind at 1. unfold next at 1, modify at 1.
    set (p1 := set_scanner (scanner_next kw (scanner p)) p).
    pose proof (ScanProgress.scanner_next_scanned kw (scanner p) Hwf) as Hs.
    pose proof (ScannerDiags.scanner_next_only_errors kw (scanner p)) as Hoe.
    pose proof (ScanProgress.scanned_measure _ _ (proj2 Hwf) Hs) as Hmu.
    destruct Hs as [(R1 & R2 & _) _].
    assert (Hend : inend (scanner p1) = inend (scanner p))
      by (unfold inend; subst p1; simpl; rewrite R1; reflexivity).
    assert (Hwf1 : 0 <= inp (scanner p1) <= inend (scanner p1)).
    { rewrite Hend. subst p1. unfold inend in *. simpl. lia. }
    assert (Hfinish : (exists p', fastforward kw fuel stoplist p1 = Ok tt p' /\
              (tok (scanner p') = TEOF \/
               tok_in (tok (scanner p')) stoplist = true) /\
              nodes p' = nodes p1 /\ scope p' = scope p1 /\
              input (scanner p') = input (scanner p1) /\
              inp (scanner p1) <= inp (scanner p') <= inend (scanner p1) /\
              only_errors (compiler (scanner p1)) (compiler (scanner p')))).
    { destruct Hmu as [Heof|Hlt].
      - destruct fuel as [|fuel'];
          [destruct (insertsemi (scanner p)); simpl in Hm; lia|].
        exists p1. cbn [fastforward]. unfold bind at 1. unfold currtok at 1.
        replace (tok (scanner p1)) with TEOF by (symmetry; exact Heof).
        split; [reflexivity|]. split; [left; reflexivity|].
        split_and!; try reflexivity; try lia.
        apply ScannerDiags.only_errors_refl.
      - apply IH; [exact Hwf1|]. rewrite Hend. subst p1.
        change (scanner (set_scanner (scanner_next kw (scanner p)) p))
          with (scanner_next kw (scanner p)).
        unfold inend in *. rewrite R1 in Hlt. lia. }
    destruct Hfinish as (p' & F1 & F2 & F3 & F4 & F5 & F6 & F7).
    exists p'. split; [exact F1|]. split; [exact F2|].
    split; [rewrite F3; reflexivity|]. split; [rewrite F4; reflexivity|].
    split; [rewrite F5; exact R1|]. split.
    + rewrite Hend in F6. subst p1. simpl in F6. unfold inend in *. lia.
    + eapply ScannerDiags.only_errors_trans; [exact Hoe|exact F7].
Qed.

(** [fastforward] comes to an end: with a bound on its turns of more than
    twice the input that is left plus two, it returns; then the current
    token is [EOF] or one of the stop list, which is not consumed; it has
    only moved the scanner forward and reported nothing but errors of the
    scanner. *)
Theorem fastforward_stops (fuel : nat) p :
  0 <= inp (scanner p) <= inend (scanner p) ->
  2 * (inend (scanner p) - inp (scanner p)) + 2 < Z.of_nat fuel ->
  exists p', fastforward kw fuel stoplist p = Ok tt p' /\
    (tok (scanner p') = TEOF \/ tok_in (tok (scanner p')) stoplist = true) /\
    nodes p' = nodes p /\ scope p' = scope p /\
    input (scanner p') = input (scanner p) /\
    inp (scanner p) <= inp (scanner p') <= inend (scanner p) /\
    only_errors (compiler (scanner p)) (compiler (scanner p')).
Proof.
  intros Hwf Hm. apply fastforward_measure; [exact Hwf|].
  destruct (insertsemi (scanner p)); simpl; lia.
Qed.

End Fastforward.


Lemma fastforward_stops_witness :
  exists p',
    fastforward keywordtab 20 [TSEMI]
      (set_scanner (scanner_next keywordtab (scanner_on "a b; c")) Run.parser0)
      = Ok tt p' /\
    (tok (scanner p') = TEOF \/ tok_in (tok (scanner p')) [TSEMI] = true).
Proof.
  destruct (fastforward_stops keywordtab [TSEMI] 20
              (set_scanner (scanner_next keywordtab (scanner_on "a b; c"))
                 Run.parser0))
    as (p' & H1 & H2 & _).
  - vm_compute. split; discriminate.
  - vm_compute. reflexivity.
  - exists p'. split; [exact H1|exact H2].
Defined.

(** *** [define] *)

Lemma error_same_nodes n m p p' :
  error n m p = Ok tt p' -> nodes p' = nodes p /\ scope p' = scope p.
Proof.
  unfold error. intros H.
  apply bind_inv in H as (eof & p0 & H0 & H).
  unfold at_eof in H0. injection H0 as _ <-.
  destruct eof; [injection H as <-; auto|].
  apply bind_inv in H as (r & p1 & H1 & H).
  assert (p1 = p) as ->.
  { unfold srcrange_of in H1. destruct (n =? 0).
    - apply bind_inv in H1 as (l & p2 & H2 & H1).
      unfold currloc in H2. injection H2 as _ <-. injection H1 as _ <-.
      reflexivity.
    - unfold node_srcrange in H1.
      apply bind_inv in H1 as (x & p2 & H2 & H1).
      unfold load in H2. destruct (node_at (nodes p) n); [|discriminate].
      injection H2 as _ <-.
      destruct (n_kind x); try (injection H1 as _ <-; reflexivity).
      destruct (n_name x); [injection H1 as _ <-; reflexivity|discriminate]. }
  unfold report, modify in H. injection H as <-. auto.
Qed.

(** In a scope that is not the top level, [define] binds a name that the
    current scope does not bind yet: the scope stack alone changes, a lookup
    of the name at any depth gives the node, and the answer for other keys
    is as before.  Defining the name again in that scope only reports the
    error of redefinition: the first binding stays. *)
Theorem define_then_redefine name n p :
  name <> sym__ -> n <> 0 ->
  scope_ok (scope p) -> Scope.base (scope p) <= Scope.len (scope p) ->
  Scope.scope_istoplevel (scope p) = false ->
  Scope.scope_lookup (scope p) (sym_addr name) 0 = Some 0 ->
  exists p1,
    define name n p = Ok tt p1 /\
    scanner p1 = scanner p /\ nodes p1 = nodes p /\ pkgdefs p1 = pkgdefs p /\
    (forall d, Scope.scope_lookup (scope p1) (sym_addr name) d = Some n) /\
    (forall k d, k <> sym_addr name ->
       Scope.scope_lookup (scope p1) k d = Scope.scope_lookup (scope p) k d) /\
    (forall m, define name m p1 = error m (MsgRedefinition name) p1) /\
    (forall m p2, define name m p1 = Ok tt p2 -> scope p2 = scope p1).
Proof.
  intros Hname Hn (Hwf & Hc1 & Hc2) Hbl Htop Hfree.
  destruct (ScopeZero.scope_def_zero (scope p) (sym_addr name) n Hwf Hc1
              ltac:(lia)) as (s1 & Hdef & _ & _ & _ & _).
  assert (Hneq : String.eqb name sym__ = false)
    by (apply String.eqb_neq; exact Hname).
  assert (Hstep : forall key d,
            Scope.scope_lookup s1 key d =
            if sym_addr name =? key then Some n
            else Scope.scope_lookup (scope p) key d).
  { intros key d.
    apply (ScopeLaws.lookup_def_step Scope.resize_zero
             ScopeProofs.resize_zero_ok (scope p)); assumption. }
  destruct (ScopeProofs.scope_def_spec Scope.resize_zero
              ScopeProofs.resize_zero_ok _ _ _ _ Hwf Hdef)
    as (_ & _ & Hbase & _).
  exists (set_scope s1 p).
  assert (Hlook : forall d,
            Scope.scope_lookup s1 (sym_addr name) d = Some n).
  { intros d. rewrite Hstep, Z.eqb_refl. reflexivity. }
  assert (Hagain : forall m,
            define name m (set_scope s1 p) =
            error m (MsgRedefinition name) (set_scope s1 p)).
  { intros m. unfold define. rewrite Hneq.
    erewrite bind_Ok
      by (unfold Parser.scope_lookup; cbn [scope set_scope];
          rewrite Hlook; reflexivity).
    destruct (Z.eqb_spec n 0); [contradiction|]. reflexivity. }
  split_and!.
  - unfold define. rewrite Hneq.
    erewrite bind_Ok
      by (unfold Parser.scope_lookup; rewrite Hfree; reflexivity).
    cbn [Z.eqb negb].
    erewrite bind_Ok by (unfold scope_define; rewrite Hdef; reflexivity).
    cbn [negb when]. erewrite bind_Ok by reflexivity.
    erewrite bind_Ok by reflexivity.
    unfold Scope.scope_istoplevel in *. cbn [scope set_scope].
    rewrite Hbase, Htop. reflexivity.
  - reflexivity.
  - reflexivity.
  - reflexivity.
  - exact Hlook.
  - intros k d Hk. cbn [scope set_scope]. rewrite Hstep.
    destruct (Z.eqb_spec (sym_addr name) k); [congruence|reflexivity].
  - exact Hagain.
  - intros m p2 H. rewrite Hagain in H.
    apply error_same_nodes in H as [_ H]. exact H.
Qed.


Lemma define_then_redefine_witness :
  exists p1,
    define "y" 19 ParserExample.in_scope = Ok tt p1 /\
    Scope.scope_lookup (scope p1) (sym_addr "y") 0 = Some 19 /\
    define "y" 20 p1 = error 20 (MsgRedefinition "y") p1.
Proof.
  destruct (define_then_redefine "y" 19 ParserExample.in_scope)
    as (p1 & H1 & _ & _ & _ & H2 & _ & H3 & _).
  - discriminate.
  - discriminate.
  - unfold scope_ok, Scope.wf, is_u32. simpl. lia.
  - simpl. lia.
  - reflexivity.
  - reflexivity.
  - exists p1. split; [exact H1|]. split; [exact (H2 0)|exact (H3 20)].
Defined.


(** *** [expect2] *)

Lemma unexpected_run errmsg p :
  exists c',
    unexpected errmsg p =
      Ok tt (set_scanner (set_compiler c' (scanner p)) p) /\
    only_errors (compiler (scanner p)) c'.
Proof.
  unfold unexpected, currtok, currlit, error, at_eof.
  unfold bind at 1. unfold bind at 1. unfold bind at 1.
  destruct ((inp (scanner p) =? inend (scanner p))
            && tok_eqb (tok (scanner p)) TEOF).
  - exists (compiler (scanner p)). split.
    + unfold ret. f_equal. destruct p as [s sc pk mm tc tcs dc dcs fn nd].
      destruct s. reflexivity.
    + apply ScannerDiags.only_errors_refl.
  - unfold srcrange_of. cbn [Z.eqb]. unfold bind, currloc, ret, report, modify.
    eexists. split; [reflexivity|]. apply ScannerDiags.only_errors_report.
Qed.

(** [expect2] always returns, given a bound on the turns of [fastforward]
    above twice the input that is left plus two.  It returns whether the
    current token is the expected one.  If it is, that token alone is
    consumed.  If it is not, nothing but errors is reported and the scanner
    is only moved forward.  The nodes and the scopes are left alone. *)
Theorem expect2_recovers kw (fuel : nat) t0 errmsg p :
  0 <= inp (scanner p) <= inend (scanner p) ->
  2 * (inend (scanner p) - inp (scanner p)) + 2 < Z.of_nat fuel ->
  exists p',
    expect2 kw fuel t0 errmsg p = Ok (tok_eqb (tok (scanner p)) t0) p' /\
    nodes p' = nodes p /\ scope p' = scope p /\
    (tok_eqb (tok (scanner p)) t0 = true ->
     p' = set_scanner (scanner_next kw (scanner p)) p) /\
    (tok_eqb (tok (scanner p)) t0 = false ->
     only_errors (compiler (scanner p)) (compiler (scanner p')) /\
     input (scanner p') = input (scanner p) /\
     inp (scanner p) <= inp (scanner p') <= inend (scanner p)).
Proof.
  intros Hwf Hm. unfold expect2. unfold bind at 1. unfold currtok at 1.
  destruct (tok_eqb (tok (scanner p)) t0) eqn:E.
  - eexists. split; [reflexivity|]. cbn [nodes scope set_scanner].
    split; [reflexivity|]. split; [reflexivity|].
    split; [reflexivity|discriminate].
  - destruct (unexpected_run errmsg p) as (c' & Hu & Hoe).
    rewrite (bind_Ok _ _ _ _ _ Hu).
    set (p1 := set_scanner (set_compiler c' (scanner p)) p) in *.
    destruct (fastforward_measure kw [t0; TSEMI] fuel p1)
      as (q & F1 & F2 & F3 & F4 & F5 & F6 & F7).
    { subst p1. unfold inend in *. simpl. exact Hwf. }
    { subst p1. unfold inend in *. simpl.
      destruct (insertsemi (scanner p)); simpl; lia. }
    rewrite (bind_Ok _ _ _ _ _ F1).
    unfold bind at 1. unfold currtok at 1.
    assert (Hq : nodes q = nodes p /\ scope q = scope p /\
                 input (scanner q) = input (scanner p) /\
                 inp (scanner p) <= inp (scanner q) <= inend (scanner p) /\
                 only_errors (compiler (scanner p)) (compiler (scanner q))).
    { subst p1. unfold inend in *. simpl in *.
      split; [exact F3|]. split; [exact F4|]. split; [exact F5|].
      split; [exact F6|].
      eapply ScannerDiags.only_errors_trans; eassumption. }
    destruct Hq as (Q1 & Q2 & Q3 & Q4 & Q5).
    destruct (tok_eqb (tok (scanner q)) t0).
    + cbn [when]. unfold bind, next, modify, ret.
      eexists. split; [reflexivity|]. cbn [nodes scope scanner set_scanner].
      split; [exact Q1|]. split; [exact Q2|]. split; [discriminate|].
      intros _.
      assert (Hwfq : 0 <= inp (scanner q) <= inend (scanner q))
        by (unfold inend in *; rewrite Q3; lia).
      pose proof (ScanProgress.scanner_next_scanned kw (scanner q) Hwfq)
        as [(R1 & R2 & _) _].
      split; [|split].
      * eapply ScannerDiags.only_errors_trans; [exact Q5|].
        apply ScannerDiags.scanner_next_only_errors.
      * rewrite R1. exact Q3.
      * unfold inend in *. rewrite Q3 in R2. lia.
    + cbn [when]. unfold bind, ret.
      eexists. split; [reflexivity|].
      split; [exact Q1|]. split; [exact Q2|]. split; [discriminate|].
      intros _. split; [exact Q5|]. split; [exact Q3|exact Q4].
Qed.

Lemma expect2_recovers_witness :
  exists p',
    expect2 keywordtab 20 TRPAREN "to end"
      (set_scanner (scanner_next keywordtab (scanner_on "a b) c")) Run.parser0)
      = Ok false p' /\
    nodes p' = nodes Run.parser0.
Proof.
  destruct (expect2_recovers keywordtab 20 TRPAREN "to end"
              (set_scanner (scanner_next keywordtab (scanner_on "a b) c"))
                 Run.parser0))
    as (p' & H1 & H2 & _).
  - vm_compute. split; discriminate.
  - vm_compute. reflexivity.
  - exists p'. split; [exact H1|exact H2].
Defined.

End ParserLaws.

(** ** Type ids: signatures of functions, and ids computed once *)

Module TypeidLaws.
Import Ast Scanner Typeid Props TypeidSpec.

Section Sig.
Variable PREFIX : nodekind_t -> Z.

Lemma append_has_tid fuel buf a nodes tn :
  node_at nodes a = Some tn -> n_tid tn <> None ->
  append PREFIX (S fuel) buf a nodes = Ok (buf ++ tid_bytes tn) nodes.
Proof.
  intros Hn Ht. cbn [append]. unfold append_body.
  erewrite bind_Ok by (unfold load; rewrite Hn; reflexivity).
  unfold tid_bytes. destruct (n_tid tn) as [tid|]; [|contradiction].
  destruct (type_isprim tn); reflexivity.
Qed.

Lemma append_types_have_tid fuel nodes ls ptypes :
  Forall2 (param_typed nodes) ls ptypes ->
  forall buf,
  append_types (append PREFIX (S fuel)) buf ls nodes =
  Ok (buf ++ concat (List.map tid_bytes ptypes)) nodes.
Proof.
  induction 1 as [|l tn ls pts Hp Hrest IH]; intros buf.
  - simpl. rewrite app_nil_r. reflexivity.
  - destruct Hp as (pn & Hl & Ht & Hid).
    cbn [append_types].
    erewrite bind_Ok by (unfold load; rewrite Hl; reflexivity).
    erewrite bind_Ok by (apply append_has_tid; eassumption).
    rewrite IH. simpl. rewrite <- app_assoc. reflexivity.
Qed.

(** The id of a function type whose parameter types and result type have
    their ids: [append] writes the prefix of function types, the number of
    parameters, then for each parameter what stands for its type, then what
    stands for the result type; it stores the interned signature in the
    node and changes nothing else. *)
Theorem funtype_typeid_signature fuel buf ta nodes t ptypes res :
  node_at nodes ta = Some t ->
  n_kind t = TYPE_FUN -> n_tid t = None ->
  Forall2 (param_typed nodes) (n_params t) ptypes ->
  node_at nodes (n_result t) = Some res -> n_tid res <> None ->
  append PREFIX (S (S fuel)) buf ta nodes =
    Ok (buf ++ fun_sig PREFIX ptypes res)
       (node_put nodes ta
          (set_n_tid (Some (sym_intern (fun_sig PREFIX ptypes res))) t)).
Proof.
  intros Hn Hk Ht Hps Hr Hrt.
  cbn [append]. unfold append_body at 1.
  erewrite bind_Ok by (unfold load; rewrite Hn; reflexivity).
  unfold type_isprim. rewrite Hk.
  change (nodekind_isprimtype TYPE_FUN) with false. cbv iota.
  rewrite Ht. cbv beta iota.
  erewrite bind_Ok.
  2:{ unfold funtype.
      erewrite bind_Ok by (apply append_types_have_tid; exact Hps).
      apply append_has_tid; eassumption. }
  erewrite bind_Ok by (unfold load; rewrite Hn; reflexivity).
  rewrite Ht. cbv beta iota.
  erewrite bind_Ok by (unfold store; rewrite Hn; reflexivity).
  unfold ret.
  assert (Hlen : length (n_params t) = length ptypes)
    by (eapply Forall2_length; exact Hps).
  rewrite Hlen.
  rewrite (TypeidProofs.write_u32_app (buf ++ _)).
  unfold fun_sig. rewrite <- !app_assoc.
  rewrite drop_app_length. reflexivity.
Qed.

End Sig.


Lemma funtype_typeid_signature_witness :
  append typeid_prefix 2 [] 21 TypeidExample.fun_heap =
    Ok (bytes_of_string "F2;444")
       (node_put TypeidExample.fun_heap 21
          (set_n_tid (Some "F2;444"%string)
             (TypeidExample.fun_node [19; 20] type_i32))).
Proof.
  set (i32 := DEFTYPE typeid_prefix TYPE_I32 NF_CHECKED 4 false).
  refine (funtype_typeid_signature typeid_prefix 0 [] 21
            TypeidExample.fun_heap (TypeidExample.fun_node [19; 20] type_i32)
            [i32; i32] i32 _ _ _ _ _ _).
  - reflexivity.
  - reflexivity.
  - reflexivity.
  - repeat constructor;
      (exists Props.param_i32; split; [reflexivity|]; split;
         [reflexivity|discriminate]).
  - reflexivity.
  - discriminate.
Defined.

(** *** Ids are computed once *)

Lemma tids_added_refl nodes : tids_added nodes nodes.
Proof. split; [reflexivity|]. intros i n H. exists n. auto. Qed.

Lemma tids_added_trans n1 n2 n3 :
  tids_added n1 n2 -> tids_added n2 n3 -> tids_added n1 n3.
Proof.
  intros [L1 H1] [L2 H2]. split; [congruence|].
  intros i n Hn. destruct (H1 i n Hn) as (n' & Hn' & C1).
  destruct (H2 i n' Hn') as (n'' & Hn'' & C2).
  exists n''. split; [exact Hn''|].
  destruct C1 as [->|(Hnone & x & ->)]; [exact C2|].
  destruct C2 as [->|(Hnone' & y & ->)].
  - right. split; [exact Hnone|]. exists x. reflexivity.
  - discriminate Hnone'.
Qed.

Lemma tids_added_put nodes a t x :
  node_at nodes a = Some t -> n_tid t = None ->
  tids_added nodes (node_put nodes a (set_n_tid (Some x) t)).
Proof.
  intros Hn Ht. split; [apply IfProofs.length_node_put|].
  intros i n Hi. unfold node_at in Hn.
  destruct (0 <? a); [|discriminate]. unfold node_put.
  destruct (decide (i = Z.to_nat (a - 1))) as [->|Hne].
  - rewrite Hn in Hi. injection Hi as <-.
    eexists. split.
    + apply list_lookup_insert_eq. eapply lookup_lt_Some. exact Hn.
    + right. split; [exact Ht|]. exists x. reflexivity.
  - exists n. split; [|left; reflexivity].
    rewrite list_lookup_insert_ne by congruence. exact Hi.
Qed.

Lemma tids_added_node nodes nodes' a t :
  tids_added nodes nodes' -> node_at nodes a = Some t ->
  exists t', node_at nodes' a = Some t' /\
    (t' = t \/ (n_tid t = None /\ exists x, t' = set_n_tid (Some x) t)).
Proof.
  intros [_ H] Hn. unfold node_at in *.
  destruct (0 <? a); [|discriminate]. apply H. exact Hn.
Qed.

Section Once.
Variable PREFIX : nodekind_t -> Z.

Section Body.
Variable app : list Z -> Z -> T (list Z).
Hypothesis Happ : forall buf a nodes buf' nodes',
  app buf a nodes = Ok buf' nodes' -> settled nodes a nodes'.

Lemma append_types_added : forall ls buf nodes buf' nodes',
  append_types app buf ls nodes = Ok buf' nodes' -> tids_added nodes nodes'.
Proof using Happ.
  induction ls as [|l ls IH]; intros buf nodes buf' nodes' H.
  - injection H as _ <-. apply tids_added_refl.
  - cbn [append_types] in H.
    apply bind_inv in H as (n & nodes1 & H1 & H).
    unfold load in H1. destruct (node_at nodes l); [|discriminate].
    injection H1 as _ <-.
    apply bind_inv in H as (buf1 & nodes2 & H2 & H).
    apply Happ in H2 as [H2 _]. apply IH in H.
    eapply tids_added_trans; eassumption.
Qed.

Lemma append_body_settled buf ta nodes buf' nodes' :
  append_body PREFIX app buf ta nodes = Ok buf' nodes' ->
  settled nodes ta nodes'.
Proof using Happ.
  unfold append_body. intros H.
  apply bind_inv in H as (t & nodes0 & H0 & H).
  unfold load in H0. destruct (node_at nodes ta) as [t0|] eqn:Hn; [|discriminate].
  injection H0 as -> <-.
  assert (Hsame : n_tid t <> None -> settled nodes ta nodes).
  { intros Ht. split; [apply tids_added_refl|]. exists t. auto. }
  destruct (type_isprim t).
  { destruct (n_tid t) as [tid|] eqn:Ht; [|discriminate].
    injection H as _ <-. apply Hsame. discriminate. }
  destruct (n_tid t) as [tid|] eqn:Ht.
  { injection H as _ <-. apply Hsame. discriminate. }
  apply bind_inv in H as (buf1 & nodes1 & H1 & H).
  assert (Hadd : tids_added nodes nodes1).
  { assert (Hret : forall b, ret (S := list node_t) b nodes = Ok buf1 nodes1 ->
              tids_added nodes nodes1)
      by (intros b [= _ <-]; apply tids_added_refl).
    assert (Hone : forall b a, app b a nodes = Ok buf1 nodes1 ->
              tids_added nodes nodes1)
      by (intros b a Ha; apply Happ in Ha as [Ha _]; exact Ha).
    destruct (n_kind t); try (eapply Hret; exact H1);
      try (eapply Hone; exact H1).
    - (* function *) unfold funtype in H1.
      apply bind_inv in H1 as (b2 & nodes2 & H2 & H3).
      apply append_types_added in H2. apply Happ in H3 as [H3 _].
      eapply tids_added_trans; eassumption.
    - (* struct *) unfold structtype in H1.
      eapply append_types_added; exact H1.
    - (* alias *) unfold aliastype in H1.
      destruct (n_name t); [|discriminate]. eapply Hret; exact H1. }
  apply bind_inv in H as (t1 & nodes1' & H2 & H).
  unfold load in H2.
  destruct (node_at nodes1 ta) as [t1'|] eqn:Hn1; [|discriminate].
  injection H2 as -> <-.
  destruct (n_tid t1) as [tid1|] eqn:Ht1.
  - injection H as _ <-. split; [exact Hadd|]. exists t1.
    split; [exact Hn1|]. congruence.
  - apply bind_inv in H as ([] & nodes2 & H3 & H).
    unfold store in H3. rewrite Hn1 in H3. injection H3 as <-.
    injection H as _ <-. split.
    + eapply tids_added_trans; [exact Hadd|].
      apply tids_added_put; assumption.
    + eexists. split; [eapply IfProofs.node_at_put_eq; exact Hn1|].
      discriminate.
Qed.

End Body.

Lemma append_settled fuel : forall buf ta nodes buf' nodes',
  append PREFIX fuel buf ta nodes = Ok buf' nodes' -> settled nodes ta nodes'.
Proof.
  induction fuel as [|fuel IH]; intros buf ta nodes buf' nodes' H;
    [discriminate|].
  cbn [append] in H. eapply append_body_settled; [exact IH|exact H].
Qed.

(** [_typeid] computes the id of a type once: when it returns, the type has
    the id that was returned, the call has changed nothing but ids that
    were not set, and every later call returns the same id and changes
    nothing, with no recursion left to do. *)
Theorem typeid_computed_once fuel ta nodes tid nodes' :
  _typeid PREFIX fuel ta nodes = Ok tid nodes' ->
  (exists t', node_at nodes' ta = Some t' /\ n_tid t' = Some tid) /\
  tids_added nodes nodes' /\
  forall fuel', _typeid PREFIX fuel' ta nodes' = Ok tid nodes'.
Proof.
  unfold _typeid. intros H.
  apply bind_inv in H as (t & nodes0 & H0 & H).
  unfold load in H0. destruct (node_at nodes ta) as [t0|] eqn:Hn; [|discriminate].
  injection H0 as -> <-.
  assert (Hagain : forall nodes1 t1, node_at nodes1 ta = Some t1 ->
            n_tid t1 = Some tid ->
            forall fuel',
              (t <- load ta ;;
               match n_tid t with
               | Some tid => ret tid
               | None =>
                 append PREFIX fuel' [] ta ;;
                 t <- load ta ;;
                 match n_tid t with
                 | Some tid => ret tid
                 | None => fault
                 end
               end) nodes1 = Ok tid nodes1).
  { intros nodes1 t1 Hn1 Ht1 fuel'.
    erewrite bind_Ok by (unfold load; rewrite Hn1; reflexivity).
    rewrite Ht1. reflexivity. }
  destruct (n_tid t) as [tid0|] eqn:Ht.
  - injection H as <- <-.
    split; [exists t; split; assumption|].
    split; [apply tids_added_refl|]. eapply Hagain; eassumption.
  - apply bind_inv in H as (buf1 & nodes1 & H1 & H).
    apply append_settled in H1 as [Hadd _].
    apply bind_inv in H as (t1 & nodes1' & H2 & H).
    unfold load in H2.
    destruct (node_at nodes1 ta) as [t1'|] eqn:Hn1; [|discriminate].
    injection H2 as -> <-.
    destruct (n_tid t1) as [tid1|] eqn:Ht1; [|discriminate].
    injection H as <- <-.
    split; [exists t1; split; assumption|].
    split; [exact Hadd|]. eapply Hagain; eassumption.
Qed.

End Once.

Lemma typeid_computed_once_witness :
  exists nodes',
    _typeid typeid_prefix 3 21 TypeidExample.fun_heap
      = Ok "F2;444"%string nodes' /\
    tids_added TypeidExample.fun_heap nodes' /\
    _typeid typeid_prefix 0 21 nodes' = Ok "F2;444"%string nodes'.
Proof.
  eexists. split; [vm_compute; reflexivity|].
  match goal with
  | |- tids_added _ ?n /\ _ =>
    pose proof (typeid_computed_once typeid_prefix 3 21
                  TypeidExample.fun_heap "F2;444"%string n) as H
  end.
  destruct H as (_ & H2 & H3); [vm_compute; reflexivity|].
  split; [exact H2|exact (H3 O)].
Defined.

End TypeidLaws.
